(** * Annotation-to-text reconciliation in [scripts/tei_convertor_final.py]

    A shallow embedding of the label compiler ([create_label_regex]), the
    splicers ([add_comment], [add_critical]), the placement drivers
    ([add_comments], [add_critical_apparatus]) and the reading-side witness
    reconciler ([extract_witnesses_right]), with the properties the
    specification states about them.

    Python values are modelled as follows.
    - [str] is a list of Unicode code points ([pystr]); tags and attribute
      names, which are ASCII constants of the program, are Rocq strings.
    - The Unicode tables of the interpreter and the third-party [unidecode]
      function are an interface ([Unicode]); [ascii_text] is the instance
      that is exact on ASCII text.
    - [re] is a backtracking matcher over the constructs the program uses.
    - An lxml element is a record with an identity, and a paragraph is the
      list of its child elements, each carrying its own tail text. *)

From stdpp Require Import base numbers list gmap strings pretty.
From Stdlib Require Import Ascii Permutation Sorted.

Open Scope nat_scope.

(** ** Python strings *)

Definition char := N.
Definition pystr := list char.

(** A Rocq string literal read as ASCII code points. *)
Definition lit (s : string) : pystr :=
  map N_of_ascii (String.list_ascii_of_string s).

Definition char_eqb (a b : char) : bool := N.eqb a b.

Fixpoint str_eqb (a b : pystr) : bool :=
  match a, b with
  | [], [] => true
  | x :: a', y :: b' => char_eqb x y && str_eqb a' b'
  | _, _ => false
  end.

Lemma str_eqb_eq a b : str_eqb a b = true <-> a = b.
Proof.
  revert b; induction a as [|x a IH]; intros [|y b]; simpl; try (split; congruence).
  rewrite andb_true_iff, IH. unfold char_eqb. rewrite N.eqb_eq.
  split; [intros [-> ->]; reflexivity | intros [= -> ->]; auto].
Qed.

Lemma str_eqb_refl a : str_eqb a a = true.
Proof. apply str_eqb_eq; reflexivity. Qed.

(** [s.startswith(p)] *)
Fixpoint startswith (p s : pystr) : bool :=
  match p, s with
  | [], _ => true
  | x :: p', y :: s' => char_eqb x y && startswith p' s'
  | _ :: _, [] => false
  end.

(** [p in s] for strings: [p] occurs in [s] as a substring. *)
Fixpoint contains (p s : pystr) : bool :=
  startswith p s ||
  match s with
  | [] => false
  | _ :: s' => contains p s'
  end.

(** [s.replace(old, new)] for a non-empty [old]: non-overlapping occurrences,
    left to right. *)
Fixpoint replace_fuel (fuel : nat) (old new s : pystr) : pystr :=
  match fuel with
  | O => s
  | S fuel' =>
      match s with
      | [] => []
      | c :: s' =>
          if startswith old s
          then new ++ replace_fuel fuel' old new (drop (length old) s)
          else c :: replace_fuel fuel' old new s'
      end
  end.

Definition replace (old new s : pystr) : pystr :=
  replace_fuel (S (length s)) old new s.

(** Slices [s[:i]], [s[i:j]] and [s[j:]] for non-negative bounds. *)
Definition slice_to (i : nat) (s : pystr) : pystr := take i s.
Definition slice (i j : nat) (s : pystr) : pystr := take (j - i) (drop i s).
Definition slice_from (j : nat) (s : pystr) : pystr := drop j s.

(** [sep.join(parts)] *)
Fixpoint join (sep : pystr) (parts : list pystr) : pystr :=
  match parts with
  | [] => []
  | [p] => p
  | p :: rest => p ++ sep ++ join sep rest
  end.

(** ** The Unicode tables and [unidecode] *)

Record Unicode := {
  unidecode : pystr -> pystr;   (* unidecode.unidecode *)
  isalnum : char -> bool;       (* str.isalnum, one character *)
  isdigit : char -> bool;       (* the class \d *)
  isspace : char -> bool;       (* str.isspace, one character *)
  digitval : char -> Z;         (* the value int() gives a decimal digit *)
  lower : char -> char          (* case folding of re.IGNORECASE *)
}.

Definition in_range (lo hi c : N) : bool := (lo <=? c)%N && (c <=? hi)%N.

Definition ascii_text : Unicode := {|
  unidecode := fun s => s;
  isalnum := fun c => in_range 48 57 c || in_range 65 90 c || in_range 97 122 c;
  isdigit := fun c => in_range 48 57 c;
  isspace := fun c => in_range 9 13 c || in_range 28 32 c;
  digitval := fun c => (Z.of_N c - 48)%Z;
  lower := fun c => if in_range 65 90 c then (c + 32)%N else c
|}.

Section Text.
Context (U : Unicode).

(** The class [\w]. *)
Definition is_word (c : char) : bool := isalnum U c || char_eqb c 95%N.

Fixpoint lstrip (s : pystr) : pystr :=
  match s with
  | c :: s' => if isspace U c then lstrip s' else s
  | [] => []
  end.

Definition rstrip (s : pystr) : pystr := rev (lstrip (rev s)).

(** [s.strip()] *)
Definition strip (s : pystr) : pystr := rstrip (lstrip s).

(** ** Regular expressions

    The constructs of Python's [re] that the program uses, matched by
    backtracking in the priority order of [re]: alternatives left to right,
    greedy repetition longest first, lazy repetition shortest first. *)

Inductive cset :=
| CAny                    (* .   any character but a newline *)
| CLit (c : char)         (* a literal character *)
| CSet (cs : list char)   (* [...] of literal characters *)
| CWord                   (* \w *)
| CDigit.                 (* \d *)

Inductive regex :=
| Eps
| Chr (cs : cset)
| Seq (a b : regex)
| Alt (a b : regex)
| Star (greedy : bool) (a : regex)   (* a* and a*? *)
| Bnd                                (* \b *)
| Bol                                (* ^ *)
| Eol                                (* $ *)
| Behind (cs : cset)                 (* (?<=c) for a one-character class *)
| Grp (i : nat) (a : regex).         (* the i-th capturing group *)

(** [a?], [a{n,}] and a literal string. *)
Definition Opt (a : regex) : regex := Alt a Eps.

Fixpoint AtLeast (n : nat) (a : regex) : regex :=
  match n with
  | O => Star true a
  | S n' => Seq a (AtLeast n' a)
  end.

Fixpoint Lits (s : pystr) : regex :=
  match s with
  | [] => Eps
  | [c] => Chr (CLit c)
  | c :: s' => Seq (Chr (CLit c)) (Lits s')
  end.

(** The matcher's position in the subject: the offset, the character before
    it, the text from it on, and the groups captured so far. *)
Record mstate := {
  m_pos : nat;
  m_prev : option char;
  m_rest : pystr;
  m_caps : list (nat * (nat * nat))
}.

Definition m_advance (c : char) (t : pystr) (s : mstate) : mstate :=
  {| m_pos := S (m_pos s); m_prev := Some c; m_rest := t; m_caps := m_caps s |}.

Definition m_capture (i from : nat) (s : mstate) : mstate :=
  {| m_pos := m_pos s; m_prev := m_prev s; m_rest := m_rest s;
     m_caps := (i, (from, m_pos s)) :: m_caps s |}.

Definition cset_mem (icase : bool) (cs : cset) (c : char) : bool :=
  match cs with
  | CAny => negb (char_eqb c 10%N)
  | CLit d => if icase then char_eqb (lower U c) (lower U d) else char_eqb c d
  | CSet ds =>
      existsb (fun d => if icase then char_eqb (lower U c) (lower U d)
                        else char_eqb c d) ds
  | CWord => is_word c
  | CDigit => isdigit U c
  end.

Definition word_opt (o : option char) : bool :=
  match o with Some c => is_word c | None => false end.

Definition at_boundary (s : mstate) : bool :=
  xorb (word_opt (m_prev s)) (word_opt (head (m_rest s))).

Definition or_else {A} (x y : option A) : option A :=
  match x with Some _ => x | None => y end.

(** Repetition of [body]: at most [n] rounds, each of which must consume a
    character; a greedy repetition tries one more round first, a lazy one
    tries what follows first. *)
Fixpoint star_loop (body : (mstate -> option mstate) -> mstate -> option mstate)
    (greedy : bool) (k : mstate -> option mstate) (n : nat) (s : mstate)
    {struct n} : option mstate :=
  match n with
  | O => k s
  | S n' =>
      let more :=
        body (fun s' => if length (m_rest s') <? length (m_rest s)
                        then star_loop body greedy k n' s' else None) s in
      if greedy then or_else more (k s) else or_else (k s) more
  end.

Fixpoint rmatch (icase : bool) (r : regex) (k : mstate -> option mstate)
    (s : mstate) {struct r} : option mstate :=
  match r with
  | Eps => k s
  | Chr cs =>
      match m_rest s with
      | c :: t => if cset_mem icase cs c then k (m_advance c t s) else None
      | [] => None
      end
  | Seq a b => rmatch icase a (rmatch icase b k) s
  | Alt a b => or_else (rmatch icase a k s) (rmatch icase b k s)
  | Star greedy a => star_loop (rmatch icase a) greedy k (length (m_rest s)) s
  | Bnd => if at_boundary s then k s else None
  | Bol => match m_prev s with None => k s | Some _ => None end
  | Eol =>
      match m_rest s with
      | [] => k s
      | [c] => if char_eqb c 10%N then k s else None
      | _ => None
      end
  | Behind cs =>
      match m_prev s with
      | Some c => if cset_mem icase cs c then k s else None
      | None => None
      end
  | Grp i a => rmatch icase a (fun s' => k (m_capture i (m_pos s) s')) s
  end.

(** A compiled pattern: the expression and whether [re.I] was given. *)
Record pattern := { p_icase : bool; p_re : regex }.

(** A match object: [start()], [end()] and the captured groups. *)
Record rematch := { mstart : nat; mend : nat; mgroups : list (nat * (nat * nat)) }.

Definition match_at (p : pattern) (s : mstate) : option rematch :=
  match rmatch (p_icase p) (p_re p) Some s with
  | Some e => Some {| mstart := m_pos s; mend := m_pos e; mgroups := m_caps e |}
  | None => None
  end.

Fixpoint search_from (p : pattern) (pos : nat) (prev : option char)
    (rest : pystr) : option rematch :=
  let s := {| m_pos := pos; m_prev := prev; m_rest := rest; m_caps := [] |} in
  match match_at p s with
  | Some m => Some m
  | None =>
      match rest with
      | [] => None
      | c :: t => search_from p (S pos) (Some c) t
      end
  end.

(** [p.search(text)] and [p.match(text)] *)
Definition re_search (p : pattern) (text : pystr) : option rematch :=
  search_from p 0 None text.

Definition re_match (p : pattern) (text : pystr) : option rematch :=
  match_at p {| m_pos := 0; m_prev := None; m_rest := text; m_caps := [] |}.

(** [m.group(i)] on the subject [text]; a group that took no part is [None]. *)
Definition group (text : pystr) (m : rematch) (i : nat) : option pystr :=
  match i with
  | O => Some (slice (mstart m) (mend m) text)
  | _ =>
      match List.find (fun e => Nat.eqb (fst e) i) (mgroups m) with
      | Some (_, (a, b)) => Some (slice a b text)
      | None => None
      end
  end.

Definition is_match (m : option rematch) : bool :=
  match m with Some _ => true | None => false end.

Definition group_str (text : pystr) (m : rematch) (i : nat) : pystr :=
  default [] (group text m i).

(** The state reached after the first [n] characters of [text]. *)
Definition last_opt (s : pystr) : option char := last s.

(** [re.sub(p, repl, text)], the replacement given as a function of the
    match.  Matches are taken left to right without overlap; an empty match
    is replaced and the scan moves one character on. *)
Fixpoint sub_fuel (fuel : nat) (p : pattern) (repl : pystr -> rematch -> pystr)
    (text : pystr) (pos : nat) : pystr :=
  match fuel with
  | O => drop pos text
  | S fuel' =>
      match search_from p pos (last_opt (take pos text)) (drop pos text) with
      | None => drop pos text
      | Some m =>
          slice pos (mstart m) text ++ repl text m ++
          (if mend m <=? mstart m
           then slice (mend m) (S (mend m)) text ++
                (if length text <=? mend m then []
                 else sub_fuel fuel' p repl text (S (mend m)))
           else sub_fuel fuel' p repl text (mend m))
      end
  end.

Definition re_sub (p : pattern) (repl : pystr -> rematch -> pystr)
    (text : pystr) : pystr :=
  sub_fuel (S (length text)) p repl text 0.

(** [re.split(p, text)] for a pattern with no empty match: the pieces
    between the matches, each followed by the text of group 1 when the
    pattern has a capturing group ([grouped]). *)
Fixpoint split_fuel (fuel : nat) (grouped : bool) (p : pattern) (text : pystr)
    (pos : nat) : list pystr :=
  match fuel with
  | O => [drop pos text]
  | S fuel' =>
      match search_from p pos (last_opt (take pos text)) (drop pos text) with
      | None => [drop pos text]
      | Some m =>
          if mend m <=? mstart m then [drop pos text]
          else slice pos (mstart m) text ::
               (if grouped then [group_str text m 1] else []) ++
               split_fuel fuel' grouped p text (mend m)
      end
  end.

Definition re_split (p : pattern) (text : pystr) : list pystr :=
  split_fuel (S (length text)) true p text 0.

Definition re_split_plain (p : pattern) (text : pystr) : list pystr :=
  split_fuel (S (length text)) false p text 0.

(** [re.compile] on the syntax [create_label_regex] emits: the joiner (zero
    or more spaces or original page-break tokens), the two optional classes,
    the lazy wildcard, [\b], an escaped punctuation character and a plain
    character.  [None] stands for a pattern outside this syntax. *)
Definition joiner : pystr := lit "(?: |\|?<PO_\d+>)*".

Definition joiner_re : regex :=
  Star true
    (Alt (Chr (CLit 32%N))
         (Seq (Opt (Chr (CLit 124%N)))
              (Seq (Lits (lit "<PO_"))
                   (Seq (AtLeast 1 (Chr CDigit)) (Chr (CLit 62%N)))))).

(** The optional opening quote (a low-9 or a straight double quote in
    square brackets, then a question mark) and the optional closing
    punctuation mark [[,.:;?!]?], as pattern text. *)
Definition quote_opt : pystr := [91; 8222; 34; 93; 63]%N.
Definition punct_opt : pystr := lit "[,.:;?!]?".

Definition quote_opt_re : regex := Opt (Chr (CSet [8222; 34]%N)).
Definition punct_opt_re : regex := Opt (Chr (CSet (lit ",.:;?!"))).

Definition wildcard : pystr := lit ".*?".
Definition wildcard_re : regex := Star false (Chr CAny).

Definition is_meta (c : char) : bool :=
  existsb (char_eqb c) (lit ".^$*+?{}[]|()\").

Definition ascii_alnum (c : char) : bool :=
  in_range 48 57 c || in_range 65 90 c || in_range 97 122 c.

Fixpoint parse_fuel (fuel : nat) (s : pystr) : option (list regex) :=
  match fuel with
  | O => None
  | S fuel' =>
      let next (n : nat) (r : regex) :=
        option_map (cons r) (parse_fuel fuel' (drop n s)) in
      match s with
      | [] => Some []
      | c :: t =>
          if startswith joiner s then next (length joiner) joiner_re
          else if startswith quote_opt s then next (length quote_opt) quote_opt_re
          else if startswith punct_opt s then next (length punct_opt) punct_opt_re
          else if startswith wildcard s then next (length wildcard) wildcard_re
          else if char_eqb c 92%N then
            match t with
            | d :: _ =>
                if char_eqb d 98%N then next 2 Bnd
                else if ascii_alnum d then None
                else next 2 (Chr (CLit d))
            | [] => None
            end
          else if is_meta c then None
          else next 1 (Chr (CLit c))
      end
  end.

Definition re_compile (icase : bool) (s : pystr) : option pattern :=
  match parse_fuel (S (length s)) s with
  | Some items => Some {| p_icase := icase; p_re := foldr Seq Eps items |}
  | None => None
  end.

(** [re.escape] of one character (Python 3.7 and later). *)
Definition re_escape (c : char) : pystr :=
  if existsb (char_eqb c) (lit "()[]{}?*+-|^$\.&~# " ++ [9; 10; 13; 11; 12]%N)
  then [92%N; c] else [c].

(** ** [strip_accents] *)

Definition ignore_list : pystr :=
  [8222; 8220; 167; 8224; 8212; 8212; 8016; 964; 8056; 962; 7957; 966; 945;
   223; 176]%N.

Definition ignore_split : pattern :=
  {| p_icase := false; p_re := Grp 1 (Chr (CSet ignore_list)) |}.

(** The warning the source prints when the length changes is on standard
    error only and is not part of the result. *)
Definition strip_accents (text : pystr) : pystr :=
  let split_text := re_split ignore_split text in
  concat (map (fun text_part =>
                 if negb (contains text_part ignore_list)
                 then unidecode U text_part else text_part) split_text).

(** [safe] *)
Definition safe (text : option pystr) : pystr := default [] text.

(** ** [create_label_regex] *)

(** The ellipsis group: three or more periods; or two or more periods, a
    space and one or more periods; or a period, a space and two or more
    periods; each with an optional space behind. *)
Definition ellipsis_group : regex :=
  let dot := Chr (CLit 46%N) in
  let sp := Chr (CLit 32%N) in
  Grp 1 (Alt (Seq (AtLeast 3 dot) (Opt sp))
        (Alt (Seq (AtLeast 2 dot) (Seq sp (Seq (AtLeast 1 dot) (Opt sp))))
             (Seq dot (Seq sp (Seq (AtLeast 2 dot) (Opt sp)))))).

Definition ellipsis_after_word : pattern :=
  {| p_icase := false; p_re := Seq (Behind CWord) ellipsis_group |}.

Definition ellipsis_anywhere : pattern :=
  {| p_icase := false; p_re := ellipsis_group |}.

(** The two split patterns: a language delimiter [<LAT>] or [</LAT>], or the
    text of a wildcard with or without [\b] before it; and the language
    delimiters alone. *)
Definition lat_re : regex :=
  Seq (Chr (CLit 60%N)) (Seq (Opt (Chr (CLit 47%N))) (Lits (lit "LAT>"))).

Definition lat_or_wildcard : pattern :=
  {| p_icase := false;
     p_re := Grp 1 (Alt lat_re (Seq (Opt (Lits (lit "\b"))) (Lits wildcard))) |}.

Definition lat_only : pattern := {| p_icase := false; p_re := Grp 1 lat_re |}.

(** The pattern of the last [re.sub]: four groups, a lazy run of any
    characters, one word character, the text of [punct_opt], and the rest of
    the line; the replacement puts [\b] between groups 2 and 3. *)
Definition word_before_punct : pattern :=
  {| p_icase := false;
     p_re := Seq (Grp 1 (Star false (Chr CAny)))
            (Seq (Grp 2 (Chr CWord))
            (Seq (Grp 3 (Lits punct_opt)) (Grp 4 (Star true (Chr CAny))))) |}.

Definition insert_boundary (text : pystr) (m : rematch) : pystr :=
  group_str text m 1 ++ group_str text m 2 ++ lit "\b" ++
  group_str text m 3 ++ group_str text m 4.

(** A word character at the start; and any run, a word character and the
    end of the text. *)
Definition starts_with_word : pattern :=
  {| p_icase := false; p_re := Seq Bol (Chr CWord) |}.

Definition ends_with_word : pattern :=
  {| p_icase := false;
     p_re := Seq (Star true (Chr CAny)) (Seq (Chr CWord) Eol) |}.

Definition nonempty (s : pystr) : bool :=
  match s with [] => false | _ => true end.

(** The label after the cleaning steps at the head of the function. *)
Definition stripped_label (label : pystr) : pystr :=
  let stripped := replace [173%N] [] (strip label) in
  let stripped := strip_accents stripped in
  replace (lit ". . .") (lit "...") stripped.

(** The pattern text before the boundary marks are added, split on the
    language delimiters: the list [label_regex_string_parts]. *)
Definition label_regex_string_parts (label : pystr) : list pystr :=
  let label_regex_string :=
    re_sub ellipsis_after_word (fun _ _ => lit "\b.*?") (stripped_label label) in
  let label_regex_string :=
    re_sub ellipsis_anywhere (fun _ _ => lit ".*?") label_regex_string in
  let parts := filter (fun part => nonempty part = true)
                      (re_split lat_or_wildcard label_regex_string) in
  let new_parts :=
    map (fun part =>
           match re_match lat_or_wildcard part with
           | None =>
               let clean_part := replace [32%N] [] part in
               join joiner (map re_escape clean_part)
           | Some _ => part
           end) parts in
  let label_regex_string :=
    match parts with
    | [] => label_regex_string
    | _ => concat new_parts
    end in
  filter (fun part => nonempty part = true)
         (re_split lat_only label_regex_string).

(** The text handed to [re.compile], or [None] on the branch that returns
    the placeholder pattern. *)
Definition label_regex_string (label : pystr) : option pystr :=
  match label_regex_string_parts label with
  | [] => None
  | first :: rest =>
      let parts :=
        if str_eqb first (lit "<LAT>")
        then (lit "<LAT>" ++ quote_opt) :: rest
        else quote_opt :: first :: rest in
      let parts :=
        if str_eqb (default [] (last parts)) (lit "</LAT>")
        then removelast parts ++ [punct_opt ++ lit "</LAT>"]
        else parts ++ [punct_opt] in
      let s := concat parts in
      let s := re_sub word_before_punct insert_boundary s in
      let s := if is_match (re_match starts_with_word (stripped_label label))
               then lit "\b" ++ s else s in
      let s := if is_match (re_match ends_with_word (stripped_label label))
               then s ++ lit "\b" else s in
      Some s
  end.

Definition impossible_match_placeholder : pystr :=
  lit "IMPOSSIBLE_MATCH_PLACEHOLDER".

Definition create_label_regex (label : pystr) : option pattern :=
  match label_regex_string label with
  | None => re_compile false impossible_match_placeholder
  | Some s => re_compile true s
  end.

End Text.

(** ** The document tree

    An lxml element: the identity of the Python object, the tag, the
    attributes, the text before the first child, the tail after the element,
    and the children.  A tail travels with its element, so a list of children
    is the paragraph's content in document order. *)

#[local] Unset Elimination Schemes.
Inductive element := Element {
  eid : nat;
  tag : string;
  attrib : list (string * pystr);
  text : option pystr;
  tail : option pystr;
  children : list element
}.
#[local] Set Elimination Schemes.

Definition set_text (t : option pystr) (e : element) : element :=
  Element (eid e) (tag e) (attrib e) t (tail e) (children e).

Definition set_tail (t : option pystr) (e : element) : element :=
  Element (eid e) (tag e) (attrib e) (text e) t (children e).

Definition set_children (cs : list element) (e : element) : element :=
  Element (eid e) (tag e) (attrib e) (text e) (tail e) cs.

(** [ET.XML('<tag />')] with the identity [i]. *)
Definition new_element (i : nat) (t : string) : element :=
  Element i t [] None None [].

(** [d[k] = v] on an attribute dictionary. *)
Fixpoint attrib_set (k : string) (v : pystr) (d : list (string * pystr))
    : list (string * pystr) :=
  match d with
  | [] => [(k, v)]
  | (k', v') :: d' =>
      if String.eqb k k' then (k, v) :: d' else (k', v') :: attrib_set k v d'
  end.

Definition attrib_get (k : string) (d : list (string * pystr)) : option pystr :=
  option_map snd (List.find (fun e => String.eqb k (fst e)) d).

Definition set_attrib (k : string) (v : pystr) (e : element) : element :=
  Element (eid e) (tag e) (attrib_set k v (attrib e)) (text e) (tail e)
          (children e).

(** [l.insert(i, x)] for [0 <= i]. *)
Definition list_insert_at {A} (i : nat) (x : A) (l : list A) : list A :=
  take i l ++ x :: drop i l.

(** [l[i] = x] where the index is known to exist. *)
Definition list_set {A} (i : nat) (x : A) (l : list A) : list A := <[i := x]> l.

Definition ENCLOSING_TAGS : list string :=
  ["hi"; "foreign"; "add"; "foreign_hi"; "add_foreign_hi"]%string.

Definition in_tags (t : string) (ts : list string) : bool :=
  existsb (String.eqb t) ts.

(** The tree as the drivers see it: the children of a [div] (paragraphs and
    their like), each with its inline children. *)
Abbreviation paragraphs := (list element).

(** [template.format(i)] for a template with at most one field, written as
    an empty pair of braces. *)
Definition py_format (template : pystr) (i : nat) : pystr :=
  let field := lit "{}" in
  let fix go (fuel : nat) (s : pystr) : pystr :=
    match fuel, s with
    | S fuel', c :: s' =>
        if startswith field s then lit (pretty i) ++ drop 2 s
        else c :: go fuel' s'
    | _, _ => s
    end in
  go (length template) template.

Section Splice.
Context (U : Unicode).

(** ** [add_comment] *)

Inductive note_type := gloss | commentary.

(** The three pieces a match cuts a field into. *)
Record pieces := { text_before : pystr; text_label : pystr; text_after : pystr }.

Definition cut (field : pystr) (m : rematch) : pieces :=
  {| text_before := slice_to (mstart m) field;
     text_label := slice (mstart m) (mend m) field;
     text_after := slice_from (mend m) field |}.

Record comment_args := {
  comment_i : nat;
  label_text : pystr;
  note_text : option pystr;
  anchor_id_template : pystr;
  app_id_template : pystr
}.

(** The namespaced attribute name of [xml:id]. *)
Definition xml_id : string := "{http://www.w3.org/XML/1998/namespace}id".

(** The elements [add_comment] creates, with identities from [fresh] on:
    the anchor, the [app], the two clones, the note and its label. *)
Definition new_anchor (fresh : nat) (a : comment_args) : element :=
  set_attrib xml_id (py_format (anchor_id_template a) (comment_i a))
             (new_element fresh "anchor").

Definition new_note (fresh : nat) (nt : note_type) : element :=
  set_attrib "type" (match nt with gloss => lit "gloss"
                                 | commentary => lit "commentary" end)
    (set_attrib "place" (lit "bottom") (new_element (fresh + 4) "note")).

(** The gloss note inside the [app]: a label carrying the label text, the
    note text behind it. *)
Definition gloss_note (fresh : nat) (a : comment_args) : element :=
  let label :=
    set_tail (Some (32%N :: strip U (default [] (note_text a))))
      (set_text (Some (label_text a)) (new_element (fresh + 5) "label")) in
  set_children [label] (new_note fresh gloss).

Definition new_app (fresh : nat) (a : comment_args) (tl : option pystr) : element :=
  set_tail tl
    (set_children [gloss_note fresh a]
       (set_attrib "from" (py_format (app_id_template a) (comment_i a))
                   (new_element (fresh + 1) "app"))).

Definition commentary_note (fresh : nat) (a : comment_args) (after : pystr)
    : element :=
  set_tail (Some after) (set_text (note_text a) (new_note fresh commentary)).

(** What follows the anchor: for a gloss the [app], whose tail is the text
    after the match where the source sets it; for a commentary the note,
    whose tail always is. *)
Definition after_anchor (fresh : nat) (a : comment_args) (nt : note_type)
    (app_tail : option pystr) (after : pystr) : element :=
  match nt with
  | gloss => new_app fresh a app_tail
  | commentary => commentary_note fresh a after
  end.

(** [current is not None]: the match lies in the tail of the child [c] of
    the sibling list [l]. *)
Definition splice_tail (fresh : nat) (a : comment_args) (nt : note_type)
    (m : rematch) (l : list element) (c : nat) : option (list element) :=
  cur ← l !! c;
  field ← tail cur;
  let p := cut field m in
  let anchor := set_tail (Some (text_label p)) (new_anchor fresh a) in
  Some (take c l ++
        set_tail (Some (text_before p)) cur :: anchor ::
        after_anchor fresh a nt (Some (text_after p)) (text_after p) ::
        drop (S c) l).

(** [current is None]: the match lies in the text of the element [i] of the
    sibling list [l].  An element that is not a styled run takes the new
    nodes as its first children; a styled run is cut into clones. *)
Definition splice_text (fresh : nat) (a : comment_args) (nt : note_type)
    (m : rematch) (l : list element) (i : nat) : option (list element) :=
  par ← l !! i;
  field ← text par;
  let p := cut field m in
  if negb (in_tags (tag par) ENCLOSING_TAGS) then
    let anchor := set_tail (Some (text_label p)) (new_anchor fresh a) in
    Some (list_set i
            (set_children
               (anchor ::
                after_anchor fresh a nt (Some (text_after p)) (text_after p) ::
                children par)
               (set_text (Some (text_before p)) par)) l)
  else
    let clone (j : nat) (t : pystr) : list element :=
      if nonempty t
      then [Element j (tag par) (attrib par) (Some t) None []]
      else [] in
    let anchor := new_anchor fresh a in
    Some (take i l ++
          clone (fresh + 2) (text_before p) ++
          anchor ::
          match nt with
          | gloss =>
              [set_text (Some (text_label p)) par;
               after_anchor fresh a nt None (text_after p)]
          | commentary =>
              [after_anchor fresh a nt None (text_after p);
               set_text (Some (text_label p)) par]
          end ++
          clone (fresh + 3) (text_after p) ++
          drop (S i) l).

(** Where [add_comment] is asked to work. *)
Inductive target :=
| at_text (b : nat)       (* the text of paragraph [b] *)
| at_elem (b c : nat)     (* the text of the child [c] of paragraph [b] *)
| at_tail (b c : nat).    (* the tail of the child [c] of paragraph [b] *)

Definition add_comment (fresh : nat) (a : comment_args) (nt : note_type)
    (m : rematch) (ps : paragraphs) (t : target) : option paragraphs :=
  match t with
  | at_text b => splice_text fresh a nt m ps b
  | at_elem b c =>
      par ← ps !! b;
      cs ← splice_text fresh a nt m (children par) c;
      Some (list_set b (set_children cs par) ps)
  | at_tail b c =>
      par ← ps !! b;
      cs ← splice_tail fresh a nt m (children par) c;
      Some (list_set b (set_children cs par) ps)
  end.

End Splice.

(** The outcome of a run: a value, a Python exception, or a loop cut short
    at its bound. *)
Inductive run (A : Type) :=
| Ok (a : A)
| Raised
| Unfinished.
Arguments Ok {A} a.
Arguments Raised {A}.
Arguments Unfinished {A}.

Definition run_bind {A B} (x : run A) (f : A -> run B) : run B :=
  match x with
  | Ok a => f a
  | Raised => Raised
  | Unfinished => Unfinished
  end.

Definition or_raise {A} (x : option A) : run A :=
  match x with Some a => Ok a | None => Raised end.

(** A loop whose body may raise. *)
Fixpoint run_fold {A B} (f : A -> B -> run A) (acc : A) (l : list B) : run A :=
  match l with
  | [] => Ok acc
  | x :: l' => run_bind (f acc x) (fun acc' => run_fold f acc' l')
  end.

(** ** The search of [add_comments]

    One turn of the [while] loop over the children of a [div]: the cursor is
    the paragraph [current_p] and its child [current], both by position (the
    tree does not change before the loop is left). *)

Section Comments.
Context (U : Unicode).

Record cursor := { current_p : option nat; current : option nat }.

Inductive step_result :=
| Go (k : cursor)
| Found (t : target) (m : rematch).

(** [label_regex.search(strip_accents(safe(field)))] *)
Definition search_field (re : pattern) (field : option pystr) : option rematch :=
  re_search U re (strip_accents U (safe field)).

(** The truth value of an optional string. *)
Definition truthy (t : option pystr) : bool :=
  match t with Some (_ :: _) => true | _ => false end.

(** [current in created_anchors and created_anchors[current] == label and
    label_match.start() == 0] *)
Definition is_own_echo (created_anchors : gmap nat pystr) (label : pystr)
    (e : element) (m : rematch) : bool :=
  match created_anchors !! eid e with
  | Some l => str_eqb l label && (mstart m =? 0)
  | None => false
  end.

(** [current_p.getnext()] *)
Definition next_paragraph (ps : paragraphs) (b : nat) : option nat :=
  if S b <? length ps then Some (S b) else None.

(** The end of a turn: [current = current.getnext()] and what follows. *)
Definition advance (ps : paragraphs) (par : element) (b c : nat) : cursor :=
  match children par !! S c with
  | None => {| current_p := next_paragraph ps b; current := None |}
  | Some e =>
      if String.eqb (tag e) "pb"
      then {| current_p := None; current := Some (S c) |}
      else {| current_p := Some b; current := Some (S c) |}
  end.

Definition comment_step (ps : paragraphs) (created_anchors : gmap nat pystr)
    (label : pystr) (re : pattern) (b : nat) (cur : option nat) : step_result :=
  match ps !! b with
  | None => Go {| current_p := None; current := cur |}
  | Some par =>
      (* Check 1: the text before the first child *)
      let pre :=
        match cur with
        | Some 0 =>
            if (0 <? length (children par)) && truthy (text par)
            then search_field re (text par) else None
        | _ => None
        end in
      match pre with
      | Some m => Found (at_text b) m
      | None =>
          match cur with
          | Some c =>
              match children par !! c with
              | None => Go {| current_p := None; current := cur |}
              | Some e =>
                  (* Check 2: the text inside a styled run *)
                  let inside :=
                    if in_tags (tag e) ENCLOSING_TAGS then
                      match search_field re (text e) with
                      | Some m =>
                          if is_own_echo created_anchors label e m
                          then None else Some m
                      | None => None
                      end
                    else None in
                  match inside with
                  | Some m => Found (at_elem b c) m
                  | None =>
                      (* Check 3: the tail of the current element *)
                      match search_field re (tail e) with
                      | Some m =>
                          if is_own_echo created_anchors label e m
                          then Go (advance ps par b c)
                          else Found (at_tail b c) m
                      | None => Go (advance ps par b c)
                      end
                  end
              end
          | None =>
              (* Check 4: the text of a paragraph entered from the one before *)
              match search_field re (text par) with
              | Some m => Found (at_text b) m
              | None =>
                  match children par with
                  | e :: _ =>
                      if String.eqb (tag e) "pb"
                      then Go {| current_p := None; current := Some 0 |}
                      else Go {| current_p := Some b; current := Some 0 |}
                  | [] =>
                      Go {| current_p := next_paragraph ps b; current := None |}
                  end
              end
          end
      end
  end.

(** The loop, for at most [fuel] turns: [None] when the turns run out, else
    the place of the match or [None] for a label that was not found. *)
Fixpoint comment_scan (fuel : nat) (ps : paragraphs)
    (created_anchors : gmap nat pystr) (label : pystr) (re : pattern)
    (k : cursor) : option (option (target * rematch)) :=
  match current_p k with
  | None => Some None
  | Some b =>
      match fuel with
      | O => None
      | S fuel' =>
          match comment_step ps created_anchors label re b (current k) with
          | Found t m => Some (Some (t, m))
          | Go k' => comment_scan fuel' ps created_anchors label re k'
          end
      end
  end.

(** The size of the children of a [div]: two for every paragraph and one for
    every child; and the number of turns allowed to a scan. *)
Definition scan_weight (ps : paragraphs) : nat :=
  sum_list_with (fun par => length (children par) + 2) ps.

Definition scan_bound (ps : paragraphs) : nat := S (scan_weight ps).

(** ** [add_comments] *)

(** A queued comment: the tuple [(number, label, note, comment_i)]. *)
Record comment := {
  c_number : option pystr;
  c_label : pystr;
  c_note : option pystr;
  c_index : nat
}.

(** [int(s)] for a string of decimal digits. *)
Definition int_of_digits (s : pystr) : Z :=
  fold_left (fun acc c => (acc * 10 + digitval U c)%Z) s 0%Z.

Definition digits : pattern :=
  {| p_icase := false; p_re := AtLeast 1 (Chr CDigit) |}.

(** [get_sort_key]: the first run of digits in the number, or 99999 when
    the number is missing or holds none; the length of the label, negated;
    the original index. *)
Definition get_sort_key (cm : comment) : Z * Z * Z :=
  let line_num :=
    match c_number cm with
    | Some number =>
        match re_search U digits number with
        | Some m => int_of_digits (group_str number m 0)
        | None => 99999%Z
        end
    | None => 99999%Z
    end in
  let length_score := (- Z.of_nat (length (c_label cm)))%Z in
  let original_index := Z.of_nat (c_index cm) in
  (line_num, length_score, original_index).

(** The order of Python tuples of three integers. *)
Definition key_leb (x y : Z * Z * Z) : bool :=
  let '(a1, b1, c1) := x in
  let '(a2, b2, c2) := y in
  (a1 <? a2)%Z ||
  ((a1 =? a2)%Z && ((b1 <? b2)%Z || ((b1 =? b2)%Z && (c1 <=? c2)%Z))).

(** [sorted(l, key=key)]: a stable sort. *)
Fixpoint insert_by {A K} (leb : K -> K -> bool) (key : A -> K) (x : A)
    (l : list A) : list A :=
  match l with
  | [] => [x]
  | y :: l' =>
      if leb (key x) (key y) then x :: l else y :: insert_by leb key x l'
  end.

Definition sorted_by {A K} (leb : K -> K -> bool) (key : A -> K) (l : list A)
    : list A :=
  foldr (insert_by leb key) [] l.

Definition sorted_comments (l : list comment) : list comment :=
  sorted_by key_leb get_sort_key l.

(** The order of Python strings. *)
Fixpoint str_leb (a b : pystr) : bool :=
  match a, b with
  | [], _ => true
  | _ :: _, [] => false
  | x :: a', y :: b' => (x <? y)%N || ((x =? y)%N && str_leb a' b')
  end.

Fixpoint dedupe (l : list pystr) : list pystr :=
  match l with
  | [] => []
  | x :: l' => x :: filter (fun y => str_eqb x y = false) (dedupe l')
  end.

(** [sorted(set(numbers) & set(d))] for a dictionary with the keys [keys]. *)
Definition active_pages (numbers keys : list pystr) : list pystr :=
  sorted_by str_leb (fun x => x)
    (dedupe (filter (fun n => existsb (str_eqb n) keys = true) numbers)).

(** Position of the first element satisfying a test. *)
Fixpoint find_idx {A} (f : A -> bool) (l : list A) : option nat :=
  match l with
  | [] => None
  | x :: l' => if f x then Some 0 else option_map S (find_idx f l')
  end.

(** The first child satisfying [fc] of a paragraph satisfying [fp], in
    document order: the paragraph and the child, by position. *)
Fixpoint locate_in (fp fc : element -> bool) (ps : paragraphs)
    : option (nat * nat) :=
  match ps with
  | [] => None
  | par :: ps' =>
      match (if fp par then find_idx fc (children par) else None) with
      | Some c => Some (0, c)
      | None => option_map (fun bc => (S (fst bc), snd bc)) (locate_in fp fc ps')
      end
  end.

Fixpoint locate (fp fc : element -> bool) (divs : list paragraphs)
    : option (nat * nat * nat) :=
  match divs with
  | [] => None
  | ps :: divs' =>
      match locate_in fp fc ps with
      | Some (b, c) => Some (0, b, c)
      | None =>
          option_map (fun dbc => (S (fst (fst dbc)), snd (fst dbc), snd dbc))
                     (locate fp fc divs')
      end
  end.

(** The test of the XPath [.../div[1]/p/pb[@n=...]]. *)
Definition is_p (e : element) : bool := String.eqb (tag e) "p".

Definition is_pagebreak (pe_number : pystr) (e : element) : bool :=
  String.eqb (tag e) "pb" &&
  match attrib_get "n" (attrib e) with
  | Some n => str_eqb n pe_number
  | None => false
  end.

(** The element at a position. *)
Definition element_at (divs : list paragraphs) (pos : nat * nat * nat)
    : option element :=
  let '(d, b, c) := pos in
  ps ← divs !! d; par ← ps !! b; children par !! c.

(** The element [pagebreaks[0]]. *)
Definition first_pagebreak (divs : list paragraphs) (pe_number : pystr)
    : option element :=
  locate is_p (is_pagebreak pe_number) divs ≫= element_at divs.

(** Where the element with the identity [i] now is. *)
Definition whereis (divs : list paragraphs) (i : nat) : option (nat * nat * nat) :=
  locate (fun _ => true) (fun e => eid e =? i) divs.

(** A comment that found no place, as [create_dud_comment] renders it, and
    the line written for it. *)
Record lost_comment := {
  lost_page : pystr;
  lost_i : nat;
  lost_label : pystr;
  lost_note : option pystr
}.

(** What [add_comments] changes: the tree, the identities handed out, the
    count of failures, the lines of the comment file and the last
    [comment_i]. *)
Record cstate := {
  tree : list paragraphs;
  fresh : nat;
  comment_failure_count : nat;
  comment_file : list lost_comment;
  last_comment_i : nat
}.

Record templates := { anchor_template : pystr; app_template : pystr }.

(** The body of the loop over the sorted comments of a page. *)
Definition place_comment (write_file : bool) (tp : templates)
    (pe_number : pystr) (start : nat)
    (acc : cstate * gmap nat pystr) (cm : comment)
    : run (cstate * gmap nat pystr) :=
  let '(st, created_anchors) := acc in
  run_bind (or_raise (whereis (tree st) start)) (fun pos =>
  let '(d, b, c) := pos in
  run_bind (or_raise (tree st !! d)) (fun ps =>
  run_bind (or_raise (create_label_regex U (c_label cm))) (fun label_regex =>
  match comment_scan (scan_bound ps) ps created_anchors (c_label cm)
                     label_regex
                     {| current_p := Some b; current := Some c |} with
  | None => Unfinished
  | Some (Some (t, m)) =>
      let a := {| comment_i := c_index cm; label_text := c_label cm;
                  note_text := c_note cm;
                  anchor_id_template := anchor_template tp;
                  app_id_template := app_template tp |} in
      run_bind (or_raise (add_comment U (fresh st) a gloss m ps t)) (fun ps' =>
      Ok ({| tree := list_set d ps' (tree st);
             fresh := fresh st + 6;
             comment_failure_count := comment_failure_count st;
             comment_file := comment_file st;
             last_comment_i := c_index cm |},
          <[fresh st := c_label cm]> created_anchors))
  | Some None =>
      Ok ({| tree := tree st;
             fresh := fresh st;
             comment_failure_count := S (comment_failure_count st);
             comment_file :=
               if write_file
               then comment_file st ++
                    [{| lost_page := pe_number; lost_i := c_index cm;
                        lost_label := c_label cm; lost_note := c_note cm |}]
               else comment_file st;
             last_comment_i := c_index cm |},
          created_anchors)
  end))).

(** The body of the loop over the pages. *)
Definition comments_on_page (write_file : bool) (tp : templates)
    (comments : gmap pystr (list comment)) (st : cstate) (pe_number : pystr)
    : run cstate :=
  match first_pagebreak (tree st) pe_number with
  | None => Ok st
  | Some pb =>
      run_bind
        (run_fold (place_comment write_file tp pe_number (eid pb)) (st, ∅)
                  (sorted_comments (default [] (comments !! pe_number))))
        (fun acc => Ok (fst acc))
  end.

Definition add_comments (write_file : bool) (tp : templates)
    (tei_tree : list paragraphs) (next_id : nat)
    (comments : gmap pystr (list comment))
    (edition_page_break_numbers : list pystr) : run cstate :=
  run_fold (comments_on_page write_file tp comments)
    {| tree := tei_tree; fresh := next_id; comment_failure_count := 0;
       comment_file := []; last_comment_i := 0 |}
    (active_pages edition_page_break_numbers (map fst (map_to_list comments))).

End Comments.

(** ** [add_critical] and [add_critical_apparatus] *)

(** An apparatus entry [(number, lem, rdg)]: the lemma is the one triple of
    [lem], the readings are the pairs of [rdg]. *)
Record lemma := { lem_wit : pystr; lem_text : pystr; lem_tag : string }.
Record reading := { rdg_wit : pystr; rdg_text : pystr }.
Record entry := { e_number : Z; e_lem : lemma; e_rdg : list reading }.

(** Where [add_critical] is asked to work. *)
Inductive ctarget :=
| in_text (b : nat)        (* the text of paragraph [b] *)
| in_tail (b c : nat).     (* the tail of the child [c] of paragraph [b] *)

Definition default_edition_ids : list (pystr * pystr) :=
  [(lit "01", lit "St"); (lit "02", lit "T1619"); (lit "03", lit "B");
   (lit "04", lit "St"); (lit "05", lit "DJAK03"); (lit "06", lit "St");
   (lit "07", lit "T1624"); (lit "08", lit "T1663"); (lit "09", lit "T1632");
   (lit "10", lit "T1650")].

Definition default_edition_id (doc_num : pystr) : option pystr :=
  option_map snd (List.find (fun e => str_eqb doc_num (fst e)) default_edition_ids).

Section Critical.
Context (U : Unicode).

(** The witness markup of the entries that carry a citation still to be
    resolved (a witness string with [tbd] in it) is built by
    [find_wit_simple], [find_wit_complicated] and [add_critical_note]; it
    adds elements inside the [app] only and is taken as given here: for the
    lemma, the [wit] attribute and the notes that follow the lemma; for a
    reading, the elements it adds.  Each takes the next free identity and
    returns the one after those it used. *)
Context (lem_tbd : nat -> lemma -> pystr * list element * nat).
Context (rdg_tbd : nat -> reading -> list element * nat).

(** The elements one reading adds to the [app]. *)
Definition rdg_elements (fresh : nat) (doc_num : pystr) (r : reading)
    : option (list element * nat) :=
  if contains (lit "tbd") (rdg_wit r) then Some (rdg_tbd fresh r)
  else
    wit ← (if nonempty (rdg_wit r) then Some (rdg_wit r)
           else option_map (cons 35%N) (default_edition_id doc_num));
    Some ([set_text (Some (rdg_text r))
             (set_attrib "wit" wit (new_element fresh "rdg"))], S fresh).

Fixpoint rdgs_elements (fresh : nat) (doc_num : pystr) (rs : list reading)
    : option (list element * nat) :=
  match rs with
  | [] => Some ([], fresh)
  | r :: rs' =>
      '(es, fresh') ← rdg_elements fresh doc_num r;
      '(es', fresh'') ← rdgs_elements fresh' doc_num rs';
      Some (es ++ es', fresh'')
  end.

(** The last character of the match goes back to the text after it when it
    is a punctuation mark the lemma itself does not end with. *)
Definition punctuation : pystr := lit ".,:;?!".

Definition endswith (suffix s : pystr) : bool := startswith (rev suffix) (rev s).

Definition give_back_punctuation (raw_lemma_label : pystr) (p : pieces) : pieces :=
  match last (text_label p) with
  | Some c =>
      if contains [c] punctuation && negb (endswith [c] raw_lemma_label)
      then {| text_before := text_before p;
              text_label := removelast (text_label p);
              text_after := c :: text_after p |}
      else p
  | None => p
  end.

(** The [app] element with its lemma and readings. *)
Definition new_critical_app (fresh : nat) (doc_num : pystr) (l : lemma)
    (rs : list reading) (p : pieces) : option (element * nat) :=
  let '(wit, notes, fresh') :=
    if contains (lit "tbd") (lem_wit l) then lem_tbd (fresh + 2) l
    else (lem_wit l, [], fresh + 2) in
  let lem :=
    set_tail (Some [32%N])
      (set_text (Some (text_label p))
         (set_attrib "wit" wit (new_element (S fresh) (lem_tag l)))) in
  '(rdgs, fresh'') ← rdgs_elements fresh' doc_num rs;
  Some (set_tail (Some (text_after p))
          (set_children (lem :: notes ++ rdgs) (new_element fresh "app")),
        fresh'').

(** [add_critical]: the new children of the [div], the position of the
    [app] as paragraph and child, and the next free identity. *)
Definition add_critical (fresh : nat) (doc_num : pystr) (m : rematch)
    (l : lemma) (rs : list reading) (ps : paragraphs) (t : ctarget)
    : option (paragraphs * (nat * nat) * nat) :=
  match t with
  | in_tail b c =>
      par ← ps !! b;
      cur ← children par !! c;
      field ← tail cur;
      let p := give_back_punctuation (strip U (lem_text l)) (cut field m) in
      '(app, fresh') ← new_critical_app fresh doc_num l rs p;
      Some (list_set b
              (set_children
                 (take c (children par) ++
                  set_tail (Some (text_before p)) cur :: app ::
                  drop (S c) (children par)) par) ps,
            (b, S c), fresh')
  | in_text b =>
      par ← ps !! b;
      field ← text par;
      let p := give_back_punctuation (strip U (lem_text l)) (cut field m) in
      '(app, fresh') ← new_critical_app fresh doc_num l rs p;
      Some (list_set b
              (set_children (app :: children par)
                 (set_text (Some (text_before p)) par)) ps,
            (b, 0), fresh')
  end.

(** The search of [add_critical_apparatus]: the element [current] as
    paragraph and child, the paragraph [current_parent], and the two flags. *)
Record kstate := {
  k_current : option (nat * nat);
  k_parent : option nat;
  look_in_tail : bool;
  k_search : bool
}.

Inductive kstep :=
| KGo (k : kstate)
| KFound (t : ctarget) (m : rematch)
| KRaise.

Definition child_at (ps : paragraphs) (bc : nat * nat) : option element :=
  par ← ps !! fst bc; children par !! snd bc.

Definition critical_step (ps : paragraphs) (re : pattern) (k : kstate)
    (bp : nat) : kstep :=
  if look_in_tail k then
    match k_current k with
    | None => KRaise
    | Some (b, c) =>
        match child_at ps (b, c) with
        | None => KRaise
        | Some e =>
            match search_field U re (tail e) with
            | Some m => KFound (in_tail b c) m
            | None =>
                match child_at ps (b, S c) with
                | None =>
                    KGo {| k_current := None;
                           k_parent := next_paragraph ps bp;
                           look_in_tail := false; k_search := k_search k |}
                | Some e' =>
                    KGo {| k_current := Some (b, S c); k_parent := Some bp;
                           look_in_tail := true;
                           k_search := if String.eqb (tag e') "pb" then false
                                       else k_search k |}
                end
            end
        end
    end
  else
    match ps !! bp with
    | None => KRaise
    | Some par =>
        match search_field U re (text par) with
        | Some m => KFound (in_text bp) m
        | None =>
            match children par with
            | e :: _ =>
                KGo {| k_current := Some (bp, 0); k_parent := Some bp;
                       look_in_tail := true;
                       k_search := if String.eqb (tag e) "pb" then false
                                   else k_search k |}
            | [] =>
                KGo {| k_current := k_current k;
                       k_parent := next_paragraph ps bp;
                       look_in_tail := false; k_search := k_search k |}
            end
        end
    end.

(** What the loop ends with: a match, or the state the [else] branch of the
    loop finds. *)
Inductive kresult :=
| KPlaced (t : ctarget) (m : rematch)
| KNotFound (k : kstate)
| KError.

Fixpoint critical_scan (fuel : nat) (ps : paragraphs) (re : pattern)
    (k : kstate) : option kresult :=
  match (if k_search k then k_parent k else None) with
  | None => Some (KNotFound k)
  | Some bp =>
      match fuel with
      | O => None
      | S fuel' =>
          match critical_step ps re k bp with
          | KFound t m => Some (KPlaced t m)
          | KRaise => Some KError
          | KGo k' => critical_scan fuel' ps re k'
          end
      end
  end.

Definition critical_bound (ps : paragraphs) : nat := 2 * scan_weight ps + 2.

(** What [add_critical_apparatus] changes: the tree, the identities handed
    out, the count of failures, the dictionary [failed] and the lines of the
    apparatus file (the page and the entry [create_dud_critical] renders). *)
Record astate := {
  a_tree : list paragraphs;
  a_fresh : nat;
  critical_failure_count : nat;
  failed : gmap pystr (list entry);
  apparatus_file : list (pystr * entry)
}.

(** The variables of the loop over the entries of a page: the [div] the
    page break is in, [current], [start_current_parent], [look_in_tail],
    [saved_current] and [prev_number]. *)
Record pstate := {
  p_div : nat;
  p_current : nat * nat;
  start_current_parent : nat;
  p_look_in_tail : bool;
  saved_current : nat * nat;
  prev_number : option Z
}.

(** The state a page starts in, and an entry whose number drops restarts
    in: at the page break, looking in its tail. *)
Definition page_start (divs : list paragraphs) (pe_number : pystr)
    (prev : option Z) : option pstate :=
  '(d, b, c) ← locate is_p (is_pagebreak pe_number) divs;
  Some {| p_div := d; p_current := (b, c); start_current_parent := b;
          p_look_in_tail := true; saved_current := (b, c);
          prev_number := prev |}.

Definition number_drops (pg : pstate) (e : entry) : bool :=
  match prev_number pg with
  | Some prev => (e_number e <? prev)%Z
  | None => false
  end.

(** The state the search for an entry starts from. *)
Definition entry_start (divs : list paragraphs) (pe_number : pystr)
    (pg : pstate) (e : entry) : option pstate :=
  if number_drops pg e
  then page_start divs pe_number (Some (e_number e))
  else Some {| p_div := p_div pg; p_current := p_current pg;
               start_current_parent := start_current_parent pg;
               p_look_in_tail := p_look_in_tail pg;
               saved_current := saved_current pg;
               prev_number := Some (e_number e) |}.

(** The body of the loop over the entries of a page. *)
Definition place_entry (write_file : bool) (doc_num pe_number : pystr)
    (acc : astate * pstate) (e : entry) : run (astate * pstate) :=
  let '(st, pg0) := acc in
  run_bind (or_raise (entry_start (a_tree st) pe_number pg0 e)) (fun pg =>
  run_bind (or_raise (create_label_regex U (lem_text (e_lem e)))) (fun lem_regex =>
  run_bind (or_raise (a_tree st !! p_div pg)) (fun ps =>
  match critical_scan (critical_bound ps) ps lem_regex
          {| k_current := Some (p_current pg);
             k_parent := Some (start_current_parent pg);
             look_in_tail := p_look_in_tail pg; k_search := true |} with
  | None => Unfinished
  | Some KError => Raised
  | Some (KPlaced t m) =>
      run_bind (or_raise (add_critical (a_fresh st) doc_num m (e_lem e)
                                       (e_rdg e) ps t)) (fun r =>
      let '(ps', app, fresh') := r in
      Ok ({| a_tree := list_set (p_div pg) ps' (a_tree st);
             a_fresh := fresh';
             critical_failure_count := critical_failure_count st;
             failed := failed st;
             apparatus_file := apparatus_file st |},
          {| p_div := p_div pg; p_current := app;
             start_current_parent :=
               match t with
               | in_text b => b
               | in_tail _ _ => start_current_parent pg
               end;
             p_look_in_tail :=
               match t with in_text _ => false | in_tail _ _ => true end;
             saved_current := app;
             prev_number := prev_number pg |}))
  | Some (KNotFound k) =>
      Ok ({| a_tree := a_tree st;
             a_fresh := a_fresh st;
             critical_failure_count := S (critical_failure_count st);
             failed := <[pe_number := default [] (failed st !! pe_number) ++ [e]]>
                         (failed st);
             apparatus_file :=
               if write_file then apparatus_file st ++ [(pe_number, e)]
               else apparatus_file st |},
          {| p_div := p_div pg; p_current := saved_current pg;
             start_current_parent := start_current_parent pg;
             p_look_in_tail := look_in_tail k;
             saved_current := saved_current pg;
             prev_number := prev_number pg |})
  end))).

(** The body of the loop over the pages. *)
Definition critical_on_page (write_file : bool) (doc_num : pystr)
    (critical : gmap pystr (list entry)) (st : astate) (pe_number : pystr)
    : run astate :=
  run_bind (or_raise (page_start (a_tree st) pe_number None)) (fun pg =>
  run_bind (run_fold (place_entry write_file doc_num pe_number) (st, pg)
                     (default [] (critical !! pe_number)))
           (fun acc => Ok (fst acc))).

Definition add_critical_apparatus (write_file : bool) (doc_num : pystr)
    (tei_tree : list paragraphs) (next_id : nat)
    (critical : gmap pystr (list entry))
    (edition_page_break_numbers : list pystr) : run astate :=
  run_fold (critical_on_page write_file doc_num critical)
    {| a_tree := tei_tree; a_fresh := next_id; critical_failure_count := 0;
       failed := ∅; apparatus_file := [] |}
    (active_pages edition_page_break_numbers (map fst (map_to_list critical))).

End Critical.

(** ** [parse_wits] and [extract_witnesses_right] *)

(** The sigla of each document, [edition_ids]. *)
Definition edition_ids : list (pystr * list (pystr * pystr)) :=
  let same (k : pystr) := (k, k) in
  let djak := same (lit "DJAK03") in
  [(lit "01", [same (lit "M"); same (lit "Sr"); same (lit "St");
               same (lit "W"); djak]);
   (lit "02", [djak; same (lit "T1619")]);
   (lit "03", [same (lit "B"); (lit "S", lit "St"); same (lit "T");
               same (lit "W"); djak]);
   (lit "04", [same (lit "Nov"); same (lit "Sr"); same (lit "St"); djak]);
   (lit "05", [same [352; 107]%N; same (lit "RKP"); same (lit "T1663");
               same (lit "T1631"); djak]);
   (lit "06", [djak; same (lit "St")]);
   (lit "07", [same (lit "Nov"); same [83; 111; 117; 269; 101; 107]%N;
               same (lit "T1624"); djak]);
   (lit "08", [(lit "A", lit "T1663"); (lit "L", lit "T1633");
               (lit "V", lit "W"); djak]);
   (lit "09", [djak; same (lit "T1632")]);
   (lit "10", [djak; same (lit "T1650")])].

Definition dict_get {V} (k : pystr) (d : list (pystr * V)) : option V :=
  option_map snd (List.find (fun e => str_eqb k (fst e)) d).

(** The style of a piece of a citation: [None] or ['italic']. *)
Inductive style := plain | italic.

Definition style_eqb (a b : style) : bool :=
  match a, b with
  | plain, plain | italic, italic => true
  | _, _ => false
  end.

Section Witnesses.
Context (U : Unicode).

(** [s.strip(chars)] *)
Fixpoint lstrip_chars (chars s : pystr) : pystr :=
  match s with
  | c :: s' => if existsb (char_eqb c) chars then lstrip_chars chars s' else s
  | [] => []
  end.

Definition strip_chars (chars s : pystr) : pystr :=
  rev (lstrip_chars chars (rev (lstrip_chars chars s))).

Definition comma_or_a : pattern :=
  {| p_icase := false; p_re := Chr (CSet (lit ",a")) |}.

(** [parse_wits(wit_str, doc_num, position, add_default)]; [None] is the
    [KeyError] of a document number that is not in [edition_ids]. *)
Definition parse_wits (wit_str doc_num position : pystr) (add_default : bool)
    : option pystr :=
  sigla ← dict_get doc_num edition_ids;
  let wit_list := re_split_plain U comma_or_a wit_str in
  let parsed :=
    omap (fun wit =>
            let wit := strip_chars (lit ";") (strip U wit) in
            if nonempty wit then
              Some match dict_get wit sigla with
                   | Some ed_wit => 35%N :: ed_wit
                   | None => lit "[tbd_" ++ position ++ lit ": " ++ wit ++ lit "]"
                   end
            else None) wit_list in
  Some (join (lit " ")
          ((if add_default then [lit "#DJAK03"] else []) ++ parsed)).

(** [l[:-1:2]] and [l[1::2]] *)
Fixpoint every_other {A} (l : list A) : list A :=
  match l with
  | x :: _ :: l' => x :: every_other l'
  | [x] => [x]
  | [] => []
  end.

Definition evens_but_last {A} (l : list A) : list A := every_other (removelast l).
Definition odds {A} (l : list A) : list A := every_other (drop 1 l).

Definition next_style (s : style) : style :=
  match s with plain => italic | italic => plain end.

(** The loop over [after[1:]]: the counts of plain and italic pieces, or
    [None] as soon as a piece does not alternate. *)
Fixpoint alternation (prev_style : style) (counts : nat * nat)
    (rest : list (style * pystr)) : option (nat * nat) :=
  match rest with
  | [] => Some counts
  | (current_style, _) :: rest' =>
      let counts :=
        match current_style with
        | plain => (S (fst counts), snd counts)
        | italic => (fst counts, S (snd counts))
        end in
      if negb (style_eqb current_style (next_style prev_style)) then None
      else alternation current_style counts rest'
  end.

Definition unparsed (after : list (style * pystr)) : list reading :=
  [{| rdg_wit := lit "unparsed";
      rdg_text := join (lit " | ") (map (fun piece => strip U (snd piece)) after) |}].

(** Pairs of a parsed witness string and a text. *)
Fixpoint pair_up (doc_num position : pystr) (texts wits : list (style * pystr))
    : option (list reading) :=
  match texts, wits with
  | t :: texts', w :: wits' =>
      wit ← parse_wits (snd w) doc_num position false;
      rest ← pair_up doc_num position texts' wits';
      Some ({| rdg_wit := wit; rdg_text := snd t |} :: rest)
  | _, _ => Some []
  end.

Definition extract_witnesses_right (after : list (style * pystr))
    (doc_num : pystr) : run (list reading) :=
  match after with
  | [] => Raised
  | [(plain, t)] =>
      or_raise (option_map (fun d => [{| rdg_wit := 35%N :: d; rdg_text := t |}])
                           (default_edition_id doc_num))
  | [(italic, t)] => Ok [{| rdg_wit := lit "tbd"; rdg_text := t |}]
  | (first_style, _) :: rest =>
      let counts :=
        match first_style with plain => (1, 0) | italic => (0, 1) end in
      match alternation first_style counts rest with
      | None => Ok (unparsed after)
      | Some (n_plain, n_italic) =>
          if negb (n_plain =? n_italic) then Ok (unparsed after)
          else
            match first_style with
            | plain =>
                or_raise (pair_up doc_num (lit "a")
                                  (evens_but_last after) (odds after))
            | italic =>
                or_raise (pair_up doc_num (lit "b")
                                  (odds after) (evens_but_last after))
            end
      end
  end.

End Witnesses.

(** * Properties *)

(** ** Termination of the two searches *)

Section Termination.
Context (U : Unicode).

Lemma scan_weight_drop (ps : paragraphs) (b : nat) (par : element) :
  ps !! b = Some par ->
  scan_weight (drop b ps) =
  length (children par) + 2 + scan_weight (drop (S b) ps).
Proof.
  intros H. rewrite (drop_S _ _ _ H). reflexivity.
Qed.

Lemma scan_weight_drop_le (ps : paragraphs) (n : nat) :
  scan_weight (drop n ps) <= scan_weight ps.
Proof.
  revert n; induction ps as [|par ps IH]; intros [|n]; simpl; try lia.
  specialize (IH n). unfold scan_weight in *. simpl. lia.
Qed.

Lemma scan_weight_lookup (ps : paragraphs) (b : nat) (par : element) :
  ps !! b = Some par -> length (children par) + 2 <= scan_weight ps.
Proof.
  intros H. pose proof (scan_weight_drop_le ps b) as Hle.
  rewrite (scan_weight_drop _ _ _ H) in Hle. lia.
Qed.

(** The turns a cursor of [add_comments] has left. *)
Definition cursor_measure (ps : paragraphs) (k : cursor) : nat :=
  match current_p k with
  | None => 0
  | Some b =>
      scan_weight (drop (S b) ps) +
      match ps !! b with
      | None => 0
      | Some par =>
          match current k with
          | None => length (children par) + 1
          | Some c => length (children par) - c
          end
      end
  end.

Lemma next_paragraph_measure (ps : paragraphs) (b : nat) (par : element) :
  ps !! b = Some par ->
  cursor_measure ps {| current_p := next_paragraph ps b; current := None |}
  <= scan_weight (drop (S b) ps) - 1.
Proof.
  intros Hb. unfold next_paragraph, cursor_measure.
  destruct (S b <? length ps) eqn:E; cbn [current_p current]; [|lia].
  apply Nat.ltb_lt in E.
  destruct (lookup_lt_is_Some_2 ps (S b) E) as [par' Hpar'].
  rewrite Hpar', (scan_weight_drop _ _ _ Hpar'). lia.
Qed.

Lemma advance_measure (ps : paragraphs) (par : element) (b c : nat) :
  ps !! b = Some par -> c < length (children par) ->
  current_p (advance ps par b c) = None \/
  cursor_measure ps (advance ps par b c) <
  cursor_measure ps {| current_p := Some b; current := Some c |}.
Proof.
  intros Hb Hc. unfold advance.
  destruct (children par !! S c) as [e|] eqn:E.
  - destruct (String.eqb (tag e) "pb"); [left; reflexivity|right].
    apply lookup_lt_Some in E.
    unfold cursor_measure; cbn [current_p current]. rewrite Hb. lia.
  - right. pose proof (next_paragraph_measure ps b par Hb) as Hn.
    unfold cursor_measure at 2; cbn [current_p current]. rewrite Hb.
    destruct (next_paragraph ps b) eqn:En.
    + assert (0 < scan_weight (drop (S b) ps)).
      { unfold next_paragraph in En.
        destruct (S b <? length ps) eqn:E'; [|discriminate].
        apply Nat.ltb_lt in E'.
        destruct (lookup_lt_is_Some_2 ps (S b) E') as [par' Hpar'].
        rewrite (scan_weight_drop _ _ _ Hpar'). lia. }
      lia.
    + unfold cursor_measure; cbn [current_p current]. lia.
Qed.

Lemma comment_step_measure ps created label re b cur k' :
  comment_step U ps created label re b cur = Go k' ->
  current_p k' = None \/
  cursor_measure ps k' < cursor_measure ps {| current_p := Some b; current := cur |}.
Proof.
  unfold comment_step.
  destruct (ps !! b) as [par|] eqn:Hb; [|intros [= <-]; left; reflexivity].
  destruct (match cur with Some 0 => _ | _ => None end); [discriminate|].
  destruct cur as [c|].
  - destruct (children par !! c) as [e|] eqn:Hc;
      [|intros [= <-]; left; reflexivity].
    apply lookup_lt_Some in Hc.
    destruct (if in_tags (tag e) ENCLOSING_TAGS then _ else None);
      [discriminate|].
    destruct (search_field U re (tail e)) as [m|].
    + destruct (is_own_echo created label e m); [|discriminate].
      intros [= <-]. apply advance_measure; assumption.
    + intros [= <-]. apply advance_measure; assumption.
  - destruct (search_field U re (text par)); [discriminate|].
    destruct (children par) as [|e es] eqn:Hcs.
    + intros [= <-]. right.
      pose proof (next_paragraph_measure ps b par Hb) as Hn.
      unfold cursor_measure at 2; cbn [current_p current]. rewrite Hb, Hcs; cbn [length].
      destruct (next_paragraph ps b) eqn:En;
        [|unfold cursor_measure; cbn [current_p current]; lia].
      assert (0 < scan_weight (drop (S b) ps)).
      { unfold next_paragraph in En.
        destruct (S b <? length ps) eqn:E'; [|discriminate].
        apply Nat.ltb_lt in E'.
        destruct (lookup_lt_is_Some_2 ps (S b) E') as [par' Hpar'].
        rewrite (scan_weight_drop _ _ _ Hpar'). lia. }
      lia.
    + destruct (String.eqb (tag e) "pb"); intros [= <-];
        [left; reflexivity|right].
      unfold cursor_measure; cbn [current_p current]. rewrite Hb, Hcs; cbn [length]. lia.
Qed.

Lemma comment_scan_fuel ps created label re fuel k :
  cursor_measure ps k < fuel ->
  comment_scan U fuel ps created label re k <> None.
Proof.
  revert k; induction fuel as [|fuel IH]; intros k Hm; [lia|].
  simpl. destruct (current_p k) as [b|] eqn:Hk; [|discriminate].
  destruct (comment_step U ps created label re b (current k)) as [k'|t m] eqn:Hs;
    [|discriminate].
  apply comment_step_measure in Hs.
  destruct k as [cp cur]; simpl in *; subst cp.
  destruct Hs as [Hn|Hlt].
  - destruct fuel; simpl; rewrite Hn; discriminate.
  - apply IH. lia.
Qed.

Lemma cursor_measure_bound ps k : cursor_measure ps k < scan_bound ps.
Proof.
  unfold cursor_measure, scan_bound.
  destruct (current_p k) as [b|]; [|lia].
  destruct (ps !! b) as [par|] eqn:Hb.
  - pose proof (scan_weight_drop_le ps b) as Hle.
    rewrite (scan_weight_drop _ _ _ Hb) in Hle.
    destruct (current k); lia.
  - pose proof (scan_weight_drop_le ps (S b)). lia.
Qed.

(** The turns a state of [add_critical_apparatus] has left. *)
Definition kstate_measure (ps : paragraphs) (k : kstate) : nat :=
  match (if k_search k then k_parent k else None) with
  | None => 0
  | Some bp =>
      if look_in_tail k then
        scan_weight (drop (S bp) ps) + 1 +
        match k_current k with
        | Some (b, c) =>
            match ps !! b with
            | Some par => length (children par) - c
            | None => 0
            end
        | None => 0
        end
      else scan_weight (drop bp ps)
  end.

Lemma next_paragraph_weight (ps : paragraphs) (bp : nat) (k : kstate) :
  kstate_measure ps {| k_current := k_current k;
                       k_parent := next_paragraph ps bp;
                       look_in_tail := false; k_search := k_search k |}
  <= scan_weight (drop (S bp) ps).
Proof.
  unfold kstate_measure; cbn [k_search k_parent look_in_tail k_current].
  destruct (k_search k); [|lia].
  unfold next_paragraph. destruct (S bp <? length ps); lia.
Qed.

Lemma critical_step_measure ps re k bp k' :
  k_search k = true -> k_parent k = Some bp ->
  critical_step U ps re k bp = KGo k' ->
  kstate_measure ps k' < kstate_measure ps k.
Proof.
  intros Hs Hp. unfold critical_step.
  unfold kstate_measure at 2. rewrite Hs, Hp.
  destruct (look_in_tail k).
  - destruct (k_current k) as [[b c]|]; [|discriminate].
    unfold child_at; cbn [fst snd].
    destruct (ps !! b) as [par|] eqn:Hb; cbn [mbind option_bind];
      [|discriminate].
    destruct (children par !! c) as [e|] eqn:Hc; [|discriminate].
    apply lookup_lt_Some in Hc.
    destruct (search_field U re (tail e)); [discriminate|].
    destruct (children par !! S c) as [e'|] eqn:Hc'; intros [= <-].
    + apply lookup_lt_Some in Hc'.
      unfold kstate_measure; cbn [k_search k_parent look_in_tail k_current].
      rewrite Hb. destruct (String.eqb (tag e') "pb"); lia.
    + pose proof (next_paragraph_weight ps bp
                    {| k_current := None; k_parent := None;
                       look_in_tail := false; k_search := k_search k |}) as Hn.
      cbn [k_current k_search] in Hn. rewrite Hs in Hn. lia.
  - destruct (ps !! bp) as [par|] eqn:Hb; [|discriminate].
    rewrite (scan_weight_drop _ _ _ Hb).
    destruct (search_field U re (text par)); [discriminate|].
    destruct (children par) as [|e es] eqn:Hcs; intros [= <-].
    + pose proof (next_paragraph_weight ps bp k) as Hn. rewrite Hs in Hn. lia.
    + unfold kstate_measure; cbn [k_search k_parent look_in_tail k_current].
      rewrite Hb, Hcs; cbn [length].
      destruct (String.eqb (tag e) "pb"); lia.
Qed.

Lemma critical_scan_fuel ps re fuel k :
  kstate_measure ps k < fuel -> critical_scan U fuel ps re k <> None.
Proof.
  revert k; induction fuel as [|fuel IH]; intros k Hm; [lia|].
  simpl.
  destruct (k_search k) eqn:Hs; [|discriminate].
  destruct (k_parent k) as [bp|] eqn:Hp; [|discriminate].
  destruct (critical_step U ps re k bp) as [k'|t m|] eqn:Hstep;
    try discriminate.
  apply (critical_step_measure _ _ _ _ _ Hs Hp) in Hstep.
  apply IH. lia.
Qed.

Lemma kstate_measure_bound ps k : kstate_measure ps k < critical_bound ps.
Proof.
  unfold kstate_measure, critical_bound.
  destruct (if k_search k then k_parent k else None) as [bp|]; [|lia].
  destruct (look_in_tail k).
  - pose proof (scan_weight_drop_le ps (S bp)).
    destruct (k_current k) as [[b c]|]; [|lia].
    destruct (ps !! b) as [par|] eqn:Hb; [|lia].
    pose proof (scan_weight_lookup _ _ _ Hb). lia.
  - pose proof (scan_weight_drop_le ps bp). lia.
Qed.

End Termination.





(** ** A match spans a part of the subject *)

Section Spans.
Context (U : Unicode).

(** [s'] lies at or after [s] in the same subject. *)
Definition reaches (s s' : mstate) : Prop :=
  m_pos s <= m_pos s' /\
  m_pos s' + length (m_rest s') = m_pos s + length (m_rest s).

Lemma reaches_refl s : reaches s s.
Proof. split; lia. Qed.

Lemma reaches_trans s1 s2 s3 : reaches s1 s2 -> reaches s2 s3 -> reaches s1 s3.
Proof. intros [? ?] [? ?]. split; lia. Qed.

Lemma or_else_Some {A} (x y : option A) (e : A) :
  or_else x y = Some e -> x = Some e \/ y = Some e.
Proof. destruct x; simpl; auto. Qed.

Lemma star_loop_reaches body greedy k n s e :
  (forall k' s0 e0, body k' s0 = Some e0 ->
     exists s1, reaches s0 s1 /\ k' s1 = Some e0) ->
  star_loop body greedy k n s = Some e ->
  exists s', reaches s s' /\ k s' = Some e.
Proof.
  intros Hbody. revert s e; induction n as [|n IH]; intros s e; simpl.
  - intros H. exists s. split; [apply reaches_refl | exact H].
  - intros H.
    assert (Hmore : forall x,
              body (fun s' => if length (m_rest s') <? length (m_rest s)
                              then star_loop body greedy k n s' else None) s
              = Some x -> exists s', reaches s s' /\ k s' = Some x).
    { intros x Hx. apply Hbody in Hx. destruct Hx as (s1 & Hr & Hx).
      destruct (length (m_rest s1) <? length (m_rest s)); [|discriminate].
      apply IH in Hx. destruct Hx as (s2 & Hr2 & Hx).
      exists s2. split; [eapply reaches_trans; eassumption | exact Hx]. }
    destruct greedy; apply or_else_Some in H; destruct H as [H|H]; auto;
      exists s; (split; [apply reaches_refl | exact H]).
Qed.

Lemma rmatch_reaches icase r k s e :
  rmatch U icase r k s = Some e ->
  exists s', reaches s s' /\ k s' = Some e.
Proof.
  revert k s e;
    induction r as [|cs|a IHa b IHb|a IHa b IHb|g a IHa| | | |cs|i a IHa];
    intros k s e; simpl; intros H.
  - exists s. split; [apply reaches_refl | exact H].
  - destruct (m_rest s) as [|c t] eqn:Hr; [discriminate|].
    destruct (cset_mem U icase cs c); [|discriminate].
    exists (m_advance c t s). split; [|exact H].
    unfold reaches, m_advance; simpl. rewrite Hr; simpl. lia.
  - apply IHa in H. destruct H as (s1 & Hr1 & H).
    apply IHb in H. destruct H as (s2 & Hr2 & H).
    exists s2. split; [eapply reaches_trans; eassumption | exact H].
  - apply or_else_Some in H. destruct H as [H|H]; [apply IHa|apply IHb]; exact H.
  - eapply star_loop_reaches; [|exact H]. intros k' s0 e0. apply IHa.
  - destruct (at_boundary U s); [|discriminate].
    exists s. split; [apply reaches_refl | exact H].
  - destruct (m_prev s); [discriminate|].
    exists s. split; [apply reaches_refl | exact H].
  - exists s. split; [apply reaches_refl|].
    destruct (m_rest s) as [|c [|c' t]]; try discriminate; [exact H|].
    destruct (char_eqb c 10%N); [exact H | discriminate].
  - exists s. split; [apply reaches_refl|].
    destruct (m_prev s); [|discriminate].
    destruct (cset_mem U icase cs c); [exact H | discriminate].
  - apply IHa in H. destruct H as (s1 & Hr1 & H).
    exists (m_capture i (m_pos s) s1). split; [|exact H].
    destruct Hr1. split; simpl; lia.
Qed.

Lemma search_from_span p pos prev rest m :
  search_from U p pos prev rest = Some m ->
  pos <= mstart m /\ mstart m <= mend m /\ mend m <= pos + length rest.
Proof.
  revert pos prev; induction rest as [|c t IH]; intros pos prev; simpl;
    unfold match_at;
    destruct (rmatch U (p_icase p) (p_re p) Some _) as [e|] eqn:Hm.
  - intros [= <-]; simpl. apply rmatch_reaches in Hm.
    destruct Hm as (s' & [H1 H2] & [= ->]). simpl in *. lia.
  - discriminate.
  - intros [= <-]; simpl. apply rmatch_reaches in Hm.
    destruct Hm as (s' & [H1 H2] & [= ->]). simpl in *. lia.
  - intros H. apply IH in H. lia.
Qed.

Lemma re_search_span p subject m :
  re_search U p subject = Some m ->
  mstart m <= mend m /\ mend m <= length subject.
Proof.
  intros H. apply search_from_span in H. lia.
Qed.

End Spans.

(** ** The splice keeps the text of the field *)

(** The tail and the text of the element at a position of a sibling list,
    a missing one read as empty. *)
Definition tail_at (l : list element) (i : nat) : pystr := safe (l !! i ≫= tail).
Definition text_at (l : list element) (i : nat) : pystr := safe (l !! i ≫= text).

Section SpliceFacts.
Context (U : Unicode).

Lemma cut_concat (field : pystr) (m : rematch) :
  mstart m <= mend m ->
  text_before (cut field m) ++ text_label (cut field m) ++ text_after (cut field m)
  = field.
Proof.
  intros H. unfold cut, slice_to, slice, slice_from; simpl.
  rewrite <- (take_drop (mstart m) field) at 4. f_equal.
  rewrite <- (take_drop (mend m - mstart m) (drop (mstart m) field)) at 2.
  f_equal. rewrite drop_drop. f_equal. lia.
Qed.

Lemma give_back_concat (raw : pystr) (p : pieces) :
  text_before (give_back_punctuation raw p) ++
  text_label (give_back_punctuation raw p) ++
  text_after (give_back_punctuation raw p)
  = text_before p ++ text_label p ++ text_after p.
Proof.
  unfold give_back_punctuation.
  destruct (last (text_label p)) as [c|] eqn:Hl; [|reflexivity].
  destruct (contains [c] punctuation && negb (endswith [c] raw)); [|reflexivity].
  simpl. apply last_Some in Hl. destruct Hl as [l' Hl]. rewrite Hl.
  rewrite removelast_last. rewrite <- (assoc_L (++) l' [c]). reflexivity.
Qed.

Lemma tail_after_anchor fresh a nt after :
  tail (after_anchor U fresh a nt (Some after) after) = Some after.
Proof. destruct nt; reflexivity. Qed.

(** A match in a tail: the tail of the element, of the anchor and of the
    node behind the anchor together are the old tail. *)
Lemma splice_tail_pieces fresh a nt m l c l' :
  mstart m <= mend m ->
  splice_tail U fresh a nt m l c = Some l' ->
  exists cur field,
    l !! c = Some cur /\ tail cur = Some field /\
    tail_at l' c ++ tail_at l' (c + 1) ++ tail_at l' (c + 2) = field /\
    set_tail (Some field) <$> l' !! c = Some cur /\
    take c l' = take c l /\ drop (c + 3) l' = drop (c + 1) l.
Proof.
  intros Hm. unfold splice_tail.
  destruct (l !! c) as [cur|] eqn:Hc; [|discriminate]. cbn [mbind option_bind].
  destruct (tail cur) as [field|] eqn:Ht; [|discriminate]. cbn [mbind option_bind].
  intros [= <-]. exists cur, field. split; [reflexivity|]. split; [exact Ht|].
  pose proof (lookup_lt_Some _ _ _ Hc) as Hlt.
  assert (Hlen : length (take c l) = c) by (rewrite length_take; lia).
  unfold tail_at.
  rewrite !lookup_app_r by lia. rewrite Hlen.
  replace (c - c) with 0 by lia. replace (c + 1 - c) with 1 by lia.
  replace (c + 2 - c) with 2 by lia.
  cbn [lookup list_lookup mbind option_bind fmap option_fmap option_map].
  rewrite tail_after_anchor. cbn [tail set_tail safe default id].
  split; [apply (cut_concat field m Hm)|].
  split; [destruct cur as [? ? ? ? tl ?]; simpl in Ht; subst tl; reflexivity|].
  split; [apply take_app_length'; lia|].
  rewrite (drop_app_add' _ _ c 3) by lia.
  replace (c + 1) with (S c) by lia. reflexivity.
Qed.

(** A match in the text of an element that is not a styled run: the text of
    the element and the tails of its two new first children together are the
    old text. *)
Lemma splice_text_pieces_plain fresh a nt m l i l' par :
  mstart m <= mend m ->
  l !! i = Some par ->
  in_tags (tag par) ENCLOSING_TAGS = false ->
  splice_text U fresh a nt m l i = Some l' ->
  exists field par',
    text par = Some field /\ l' = <[i := par']> l /\
    safe (text par') ++ tail_at (children par') 0 ++ tail_at (children par') 1
    = field /\
    drop 2 (children par') = children par /\
    tail par' = tail par /\ tag par' = tag par.
Proof.
  intros Hm Hi Htag. unfold splice_text. rewrite Hi. cbn [mbind option_bind].
  destruct (text par) as [field|] eqn:Ht; [|discriminate]. cbn [mbind option_bind].
  rewrite Htag. cbn [negb].
  intros [= <-]. eexists field, _. split; [reflexivity|].
  split; [reflexivity|].
  unfold tail_at.
  cbn [lookup list_lookup mbind option_bind children set_children set_text
       text tail set_tail safe default id tag drop].
  rewrite tail_after_anchor. cbn [safe default id].
  split; [apply (cut_concat field m Hm)|]. auto.
Qed.

(** A match in the text of a styled run, for a gloss: the texts of the
    elements that take the place of the run, in order, are the old text. *)
Lemma splice_text_pieces_run fresh a m l i l' par :
  mstart m <= mend m ->
  l !! i = Some par ->
  in_tags (tag par) ENCLOSING_TAGS = true ->
  splice_text U fresh a gloss m l i = Some l' ->
  exists field n,
    text par = Some field /\
    length l' = length l + (n - 1) /\ 3 <= n /\
    concat (map (fun e => safe (text e)) (take n (drop i l'))) = field /\
    take i l' = take i l /\ drop (i + n) l' = drop (S i) l.
Proof.
  intros Hm Hi Htag. unfold splice_text. rewrite Hi. cbn [mbind option_bind].
  destruct (text par) as [field|] eqn:Ht; [|discriminate]. cbn [mbind option_bind].
  rewrite Htag. cbn [negb].
  pose proof (lookup_lt_Some _ _ _ Hi) as Hlt.
  assert (Hlen : length (take i l) = i) by (rewrite length_take; lia).
  set (p := cut field m).
  set (cb := if nonempty (text_before p) then _ else _).
  set (ca := if nonempty (text_after p) then _ else _).
  set (seg := cb ++ new_anchor fresh a ::
               [set_text (Some (text_label p)) par;
                after_anchor U fresh a gloss None (text_after p)] ++ ca).
  assert (Hseg : length seg = length cb + 3 + length ca).
  { subst seg. rewrite length_app. cbn [length app]. rewrite ?length_app. cbn [length]. lia. }
  assert (Hshape : forall rest,
            cb ++ new_anchor fresh a ::
              [set_text (Some (text_label p)) par;
               after_anchor U fresh a gloss None (text_after p)] ++ ca ++ rest
            = seg ++ rest).
  { intros rest. subst seg. rewrite <- !app_assoc. cbn [app]. rewrite <- ?app_assoc. reflexivity. }
  rewrite Hshape. intros [= <-].
  exists field, (length cb + 3 + length ca).
  split; [reflexivity|].
  split; [rewrite !length_app, Hseg, length_drop; lia|].
  split; [lia|].
  assert (Hcb : concat (map (fun e => safe (text e)) cb) = text_before p).
  { subst cb. destruct (text_before p); simpl; rewrite ?app_nil_r; reflexivity. }
  assert (Hca : concat (map (fun e => safe (text e)) ca) = text_after p).
  { subst ca. destruct (text_after p); simpl; rewrite ?app_nil_r; reflexivity. }
  split.
  { rewrite (drop_app_length' _ _ i) by lia.
    rewrite take_app_length' by lia.
    unfold seg. rewrite List.map_app, concat_app, Hcb. simpl.
    rewrite Hca.
    apply (cut_concat field m Hm). }
  split; [apply take_app_length'; lia|].
  rewrite (drop_app_add' _ _ i) by lia.
  apply drop_app_length'. lia.
Qed.

Context (lem_tbd : nat -> lemma -> pystr * list element * nat).
Context (rdg_tbd : nat -> reading -> list element * nat).

Lemma new_critical_app_shape fresh doc_num l rs p app fresh' :
  new_critical_app lem_tbd rdg_tbd fresh doc_num l rs p = Some (app, fresh') ->
  tail app = Some (text_after p) /\
  text_at (children app) 0 = text_label p.
Proof.
  unfold new_critical_app.
  destruct (if contains (lit "tbd") (lem_wit l) then _ else _) as [[wit notes] f1].
  destruct (rdgs_elements rdg_tbd f1 doc_num rs) as [[rdgs f2]|];
    cbn [mbind option_bind]; [|discriminate].
  intros [= <- <-]. split; reflexivity.
Qed.

(** An apparatus entry placed in a tail: the tail of the element, the text
    of the lemma inside the new [app] and the tail of the [app] together are
    the old tail. *)
Lemma add_critical_pieces_tail fresh doc_num m l rs ps b c ps' pos fresh' :
  mstart m <= mend m ->
  add_critical U lem_tbd rdg_tbd fresh doc_num m l rs ps (in_tail b c)
  = Some (ps', pos, fresh') ->
  exists par cur field par',
    ps !! b = Some par /\ children par !! c = Some cur /\
    tail cur = Some field /\
    ps' = <[b := par']> ps /\ pos = (b, S c) /\
    tail_at (children par') c ++
    text_at (default [] (children <$> children par' !! S c)) 0 ++
    tail_at (children par') (S c) = field /\
    take c (children par') = take c (children par) /\
    drop (c + 2) (children par') = drop (c + 1) (children par).
Proof.
  intros Hm. unfold add_critical.
  destruct (ps !! b) as [par|] eqn:Hb; [|discriminate]. cbn [mbind option_bind].
  destruct (children par !! c) as [cur|] eqn:Hc; [|discriminate].
  cbn [mbind option_bind].
  destruct (tail cur) as [field|] eqn:Ht; [|discriminate]. cbn [mbind option_bind].
  set (p := give_back_punctuation _ _).
  destruct (new_critical_app lem_tbd rdg_tbd fresh doc_num l rs p)
    as [[app f']|] eqn:Happ; cbn [mbind option_bind]; [|discriminate].
  intros [= <- <- <-].
  apply new_critical_app_shape in Happ. destruct Happ as [Htl Hlem].
  eexists par, cur, field, _.
  split; [reflexivity|]. split; [exact Hc|]. split; [exact Ht|].
  split; [reflexivity|]. split; [reflexivity|].
  pose proof (lookup_lt_Some _ _ _ Hc) as Hlt.
  assert (Hlen : length (take c (children par)) = c)
    by (rewrite length_take; lia).
  cbn [children set_children]. unfold tail_at.
  rewrite !lookup_app_r by lia. rewrite Hlen.
  replace (c - c) with 0 by lia. replace (S c - c) with 1 by lia.
  cbn [lookup list_lookup mbind option_bind fmap option_fmap option_map
       default tail set_tail safe id].
  rewrite Htl, Hlem. cbn [safe default id].
  split.
  { subst p. rewrite give_back_concat. apply (cut_concat field m Hm). }
  split; [apply take_app_length'; lia|].
  rewrite (drop_app_add' _ _ c 2) by lia.
  replace (c + 1) with (S c) by lia. reflexivity.
Qed.

(** An apparatus entry placed in the text of a paragraph: the text of the
    paragraph, the text of the lemma inside the new first child and the tail
    of that child together are the old text. *)
Lemma add_critical_pieces_text fresh doc_num m l rs ps b ps' pos fresh' :
  mstart m <= mend m ->
  add_critical U lem_tbd rdg_tbd fresh doc_num m l rs ps (in_text b)
  = Some (ps', pos, fresh') ->
  exists par field par',
    ps !! b = Some par /\ text par = Some field /\
    ps' = <[b := par']> ps /\ pos = (b, 0) /\
    safe (text par') ++
    text_at (default [] (children <$> children par' !! 0)) 0 ++
    tail_at (children par') 0 = field /\
    drop 1 (children par') = children par.
Proof.
  intros Hm. unfold add_critical.
  destruct (ps !! b) as [par|] eqn:Hb; [|discriminate]. cbn [mbind option_bind].
  destruct (text par) as [field|] eqn:Ht; [|discriminate]. cbn [mbind option_bind].
  set (p := give_back_punctuation _ _).
  destruct (new_critical_app lem_tbd rdg_tbd fresh doc_num l rs p)
    as [[app f']|] eqn:Happ; cbn [mbind option_bind]; [|discriminate].
  intros [= <- <- <-].
  apply new_critical_app_shape in Happ. destruct Happ as [Htl Hlem].
  eexists par, field, _.
  split; [reflexivity|]. split; [exact Ht|].
  split; [reflexivity|]. split; [reflexivity|].
  unfold tail_at.
  cbn [children set_children text set_text lookup list_lookup mbind option_bind
       fmap option_fmap option_map default safe id drop].
  rewrite Htl, Hlem. cbn [safe default id].
  split; [|reflexivity].
  subst p. rewrite give_back_concat. apply (cut_concat field m Hm).
Qed.

End SpliceFacts.

(** C7: every splice at a match cuts the owning text field into a part
    before, the matched part and a part after whose concatenation is the
    field (a match object always has its start before its end), and these
    three parts are the texts the changed nodes carry: for a comment or a
    footnote placed in a tail, the tails of the element, the anchor and the
    node behind it; in the text of a paragraph, the text of the paragraph and
    the tails of its two new first children; for a comment in a styled run,
    the texts of the elements that replace the run; for an apparatus entry,
    the shortened field, the text of the lemma and the tail of the [app] (a
    closing punctuation mark moved from the lemma to the tail stays between
    them).  Footnotes are only placed in [p] elements, never in a styled
    run. *)
Theorem splice_keeps_field_text (U : Unicode)
    (lem_tbd : nat -> lemma -> pystr * list element * nat)
    (rdg_tbd : nat -> reading -> list element * nat) :
  (forall re subject m,
     re_search U re subject = Some m -> mstart m <= mend m) /\
  (forall field m,
     mstart m <= mend m ->
     text_before (cut field m) ++ text_label (cut field m) ++
     text_after (cut field m) = field) /\
  (forall fresh a nt m l c l',
     mstart m <= mend m ->
     splice_tail U fresh a nt m l c = Some l' ->
     exists cur field,
       l !! c = Some cur /\ tail cur = Some field /\
       tail_at l' c ++ tail_at l' (c + 1) ++ tail_at l' (c + 2) = field /\
       set_tail (Some field) <$> l' !! c = Some cur /\
       take c l' = take c l /\ drop (c + 3) l' = drop (c + 1) l) /\
  (forall fresh a nt m l i l' par,
     mstart m <= mend m ->
     l !! i = Some par ->
     in_tags (tag par) ENCLOSING_TAGS = false ->
     splice_text U fresh a nt m l i = Some l' ->
     exists field par',
       text par = Some field /\ l' = <[i := par']> l /\
       safe (text par') ++ tail_at (children par') 0 ++
       tail_at (children par') 1 = field /\
       drop 2 (children par') = children par /\
       tail par' = tail par /\ tag par' = tag par) /\
  (forall fresh a m l i l' par,
     mstart m <= mend m ->
     l !! i = Some par ->
     in_tags (tag par) ENCLOSING_TAGS = true ->
     splice_text U fresh a gloss m l i = Some l' ->
     exists field n,
       text par = Some field /\
       length l' = length l + (n - 1) /\ 3 <= n /\
       concat (map (fun e => safe (text e)) (take n (drop i l'))) = field /\
       take i l' = take i l /\ drop (i + n) l' = drop (S i) l) /\
  (forall fresh doc_num m l rs ps b c ps' pos fresh',
     mstart m <= mend m ->
     add_critical U lem_tbd rdg_tbd fresh doc_num m l rs ps (in_tail b c)
     = Some (ps', pos, fresh') ->
     exists par cur field par',
       ps !! b = Some par /\ children par !! c = Some cur /\
       tail cur = Some field /\
       ps' = <[b := par']> ps /\ pos = (b, S c) /\
       tail_at (children par') c ++
       text_at (default [] (children <$> children par' !! S c)) 0 ++
       tail_at (children par') (S c) = field /\
       take c (children par') = take c (children par) /\
       drop (c + 2) (children par') = drop (c + 1) (children par)) /\
  (forall fresh doc_num m l rs ps b ps' pos fresh',
     mstart m <= mend m ->
     add_critical U lem_tbd rdg_tbd fresh doc_num m l rs ps (in_text b)
     = Some (ps', pos, fresh') ->
     exists par field par',
       ps !! b = Some par /\ text par = Some field /\
       ps' = <[b := par']> ps /\ pos = (b, 0) /\
       safe (text par') ++
       text_at (default [] (children <$> children par' !! 0)) 0 ++
       tail_at (children par') 0 = field /\
       drop 1 (children par') = children par).
Proof.
  split; [|split; [|split; [|split; [|split; [|split]]]]].
  - intros re subject m H. apply (re_search_span U) in H. lia.
  - apply cut_concat.
  - apply splice_tail_pieces.
  - apply splice_text_pieces_plain.
  - apply splice_text_pieces_run.
  - apply add_critical_pieces_tail.
  - apply add_critical_pieces_text.
Qed.

(** The comment [Augustinus] placed in the tail of a page break. *)
Lemma splice_keeps_field_text_witness :
  exists m l',
    re_search ascii_text
      (default {| p_icase := true; p_re := Eps |}
               (create_label_regex ascii_text (lit "Augustinus")))
      (lit "...sicut ait Augustinus...") = Some m /\
    mstart m <= mend m /\
    splice_tail ascii_text 10
      {| comment_i := 1; label_text := lit "Augustinus";
         note_text := Some (lit "cf. note");
         anchor_id_template := lit "a-{}"; app_id_template := lit "#a-{}" |}
      gloss m
      [Element 1 "pb" [("n"%string, lit "7")] None
               (Some (lit "...sicut ait Augustinus...")) []] 0 = Some l' /\
    tail_at l' 0 = lit "...sicut ait " /\
    tail_at l' 1 = lit "Augustinus" /\
    tail_at l' 2 = lit "..." /\
    tail_at l' 0 ++ tail_at l' (0 + 1) ++ tail_at l' (0 + 2)
    = lit "...sicut ait Augustinus...".
Proof.
  eexists. eexists.
  split; [vm_compute; reflexivity|].
  split; [vm_compute; lia|].
  split; [vm_compute; reflexivity|].
  split; [vm_compute; reflexivity|].
  split; [vm_compute; reflexivity|].
  split; [vm_compute; reflexivity|].
  destruct (proj1 (proj2 (proj2
              (splice_keeps_field_text ascii_text
                 (fun n _ => ([], [], n)) (fun n _ => ([], n)))))
              10
              {| comment_i := 1; label_text := lit "Augustinus";
                 note_text := Some (lit "cf. note");
                 anchor_id_template := lit "a-{}";
                 app_id_template := lit "#a-{}" |}
              gloss {| mstart := 13; mend := 23; mgroups := [] |}
              [Element 1 "pb" [("n"%string, lit "7")] None
                       (Some (lit "...sicut ait Augustinus...")) []] 0 _
              ltac:(simpl; lia) eq_refl)
    as (cur & field & Hc & Ht & Hcat & _).
  injection Hc as <-. injection Ht as <-. exact Hcat.
Defined.

(** ** The order of the comments of a page *)

Section SortFacts.
Context {A K : Type} (leb : K -> K -> bool) (key : A -> K).
Hypothesis leb_total : forall x y, leb x y = true \/ leb y x = true.
Hypothesis leb_trans : forall x y z, leb x y = true -> leb y z = true -> leb x z = true.

Definition key_le (x y : A) : Prop := leb (key x) (key y) = true.

Lemma insert_by_perm (x : A) (l : list A) :
  Permutation (x :: l) (insert_by leb key x l).
Proof.
  induction l as [|y l IH]; simpl; [reflexivity|].
  destruct (leb (key x) (key y)); [reflexivity|].
  rewrite perm_swap. apply perm_skip. exact IH.
Qed.

Lemma sorted_by_perm (l : list A) : Permutation l (sorted_by leb key l).
Proof.
  induction l as [|x l IH]; simpl; [reflexivity|].
  rewrite <- insert_by_perm. apply perm_skip. exact IH.
Qed.

Lemma insert_by_sorted (x : A) (l : list A) :
  StronglySorted key_le l -> StronglySorted key_le (insert_by leb key x l).
Proof.
  induction 1 as [|y l Hs IH Hall]; simpl.
  - constructor; constructor.
  - destruct (leb (key x) (key y)) eqn:E.
    + constructor; [constructor; assumption|].
      constructor; [exact E|].
      eapply Forall_impl; [exact Hall|]. intros z Hz.
      unfold key_le in *. eapply leb_trans; eassumption.
    + constructor; [exact IH|].
      assert (Hyx : key_le y x).
      { destruct (leb_total (key x) (key y)) as [H|H]; [congruence|exact H]. }
      rewrite <- (insert_by_perm x l). constructor; assumption.
Qed.

Lemma sorted_by_sorted (l : list A) : StronglySorted key_le (sorted_by leb key l).
Proof.
  induction l as [|x l IH]; simpl; [constructor|].
  apply insert_by_sorted. exact IH.
Qed.

Lemma strongly_sorted_before (l1 l2 l3 : list A) (x y : A) :
  StronglySorted key_le (l1 ++ x :: l2 ++ y :: l3) -> key_le x y.
Proof.
  induction l1 as [|z l1 IH]; simpl; intros H; inversion H as [|? ? Hs Hall]; subst.
  - rewrite Forall_app in Hall. destruct Hall as [_ Hall].
    inversion Hall; assumption.
  - apply IH. exact Hs.
Qed.

End SortFacts.

Lemma key_leb_total (x y : Z * Z * Z) : key_leb x y = true \/ key_leb y x = true.
Proof.
  destruct x as [[a1 b1] c1], y as [[a2 b2] c2]. unfold key_leb.
  rewrite !orb_true_iff, !andb_true_iff, !orb_true_iff, !andb_true_iff,
          !Z.ltb_lt, !Z.eqb_eq, !Z.leb_le. lia.
Qed.

Lemma key_leb_trans (x y z : Z * Z * Z) :
  key_leb x y = true -> key_leb y z = true -> key_leb x z = true.
Proof.
  destruct x as [[a1 b1] c1], y as [[a2 b2] c2], z as [[a3 b3] c3].
  unfold key_leb.
  rewrite !orb_true_iff, !andb_true_iff, !orb_true_iff, !andb_true_iff,
          !Z.ltb_lt, !Z.eqb_eq, !Z.leb_le. lia.
Qed.

(** The first component of the sort key. *)
Definition line_num (U : Unicode) (cm : comment) : Z := fst (fst (get_sort_key U cm)).

(** C5, as the code has it: the comments of a page are placed in the order
    of a stable sort on the key (the first run of digits of the comment's
    number as an integer, or 99999 when the number is missing or has no
    digit; the length of the label, negated; the original index), compared
    as tuples.  The sorted list is a rearrangement of the queued one, every
    comment in it has a key at most that of every later one, and so of two
    comments with the same first component the one placed first has the
    label that is at least as long. *)
Theorem sorted_comments_order (U : Unicode) (l : list comment) :
  Permutation l (sorted_comments U l) /\
  StronglySorted (fun x y => key_leb (get_sort_key U x) (get_sort_key U y) = true)
                 (sorted_comments U l) /\
  (forall cm,
     get_sort_key U cm =
     (match c_number cm with
      | Some number =>
          match re_search U digits number with
          | Some m => int_of_digits U (group_str number m 0)
          | None => 99999%Z
          end
      | None => 99999%Z
      end,
      (- Z.of_nat (length (c_label cm)))%Z, Z.of_nat (c_index cm))) /\
  (forall l1 x l2 y l3,
     sorted_comments U l = l1 ++ x :: l2 ++ y :: l3 ->
     (line_num U x <= line_num U y)%Z /\
     (line_num U x = line_num U y ->
      length (c_label y) <= length (c_label x) /\
      (length (c_label y) = length (c_label x) -> c_index x <= c_index y))).
Proof.
  split; [apply sorted_by_perm|].
  split; [apply (sorted_by_sorted key_leb (get_sort_key U) key_leb_total key_leb_trans)|].
  split; [reflexivity|].
  intros l1 x l2 y l3 Heq.
  pose proof (sorted_by_sorted key_leb (get_sort_key U) key_leb_total
                key_leb_trans l) as Hs.
  unfold sorted_comments in Heq. rewrite Heq in Hs.
  apply strongly_sorted_before in Hs. unfold key_le in Hs.
  unfold line_num.
  destruct (get_sort_key U x) as [[a1 b1] c1] eqn:Ex.
  destruct (get_sort_key U y) as [[a2 b2] c2] eqn:Ey.
  unfold get_sort_key in Ex, Ey.
  injection Ex as Ea1 Eb1 Ec1. injection Ey as Ea2 Eb2 Ec2.
  unfold key_leb in Hs.
  rewrite !orb_true_iff, !andb_true_iff, !orb_true_iff, !andb_true_iff,
          !Z.ltb_lt, !Z.eqb_eq, !Z.leb_le in Hs.
  cbn [fst snd]. lia.
Qed.

(** The claim as worded fails on the code in three ways: a shorter label
    that occurs in a longer one is placed first when its number is smaller;
    a missing number (99999) sorts before the number 100000; and the digits
    are read from the number of the comment, not from its label. *)
Lemma sorted_comments_counterexample :
  let mk n l i := {| c_number := Some (lit n); c_label := lit l;
                     c_note := None; c_index := i |} in
  (contains (lit "ab") (lit "abc") = true /\
   sorted_comments ascii_text [mk "7" "abc" 1; mk "5" "ab" 2]
   = [mk "5" "ab" 2; mk "7" "abc" 1]) /\
  sorted_comments ascii_text [mk "100000" "x" 1; mk "???" "y" 2]
  = [mk "???" "y" 2; mk "100000" "x" 1] /\
  sorted_comments ascii_text [mk "2" "1 x" 1; mk "1" "2 y" 2]
  = [mk "1" "2 y" 2; mk "2" "1 x" 1].
Proof. vm_compute. repeat split. Qed.

(** ** The reading-side reconciler *)

(** The two grammars in the words of the specification: the styles of the
    pieces alternate strictly and there are as many plain pieces as italic
    ones; the pieces then pair up two by two. *)
Fixpoint alternating (l : list (style * pystr)) : bool :=
  match l with
  | (s1, _) :: (((s2, _) :: _) as rest) => negb (style_eqb s1 s2) && alternating rest
  | _ => true
  end.

Definition count_style (s : style) (l : list (style * pystr)) : nat :=
  length (filter (fun piece => style_eqb (fst piece) s = true) l).

Definition regular (l : list (style * pystr)) : bool :=
  alternating l && (count_style plain l =? count_style italic l).

Fixpoint chunk2 {A} (l : list A) : list (A * A) :=
  match l with
  | a :: b :: rest => (a, b) :: chunk2 rest
  | _ => []
  end.

(** The reading a pair of pieces gives: text then sigla in the first
    grammar, sigla then text in the second. *)
Definition reading_of (U : Unicode) (doc_num : pystr) (first : style)
    (pair : (style * pystr) * (style * pystr)) : reading :=
  match first with
  | plain =>
      {| rdg_wit := default [] (parse_wits U (snd (snd pair)) doc_num (lit "a") false);
         rdg_text := snd (fst pair) |}
  | italic =>
      {| rdg_wit := default [] (parse_wits U (snd (fst pair)) doc_num (lit "b") false);
         rdg_text := snd (snd pair) |}
  end.

Section WitnessFacts.
Context (U : Unicode).

Lemma count_style_cons s p l :
  count_style s (p :: l) =
  (if style_eqb (fst p) s then 1 else 0) + count_style s l.
Proof.
  unfold count_style. rewrite filter_cons.
  destruct (style_eqb (fst p) s) eqn:E.
  - rewrite decide_True by reflexivity. reflexivity.
  - rewrite decide_False by discriminate. reflexivity.
Qed.

Lemma alternating_cons s1 t1 s2 t2 rest :
  alternating ((s1, t1) :: (s2, t2) :: rest) =
  negb (style_eqb s1 s2) && alternating ((s2, t2) :: rest).
Proof. reflexivity. Qed.

Lemma alternation_spec prev t counts rest :
  alternation prev counts rest =
  if alternating ((prev, t) :: rest)
  then Some (fst counts + count_style plain rest,
             snd counts + count_style italic rest)
  else None.
Proof.
  revert prev t counts; induction rest as [|[s t'] rest IH]; intros prev t counts.
  - simpl. unfold count_style; simpl. rewrite !Nat.add_0_r.
    destruct counts; reflexivity.
  - rewrite alternating_cons. cbn [alternation].
    assert (Hs : style_eqb s (next_style prev) = negb (style_eqb prev s))
      by (destruct prev, s; reflexivity).
    rewrite Hs. destruct (style_eqb prev s); cbn [negb andb].
    + reflexivity.
    + rewrite (IH s t'). destruct (alternating ((s, t') :: rest)); [|reflexivity].
      rewrite !count_style_cons. destruct s, counts; cbn [fst snd style_eqb];
        do 2 f_equal; lia.
Qed.

Lemma alternating_tail p rest :
  alternating (p :: rest) = true -> alternating rest = true.
Proof.
  destruct p as [s1 t1], rest as [|[s2 t2] rest]; [reflexivity|].
  rewrite alternating_cons, andb_true_iff. tauto.
Qed.

Lemma regular_even (l : list (style * pystr)) :
  regular l = true ->
  evens_but_last l = map fst (chunk2 l) /\ odds l = map snd (chunk2 l).
Proof.
  unfold regular. rewrite andb_true_iff, Nat.eqb_eq.
  induction l as [l IH] using (induction_ltof1 _ (@length _)).
  unfold ltof in IH. intros [Ha Hc].
  destruct l as [|[s1 t1] [|[s2 t2] rest]].
  - split; reflexivity.
  - rewrite !count_style_cons in Hc. unfold count_style in Hc.
    destruct s1; simpl in Hc; discriminate.
  - rewrite alternating_cons in Ha. apply andb_true_iff in Ha.
    destruct Ha as [Hne Ha].
    rewrite !count_style_cons in Hc.
    assert (Hrest : count_style plain rest = count_style italic rest)
      by (destruct s1, s2; cbn [fst style_eqb negb] in *; try discriminate; lia).
    apply alternating_tail in Ha.
    destruct (IH rest) as [He Ho]; [simpl; lia | split; assumption|].
    unfold evens_but_last, odds in *.
    destruct rest as [|p rest'].
    + split; reflexivity.
    + split.
      * change (removelast ((s1, t1) :: (s2, t2) :: p :: rest'))
          with ((s1, t1) :: (s2, t2) :: removelast (p :: rest')).
        cbn [every_other chunk2 map fst]. f_equal. exact He.
      * cbn [drop every_other chunk2 map snd] in *.
        destruct rest' as [|q rest'']; [|].
        -- rewrite !count_style_cons in Hrest. unfold count_style in Hrest.
           destruct p as [[] ?]; simpl in Hrest; discriminate.
        -- f_equal. exact Ho.
Qed.

Lemma parse_wits_total wit_str doc_num position add_default sigla :
  dict_get doc_num edition_ids = Some sigla ->
  parse_wits U wit_str doc_num position add_default =
  Some (default [] (parse_wits U wit_str doc_num position add_default)).
Proof.
  intros H. unfold parse_wits. rewrite H. reflexivity.
Qed.

Lemma pair_up_plain doc_num sigla (ps : list ((style * pystr) * (style * pystr))) :
  dict_get doc_num edition_ids = Some sigla ->
  pair_up U doc_num (lit "a") (map fst ps) (map snd ps) =
  Some (map (reading_of U doc_num plain) ps).
Proof.
  intros H. induction ps as [|[t w] ps IH]; [reflexivity|].
  cbn [map fst snd pair_up].
  rewrite (parse_wits_total _ _ _ _ _ H). cbn [mbind option_bind].
  rewrite IH. reflexivity.
Qed.

Lemma pair_up_italic doc_num sigla (ps : list ((style * pystr) * (style * pystr))) :
  dict_get doc_num edition_ids = Some sigla ->
  pair_up U doc_num (lit "b") (map snd ps) (map fst ps) =
  Some (map (reading_of U doc_num italic) ps).
Proof.
  intros H. induction ps as [|[w t] ps IH]; [reflexivity|].
  cbn [map fst snd pair_up].
  rewrite (parse_wits_total _ _ _ _ _ H). cbn [mbind option_bind].
  rewrite IH. reflexivity.
Qed.

End WitnessFacts.

(** C6, as the code has it: for a list of two or more pieces the reconciler
    accepts exactly the two strict alternations with as many plain pieces as
    italic ones, text then sigla when the first piece is plain and sigla
    then text when it is italic, and pairs the pieces up; a list of two or
    more pieces that is irregular gives the single marker [unparsed] with the
    stripped texts joined by a bar.  A single plain piece is attributed to
    the default witness of the document and a single italic piece is marked
    [tbd].  On a list that is not empty, for a document number of the
    tables, no exception is raised. *)
Theorem extract_witnesses_right_grammars (U : Unicode)
    (after : list (style * pystr)) (doc_num : pystr)
    (sigla : list (pystr * pystr)) (dflt : pystr) :
  after <> [] ->
  dict_get doc_num edition_ids = Some sigla ->
  default_edition_id doc_num = Some dflt ->
  extract_witnesses_right U after doc_num =
  Ok match after with
     | [] => []
     | [(plain, t)] => [{| rdg_wit := 35%N :: dflt; rdg_text := t |}]
     | [(italic, t)] => [{| rdg_wit := lit "tbd"; rdg_text := t |}]
     | (first, _) :: _ =>
         if regular after
         then map (reading_of U doc_num first) (chunk2 after)
         else unparsed U after
     end.
Proof.
  intros Hne Hs Hd.
  destruct after as [|[s1 t1] [|p2 rest]]; [contradiction| |].
  - destruct s1; simpl; [rewrite Hd|]; reflexivity.
  - set (after := (s1, t1) :: p2 :: rest).
    assert (Hcode :
      extract_witnesses_right U after doc_num =
      match alternation s1 (match s1 with plain => (1, 0) | italic => (0, 1) end)
                        (p2 :: rest) with
      | None => Ok (unparsed U after)
      | Some (n_plain, n_italic) =>
          if negb (n_plain =? n_italic) then Ok (unparsed U after)
          else match s1 with
               | plain => or_raise (pair_up U doc_num (lit "a")
                                      (evens_but_last after) (odds after))
               | italic => or_raise (pair_up U doc_num (lit "b")
                                       (odds after) (evens_but_last after))
               end
      end) by (destruct s1; reflexivity).
    rewrite Hcode. rewrite (alternation_spec s1 t1).
    fold after. unfold regular.
    assert (Hcp : count_style plain after =
                  fst (match s1 with plain => (1, 0) | italic => (0, 1) end) +
                  count_style plain (p2 :: rest))
      by (unfold after; rewrite (count_style_cons plain (s1, t1));
          destruct s1; reflexivity).
    assert (Hci : count_style italic after =
                  snd (match s1 with plain => (1, 0) | italic => (0, 1) end) +
                  count_style italic (p2 :: rest))
      by (unfold after; rewrite (count_style_cons italic (s1, t1));
          destruct s1; reflexivity).
    rewrite <- Hcp, <- Hci.
    destruct (alternating after) eqn:Ha; cbn [andb];
      [|destruct s1; reflexivity].
    destruct (count_style plain after =? count_style italic after) eqn:Hc;
      cbn [negb]; [|destruct s1; reflexivity].
    destruct (regular_even after) as [He Ho];
      [unfold regular; rewrite Ha, Hc; reflexivity|].
    rewrite He, Ho.
    destruct s1.
    + rewrite (pair_up_plain U doc_num sigla _ Hs). reflexivity.
    + rewrite (pair_up_italic U doc_num sigla _ Hs). reflexivity.
Qed.

(** The citation [fide W, Sr a St] of document 01. *)
Lemma extract_witnesses_right_grammars_witness :
  extract_witnesses_right ascii_text
    [(plain, lit "fide"); (italic, lit "W, Sr a St")] (lit "01")
  = Ok [{| rdg_wit := lit "#W #Sr #St"; rdg_text := lit "fide" |}].
Proof.
  rewrite (extract_witnesses_right_grammars ascii_text
             [(plain, lit "fide"); (italic, lit "W, Sr a St")] (lit "01")
             (default [] (dict_get (lit "01") edition_ids)) (lit "St")
             ltac:(discriminate) eq_refl eq_refl).
  vm_compute. reflexivity.
Defined.

(** The claim as worded fails on the code: a single plain piece has one text
    and no sigla, and is attributed to the default witness, not marked
    unparsed; and the empty list raises. *)
Lemma extract_witnesses_right_counterexample :
  extract_witnesses_right ascii_text [(plain, lit "fide")] (lit "01")
  = Ok [{| rdg_wit := lit "#St"; rdg_text := lit "fide" |}] /\
  count_style plain [(plain, lit "fide")] <> count_style italic [(plain, lit "fide")] /\
  extract_witnesses_right ascii_text [(plain, lit "fide")] (lit "01")
  <> Ok (unparsed ascii_text [(plain, lit "fide")]) /\
  extract_witnesses_right ascii_text [] (lit "01") = Raised.
Proof.
  split; [vm_compute; reflexivity|].
  split; [vm_compute; discriminate|].
  split; [vm_compute; discriminate|].
  reflexivity.
Qed.

(** ** The placeholder pattern *)

Section Placeholder.
Context (U : Unicode).

Lemma search_from_later (p : pattern) (a rest : pystr) (pos : nat)
    (prev : option char) :
  (forall prev',
     match_at U p {| m_pos := pos + length a; m_prev := prev';
                     m_rest := rest; m_caps := [] |} <> None) ->
  search_from U p pos prev (a ++ rest) <> None.
Proof.
  revert pos prev; induction a as [|c a IH]; intros pos prev H.
  - specialize (H prev). simpl in H. rewrite Nat.add_0_r in H.
    destruct rest; simpl; destruct (match_at U p _); congruence.
  - simpl. destruct (match_at U p _); [discriminate|].
    apply IH. intros prev'. specialize (H prev').
    simpl in H. rewrite <- Nat.add_succ_comm in H. exact H.
Qed.

Definition placeholder_pattern : pattern :=
  {| p_icase := false;
     p_re := foldr Seq Eps (map (fun c => Chr (CLit c)) impossible_match_placeholder) |}.

Lemma re_compile_placeholder :
  re_compile false impossible_match_placeholder = Some placeholder_pattern.
Proof. vm_compute. reflexivity. Qed.

Lemma placeholder_matches_itself (pos : nat) (prev : option char) (b : pystr) :
  match_at U placeholder_pattern
    {| m_pos := pos; m_prev := prev;
       m_rest := impossible_match_placeholder ++ b; m_caps := [] |} <> None.
Proof. vm_compute. discriminate. Qed.

End Placeholder.

(** C8, on the code: a label that reduces to nothing is compiled to the
    pattern of the literal text [IMPOSSIBLE_MATCH_PLACEHOLDER], without
    flags; that pattern is not impossible to match, it succeeds on every
    text in which the placeholder occurs. *)
Theorem placeholder_pattern_can_match (U : Unicode) (label : pystr) :
  label_regex_string U label = None ->
  exists p,
    create_label_regex U label = Some p /\
    forall a b,
      re_search U p (a ++ impossible_match_placeholder ++ b) <> None.
Proof.
  intros H. exists placeholder_pattern. split.
  - unfold create_label_regex. rewrite H. apply re_compile_placeholder.
  - intros a b. unfold re_search. apply search_from_later.
    intros prev'. apply placeholder_matches_itself.
Qed.

(** The empty label on a text that holds the placeholder: the search of a
    field with that text, as the placement loops run it, succeeds. *)
Lemma placeholder_pattern_can_match_witness :
  label_regex_string ascii_text (lit "") = None /\
  exists p,
    create_label_regex ascii_text (lit "") = Some p /\
    re_search ascii_text p
      (lit "see " ++ impossible_match_placeholder ++ lit " here") <> None /\
    search_field ascii_text p
      (Some (lit "see IMPOSSIBLE_MATCH_PLACEHOLDER here")) <> None.
Proof.
  split; [reflexivity|].
  destruct (placeholder_pattern_can_match ascii_text (lit "") eq_refl)
    as (p & Hp & Hm).
  exists p. split; [exact Hp|]. split; [apply Hm|].
  injection Hp as <-. vm_compute. discriminate.
Defined.

(** ** The ellipsis wildcard *)

Section Wildcard.
Context (U : Unicode).


(** The lazy wildcard in front of [k]: if [k] succeeds behind a run of
    characters none of which is a newline, the wildcard followed by [k]
    succeeds in front of the run. *)
Lemma lazy_wildcard_skips (icase : bool) (k : mstate -> option mstate)
    (m rest : pystr) :
  Forall (fun c => c <> 10%N) m ->
  (forall pos prev caps,
     k {| m_pos := pos; m_prev := prev; m_rest := rest; m_caps := caps |}
     <> None) ->
  forall pos prev caps,
    star_loop (rmatch U icase (Chr CAny)) false k (length (m ++ rest))
      {| m_pos := pos; m_prev := prev; m_rest := m ++ rest; m_caps := caps |}
    <> None.
Proof.
  intros Hm Hk. induction Hm as [|c m Hc Hm IH]; intros pos prev caps.
  - simpl. destruct (length rest); simpl; [apply Hk|].
    specialize (Hk pos prev caps). destruct (k _); [discriminate|contradiction].
  - cbn [app length star_loop or_else].
    destruct (k _) as [e|]; [discriminate|]. cbn [or_else rmatch m_rest].
    assert (Hmem : cset_mem U icase CAny c = true).
    { unfold cset_mem, char_eqb. apply negb_true_iff, N.eqb_neq. exact Hc. }
    rewrite Hmem. cbn [m_advance m_rest length].
    rewrite (proj2 (Nat.ltb_lt _ _) (Nat.lt_succ_diag_r _)).
    apply IH.
Qed.

End Wildcard.









(** ** Two comments with the same label *)

(** What is seen of an element in a paragraph: tag, text and tail. *)
Definition outline (e : element) : string * pystr * pystr :=
  (tag e, safe (text e), safe (tail e)).

Definition outlines (st : run cstate) : option (list (list (list (string * pystr * pystr))) * nat) :=
  match st with
  | Ok s => Some (map (map (fun par => map outline (children par))) (tree s),
                  comment_failure_count s)
  | _ => None
  end.

(** Page 7 with two comments labelled [lumen]. *)
Definition two_lumen : gmap pystr (list comment) :=
  {[ lit "7" :=
       [ {| c_number := Some (lit "1"); c_label := lit "lumen";
            c_note := Some (lit "first"); c_index := 1 |};
         {| c_number := Some (lit "2"); c_label := lit "lumen";
            c_note := Some (lit "second"); c_index := 2 |} ] ]}.

Definition page7 (inline : list element) : list paragraphs :=
  [[Element 0 "p" [] None None inline]].

Definition pb7 (tl : option pystr) : element :=
  Element 1 "pb" [("n"%string, lit "7")] None tl [].

Definition id_templates : templates :=
  {| anchor_template := lit "a-{}"; app_template := lit "#a-{}" |}.

(** C1, on the code.  In plain text the echo of the first anchor is skipped
    and the second comment lands on the second [lumen].  When the first
    [lumen] stands in a styled run, the run is not among the created anchors,
    the check of the run's text never skips, and the second comment is
    placed on the same [lumen] again: both anchors stand before the run and
    the second [lumen], in its tail, gets none. *)
Theorem same_label_twice :
  outlines (add_comments ascii_text true id_templates
              (page7 [pb7 (Some (lit "lumen lumen"))]) 10 two_lumen [lit "7"])
  = Some ([[[("pb", [], []);
             ("anchor", [], lit "lumen"); ("app", [], lit " ");
             ("anchor", [], lit "lumen"); ("app", [], [])]]], 0)%string /\
  outlines (add_comments ascii_text true id_templates
              (page7 [pb7 None;
                      Element 2 "hi" [] (Some (lit "lumen"))
                              (Some (lit " lumen")) []])
              10 two_lumen [lit "7"])
  = Some ([[[("pb", [], []);
             ("anchor", [], []); ("anchor", [], []);
             ("hi", lit "lumen", lit " lumen");
             ("app", [], []); ("app", [], [])]]], 0)%string.
Proof. split; vm_compute; reflexivity. Qed.

(** The skip itself: a match at offset 0 of the tail of an anchor created
    for the same label is passed over, and the cursor moves on. *)
Lemma own_echo_is_skipped (U : Unicode) ps created label re b c par e m :
  ps !! b = Some par ->
  children par !! S c = Some e ->
  in_tags (tag e) ENCLOSING_TAGS = false ->
  search_field U re (tail e) = Some m ->
  created !! eid e = Some label ->
  mstart m = 0 ->
  comment_step U ps created label re b (Some (S c)) = Go (advance ps par b (S c)).
Proof.
  intros Hb Hc Htag Hm Hcr H0. unfold comment_step.
  rewrite Hb, Hc, Htag, Hm. unfold is_own_echo.
  rewrite Hcr, H0, str_eqb_refl. reflexivity.
Qed.

(** ** An entry whose number drops *)

(** [find_idx] and [locate] give the first place that passes the tests. *)
Lemma find_idx_Some {A} (f : A -> bool) (l : list A) (c : nat) :
  find_idx f l = Some c ->
  (exists x, l !! c = Some x /\ f x = true) /\
  (forall j y, l !! j = Some y -> f y = true -> c <= j).
Proof.
  revert c. induction l as [|x l IH]; intros c; cbn [find_idx]; [discriminate|].
  destruct (f x) eqn:Hx.
  - intros [= <-]. split; [exists x; split; [reflexivity|exact Hx]|].
    intros j y _ _. lia.
  - destruct (find_idx f l) as [c'|]; [|discriminate]. intros [= <-].
    destruct (IH c' eq_refl) as [(y & Hy & Hfy) Hmin].
    split; [exists y; split; [exact Hy|exact Hfy]|].
    intros [|j] z Hz Hfz; cbn in Hz.
    + injection Hz as ->. congruence.
    + specialize (Hmin j z Hz Hfz). lia.
Qed.

Lemma find_idx_None {A} (f : A -> bool) (l : list A) :
  find_idx f l = None -> forall j y, l !! j = Some y -> f y = false.
Proof.
  induction l as [|x l IH]; cbn [find_idx]; intros H j y Hy;
    [rewrite lookup_nil in Hy; discriminate|].
  destruct (f x) eqn:Hx; [discriminate|].
  destruct (find_idx f l); [discriminate|].
  destruct j as [|j]; cbn in Hy; [injection Hy as <-; exact Hx|].
  exact (IH eq_refl j y Hy).
Qed.

Lemma find_idx_exists {A} (f : A -> bool) (l : list A) (j : nat) (y : A) :
  l !! j = Some y -> f y = true -> exists c, find_idx f l = Some c.
Proof.
  intros Hy Hf. destruct (find_idx f l) as [c|] eqn:E; [exists c; reflexivity|].
  rewrite (find_idx_None f l E j y Hy) in Hf. discriminate.
Qed.

(** A place in a list of paragraphs that passes the tests of [locate_in]. *)
Definition passes_in (fp fc : element -> bool) (ps : paragraphs) (b c : nat)
    : Prop :=
  exists par e,
    ps !! b = Some par /\ fp par = true /\
    children par !! c = Some e /\ fc e = true.

Lemma locate_in_Some fp fc ps b c :
  locate_in fp fc ps = Some (b, c) ->
  passes_in fp fc ps b c /\
  (forall b' c', passes_in fp fc ps b' c' -> b < b' \/ b = b' /\ c <= c').
Proof.
  revert b. induction ps as [|par ps IH]; intros b; cbn [locate_in];
    [discriminate|].
  destruct (if fp par then find_idx fc (children par) else None) as [c0|] eqn:E.
  - intros [= <- <-]. destruct (fp par) eqn:Hp; [|discriminate].
    destruct (find_idx_Some fc _ _ E) as [(e & He & Hfe) Hmin].
    split; [exists par, e; repeat split; assumption|].
    intros [|b'] c' (par' & e' & Hpar' & _ & He' & Hfe'); [|left; lia].
    cbn in Hpar'. injection Hpar' as <-. right. split; [reflexivity|].
    exact (Hmin c' e' He' Hfe').
  - destruct (locate_in fp fc ps) as [[b0 c0]|]; [|discriminate].
    cbn [option_map fst snd]. intros [= <- <-].
    destruct (IH b0 eq_refl) as [(par0 & e0 & Hpar0 & Hfp & He0 & Hfe0) Hmin].
    split; [exists par0, e0; repeat split; assumption|].
    intros [|b'] c' (par' & e' & Hpar' & Hfp' & He' & Hfe').
    + cbn in Hpar'. injection Hpar' as <-. rewrite Hfp' in E.
      rewrite (find_idx_None fc _ E c' e' He') in Hfe'. discriminate.
    + destruct (Hmin b' c') as [Hlt|[Heq Hle]];
        [exists par', e'; repeat split; assumption | left; lia | right; lia].
Qed.

Lemma locate_in_None fp fc ps :
  locate_in fp fc ps = None -> forall b c, ~ passes_in fp fc ps b c.
Proof.
  induction ps as [|par ps IH]; cbn [locate_in]; intros H b c
    (par' & e' & Hpar' & Hfp' & He' & Hfe');
    [rewrite lookup_nil in Hpar'; discriminate|].
  destruct (if fp par then find_idx fc (children par) else None) eqn:E;
    [discriminate|].
  destruct (locate_in fp fc ps) as [[b0 c0]|] eqn:E'; [discriminate|].
  destruct b as [|b]; cbn in Hpar'.
  - injection Hpar' as <-. rewrite Hfp' in E.
    rewrite (find_idx_None fc _ E c e' He') in Hfe'. discriminate.
  - apply (IH eq_refl b c). exists par', e'. repeat split; assumption.
Qed.

(** A place in the tree that passes the tests of [locate]; and the order of
    the places, which is the order of the document. *)
Definition passes (fp fc : element -> bool) (divs : list paragraphs)
    (pos : nat * nat * nat) : Prop :=
  exists ps, divs !! (fst (fst pos)) = Some ps /\ passes_in fp fc ps (snd (fst pos)) (snd pos).

Definition not_after (p q : nat * nat * nat) : Prop :=
  (fst (fst p)) < (fst (fst q)) \/
  (fst (fst p)) = (fst (fst q)) /\ ((snd (fst p)) < (snd (fst q)) \/ (snd (fst p)) = (snd (fst q)) /\ (snd p) <= (snd q)).

Lemma locate_Some fp fc divs pos :
  locate fp fc divs = Some pos ->
  passes fp fc divs pos /\
  (forall pos', passes fp fc divs pos' -> not_after pos pos').
Proof.
  revert pos. induction divs as [|ps divs IH]; intros pos; cbn [locate];
    [discriminate|].
  destruct (locate_in fp fc ps) as [[b c]|] eqn:E.
  - intros [= <-]. destruct (locate_in_Some fp fc ps b c E) as [Hp Hmin].
    split; [exists ps; split; [reflexivity|exact Hp]|].
    intros [[[|d'] b'] c'] (ps' & Hps' & Hp'); cbn [fst snd] in *;
      [|left; cbn; lia].
    injection Hps' as <-. right. split; [reflexivity|].
    destruct (Hmin b' c' Hp') as [?|[? ?]]; [left|right]; cbn; lia.
  - destruct (locate fp fc divs) as [[[d0 b0] c0]|]; [|discriminate].
    cbn [option_map fst snd]. intros [= <-].
    destruct (IH (d0, b0, c0) eq_refl) as [(ps0 & Hps0 & Hp0) Hmin].
    split; [exists ps0; split; [exact Hps0|exact Hp0]|].
    intros [[[|d'] b'] c'] (ps' & Hps' & Hp'); cbn [fst snd] in *.
    + injection Hps' as <-. destruct (locate_in_None fp fc ps E b' c' Hp').
    + destruct (Hmin (d', b', c')) as [Hlt|[Heq Hle]];
        [exists ps'; split; assumption | left; cbn in *; lia
        | right; cbn in *; split; [lia|exact Hle]].
Qed.

Lemma locate_None fp fc divs :
  locate fp fc divs = None -> forall pos, ~ passes fp fc divs pos.
Proof.
  induction divs as [|ps divs IH]; cbn [locate];
    intros H [[d b] c] (ps' & Hps' & Hp'); cbn [fst snd] in *;
    [rewrite lookup_nil in Hps'; discriminate|].
  destruct (locate_in fp fc ps) as [[b0 c0]|] eqn:E; [discriminate|].
  destruct (locate fp fc divs) as [[[d1 b1] c1]|] eqn:E'; [discriminate|].
  destruct d as [|d]; cbn in Hps'.
  - injection Hps' as <-. exact (locate_in_None fp fc ps E b c Hp').
  - apply (IH eq_refl (d, b, c)). exists ps'. split; assumption.
Qed.

(** The page breaks of a page: the [pb] elements numbered [pe_number] that
    are children of a [p]. *)
Definition page_break_at (divs : list paragraphs) (pe_number : pystr)
    (pos : nat * nat * nat) : Prop :=
  passes is_p (is_pagebreak pe_number) divs pos.

(** The state at the page break at [pos]: [current] and [saved_current] the
    page break, [start_current_parent] its paragraph, looking in the tail. *)
Definition at_page_break (pos : nat * nat * nat) (prev : option Z) : pstate :=
  {| p_div := (fst (fst pos)); p_current := (snd (fst pos), snd pos);
     start_current_parent := (snd (fst pos)); p_look_in_tail := true;
     saved_current := (snd (fst pos), snd pos); prev_number := prev |}.

Lemma page_start_at divs pe_number prev pos :
  locate is_p (is_pagebreak pe_number) divs = Some pos ->
  page_start divs pe_number prev = Some (at_page_break pos prev).
Proof.
  intros H. unfold page_start. rewrite H. destruct pos as [[d b] c].
  reflexivity.
Qed.

(** C9: an apparatus entry whose number is smaller than the number of the
    entry before it on the page is searched for from the page break of the
    page again.  Whenever the tree holds a page break of the page, the drop
    raises nothing: the search starts in the state at the first page break
    of the page in document order, the element [first_pagebreak] gives,
    wherever the entry before had left it; the entry is processed exactly as
    the first entry of the page is; and its lemma is looked for in the tail
    of the page break first, so that an entry found there is placed there. *)
Theorem number_drop_restarts_at_page_break (U : Unicode)
    (lem_tbd : nat -> lemma -> pystr * list element * nat)
    (rdg_tbd : nat -> reading -> list element * nat)
    (write_file : bool) (doc_num pe_number : pystr)
    (st : astate) (pg : pstate) (e : entry) (prev : Z)
    (somewhere : nat * nat * nat) :
  prev_number pg = Some prev ->
  (e_number e < prev)%Z ->
  page_break_at (a_tree st) pe_number somewhere ->
  exists (pos : nat * nat * nat) (ps : paragraphs) (pb : element),
    page_break_at (a_tree st) pe_number pos /\
    (forall pos', page_break_at (a_tree st) pe_number pos' -> not_after pos pos') /\
    a_tree st !! (fst (fst pos)) = Some ps /\
    child_at ps (snd (fst pos), snd pos) = Some pb /\
    first_pagebreak (a_tree st) pe_number = Some pb /\
    entry_start (a_tree st) pe_number pg e
    = Some (at_page_break pos (Some (e_number e))) /\
    page_start (a_tree st) pe_number None = Some (at_page_break pos None) /\
    place_entry U lem_tbd rdg_tbd write_file doc_num pe_number (st, pg) e
    = place_entry U lem_tbd rdg_tbd write_file doc_num pe_number
        (st, at_page_break pos None) e /\
    (forall re m ps' app fresh',
       create_label_regex U (lem_text (e_lem e)) = Some re ->
       search_field U re (tail pb) = Some m ->
       add_critical U lem_tbd rdg_tbd (a_fresh st) doc_num m (e_lem e)
                    (e_rdg e) ps (in_tail (snd (fst pos)) (snd pos))
       = Some (ps', app, fresh') ->
       place_entry U lem_tbd rdg_tbd write_file doc_num pe_number (st, pg) e
       = Ok ({| a_tree := list_set (fst (fst pos)) ps' (a_tree st);
                a_fresh := fresh';
                critical_failure_count := critical_failure_count st;
                failed := failed st;
                apparatus_file := apparatus_file st |},
             {| p_div := (fst (fst pos)); p_current := app;
                start_current_parent := (snd (fst pos)); p_look_in_tail := true;
                saved_current := app;
                prev_number := Some (e_number e) |})).
Proof.
  intros Hprev Hlt Hsome.
  destruct (locate is_p (is_pagebreak pe_number) (a_tree st)) as [pos|] eqn:Hloc;
    [|destruct (locate_None _ _ _ Hloc somewhere Hsome)].
  destruct (locate_Some _ _ _ _ Hloc) as [Hpos Hmin].
  pose proof Hpos as (ps & Hps & par & pb & Hpar & Hp & Hpb & Hn).
  assert (Hchild : child_at ps (snd (fst pos), snd pos) = Some pb).
  { unfold child_at. cbn [fst snd]. rewrite Hpar. exact Hpb. }
  assert (Hstart : entry_start (a_tree st) pe_number pg e
                   = Some (at_page_break pos (Some (e_number e)))).
  { unfold entry_start, number_drops. rewrite Hprev.
    rewrite (proj2 (Z.ltb_lt _ _) Hlt). apply page_start_at, Hloc. }
  assert (Hsame : forall prev0,
    place_entry U lem_tbd rdg_tbd write_file doc_num pe_number
      (st, at_page_break pos prev0) e
    = place_entry U lem_tbd rdg_tbd write_file doc_num pe_number (st, pg) e).
  { intros prev0. unfold place_entry at 2. rewrite Hstart.
    unfold place_entry, entry_start, number_drops.
    destruct prev0 as [prev0|]; cbn [prev_number at_page_break];
      [destruct (e_number e <? prev0)%Z eqn:Hdrop|]; cbn [or_raise run_bind].
    - rewrite (page_start_at _ _ _ _ Hloc). reflexivity.
    - reflexivity.
    - reflexivity. }
  exists pos, ps, pb.
  split; [exact Hpos|]. split; [exact Hmin|]. split; [exact Hps|].
  split; [exact Hchild|].
  split.
  { unfold first_pagebreak. rewrite Hloc. cbn [mbind option_bind].
    unfold element_at. destruct pos as [[d b] c]. cbn [fst snd] in *.
    rewrite Hps. cbn [mbind option_bind]. rewrite Hpar. exact Hpb. }
  split; [exact Hstart|].
  split; [apply page_start_at, Hloc|].
  split; [symmetry; apply Hsame|].
  intros re m ps' app fresh' Hre Hm Hadd.
  assert (Hscan : critical_scan U (critical_bound ps) ps re
                    {| k_current := Some (snd (fst pos), snd pos);
                       k_parent := Some (snd (fst pos));
                       look_in_tail := true; k_search := true |}
                  = Some (KPlaced (in_tail (snd (fst pos)) (snd pos)) m)).
  { unfold critical_bound.
    replace (2 * scan_weight ps + 2) with (S (2 * scan_weight ps + 1)) by lia.
    cbn [critical_scan k_search k_parent].
    unfold critical_step. cbn [look_in_tail k_current].
    rewrite Hchild, Hm. reflexivity. }
  unfold place_entry. rewrite Hstart. cbn [or_raise run_bind].
  rewrite Hre. unfold at_page_break. cbn [or_raise run_bind p_div].
  rewrite Hps. cbn [or_raise run_bind p_current start_current_parent
                    p_look_in_tail].
  rewrite Hscan, Hadd. reflexivity.
Qed.

(** Page 7 after the entry numbered 5 has been placed on [spem]: the page
    break, its tail with [fidem] in it, and the [app] of entry 5, where the
    search now stands.  The entry numbered 3 has the lemma [fidem], which
    stands before that [app]. *)
Definition fidem_page : astate :=
  {| a_tree := [[Element 0 "p" [] None None
                   [Element 1 "pb" [("n"%string, lit "7")] None
                            (Some (lit "bonam fidem et ")) [];
                    Element 2 "app" [] None (Some (lit " servat"))
                            [Element 3 "lem" [("wit"%string, lit "#DJAK03")]
                                     (Some (lit "spem")) (Some (lit " ")) []]]]];
     a_fresh := 10; critical_failure_count := 0;
     failed := ∅; apparatus_file := [] |}.

Definition after_entry_5 : pstate :=
  {| p_div := 0; p_current := (0, 1); start_current_parent := 0;
     p_look_in_tail := true; saved_current := (0, 1);
     prev_number := Some 5%Z |}.

Definition entry_3 : entry :=
  {| e_number := 3%Z;
     e_lem := {| lem_wit := lit "#DJAK03"; lem_text := lit "fidem";
                 lem_tag := "lem" |};
     e_rdg := [{| rdg_wit := lit "#W"; rdg_text := lit "fide" |}] |}.

Lemma number_drop_restarts_at_page_break_witness :
  prev_number after_entry_5 = Some 5%Z /\ (e_number entry_3 < 5)%Z /\
  page_break_at (a_tree fidem_page) (lit "7") (0, 0, 0) /\
  entry_start (a_tree fidem_page) (lit "7") after_entry_5 entry_3
  = Some (at_page_break (0, 0, 0) (Some 3%Z)) /\
  exists st' pg',
    place_entry ascii_text (fun n _ => ([], [], n)) (fun n _ => ([], n)) true
                (lit "01") (lit "7") (fidem_page, after_entry_5) entry_3
    = Ok (st', pg') /\
    p_current pg' = (0, 1) /\
    critical_failure_count st' = 0 /\
    map (map (fun par => map outline (children par))) (a_tree st')
    = [[[("pb", [], lit "bonam "); ("app", [], lit " et ");
         ("app", [], lit " servat")]]]%string.
Proof.
  assert (Hpb : page_break_at (a_tree fidem_page) (lit "7") (0, 0, 0)).
  { eexists. split; [reflexivity|]. eexists _, _.
    split; [reflexivity|]. split; [reflexivity|].
    split; [reflexivity|]. vm_compute. reflexivity. }
  split; [reflexivity|]. split; [reflexivity|]. split; [exact Hpb|].
  destruct (number_drop_restarts_at_page_break ascii_text
              (fun n _ => ([], [], n)) (fun n _ => ([], n)) true
              (lit "01") (lit "7") fidem_page after_entry_5 entry_3 5%Z
              (0, 0, 0) eq_refl eq_refl Hpb)
    as (pos & ps & pb & _ & Hmin & Hps & Hchild & _ & Hstart & _ & _ & Hplaced).
  assert (Hpos : pos = (0, 0, 0)).
  { specialize (Hmin (0, 0, 0) Hpb). destruct pos as [[d b] c].
    unfold not_after in Hmin. cbn [fst snd] in Hmin.
    f_equal; [f_equal|]; lia. }
  subst pos. cbn [fst snd] in *.
  injection Hps as <-. injection Hchild as <-.
  split; [exact Hstart|].
  eexists _, _. split.
  - eapply Hplaced; vm_compute; reflexivity.
  - split; [reflexivity|]. split; [reflexivity|]. vm_compute. reflexivity.
Defined.

(** ** The scope of a search and the not-found branch *)

(** The text fields a search reads from an element on: from the element it
    starts at up to the next page break, paragraph after paragraph.  [f]
    gives the fields read at one element: the tail, and for the comments the
    text of a styled run before it.  From the page break of a page on, these
    are the fields of the page. *)
Definition is_pb (e : element) : bool := String.eqb (tag e) "pb".

Definition comment_fields (e : element) : list (option pystr) :=
  (if in_tags (tag e) ENCLOSING_TAGS then [text e] else []) ++ [tail e].

Definition tail_field (e : element) : list (option pystr) := [tail e].

(** The fields of the elements before the first page break of a list, and
    whether there is one. *)
Fixpoint run_fields (f : element -> list (option pystr)) (cs : list element)
    : list (option pystr) * bool :=
  match cs with
  | [] => ([], false)
  | e :: cs' =>
      if is_pb e then ([], true)
      else (f e ++ fst (run_fields f cs'), snd (run_fields f cs'))
  end.

(** The fields of paragraphs entered from the one before, up to the first
    page break. *)
Fixpoint later_fields (f : element -> list (option pystr)) (ps : paragraphs)
    : list (option pystr) :=
  match ps with
  | [] => []
  | par :: ps' =>
      text par ::
      fst (run_fields f (children par)) ++
      (if snd (run_fields f (children par)) then [] else later_fields f ps')
  end.

(** The fields from the child [c] of paragraph [b] on; the paragraphs that
    follow start at [bnext]. *)
Definition fields_from (f : element -> list (option pystr)) (ps : paragraphs)
    (b c bnext : nat) : list (option pystr) :=
  match child_at ps (b, c) with
  | Some e =>
      f e ++
      fst (run_fields f (drop (S c) (default [] (children <$> ps !! b)))) ++
      (if snd (run_fields f (drop (S c) (default [] (children <$> ps !! b))))
       then [] else later_fields f (drop bnext ps))
  | None => []
  end.

(** The scope of the search for a comment that starts at the page break
    [c] of paragraph [b], as the loop has it: the text in front of the page
    break when it is the first child of its paragraph (the first check of
    the loop), which is not text of the page, and the fields from the page
    break on. *)
Definition page_fields (ps : paragraphs) (b c : nat) : list (option pystr) :=
  match c, ps !! b with
  | 0, Some par => if truthy (text par) then [text par] else []
  | _, _ => []
  end ++ fields_from comment_fields ps b c (S b).

(** The scope of the search for an apparatus entry from the state [pg], as
    the loop has it: the fields from [current] on while [look_in_tail]
    holds; when an entry before it has left [look_in_tail] false, the text
    of the paragraph [start_current_parent], in front of its children, and
    the paragraphs from it on. *)
Definition entry_fields (ps : paragraphs) (pg : pstate) : list (option pystr) :=
  if p_look_in_tail pg
  then fields_from tail_field ps (fst (p_current pg)) (snd (p_current pg))
                   (S (start_current_parent pg))
  else later_fields tail_field (drop (start_current_parent pg) ps).

Section Scope.
Context (U : Unicode).

(** The pattern is not found in a field. *)
Definition quiet (re : pattern) (field : option pystr) : Prop :=
  search_field U re field = None.

Lemma fields_from_step f ps b c bnext par e :
  ps !! b = Some par -> children par !! c = Some e ->
  fields_from f ps b c bnext =
  f e ++
  match children par !! S c with
  | Some e' => if is_pb e' then [] else fields_from f ps b (S c) bnext
  | None => later_fields f (drop bnext ps)
  end.
Proof.
  intros Hb Hc. unfold fields_from, child_at. cbn [fst snd].
  rewrite Hb. cbn [mbind option_bind fmap option_fmap option_map default id].
  rewrite Hc. f_equal.
  destruct (children par !! S c) as [e'|] eqn:Hc'.
  - rewrite (drop_S _ _ _ Hc'). cbn [run_fields fst snd].
    destruct (is_pb e'); [reflexivity|]. cbn [fst snd].
    rewrite <- app_assoc. reflexivity.
  - apply lookup_ge_None in Hc'. rewrite drop_ge by lia. reflexivity.
Qed.

Lemma later_fields_step f ps b par :
  ps !! b = Some par ->
  later_fields f (drop b ps) =
  text par ::
  match children par with
  | e :: _ => if is_pb e then [] else fields_from f ps b 0 (S b)
  | [] => later_fields f (drop (S b) ps)
  end.
Proof.
  intros Hb. rewrite (drop_S _ _ _ Hb). cbn [later_fields]. f_equal.
  destruct (children par) as [|e cs] eqn:Hcs; [reflexivity|].
  unfold fields_from, child_at. cbn [fst snd].
  rewrite Hb. cbn [mbind option_bind fmap option_fmap option_map default id].
  rewrite Hcs. cbn [lookup list_lookup run_fields drop fst snd].
  destruct (is_pb e); [reflexivity|]. cbn [fst snd].
  rewrite <- app_assoc. reflexivity.
Qed.

Lemma later_fields_next f ps b :
  match next_paragraph ps b with
  | Some b' => later_fields f (drop b' ps)
  | None => []
  end = later_fields f (drop (S b) ps).
Proof.
  unfold next_paragraph. destruct (S b <? length ps) eqn:E; [reflexivity|].
  apply Nat.ltb_ge in E. rewrite drop_ge by lia. reflexivity.
Qed.

(** The fields still ahead of a cursor of [add_comments]. *)
Definition cursor_fields (ps : paragraphs) (k : cursor) : list (option pystr) :=
  match current_p k, current k with
  | Some b, Some c => page_fields ps b c
  | Some b, None => later_fields comment_fields (drop b ps)
  | None, _ => []
  end.

Lemma cursor_fields_next ps b :
  cursor_fields ps {| current_p := next_paragraph ps b; current := None |}
  = later_fields comment_fields (drop (S b) ps).
Proof.
  rewrite <- later_fields_next. unfold cursor_fields; cbn [current_p current].
  destruct (next_paragraph ps b); reflexivity.
Qed.

Lemma comment_step_quiet ps created label re b cur :
  Forall (quiet re) (cursor_fields ps {| current_p := Some b; current := cur |}) ->
  exists k',
    comment_step U ps created label re b cur = Go k' /\
    Forall (quiet re) (cursor_fields ps k').
Proof.
  unfold cursor_fields at 1; cbn [current_p current]. intros Hq.
  unfold comment_step.
  destruct (ps !! b) as [par|] eqn:Hb;
    [|eexists; split; [reflexivity|constructor]].
  destruct cur as [c|].
  - unfold page_fields in Hq. rewrite Hb in Hq.
    apply Forall_app in Hq. destruct Hq as [Hpre Hq].
    assert (Hcheck1 :
      match Some c with
      | Some 0 =>
          if (0 <? length (children par)) && truthy (text par)
          then search_field U re (text par) else None
      | _ => None
      end = None).
    { destruct c as [|c]; [|reflexivity].
      destruct (truthy (text par)).
      - inversion Hpre as [|? ? Hx]; subst.
        destruct (0 <? length (children par)); [exact Hx|reflexivity].
      - rewrite andb_false_r. reflexivity. }
    rewrite Hcheck1.
    destruct (children par !! c) as [e|] eqn:Hc;
      [|eexists; split; [reflexivity|constructor]].
    rewrite (fields_from_step _ _ _ _ _ _ _ Hb Hc) in Hq.
    apply Forall_app in Hq. destruct Hq as [He Hrest].
    unfold comment_fields in He. apply Forall_app in He. destruct He as [Hin Htl].
    inversion Htl as [|? ? Htail]; subst. unfold quiet in Htail.
    assert (Hinside :
      (if in_tags (tag e) ENCLOSING_TAGS
       then match search_field U re (text e) with
            | Some m => if is_own_echo created label e m then None else Some m
            | None => None
            end
       else None) = None).
    { destruct (in_tags (tag e) ENCLOSING_TAGS); [|reflexivity].
      inversion Hin as [|? ? Hx]; subst. unfold quiet in Hx. rewrite Hx.
      reflexivity. }
    rewrite Hinside, Htail.
    eexists; split; [reflexivity|].
    unfold advance. destruct (children par !! S c) as [e'|] eqn:Hc'.
    + unfold is_pb in Hrest. destruct (String.eqb (tag e') "pb");
        [constructor|].
      unfold cursor_fields, page_fields; cbn [current_p current app].
      exact Hrest.
    + rewrite cursor_fields_next. exact Hrest.
  - rewrite (later_fields_step _ _ _ _ Hb) in Hq.
    inversion Hq as [|? ? Htext Hrest]; subst. unfold quiet in Htext.
    rewrite Htext.
    destruct (children par) as [|e cs] eqn:Hcs.
    + eexists; split; [reflexivity|]. rewrite cursor_fields_next. exact Hrest.
    + unfold is_pb in Hrest. destruct (String.eqb (tag e) "pb");
        (eexists; split; [reflexivity|]); [constructor|].
      unfold cursor_fields, page_fields; cbn [current_p current].
      rewrite Hb. apply Forall_app. split; [|exact Hrest].
      destruct (truthy (text par)); constructor; [exact Htext|constructor].
Qed.

Lemma comment_scan_quiet ps created label re fuel k :
  Forall (quiet re) (cursor_fields ps k) ->
  comment_scan U fuel ps created label re k = None \/
  comment_scan U fuel ps created label re k = Some None.
Proof.
  revert k; induction fuel as [|fuel IH]; intros k Hq; simpl.
  - destruct (current_p k); auto.
  - destruct (current_p k) as [b|] eqn:Hk; [|auto].
    destruct k as [cp cur]; simpl in Hk; subst cp.
    destruct (comment_step_quiet ps created label re b cur Hq)
      as (k' & Hstep & Hq').
    cbn [current]. rewrite Hstep. apply IH. exact Hq'.
Qed.

(** The fields still ahead of a state of [add_critical_apparatus], and the
    states whose cursor denotes an element of the tree. *)
Definition kstate_fields (ps : paragraphs) (k : kstate) : list (option pystr) :=
  match (if k_search k then k_parent k else None) with
  | None => []
  | Some bp =>
      if look_in_tail k then
        match k_current k with
        | Some (b, c) => fields_from tail_field ps b c (S bp)
        | None => []
        end
      else later_fields tail_field (drop bp ps)
  end.

Definition kstate_valid (ps : paragraphs) (k : kstate) : bool :=
  match (if k_search k then k_parent k else None) with
  | None => true
  | Some bp =>
      if look_in_tail k then
        match k_current k with
        | Some bc => bool_decide (is_Some (child_at ps bc))
        | None => false
        end
      else bool_decide (is_Some (ps !! bp))
  end.

Lemma critical_step_quiet ps re k bp :
  k_search k = true -> k_parent k = Some bp ->
  kstate_valid ps k = true ->
  Forall (quiet re) (kstate_fields ps k) ->
  exists k',
    critical_step U ps re k bp = KGo k' /\
    kstate_valid ps k' = true /\
    Forall (quiet re) (kstate_fields ps k').
Proof.
  intros Hs Hp. unfold kstate_valid, kstate_fields at 1. rewrite Hs, Hp.
  unfold critical_step.
  destruct (look_in_tail k).
  - destruct (k_current k) as [[b c]|]; [|discriminate].
    intros Hv Hq. apply bool_decide_eq_true in Hv. destruct Hv as [e He].
    rewrite He.
    assert (Hbc : exists par, ps !! b = Some par /\ children par !! c = Some e).
    { unfold child_at in He; cbn [fst snd] in He.
      destruct (ps !! b) as [par|]; [|discriminate]. eauto. }
    destruct Hbc as (par & Hb & Hc).
    rewrite (fields_from_step _ _ _ _ _ _ _ Hb Hc) in Hq.
    apply Forall_app in Hq. destruct Hq as [Htl Hrest].
    inversion Htl as [|? ? Htail]; subst. unfold quiet in Htail.
    rewrite Htail.
    assert (Hnext : child_at ps (b, S c) = children par !! S c).
    { unfold child_at; cbn [fst snd]. rewrite Hb. reflexivity. }
    rewrite Hnext.
    destruct (children par !! S c) as [e'|] eqn:Hc'.
    + eexists; split; [reflexivity|].
      unfold kstate_valid, kstate_fields;
        cbn [k_search k_parent look_in_tail k_current].
      rewrite Hs. unfold is_pb in Hrest.
      destruct (String.eqb (tag e') "pb"); [split; [reflexivity|constructor]|].
      split; [|exact Hrest].
      apply bool_decide_eq_true. rewrite Hnext. eauto.
    + eexists; split; [reflexivity|].
      unfold kstate_valid, kstate_fields;
        cbn [k_search k_parent look_in_tail k_current].
      rewrite Hs. rewrite <- (later_fields_next tail_field) in Hrest.
      unfold next_paragraph in *.
      destruct (S bp <? length ps) eqn:E; [|split; [reflexivity|constructor]].
      split; [|exact Hrest].
      apply bool_decide_eq_true. apply lookup_lt_is_Some_2.
      apply Nat.ltb_lt. exact E.
  - intros Hv Hq. apply bool_decide_eq_true in Hv. destruct Hv as [par Hb].
    rewrite Hb. rewrite (later_fields_step _ _ _ _ Hb) in Hq.
    inversion Hq as [|? ? Htext Hrest]; subst. unfold quiet in Htext.
    rewrite Htext.
    destruct (children par) as [|e cs] eqn:Hcs.
    + eexists; split; [reflexivity|].
      unfold kstate_valid, kstate_fields;
        cbn [k_search k_parent look_in_tail k_current].
      rewrite Hs. rewrite <- (later_fields_next tail_field) in Hrest.
      unfold next_paragraph in *.
      destruct (S bp <? length ps) eqn:E; [|split; [reflexivity|constructor]].
      split; [|exact Hrest].
      apply bool_decide_eq_true. apply lookup_lt_is_Some_2.
      apply Nat.ltb_lt. exact E.
    + eexists; split; [reflexivity|].
      unfold kstate_valid, kstate_fields;
        cbn [k_search k_parent look_in_tail k_current].
      rewrite Hs. unfold is_pb in Hrest.
      destruct (String.eqb (tag e) "pb"); [split; [reflexivity|constructor]|].
      split; [|exact Hrest].
      apply bool_decide_eq_true. unfold child_at; cbn [fst snd].
      rewrite Hb. cbn [mbind option_bind]. rewrite Hcs. eauto.
Qed.

Lemma critical_scan_quiet ps re fuel k :
  kstate_valid ps k = true ->
  Forall (quiet re) (kstate_fields ps k) ->
  critical_scan U fuel ps re k = None \/
  exists k', critical_scan U fuel ps re k = Some (KNotFound k').
Proof.
  revert k; induction fuel as [|fuel IH]; intros k Hv Hq; simpl.
  - destruct (if k_search k then k_parent k else None); eauto.
  - destruct (k_search k) eqn:Hs; [|eauto].
    destruct (k_parent k) as [bp|] eqn:Hp; [|eauto].
    destruct (critical_step_quiet ps re k bp Hs Hp Hv Hq)
      as (k' & Hstep & Hv' & Hq').
    rewrite Hstep. apply IH; assumption.
Qed.

End Scope.

(** The state the search for an entry starts in. *)
Definition entry_state (pg : pstate) : kstate :=
  {| k_current := Some (p_current pg);
     k_parent := Some (start_current_parent pg);
     look_in_tail := p_look_in_tail pg; k_search := true |}.

Lemma entry_fields_state ps pg :
  kstate_fields ps (entry_state pg) = entry_fields ps pg.
Proof.
  unfold kstate_fields, entry_fields, entry_state;
    cbn [k_search k_parent look_in_tail k_current].
  destruct (p_current pg); reflexivity.
Qed.


(** The entry numbered 12 with the lemma [fidem] on a page that does not
    hold it. *)
Definition spem_page : astate :=
  {| a_tree := [[Element 0 "p" [] None None
                   [Element 1 "pb" [("n"%string, lit "7")] None
                            (Some (lit "bonam spem servat")) [];
                    Element 2 "pb" [("n"%string, lit "8")] None
                            (Some (lit "fidem")) []]]];
     a_fresh := 10; critical_failure_count := 0;
     failed := ∅; apparatus_file := [] |}.


Definition entry_12 : entry :=
  {| e_number := 12%Z;
     e_lem := {| lem_wit := lit "#DJAK03"; lem_text := lit "fidem";
                 lem_tag := "lem" |};
     e_rdg := [{| rdg_wit := lit "#W"; rdg_text := lit "fide" |}] |}.




(** What is seen of the tree and the failures of [add_critical_apparatus]:
    the children of every paragraph, the count of failures and the entries
    that failed on page 7. *)
Definition apparatus_outlines (st : run astate)
    : option (list (list (list (string * pystr * pystr))) * nat * list entry) :=
  match st with
  | Ok s => Some (map (map (fun par => map outline (children par))) (a_tree s),
                  critical_failure_count s,
                  default [] (failed s !! lit "7"))
  | _ => None
  end.

(** Page 7 with [lumen] in front of its page break only, and a comment on
    page 7 labelled [lumen]. *)
Definition lumen_before_pb : list paragraphs :=
  [[Element 0 "p" [] (Some (lit "lumen ")) None [pb7 (Some (lit "tenebrae"))]]].

Definition one_lumen : gmap pystr (list comment) :=
  {[ lit "7" :=
       [ {| c_number := Some (lit "1"); c_label := lit "lumen";
            c_note := Some (lit "light"); c_index := 1 |} ] ]}.

(** Page 7 with [fidem] in front of its page break only; the entry 11,
    whose lemma the page does not hold at all, and the entry 12 with the
    lemma [fidem]. *)
Definition fidem_before_pb : list paragraphs :=
  [[Element 0 "p" [] (Some (lit "fidem ")) None
      [pb7 (Some (lit "bonam spem servat"))]]].

Definition entry_11 : entry :=
  {| e_number := 11%Z;
     e_lem := {| lem_wit := lit "#DJAK03"; lem_text := lit "caritas";
                 lem_tag := "lem" |};
     e_rdg := [{| rdg_wit := lit "#W"; rdg_text := lit "caritatem" |}] |}.

(** The claim with the page as the scope, from its page break to the next
    one, fails on the code.  The label [lumen] stands in no field from the
    page break of page 7 on, yet the comment is placed, in the text in front
    of the page break, and no failure is counted.  The lemma [fidem] stands
    in no field from the page break on either; alone on the page the entry
    12 is recorded as failed, but behind the failed entry 11, which leaves
    [look_in_tail] false, it is placed in the text in front of the page
    break, and only entry 11 is recorded. *)
Lemma not_found_is_recorded_counterexample :
  (exists re,
     create_label_regex ascii_text (lit "lumen") = Some re /\
     Forall (quiet ascii_text re)
            (fields_from comment_fields (default [] (lumen_before_pb !! 0))
                         0 0 1) /\
     outlines (add_comments ascii_text true id_templates lumen_before_pb 10
                            one_lumen [lit "7"])
     = Some ([[[("anchor", [], lit "lumen"); ("app", [], lit " ");
                ("pb", [], lit "tenebrae")]]], 0)%string) /\
  (exists re,
     create_label_regex ascii_text (lit "fidem") = Some re /\
     Forall (quiet ascii_text re)
            (fields_from tail_field (default [] (fidem_before_pb !! 0))
                         0 0 1) /\
     apparatus_outlines
       (add_critical_apparatus ascii_text (fun n _ => ([], [], n))
          (fun n _ => ([], n)) true (lit "01") fidem_before_pb 10
          {[ lit "7" := [entry_12] ]} [lit "7"])
     = Some ([[[("pb", [], lit "bonam spem servat")]]], 1, [entry_12])%string /\
     apparatus_outlines
       (add_critical_apparatus ascii_text (fun n _ => ([], [], n))
          (fun n _ => ([], n)) true (lit "01") fidem_before_pb 10
          {[ lit "7" := [entry_11; entry_12] ]} [lit "7"])
     = Some ([[[("app", [], lit " "); ("pb", [], lit "bonam spem servat")]]],
             1, [entry_11])%string).
Proof.
  split.
  - eexists. split; [vm_compute; reflexivity|].
    split; [repeat constructor|vm_compute; reflexivity].
  - eexists. split; [vm_compute; reflexivity|].
    split; [repeat constructor|].
    split; vm_compute; reflexivity.
Qed.

(** ** No match past the next page break *)

(** Positions in document order: a child is a pair of its paragraph and its
    place in it. *)
Definition lex_lt (p q : nat * nat) : Prop :=
  fst p < fst q \/ (fst p = fst q /\ snd p < snd q).

Definition pb_at (ps : paragraphs) (q : nat * nat) : Prop :=
  exists e, child_at ps q = Some e /\ is_pb e = true.

(** The place of a match lies before the child [q]: the text of a paragraph
    lies before all its children and those of later paragraphs; the text and
    the tail of a child lie before the children behind it. *)
Definition target_before (t : target) (q : nat * nat) : Prop :=
  match t with
  | at_text b => b <= fst q
  | at_elem b c | at_tail b c => lex_lt (b, c) q
  end.

Definition ctarget_before (t : ctarget) (q : nat * nat) : Prop :=
  match t with
  | in_text b => b <= fst q
  | in_tail b c => lex_lt (b, c) q
  end.

Definition cursor_before (k : cursor) (q : nat * nat) : Prop :=
  match current_p k, current k with
  | Some b, Some c => lex_lt (b, c) q
  | Some b, None => b <= fst q
  | None, _ => True
  end.

Section PageBreaks.
Context (U : Unicode).

Lemma pb_at_inv ps b c :
  pb_at ps (b, c) ->
  exists par e, ps !! b = Some par /\ children par !! c = Some e /\
                String.eqb (tag e) "pb" = true.
Proof.
  intros (e & He & Hpb). unfold child_at in He; cbn [fst snd] in He.
  destruct (ps !! b) as [par|]; [|discriminate]. eauto.
Qed.

Lemma advance_before ps par b c q :
  ps !! b = Some par -> pb_at ps q -> lex_lt (b, c) q ->
  cursor_before (advance ps par b c) q.
Proof.
  intros Hb Hq Hlt. destruct q as [b' c'].
  apply pb_at_inv in Hq. destruct Hq as (par' & e' & Hb' & Hc' & Hpb).
  unfold advance, lex_lt in *; cbn [fst snd] in *.
  destruct (children par !! S c) as [e|] eqn:Hc.
  - destruct (String.eqb (tag e) "pb") eqn:He; [exact I|].
    unfold cursor_before, lex_lt; cbn [current_p current fst snd].
    destruct Hlt as [Hlt|[-> Hlt]]; [left; exact Hlt|right].
    split; [reflexivity|].
    assert (S c <> c') by (intros <-; congruence). lia.
  - assert (b < b').
    { destruct Hlt as [Hlt|[-> Hlt]]; [exact Hlt|].
      apply lookup_ge_None in Hc. apply lookup_lt_Some in Hc'.
      assert (par' = par) by congruence. subst. lia. }
    unfold cursor_before, next_paragraph; cbn [current_p current].
    destruct (S b <? length ps); cbn [fst]; [lia|exact I].
Qed.

Lemma comment_step_before ps created label re b cur q :
  pb_at ps q ->
  cursor_before {| current_p := Some b; current := cur |} q ->
  match comment_step U ps created label re b cur with
  | Go k' => cursor_before k' q
  | Found t m => target_before t q
  end.
Proof.
  intros Hq Hk. unfold comment_step.
  destruct (ps !! b) as [par|] eqn:Hb; [|exact I].
  unfold cursor_before in Hk; cbn [current_p current] in Hk.
  destruct (match cur with Some 0 => _ | _ => None end) eqn:Hpre.
  { destruct cur as [[|c]|]; try discriminate.
    unfold lex_lt in Hk; cbn [fst snd target_before] in *. lia. }
  destruct cur as [c|].
  - destruct (children par !! c) as [e|] eqn:Hc; [|exact I].
    destruct (if in_tags (tag e) ENCLOSING_TAGS then _ else None);
      [exact Hk|].
    destruct (search_field U re (tail e)) as [m|].
    + destruct (is_own_echo created label e m);
        [apply advance_before; assumption | exact Hk].
    + apply advance_before; assumption.
  - destruct (search_field U re (text par)); [exact Hk|].
    destruct q as [b' c'].
    pose proof (pb_at_inv _ _ _ Hq) as (par' & e' & Hb' & Hc' & Hpb).
    cbn [fst] in Hk.
    destruct (children par) as [|e cs] eqn:Hcs.
    + assert (b <> b').
      { intros <-. assert (par' = par) by congruence. subst.
        rewrite Hcs in Hc'. destruct c'; discriminate. }
      unfold cursor_before, next_paragraph; cbn [current_p current].
      destruct (S b <? length ps); cbn [fst]; [lia|exact I].
    + destruct (String.eqb (tag e) "pb") eqn:He; [exact I|].
      unfold cursor_before, lex_lt; cbn [current_p current fst snd].
      destruct (decide (b = b')) as [<-|Hne]; [right|left; lia].
      split; [reflexivity|].
      assert (par' = par) by congruence. subst.
      rewrite Hcs in Hc'. destruct c' as [|c']; [|lia].
      cbn in Hc'. congruence.
Qed.

Lemma comment_scan_before ps created label re fuel k q t m :
  pb_at ps q -> cursor_before k q ->
  comment_scan U fuel ps created label re k = Some (Some (t, m)) ->
  target_before t q.
Proof.
  intros Hq. revert k; induction fuel as [|fuel IH]; intros k Hk; simpl.
  - destruct (current_p k); discriminate.
  - destruct (current_p k) as [b|] eqn:Hcp; [|discriminate].
    destruct k as [cp cur]; cbn [current_p current] in *; subst cp.
    pose proof (comment_step_before ps created label re b cur q Hq Hk) as Hs.
    destruct (comment_step U ps created label re b cur) as [k'|t' m'].
    + apply IH. exact Hs.
    + intros [= <- <-]. exact Hs.
Qed.

(** The same for a state of [add_critical_apparatus]; the paragraph
    [current_parent] is never behind the paragraph of [current]. *)
Definition kstate_before (k : kstate) (q : nat * nat) : Prop :=
  match (if k_search k then k_parent k else None) with
  | None => True
  | Some bp =>
      if look_in_tail k then
        match k_current k with
        | Some (b, c) => lex_lt (b, c) q /\ bp <= b
        | None => True
        end
      else bp <= fst q
  end.

Lemma critical_step_before ps re k bp q :
  pb_at ps q -> k_search k = true -> k_parent k = Some bp ->
  kstate_before k q ->
  match critical_step U ps re k bp with
  | KGo k' => kstate_before k' q
  | KFound t m => ctarget_before t q
  | KRaise => True
  end.
Proof.
  intros Hq Hs Hp. unfold kstate_before at 1. rewrite Hs, Hp.
  destruct q as [b' c'].
  pose proof (pb_at_inv _ _ _ Hq) as (par' & e' & Hb' & Hc' & Hpb).
  unfold critical_step. destruct (look_in_tail k).
  - destruct (k_current k) as [[b c]|]; [|intros _; exact I].
    intros [Hlt Hle]. unfold child_at; cbn [fst snd].
    destruct (ps !! b) as [par|] eqn:Hb; cbn [mbind option_bind]; [|exact I].
    destruct (children par !! c) as [e|] eqn:Hc; [|exact I].
    destruct (search_field U re (tail e)); [exact Hlt|].
    unfold lex_lt in Hlt; cbn [fst snd] in Hlt.
    destruct (children par !! S c) as [e1|] eqn:Hc1.
    + unfold kstate_before; cbn [k_search k_parent look_in_tail k_current].
      rewrite Hs. destruct (String.eqb (tag e1) "pb") eqn:He1; [exact I|].
      split; [|exact Hle]. unfold lex_lt; cbn [fst snd].
      destruct Hlt as [Hlt|[-> Hlt]]; [left; exact Hlt|right].
      split; [reflexivity|].
      assert (par' = par) by congruence. subst.
      assert (S c <> c') by (intros <-; congruence). lia.
    + assert (b < b').
      { destruct Hlt as [Hlt|[-> Hlt]]; [exact Hlt|].
        apply lookup_ge_None in Hc1. apply lookup_lt_Some in Hc'.
        assert (par' = par) by congruence. subst. lia. }
      unfold kstate_before, next_paragraph;
        cbn [k_search k_parent look_in_tail k_current].
      rewrite Hs. destruct (S bp <? length ps); cbn [fst]; [lia|exact I].
  - cbn [fst]. intros Hle.
    destruct (ps !! bp) as [par|] eqn:Hb; [|exact I].
    destruct (search_field U re (text par)); [exact Hle|].
    destruct (children par) as [|e cs] eqn:Hcs.
    + assert (bp <> b').
      { intros <-. assert (par' = par) by congruence. subst.
        rewrite Hcs in Hc'. destruct c'; discriminate. }
      unfold kstate_before, next_paragraph;
        cbn [k_search k_parent look_in_tail k_current].
      rewrite Hs. destruct (S bp <? length ps); cbn [fst]; [lia|exact I].
    + unfold kstate_before; cbn [k_search k_parent look_in_tail k_current].
      rewrite Hs. destruct (String.eqb (tag e) "pb") eqn:He; [exact I|].
      split; [|lia]. unfold lex_lt; cbn [fst snd].
      destruct (decide (bp = b')) as [<-|Hne]; [right|left; lia].
      split; [reflexivity|].
      assert (par' = par) by congruence. subst.
      rewrite Hcs in Hc'. destruct c' as [|c']; [|lia].
      cbn in Hc'. congruence.
Qed.

Lemma critical_scan_before ps re fuel k q t m :
  pb_at ps q -> kstate_before k q ->
  critical_scan U fuel ps re k = Some (KPlaced t m) ->
  ctarget_before t q.
Proof.
  intros Hq. revert k; induction fuel as [|fuel IH]; intros k Hk; simpl.
  - destruct (if k_search k then k_parent k else None); discriminate.
  - destruct (k_search k) eqn:Hs; [|discriminate].
    destruct (k_parent k) as [bp|] eqn:Hp; [|discriminate].
    pose proof (critical_step_before ps re k bp q Hq Hs Hp Hk) as Hstep.
    destruct (critical_step U ps re k bp) as [k'|t' m'|].
    + apply IH. exact Hstep.
    + intros [= <- <-]. exact Hstep.
    + discriminate.
Qed.

(** The paragraphs a search visits are not before [lo]. *)
Definition kstate_from (lo : nat) (k : kstate) : Prop :=
  match (if k_search k then k_parent k else None) with
  | None => True
  | Some bp =>
      lo <= bp /\
      (look_in_tail k = true ->
       match k_current k with Some (b, _) => lo <= b | None => True end)
  end.

Definition ctarget_from (lo : nat) (t : ctarget) : Prop :=
  match t with in_text b | in_tail b _ => lo <= b end.

Lemma critical_step_from ps re k bp lo :
  k_search k = true -> k_parent k = Some bp -> kstate_from lo k ->
  match critical_step U ps re k bp with
  | KGo k' => kstate_from lo k'
  | KFound t m => ctarget_from lo t
  | KRaise => True
  end.
Proof.
  intros Hs Hp. unfold kstate_from at 1. rewrite Hs, Hp. intros [Hlo Hcur].
  unfold critical_step. destruct (look_in_tail k).
  - destruct (k_current k) as [[b c]|]; [|exact I].
    specialize (Hcur eq_refl).
    destruct (child_at ps (b, c)); [|exact I].
    destruct (search_field U re (tail e)); [exact Hcur|].
    destruct (child_at ps (b, S c)) as [e1|];
      unfold kstate_from, next_paragraph;
      cbn [k_search k_parent look_in_tail k_current]; rewrite Hs.
    + destruct (String.eqb (tag e1) "pb"); [exact I|]. split; auto.
    + destruct (S bp <? length ps); [|exact I]. split; [lia|discriminate].
  - destruct (ps !! bp) as [par|]; [|exact I].
    destruct (search_field U re (text par)); [exact Hlo|].
    destruct (children par) as [|e cs];
      unfold kstate_from, next_paragraph;
      cbn [k_search k_parent look_in_tail k_current]; rewrite Hs.
    + destruct (S bp <? length ps); [|exact I]. split; [lia|discriminate].
    + destruct (String.eqb (tag e) "pb"); [exact I|]. split; auto.
Qed.

Lemma critical_scan_from ps re fuel k lo t m :
  kstate_from lo k ->
  critical_scan U fuel ps re k = Some (KPlaced t m) ->
  ctarget_from lo t.
Proof.
  revert k; induction fuel as [|fuel IH]; intros k Hk; simpl.
  - destruct (if k_search k then k_parent k else None); discriminate.
  - destruct (k_search k) eqn:Hs; [|discriminate].
    destruct (k_parent k) as [bp|] eqn:Hp; [|discriminate].
    pose proof (critical_step_from ps re k bp lo Hs Hp Hk) as Hstep.
    destruct (critical_step U ps re k bp) as [k'|t' m'|].
    + apply IH. exact Hstep.
    + intros [= <- <-]. exact Hstep.
    + discriminate.
Qed.

End PageBreaks.

(** The states of the loop over the entries of a page keep
    [start_current_parent] at or before the paragraphs of [current] and of
    [saved_current]. *)
Definition pstate_ok (pg : pstate) : Prop :=
  start_current_parent pg <= fst (p_current pg) /\
  start_current_parent pg <= fst (saved_current pg).

Section PageBreakDrivers.
Context (U : Unicode).
Context (lem_tbd : nat -> lemma -> pystr * list element * nat).
Context (rdg_tbd : nat -> reading -> list element * nat).

Lemma page_start_ok divs pe_number prev pg :
  page_start divs pe_number prev = Some pg -> pstate_ok pg.
Proof.
  unfold page_start.
  destruct (locate is_p (is_pagebreak pe_number) divs) as [[[d b] c]|];
    [|discriminate].
  intros [= <-]. split; cbn; lia.
Qed.

Lemma entry_start_ok divs pe_number pg0 e pg :
  pstate_ok pg0 -> entry_start divs pe_number pg0 e = Some pg -> pstate_ok pg.
Proof.
  intros Hok. unfold entry_start. destruct (number_drops pg0 e).
  - apply page_start_ok.
  - intros [= <-]. exact Hok.
Qed.

Lemma add_critical_position fresh doc_num m l rs ps t ps' pos fresh' :
  add_critical U lem_tbd rdg_tbd fresh doc_num m l rs ps t
  = Some (ps', pos, fresh') ->
  pos = match t with in_tail b c => (b, S c) | in_text b => (b, 0) end.
Proof.
  unfold add_critical. destruct t as [b|b c].
  - destruct (ps !! b) as [par|]; cbn [mbind option_bind]; [|discriminate].
    destruct (text par); cbn [mbind option_bind]; [|discriminate].
    destruct (new_critical_app _ _ _ _ _ _ _) as [[app f']|];
      cbn [mbind option_bind]; [|discriminate].
    intros [= _ <- _]. reflexivity.
  - destruct (ps !! b) as [par|]; cbn [mbind option_bind]; [|discriminate].
    destruct (children par !! c) as [cur|]; cbn [mbind option_bind];
      [|discriminate].
    destruct (tail cur); cbn [mbind option_bind]; [|discriminate].
    destruct (new_critical_app _ _ _ _ _ _ _) as [[app f']|];
      cbn [mbind option_bind]; [|discriminate].
    intros [= _ <- _]. reflexivity.
Qed.

Lemma entry_state_from pg :
  pstate_ok pg -> kstate_from (start_current_parent pg) (entry_state pg).
Proof.
  intros [Hc _]. unfold kstate_from, entry_state;
    cbn [k_search k_parent look_in_tail k_current].
  split; [lia|]. intros _. destruct (p_current pg). exact Hc.
Qed.

Lemma place_entry_ok write_file doc_num pe_number st pg0 e st' pg' :
  pstate_ok pg0 ->
  place_entry U lem_tbd rdg_tbd write_file doc_num pe_number (st, pg0) e
  = Ok (st', pg') ->
  pstate_ok pg'.
Proof.
  intros Hok0. unfold place_entry.
  destruct (entry_start (a_tree st) pe_number pg0 e) as [pg|] eqn:Hstart;
    cbn [or_raise run_bind]; [|discriminate].
  pose proof (entry_start_ok _ _ _ _ _ Hok0 Hstart) as Hok.
  destruct (create_label_regex U (lem_text (e_lem e))) as [re|];
    cbn [or_raise run_bind]; [|discriminate].
  destruct (a_tree st !! p_div pg) as [ps|]; cbn [or_raise run_bind];
    [|discriminate].
  fold (entry_state pg).
  destruct (critical_scan U (critical_bound ps) ps re (entry_state pg))
    as [[t m|k|]|] eqn:Hscan; try discriminate.
  - destruct (add_critical U lem_tbd rdg_tbd (a_fresh st) doc_num m (e_lem e)
                           (e_rdg e) ps t) as [[[ps' app] fresh']|] eqn:Hadd;
      cbn [or_raise run_bind]; [|discriminate].
    intros [= <- <-].
    apply add_critical_position in Hadd.
    apply (critical_scan_from U _ _ _ _ (start_current_parent pg)) in Hscan;
      [|apply entry_state_from; exact Hok].
    unfold pstate_ok; cbn [p_current start_current_parent saved_current].
    destruct t as [b|b c]; subst app; cbn [fst ctarget_from] in *; lia.
  - intros [= <- <-]. destruct Hok as [Hc Hsv].
    unfold pstate_ok; cbn [p_current start_current_parent saved_current]. lia.
Qed.

Lemma entry_state_before pg q :
  pstate_ok pg -> lex_lt (p_current pg) q -> kstate_before (entry_state pg) q.
Proof.
  intros [Hc _] Hlt. unfold kstate_before, entry_state;
    cbn [k_search k_parent look_in_tail k_current].
  destruct (p_current pg) as [b c] eqn:Hcur. cbn [fst] in Hc.
  destruct (p_look_in_tail pg); [split; assumption|].
  unfold lex_lt in Hlt; cbn [fst snd] in Hlt. lia.
Qed.

End PageBreakDrivers.

(** C4: a search never finds its match past the next page break.  Whatever
    page break [q] stands behind the element a search starts at, the place
    of the match, if there is one, lies before [q]: this holds for the search
    for a comment from the page break of its page, and for the search for an
    apparatus entry from every state the driver reaches (the state a page
    starts in, and every state [place_entry] leaves).  And a label that is in
    no field of the page's scope, which ends at the next page break, is
    reported not found, whatever the text behind that page break. *)
Theorem no_match_past_next_page_break (U : Unicode)
    (lem_tbd : nat -> lemma -> pystr * list element * nat)
    (rdg_tbd : nat -> reading -> list element * nat) :
  (forall ps created label re fuel b c t m q,
     pb_at ps q -> lex_lt (b, c) q ->
     comment_scan U fuel ps created label re
                  {| current_p := Some b; current := Some c |}
     = Some (Some (t, m)) ->
     target_before t q) /\
  (forall ps re fuel pg t m q,
     pstate_ok pg -> pb_at ps q -> lex_lt (p_current pg) q ->
     critical_scan U fuel ps re (entry_state pg) = Some (KPlaced t m) ->
     ctarget_before t q) /\
  (forall divs pe_number prev pg,
     page_start divs pe_number prev = Some pg -> pstate_ok pg) /\
  (forall write_file doc_num pe_number st pg0 e st' pg',
     pstate_ok pg0 ->
     place_entry U lem_tbd rdg_tbd write_file doc_num pe_number (st, pg0) e
     = Ok (st', pg') ->
     pstate_ok pg') /\
  (forall ps created label re b c,
     Forall (quiet U re) (page_fields ps b c) ->
     comment_scan U (scan_bound ps) ps created label re
                  {| current_p := Some b; current := Some c |} = Some None) /\
  (forall ps re pg,
     kstate_valid ps (entry_state pg) = true ->
     Forall (quiet U re) (entry_fields ps pg) ->
     exists k,
       critical_scan U (critical_bound ps) ps re (entry_state pg)
       = Some (KNotFound k)).
Proof.
  split; [|split; [|split; [|split; [|split]]]].
  - intros ps created label re fuel b c t m q Hq Hlt Hscan.
    eapply comment_scan_before; [exact Hq | | exact Hscan]. exact Hlt.
  - intros ps re fuel pg t m q Hok Hq Hlt Hscan.
    eapply critical_scan_before; [exact Hq | | exact Hscan].
    apply entry_state_before; assumption.
  - apply page_start_ok.
  - apply place_entry_ok.
  - intros ps created label re b c Hq.
    pose proof (comment_scan_fuel U ps created label re (scan_bound ps)
                  {| current_p := Some b; current := Some c |}
                  (cursor_measure_bound ps _)) as Hfuel.
    destruct (comment_scan_quiet U ps created label re (scan_bound ps)
                {| current_p := Some b; current := Some c |} Hq) as [Hn|Hn];
      [contradiction|exact Hn].
  - intros ps re pg Hv Hq. rewrite <- entry_fields_state in Hq.
    pose proof (critical_scan_fuel U ps re (critical_bound ps) (entry_state pg)
                  (kstate_measure_bound ps _)) as Hfuel.
    destruct (critical_scan_quiet U ps re (critical_bound ps) (entry_state pg)
                Hv Hq) as [Hn|Hn]; [contradiction|exact Hn].
Qed.

(** The label [fidem] stands on page 8 only: the search for a comment of
    page 7 does not find it. *)
Lemma no_match_past_next_page_break_witness :
  exists re,
    create_label_regex ascii_text (lit "fidem") = Some re /\
    pb_at (default [] (a_tree spem_page !! 0)) (0, 1) /\
    search_field ascii_text re (Some (lit "fidem")) <> None /\
    Forall (quiet ascii_text re)
           (page_fields (default [] (a_tree spem_page !! 0)) 0 0) /\
    comment_scan ascii_text (scan_bound (default [] (a_tree spem_page !! 0)))
      (default [] (a_tree spem_page !! 0)) ∅ (lit "fidem") re
      {| current_p := Some 0; current := Some 0 |} = Some None.
Proof.
  eexists. split; [vm_compute; reflexivity|].
  split; [eexists; split; reflexivity|].
  split; [vm_compute; discriminate|].
  assert (Hq : Forall (quiet ascii_text
                  (default {| p_icase := true; p_re := Eps |}
                           (create_label_regex ascii_text (lit "fidem"))))
                 (page_fields (default [] (a_tree spem_page !! 0)) 0 0))
    by (repeat constructor).
  split; [exact Hq|].
  exact (proj1 (proj2 (proj2 (proj2 (proj2
           (no_match_past_next_page_break ascii_text
              (fun n _ => ([], [], n)) (fun n _ => ([], n)))))))
           _ ∅ (lit "fidem") _ 0 0 Hq).
Defined.

(** * Further properties of the code *)

(** ** The pages that are worked on *)

Lemma str_leb_total (a b : pystr) : str_leb a b = true \/ str_leb b a = true.
Proof.
  revert b; induction a as [|x a IH]; intros [|y b]; simpl; auto.
  destruct (IH b) as [H|H]; rewrite H;
    rewrite !orb_true_iff, !andb_true_iff, !N.ltb_lt, !N.eqb_eq; lia.
Qed.

Lemma str_leb_trans (a b c : pystr) :
  str_leb a b = true -> str_leb b c = true -> str_leb a c = true.
Proof.
  revert b c; induction a as [|x a IH]; intros [|y b] [|z c]; simpl; auto;
    try discriminate.
  rewrite !orb_true_iff, !andb_true_iff, !N.ltb_lt, !N.eqb_eq.
  intros [H1|[H1 H1']] [H2|[H2 H2']]; try (left; lia).
  right. split; [lia|]. eapply IH; eassumption.
Qed.

Lemma str_leb_antisym (a b : pystr) :
  str_leb a b = true -> str_leb b a = true -> a = b.
Proof.
  revert b; induction a as [|x a IH]; intros [|y b]; simpl; auto;
    try discriminate.
  rewrite !orb_true_iff, !andb_true_iff, !N.ltb_lt, !N.eqb_eq.
  intros [H1|[H1 H1']] [H2|[H2 H2']]; try lia.
  subst. f_equal. apply IH; assumption.
Qed.

Lemma elem_of_dedupe (x : pystr) (l : list pystr) : x ∈ dedupe l <-> x ∈ l.
Proof.
  induction l as [|y l IH]; simpl; [reflexivity|].
  rewrite !elem_of_cons, list_elem_of_filter, IH.
  split; [intros [?|[_ ?]]; auto|].
  intros [->|H]; [auto|].
  destruct (str_eqb y x) eqn:E; [left; symmetry; apply str_eqb_eq, E|auto].
Qed.

Lemma NoDup_dedupe (l : list pystr) : NoDup (dedupe l).
Proof.
  induction l as [|y l IH]; simpl; constructor.
  - rewrite list_elem_of_filter, str_eqb_refl. intros [H _]; discriminate.
  - apply NoDup_filter, IH.
Qed.

Lemma elem_of_active_pages (x : pystr) (numbers keys : list pystr) :
  x ∈ active_pages numbers keys <-> x ∈ numbers /\ x ∈ keys.
Proof.
  unfold active_pages. rewrite <- (sorted_by_perm str_leb (fun x => x)).
  rewrite elem_of_dedupe, list_elem_of_filter.
  rewrite existsb_exists. split.
  - intros [(y & Hy & E) H]. apply str_eqb_eq in E. subst y.
    split; [exact H|]. apply list_elem_of_In, Hy.
  - intros [H1 H2]. split; [|exact H1].
    exists x. split; [apply list_elem_of_In, H2 | apply str_eqb_refl].
Qed.

(** X1: the pages a driver works on are those that are both among the page
    breaks found and among the keys of the annotations, each once, in the
    ascending order of Python strings (code point by code point: page 10
    comes before page 9). *)
Theorem active_pages_sorted_set (numbers keys : list pystr) :
  (forall x, x ∈ active_pages numbers keys <-> x ∈ numbers /\ x ∈ keys) /\
  NoDup (active_pages numbers keys) /\
  StronglySorted (fun a b => str_leb a b = true /\ a <> b)
                 (active_pages numbers keys) /\
  active_pages [lit "9"; lit "10"; lit "9"] [lit "10"; lit "9"; lit "11"]
  = [lit "10"; lit "9"].
Proof.
  split; [intros x; apply elem_of_active_pages|].
  assert (Hnd : NoDup (active_pages numbers keys)).
  { unfold active_pages. rewrite <- (sorted_by_perm str_leb (fun x => x)).
    apply NoDup_dedupe. }
  split; [exact Hnd|]. split; [|vm_compute; reflexivity].
  pose proof (sorted_by_sorted str_leb (fun x : pystr => x) str_leb_total
                str_leb_trans
                (dedupe (filter (fun n => existsb (str_eqb n) keys = true)
                                numbers))) as Hs.
  fold (active_pages numbers keys) in Hs.
  induction Hs as [|a l Hs IH Hall]; constructor.
  - apply IH. apply NoDup_cons in Hnd. apply Hnd.
  - apply NoDup_cons in Hnd. destruct Hnd as [Hni _].
    rewrite Forall_forall in Hall |- *. intros b Hb.
    split; [apply Hall, Hb|]. intros ->. apply Hni, Hb.
Qed.

(** ** A page whose page break is missing *)

Lemma active_pages_subset (numbers keys : list pystr) :
  Forall (fun pe => pe ∈ numbers) (active_pages numbers keys).
Proof.
  apply Forall_forall. intros x Hx. apply elem_of_active_pages in Hx. apply Hx.
Qed.

Lemma run_fold_id {A B} (f : A -> B -> run A) (l : list B) (acc : A) :
  Forall (fun x => f acc x = Ok acc) l -> run_fold f acc l = Ok acc.
Proof.
  induction 1 as [|x l Hx _ IH]; simpl; [reflexivity|].
  rewrite Hx. exact IH.
Qed.

(** X2: when the page break of a page is not found, [add_comments] passes
    the page over: its comments are neither placed nor counted as failures,
    and a run in which no page break is found returns the tree as it was
    with a failure count of zero.  [add_critical_apparatus] takes the first
    element of the same empty XPath result and raises. *)
Theorem missing_page_break (U : Unicode)
    (lem_tbd : nat -> lemma -> pystr * list element * nat)
    (rdg_tbd : nat -> reading -> list element * nat) :
  (forall write_file tp tei_tree next_id comments numbers,
     (forall pe, pe ∈ numbers ->
                 locate is_p (is_pagebreak pe) tei_tree = None) ->
     add_comments U write_file tp tei_tree next_id comments numbers
     = Ok {| tree := tei_tree; fresh := next_id; comment_failure_count := 0;
             comment_file := []; last_comment_i := 0 |}) /\
  (forall write_file doc_num tei_tree next_id critical numbers pe rest,
     active_pages numbers (map fst (map_to_list critical)) = pe :: rest ->
     locate is_p (is_pagebreak pe) tei_tree = None ->
     add_critical_apparatus U lem_tbd rdg_tbd write_file doc_num tei_tree
                            next_id critical numbers = Raised).
Proof.
  split.
  - intros write_file tp tei_tree next_id comments numbers Hno.
    unfold add_comments. apply run_fold_id.
    eapply Forall_impl; [apply active_pages_subset|].
    intros pe Hpe. cbn beta. unfold comments_on_page, first_pagebreak.
    cbn [tree]. rewrite (Hno pe Hpe). reflexivity.
  - intros write_file doc_num tei_tree next_id critical numbers pe rest Hact Hno.
    unfold add_critical_apparatus. rewrite Hact. cbn [run_fold].
    unfold critical_on_page, page_start. cbn [a_tree]. rewrite Hno.
    reflexivity.
Qed.

(** A comment and an apparatus entry of page 7 on a text without page
    breaks. *)
Definition no_breaks : list paragraphs :=
  [[Element 0 "p" [] (Some (lit "lumen de lumine")) None []]].

Lemma missing_page_break_witness :
  add_comments ascii_text true id_templates no_breaks 10 two_lumen [lit "7"]
  = Ok {| tree := no_breaks; fresh := 10; comment_failure_count := 0;
          comment_file := []; last_comment_i := 0 |} /\
  add_critical_apparatus ascii_text (fun n _ => ([], [], n)) (fun n _ => ([], n))
    true (lit "01") no_breaks 10 {[ lit "7" := [entry_12] ]} [lit "7"]
  = Raised.
Proof.
  split.
  - apply (proj1 (missing_page_break ascii_text
                    (fun n _ => ([], [], n)) (fun n _ => ([], n)))).
    intros pe _. reflexivity.
  - apply (proj2 (missing_page_break ascii_text
                    (fun n _ => ([], [], n)) (fun n _ => ([], n)))
             true (lit "01") no_breaks 10 {[ lit "7" := [entry_12] ]}
             [lit "7"] (lit "7") []); [vm_compute|]; reflexivity.
Defined.

(** ** Every comment gives an anchor or a failure *)

(** The anchors in an element and below it. *)
Fixpoint anchors_of (e : element) : nat :=
  match e with
  | Element _ t _ _ _ cs =>
      (if String.eqb t "anchor" then 1 else 0) +
      foldr (fun c n => anchors_of c + n) 0 cs
  end.

Definition anchors_in (l : list element) : nat :=
  foldr (fun c n => anchors_of c + n) 0 l.

Definition anchors (divs : list paragraphs) : nat :=
  foldr (fun ps n => anchors_in ps + n) 0 divs.

Lemma anchors_of_eq (e : element) :
  anchors_of e =
  (if String.eqb (tag e) "anchor" then 1 else 0) + anchors_in (children e).
Proof. destruct e; reflexivity. Qed.

Lemma anchors_in_app (l1 l2 : list element) :
  anchors_in (l1 ++ l2) = anchors_in l1 + anchors_in l2.
Proof.
  unfold anchors_in. induction l1 as [|e l1 IH]; simpl; [reflexivity|]. lia.
Qed.

Lemma anchors_in_cons (e : element) (l : list element) :
  anchors_in (e :: l) = anchors_of e + anchors_in l.
Proof. reflexivity. Qed.

Lemma anchors_in_nil : anchors_in [] = 0.
Proof. reflexivity. Qed.

Arguments anchors_in : simpl never.

Lemma anchors_in_lookup (l : list element) (i : nat) (e : element) :
  l !! i = Some e ->
  anchors_in l = anchors_in (take i l) + anchors_of e + anchors_in (drop (S i) l).
Proof.
  intros H. rewrite <- (take_drop_middle l i e H) at 1.
  rewrite anchors_in_app, anchors_in_cons. lia.
Qed.

Lemma anchors_in_set (l : list element) (i : nat) (e e' : element) :
  l !! i = Some e ->
  anchors_in (list_set i e' l) + anchors_of e = anchors_in l + anchors_of e'.
Proof.
  intros H. unfold list_set.
  rewrite (anchors_in_lookup l i e H).
  rewrite insert_take_drop by (eapply lookup_lt_Some; exact H).
  rewrite anchors_in_app, anchors_in_cons. lia.
Qed.

Lemma anchors_set (divs : list paragraphs) (d : nat) (ps ps' : paragraphs) :
  divs !! d = Some ps ->
  anchors (list_set d ps' divs) + anchors_in ps = anchors divs + anchors_in ps'.
Proof.
  revert d; induction divs as [|x divs IH]; intros [|d] H; try discriminate.
  - injection H as ->. unfold list_set. simpl. lia.
  - specialize (IH d H). unfold list_set in *. simpl. lia.
Qed.

Section Accounting.
Context (U : Unicode).

Lemma after_anchor_none fresh a nt tl after :
  anchors_of (after_anchor U fresh a nt tl after) = 0.
Proof. destruct nt; reflexivity. Qed.

Lemma splice_tail_one_anchor fresh a nt m l c l' :
  splice_tail U fresh a nt m l c = Some l' -> anchors_in l' = S (anchors_in l).
Proof.
  unfold splice_tail.
  destruct (l !! c) as [cur|] eqn:Hc; cbn [mbind option_bind]; [|discriminate].
  destruct (tail cur) as [field|]; cbn [mbind option_bind]; [|discriminate].
  intros [= <-]. rewrite (anchors_in_lookup l c cur Hc).
  rewrite anchors_in_app, !anchors_in_cons, after_anchor_none.
  rewrite !anchors_of_eq. cbn. rewrite ?anchors_in_nil. lia.
Qed.

Lemma splice_text_one_anchor fresh a nt m l i l' :
  splice_text U fresh a nt m l i = Some l' -> anchors_in l' = S (anchors_in l).
Proof.
  unfold splice_text.
  destruct (l !! i) as [par|] eqn:Hi; cbn [mbind option_bind]; [|discriminate].
  destruct (text par) as [field|]; cbn [mbind option_bind]; [|discriminate].
  destruct (in_tags (tag par) ENCLOSING_TAGS) eqn:Htag; cbn [negb].
  - intros [= <-]. rewrite (anchors_in_lookup l i par Hi).
    assert (Hclone : forall j t,
      anchors_in (if nonempty t
                  then [Element j (tag par) (attrib par) (Some t) None []]
                  else []) = 0).
    { intros j t. destruct (nonempty t); [|reflexivity].
      unfold anchors_in; simpl.
      destruct (String.eqb (tag par) "anchor") eqn:E; [|reflexivity].
      apply String.eqb_eq in E. rewrite E in Htag. discriminate. }
    rewrite !anchors_in_app, !anchors_in_cons, !Hclone.
    destruct nt; rewrite !anchors_in_app, !anchors_in_cons, ?after_anchor_none;
      rewrite !anchors_of_eq; cbn; rewrite ?anchors_in_nil, ?Hclone; lia.
  - intros [= <-].
    pose proof (anchors_in_set l i par
      (set_children
         (set_tail (Some (text_label (cut field m))) (new_anchor fresh a)
          :: after_anchor U fresh a nt (Some (text_after (cut field m)))
               (text_after (cut field m)) :: children par)
         (set_text (Some (text_before (cut field m))) par)) Hi) as H.
    rewrite !anchors_of_eq in H. cbn in H.
    rewrite !anchors_in_cons, after_anchor_none in H.
    rewrite !anchors_of_eq in H. cbn in H. rewrite ?anchors_in_nil in H. lia.
Qed.

Lemma add_comment_one_anchor fresh a nt m ps t ps' :
  add_comment U fresh a nt m ps t = Some ps' ->
  anchors_in ps' = S (anchors_in ps).
Proof.
  destruct t as [b|b c|b c]; cbn [add_comment].
  - apply splice_text_one_anchor.
  - destruct (ps !! b) as [par|] eqn:Hb; cbn [mbind option_bind]; [|discriminate].
    destruct (splice_text U fresh a nt m (children par) c) as [cs|] eqn:Hs;
      cbn [mbind option_bind]; [|discriminate].
    intros [= <-]. apply splice_text_one_anchor in Hs.
    pose proof (anchors_in_set ps b par (set_children cs par) Hb) as H.
    rewrite !anchors_of_eq in H. cbn in H. rewrite ?anchors_in_nil in H. lia.
  - destruct (ps !! b) as [par|] eqn:Hb; cbn [mbind option_bind]; [|discriminate].
    destruct (splice_tail U fresh a nt m (children par) c) as [cs|] eqn:Hs;
      cbn [mbind option_bind]; [|discriminate].
    intros [= <-]. apply splice_tail_one_anchor in Hs.
    pose proof (anchors_in_set ps b par (set_children cs par) Hb) as H.
    rewrite !anchors_of_eq in H. cbn in H. rewrite ?anchors_in_nil in H. lia.
Qed.

Lemma place_comment_accounts write_file tp pe_number start st created cm st'
    created' :
  place_comment U write_file tp pe_number start (st, created) cm
  = Ok (st', created') ->
  anchors (tree st') + comment_failure_count st'
  = S (anchors (tree st) + comment_failure_count st) /\
  length (comment_file st') +
  (if write_file then comment_failure_count st else 0)
  = length (comment_file st) +
    (if write_file then comment_failure_count st' else 0).
Proof.
  unfold place_comment.
  destruct (whereis (tree st) start) as [[[d b] c]|]; cbn [run_bind or_raise];
    [|discriminate].
  destruct (tree st !! d) as [ps|] eqn:Hd; cbn [run_bind or_raise];
    [|discriminate].
  destruct (create_label_regex U (c_label cm)) as [re|]; cbn [run_bind or_raise];
    [|discriminate].
  destruct (comment_scan U (scan_bound ps) ps created (c_label cm) re _)
    as [[[t m]|]|]; cbv beta iota; [| |discriminate].
  - destruct (add_comment U (fresh st) _ gloss m ps t) as [ps'|] eqn:Ha;
      cbn [run_bind or_raise]; [|discriminate].
    intros [= <- <-]. cbn [tree comment_failure_count comment_file].
    apply add_comment_one_anchor in Ha.
    pose proof (anchors_set (tree st) d ps ps' Hd) as H.
    destruct write_file; lia.
  - intros [= <- <-]. cbn [tree comment_failure_count comment_file].
    destruct write_file; rewrite ?length_app; cbn [length]; lia.
Qed.

Lemma place_comments_account write_file tp pe_number start l st created st'
    created' :
  run_fold (place_comment U write_file tp pe_number start) (st, created) l
  = Ok (st', created') ->
  anchors (tree st') + comment_failure_count st'
  = anchors (tree st) + comment_failure_count st + length l /\
  length (comment_file st') +
  (if write_file then comment_failure_count st else 0)
  = length (comment_file st) +
    (if write_file then comment_failure_count st' else 0).
Proof.
  revert st created; induction l as [|cm l IH]; intros st created; cbn [run_fold].
  - intros [= <- <-]. destruct write_file; cbn [length]; lia.
  - destruct (place_comment U write_file tp pe_number start (st, created) cm)
      as [[st1 created1]| |] eqn:Hp; try discriminate.
    intros Hrest. apply IH in Hrest. apply place_comment_accounts in Hp.
    destruct write_file; cbn [length]; lia.
Qed.

End Accounting.

(** X3: on a page whose page break is found, every queued comment either
    adds exactly one anchor to the tree or adds one to the count of
    failures, never both and never neither; and with a comment file
    configured the file gets one line for each failure. *)
Theorem comments_placed_or_counted (U : Unicode) (write_file : bool)
    (tp : templates) (comments : gmap pystr (list comment))
    (st st' : cstate) (pe_number : pystr) (pb : element) :
  first_pagebreak (tree st) pe_number = Some pb ->
  comments_on_page U write_file tp comments st pe_number = Ok st' ->
  anchors (tree st') + comment_failure_count st'
  = anchors (tree st) + comment_failure_count st +
    length (default [] (comments !! pe_number)) /\
  (write_file = true ->
   length (comment_file st') + comment_failure_count st
   = length (comment_file st) + comment_failure_count st').
Proof.
  intros Hpb. unfold comments_on_page. rewrite Hpb.
  destruct (run_fold _ _ _) as [[st1 created1]| |] eqn:Hfold;
    cbn [run_bind]; try discriminate.
  intros [= <-]. apply place_comments_account in Hfold.
  unfold sorted_comments in Hfold.
  rewrite <- (Permutation_length (sorted_by_perm key_leb (get_sort_key U) _))
    in Hfold.
  cbn [fst]. split; [apply Hfold|]. intros ->. lia.
Qed.

(** The two comments labelled [lumen] on a page with one [lumen]: one
    anchor, one failure. *)
Definition fiat_lumen : cstate :=
  {| tree := page7 [pb7 (Some (lit "fiat lumen"))]; fresh := 10;
     comment_failure_count := 0; comment_file := []; last_comment_i := 0 |}.

Lemma comments_placed_or_counted_witness :
  exists st',
    comments_on_page ascii_text true id_templates two_lumen fiat_lumen (lit "7")
    = Ok st' /\
    (anchors (tree st') = 1 /\ comment_failure_count st' = 1) /\
    anchors (tree st') + comment_failure_count st'
    = anchors (tree fiat_lumen) + comment_failure_count fiat_lumen +
      length (default [] (two_lumen !! lit "7")).
Proof.
  eexists. split; [vm_compute; reflexivity|].
  split; [split; vm_compute; reflexivity|].
  apply (comments_placed_or_counted ascii_text true id_templates two_lumen
           fiat_lumen _ (lit "7") (pb7 (Some (lit "fiat lumen"))) eq_refl).
  vm_compute. reflexivity.
Defined.

(** ** Splitting at the characters of a class *)

(** The maximal runs of a text between the characters that satisfy [sep]:
    the first run, then each separator with the run behind it. *)
Fixpoint runs (sep : char -> bool) (text : pystr) : pystr * list (char * pystr) :=
  match text with
  | [] => ([], [])
  | c :: t =>
      let '(x, rest) := runs sep t in
      if sep c then ([], (c, x) :: rest) else (c :: x, rest)
  end.

Definition interleave (x : pystr) (rest : list (char * pystr)) : pystr :=
  x ++ flat_map (fun cy => fst cy :: snd cy) rest.

Definition free_of (sep : char -> bool) (x : pystr) : Prop :=
  Forall (fun c => sep c = false) x.

Definition separated (sep : char -> bool) (rest : list (char * pystr)) : Prop :=
  Forall (fun cy => sep (fst cy) = true /\ free_of sep (snd cy)) rest.

Lemma runs_spec (sep : char -> bool) (text : pystr) :
  text = interleave (fst (runs sep text)) (snd (runs sep text)) /\
  free_of sep (fst (runs sep text)) /\
  separated sep (snd (runs sep text)).
Proof.
  induction text as [|c t (IH1 & IH2 & IH3)]; simpl.
  - repeat split; constructor.
  - destruct (runs sep t) as [x rest]. simpl in *.
    destruct (sep c) eqn:E; simpl.
    + split; [unfold interleave in *; simpl; congruence|].
      split; [constructor|]. constructor; [split; assumption | assumption].
    + split; [unfold interleave in *; simpl; congruence|].
      split; [constructor; assumption | assumption].
Qed.

Lemma separated_length (sep : char -> bool) (x : pystr)
    (rest : list (char * pystr)) :
  length rest <= length (interleave x rest).
Proof.
  unfold interleave. rewrite length_app.
  induction rest as [|[c y] rest IH]; simpl; [lia|].
  rewrite length_app. lia.
Qed.

Section ClassPattern.
Context (U : Unicode) (p : pattern) (sep : char -> bool) (grouped : bool).

(** A pattern that is one character class, with or without a group around
    it. *)
Hypothesis class_match : forall s,
  m_caps s = [] ->
  match_at U p s =
  match m_rest s with
  | c :: _ =>
      if sep c
      then Some {| mstart := m_pos s; mend := S (m_pos s);
                   mgroups := if grouped then [(1, (m_pos s, S (m_pos s)))]
                              else [] |}
      else None
  | [] => None
  end.

Lemma search_class_none (rest : pystr) (pos : nat) (prev : option char) :
  free_of sep rest -> search_from U p pos prev rest = None.
Proof.
  intros H. revert pos prev. induction H as [|c t Hc _ IH]; intros pos prev;
    cbn [search_from]; rewrite class_match by reflexivity; cbn [m_rest];
    [reflexivity|].
  rewrite Hc. apply IH.
Qed.

Lemma search_class_first (a : pystr) (c : char) (t : pystr) (pos : nat)
    (prev : option char) :
  free_of sep a -> sep c = true ->
  search_from U p pos prev (a ++ c :: t)
  = Some {| mstart := pos + length a; mend := S (pos + length a);
            mgroups := if grouped then [(1, (pos + length a, S (pos + length a)))]
                       else [] |}.
Proof.
  intros Ha Hc. revert pos prev. induction Ha as [|d a Hd _ IH]; intros pos prev;
    cbn [app search_from]; rewrite class_match by reflexivity;
    cbn [m_rest m_pos].
  - rewrite Hc. cbn [length]. rewrite Nat.add_0_r. reflexivity.
  - rewrite Hd. rewrite IH. cbn [length]. rewrite <- Nat.add_succ_comm.
    reflexivity.
Qed.

Lemma split_class (rest : list (char * pystr)) :
  forall (x pre : pystr) (fuel : nat),
    length rest < fuel -> free_of sep x -> separated sep rest ->
    split_fuel U fuel grouped p (pre ++ interleave x rest) (length pre)
    = x :: flat_map (fun cy => (if grouped then [[fst cy]] else []) ++ [snd cy])
                    rest.
Proof.
  induction rest as [|[c y] rest IH]; intros x pre fuel Hf Hx Hrest;
    (destruct fuel as [|fuel]; [lia|]); cbn [split_fuel];
    rewrite drop_app_length.
  - unfold interleave. cbn [flat_map]. rewrite app_nil_r.
    rewrite search_class_none by exact Hx. reflexivity.
  - inversion Hrest as [|? ? [Hc Hy] Hrest']; subst. cbn [fst snd] in *.
    unfold interleave at 2. cbn [flat_map fst snd app].
    rewrite search_class_first by assumption.
    cbn [mstart mend].
    rewrite (proj2 (Nat.leb_gt _ _)) by lia.
    assert (Htext : pre ++ interleave x ((c, y) :: rest)
                    = (pre ++ x ++ [c]) ++ interleave y rest).
    { unfold interleave. cbn [flat_map fst snd]. rewrite <- !app_assoc.
      reflexivity. }
    assert (Hlen : S (length pre + length x) = length (pre ++ x ++ [c])).
    { rewrite !length_app. cbn [length]. lia. }
    assert (Hpiece : slice (length pre) (length pre + length x)
                           (pre ++ interleave x ((c, y) :: rest)) = x).
    { unfold slice. rewrite drop_app_length.
      replace (length pre + length x - length pre) with (length x) by lia.
      unfold interleave. rewrite take_app_length. reflexivity. }
    assert (Hsep : slice (length pre + length x) (S (length pre + length x))
                         (pre ++ interleave x ((c, y) :: rest)) = [c]).
    { unfold slice, interleave. cbn [flat_map fst snd].
      rewrite app_assoc. rewrite <- length_app. rewrite drop_app_length.
      replace (S (length (pre ++ x)) - length (pre ++ x)) with 1 by lia.
      reflexivity. }
    rewrite Hpiece. f_equal.
    rewrite Hlen, Htext. cbn [length] in Hf.
    rewrite IH; [|lia|exact Hy|exact Hrest'].
    rewrite <- Htext.
    destruct grouped; cbn [app]; [|reflexivity].
    unfold group_str, group. cbn [List.find mgroups fst Nat.eqb].
    rewrite <- Hlen, Hsep. reflexivity.
Qed.

(** [re.split] with that pattern gives the runs of the text, and the
    separators between them when the pattern has the group. *)
Lemma split_runs (text : pystr) :
  split_fuel U (S (length text)) grouped p text 0
  = fst (runs sep text) ::
    flat_map (fun cy => (if grouped then [[fst cy]] else []) ++ [snd cy])
             (snd (runs sep text)).
Proof.
  destruct (runs_spec sep text) as (Htext & Hx & Hrest).
  rewrite Htext at 2.
  apply (split_class (snd (runs sep text)) (fst (runs sep text)) []);
    [|exact Hx|exact Hrest].
  rewrite Htext at 2.
  pose proof (separated_length sep (fst (runs sep text)) (snd (runs sep text))).
  lia.
Qed.

End ClassPattern.

(** ** [strip_accents] *)

(** The characters [strip_accents] leaves alone. *)
Definition ignored (c : char) : bool := existsb (char_eqb c) ignore_list.

(** [unidecode] of a run; an empty run is kept empty by the test
    [text_part not in ignore_list], whatever [unidecode] does with it. *)
Definition decoded (U : Unicode) (y : pystr) : pystr :=
  match y with [] => [] | _ => unidecode U y end.

Lemma contains_nil (s : pystr) : contains [] s = true.
Proof. destruct s; reflexivity. Qed.

Lemma contains_head (c : char) (y s : pystr) :
  contains (c :: y) s = true -> existsb (char_eqb c) s = true.
Proof.
  induction s as [|d s IH]; cbn [contains startswith existsb orb];
    [discriminate|].
  rewrite !orb_true_iff, andb_true_iff. intros [[H _]|H]; auto.
Qed.

Lemma contains_single (c : char) (s : pystr) :
  existsb (char_eqb c) s = true -> contains [c] s = true.
Proof.
  induction s as [|d s IH]; cbn [contains startswith existsb];
    [discriminate|].
  rewrite !orb_true_iff. intros [H|H]; [left|right; auto].
  rewrite H. destruct s; reflexivity.
Qed.

Section StripAccents.
Context (U : Unicode).

Lemma ignore_split_match (s : mstate) :
  m_caps s = [] ->
  match_at U ignore_split s =
  match m_rest s with
  | c :: _ =>
      if ignored c
      then Some {| mstart := m_pos s; mend := S (m_pos s);
                   mgroups := [(1, (m_pos s, S (m_pos s)))] |}
      else None
  | [] => None
  end.
Proof.
  intros Hcaps. unfold match_at, ignore_split. cbn [p_icase p_re rmatch].
  destruct (m_rest s) as [|c t]; [reflexivity|].
  unfold ignored. cbn [cset_mem].
  destruct (existsb _ ignore_list); [|reflexivity].
  cbn [m_capture m_advance m_pos m_caps]. rewrite Hcaps. reflexivity.
Qed.

Lemma decoded_part (y : pystr) :
  free_of ignored y ->
  (if negb (contains y ignore_list) then unidecode U y else y) = decoded U y.
Proof.
  intros Hy. destruct y as [|c y]; [rewrite contains_nil; reflexivity|].
  destruct (contains (c :: y) ignore_list) eqn:E; [|reflexivity].
  apply contains_head in E. inversion Hy as [|? ? Hc _]; subst.
  unfold ignored in Hc. congruence.
Qed.

Lemma strip_accents_parts (x : pystr) (rest : list (char * pystr)) :
  free_of ignored x -> separated ignored rest ->
  concat (map (fun text_part =>
                 if negb (contains text_part ignore_list)
                 then unidecode U text_part else text_part)
              (x :: flat_map (fun cy => [[fst cy]] ++ [snd cy]) rest))
  = decoded U x ++ flat_map (fun cy => fst cy :: decoded U (snd cy)) rest.
Proof.
  intros Hx Hrest. cbn [map concat]. rewrite (decoded_part x Hx). f_equal.
  induction Hrest as [|[c y] rest [Hc Hy] _ IH]; [reflexivity|].
  cbn [flat_map app map concat fst snd] in *.
  rewrite (decoded_part y Hy), IH.
  unfold ignored in Hc. rewrite (contains_single c ignore_list Hc).
  reflexivity.
Qed.

End StripAccents.

(** X4: [strip_accents] leaves every character of its ignore list where it
    is and replaces each maximal run of other characters by its [unidecode]
    (an empty run stays empty); so where [unidecode] changes nothing, as on
    ASCII text, the text comes back as it was. *)
Theorem strip_accents_runs (U : Unicode) :
  (forall text,
     strip_accents U text
     = decoded U (fst (runs ignored text)) ++
       flat_map (fun cy => fst cy :: decoded U (snd cy))
                (snd (runs ignored text))) /\
  ((forall s, unidecode U s = s) -> forall text, strip_accents U text = text).
Proof.
  assert (H : forall text,
     strip_accents U text
     = decoded U (fst (runs ignored text)) ++
       flat_map (fun cy => fst cy :: decoded U (snd cy))
                (snd (runs ignored text))).
  { intros text. unfold strip_accents, re_split.
    rewrite (split_runs U ignore_split ignored true (ignore_split_match U)).
    destruct (runs_spec ignored text) as (_ & Hx & Hrest).
    apply strip_accents_parts; assumption. }
  split; [exact H|].
  intros Hid text. rewrite H.
  assert (Hd : forall y, decoded U y = y)
    by (intros [|c y]; [reflexivity | apply Hid]).
  destruct (runs_spec ignored text) as (Htext & _ & _).
  destruct (runs ignored text) as [x rest]. cbn [fst snd] in *. subst text.
  unfold interleave. rewrite Hd. f_equal.
  induction rest as [|[c y] rest IH]; [reflexivity|].
  cbn [flat_map fst snd]. rewrite Hd, IH. reflexivity.
Qed.

(** A text with a low-9 quotation mark in it. *)
Lemma strip_accents_runs_witness :
  strip_accents ascii_text (lit "ait " ++ [8222%N] ++ lit "lumen")
  = lit "ait " ++ [8222%N] ++ lit "lumen".
Proof.
  apply (proj2 (strip_accents_runs ascii_text)). intros s. reflexivity.
Defined.

(** ** [parse_wits] on a citation *)

(** The characters [parse_wits] splits a citation at: the comma and the
    letter a. *)
Definition splits_wits (c : char) : bool := existsb (char_eqb c) (lit ",a").

(** The separators a citation is written with: a comma and a space, or the
    word a between spaces. *)
Inductive delimiter := comma | and_a.

Definition delimiter_text (d : delimiter) : pystr :=
  match d with comma => lit ", " | and_a => lit " a " end.

(** The citation of the sigla [k0] and [rest], each of [rest] behind its
    delimiter. *)
Definition citation (k0 : pystr) (rest : list (delimiter * pystr)) : pystr :=
  k0 ++ flat_map (fun dk => delimiter_text (fst dk) ++ snd dk) rest.

(** A siglum as it stands in a citation: not empty, no white space and no
    semicolon at either end, no comma and no letter a in it. *)
Definition bare (U : Unicode) (k : pystr) : Prop :=
  (exists c d, head k = Some c /\ last k = Some d /\
               isspace U c = false /\ isspace U d = false /\
               c <> 59%N /\ d <> 59%N) /\
  free_of splits_wits k.

(** What [parse_wits] makes of one siglum. *)
Definition resolved (sigla : list (pystr * pystr)) (position k : pystr) : pystr :=
  match dict_get k sigla with
  | Some ed_wit => 35%N :: ed_wit
  | None => lit "[tbd_" ++ position ++ lit ": " ++ k ++ lit "]"
  end.

Definition pieces_of (sep : char -> bool) (text : pystr) : list pystr :=
  fst (runs sep text) :: map snd (snd (runs sep text)).

Lemma pieces_of_free (sep : char -> bool) (x t : pystr) :
  free_of sep x ->
  pieces_of sep (x ++ t)
  = (x ++ hd [] (pieces_of sep t)) :: tl (pieces_of sep t).
Proof.
  unfold pieces_of. induction 1 as [|c x Hc _ IH]; cbn [app].
  - destruct (runs sep t); reflexivity.
  - cbn [runs]. destruct (runs sep (x ++ t)) as [x' rest'].
    rewrite Hc. cbn [fst snd hd tl] in *. injection IH as -> ->. reflexivity.
Qed.

Lemma pieces_of_sep (sep : char -> bool) (c : char) (t : pystr) :
  sep c = true -> pieces_of sep (c :: t) = [] :: pieces_of sep t.
Proof.
  intros Hc. unfold pieces_of. cbn [runs].
  destruct (runs sep t) as [x rest]. rewrite Hc. reflexivity.
Qed.

Lemma pieces_of_nil (sep : char -> bool) : pieces_of sep [] = [[]].
Proof. reflexivity. Qed.

Section ParseWits.
Context (U : Unicode).
Hypothesis space_is_space : isspace U 32%N = true.

(** A siglum with blanks around it. *)
Definition padded (piece k : pystr) : Prop :=
  exists n1 n2, piece = replicate n1 32%N ++ k ++ replicate n2 32%N.

Lemma lstrip_blanks (n : nat) (s : pystr) :
  lstrip U (replicate n 32%N ++ s) = lstrip U s.
Proof.
  induction n as [|n IH]; [reflexivity|].
  cbn [replicate app lstrip]. rewrite space_is_space. exact IH.
Qed.

Lemma rev_replicate {A} (n : nat) (x : A) : rev (replicate n x) = replicate n x.
Proof.
  induction n as [|n IH]; [reflexivity|].
  cbn [replicate rev]. rewrite IH.
  clear IH. induction n as [|n IH]; [reflexivity|].
  cbn [replicate app]. rewrite IH. reflexivity.
Qed.

Lemma strip_padded (piece k : pystr) :
  bare U k -> padded piece k ->
  strip_chars (lit ";") (strip U piece) = k.
Proof.
  intros [(c & d & Hc & Hd & Hsc & Hsd & Hnc & Hnd) _] (n1 & n2 & ->).
  destruct k as [|c' k']; [discriminate|]. injection Hc as ->.
  apply last_Some in Hd. destruct Hd as [k'' Hk].
  assert (Hs : strip U (replicate n1 32%N ++ (c :: k') ++ replicate n2 32%N)
               = c :: k').
  { unfold strip, rstrip. rewrite lstrip_blanks.
    cbn [app lstrip]. rewrite Hsc.
    change (c :: k' ++ replicate n2 32%N) with ((c :: k') ++ replicate n2 32%N).
    rewrite rev_app_distr, rev_replicate, lstrip_blanks.
    rewrite Hk, rev_app_distr. cbn [rev app lstrip]. rewrite Hsd.
    change (d :: rev k'') with (rev [d] ++ rev k'').
    rewrite <- rev_app_distr, rev_involutive. reflexivity. }
  rewrite Hs. unfold strip_chars.
  assert (Hsemi : forall x, x <> 59%N -> existsb (char_eqb x) (lit ";") = false).
  { intros x Hx. cbn. unfold char_eqb. rewrite orb_false_r.
    apply N.eqb_neq, Hx. }
  cbn [lstrip_chars]. rewrite (Hsemi c Hnc).
  rewrite Hk, rev_app_distr. cbn [rev app lstrip_chars]. rewrite (Hsemi d Hnd).
  change (d :: rev k'') with (rev [d] ++ rev k'').
  rewrite <- rev_app_distr, rev_involutive. reflexivity.
Qed.

Lemma bare_nonempty (k : pystr) : bare U k -> nonempty k = true.
Proof.
  intros [(c & d & Hc & _) _]. destruct k; [discriminate|reflexivity].
Qed.

Lemma blanks_free (n : nat) : free_of splits_wits (replicate n 32%N).
Proof. induction n; constructor; [reflexivity|assumption]. Qed.

Lemma free_of_app (sep : char -> bool) (x y : pystr) :
  free_of sep x -> free_of sep y -> free_of sep (x ++ y).
Proof. intros Hx Hy. apply Forall_app; split; assumption. Qed.

(** The pieces of a citation are its sigla, each with blanks around it. *)
Lemma citation_pieces (rest : list (delimiter * pystr)) :
  forall (n : nat) (k0 : pystr),
    Forall (bare U) (k0 :: map snd rest) ->
    Forall2 padded
      (pieces_of splits_wits (replicate n 32%N ++ citation k0 rest))
      (k0 :: map snd rest).
Proof.
  induction rest as [|[d k1] rest IH]; intros n k0 Hall;
    inversion Hall as [|? ? [_ Hfree] Hall']; subst.
  - unfold citation. cbn [flat_map map]. rewrite app_nil_r.
    rewrite <- (app_nil_r (replicate n 32%N ++ k0)).
    rewrite pieces_of_free
      by (apply free_of_app; [apply blanks_free | exact Hfree]).
    rewrite pieces_of_nil. cbn [hd tl]. constructor; [|constructor].
    exists n, 0. rewrite !app_nil_r. reflexivity.
  - cbn [map snd] in *.
    assert (Hc : citation k0 ((d, k1) :: rest)
                 = k0 ++ delimiter_text d ++ citation k1 rest).
    { unfold citation. cbn [flat_map fst snd]. rewrite <- !app_assoc.
      reflexivity. }
    rewrite Hc. destruct d; cbn [delimiter_text].
    + change (lit ", " ++ citation k1 rest)
        with (44%N :: (replicate 1 32%N ++ citation k1 rest)).
      rewrite app_assoc.
      rewrite pieces_of_free
        by (apply free_of_app; [apply blanks_free | exact Hfree]).
      rewrite pieces_of_sep by reflexivity. cbn [hd tl].
      constructor; [|apply IH; exact Hall'].
      exists n, 0. rewrite !app_nil_r. reflexivity.
    + change (lit " a " ++ citation k1 rest)
        with (replicate 1 32%N ++ 97%N :: (replicate 1 32%N ++ citation k1 rest)).
      rewrite !app_assoc.
      rewrite pieces_of_free
        by (repeat apply free_of_app;
            [apply blanks_free | exact Hfree | apply blanks_free]).
      rewrite pieces_of_sep by reflexivity. cbn [hd tl].
      constructor; [|apply IH; exact Hall'].
      exists n, 1. rewrite !app_nil_r, <- !app_assoc. reflexivity.
Qed.

Lemma comma_or_a_match (s : mstate) :
  m_caps s = [] ->
  match_at U comma_or_a s =
  match m_rest s with
  | c :: _ =>
      if splits_wits c
      then Some {| mstart := m_pos s; mend := S (m_pos s); mgroups := [] |}
      else None
  | [] => None
  end.
Proof.
  intros Hcaps. unfold match_at, comma_or_a. cbn [p_icase p_re rmatch].
  destruct (m_rest s) as [|c t]; [reflexivity|].
  unfold splits_wits. cbn [cset_mem].
  destruct (existsb _ (lit ",a")); [|reflexivity].
  cbn [m_advance m_pos m_caps]. rewrite Hcaps. reflexivity.
Qed.

Lemma split_wits (text : pystr) :
  re_split_plain U comma_or_a text = pieces_of splits_wits text.
Proof.
  unfold re_split_plain.
  rewrite (split_runs U comma_or_a splits_wits false comma_or_a_match).
  unfold pieces_of. f_equal.
Qed.

End ParseWits.

(** X5: a citation of sigla written with a comma and a space or with the
    word a between them is resolved siglum by siglum, in the order written:
    a siglum of the document's table gives a hash sign and its identifier,
    any other the marker [tbd] with the position and the siglum; with
    [add_default] the result starts with [#DJAK03].  The sigla must hold no
    comma and no letter a: [parse_wits] splits at every one of them. *)
Theorem parse_wits_citation (U : Unicode) (doc_num position : pystr)
    (add_default : bool) (sigla : list (pystr * pystr))
    (k0 : pystr) (rest : list (delimiter * pystr)) :
  isspace U 32%N = true ->
  dict_get doc_num edition_ids = Some sigla ->
  Forall (bare U) (k0 :: map snd rest) ->
  parse_wits U (citation k0 rest) doc_num position add_default
  = Some (join (lit " ")
            ((if add_default then [lit "#DJAK03"] else []) ++
             map (resolved sigla position) (k0 :: map snd rest))).
Proof.
  intros Hsp Hdoc Hall. unfold parse_wits. rewrite Hdoc.
  cbn [mbind option_bind]. rewrite split_wits. do 3 f_equal.
  pose proof (citation_pieces U rest 0 k0 Hall) as Hp.
  cbn [replicate app] in Hp.
  revert Hp Hall. generalize (pieces_of splits_wits (citation k0 rest)).
  generalize (k0 :: map snd rest). clear k0 rest.
  intros ks ps Hp. induction Hp as [|p k ps ks Hpk _ IH]; intros Hall;
    [reflexivity|].
  inversion Hall as [|? ? Hk Hall']; subst.
  cbn [omap list_omap map]. rewrite (strip_padded U Hsp p k Hk Hpk).
  rewrite (bare_nonempty U k Hk). cbn [option_bind mbind].
  unfold resolved at 1. f_equal. apply IH, Hall'.
Qed.

(** The citation [W, Sr a Pb] in document 01: two sigla of the table and
    one that is not. *)
Lemma parse_wits_citation_witness :
  parse_wits ascii_text (lit "W, Sr a Pb") (lit "01") (lit "a") true
  = Some (lit "#DJAK03 #W #Sr [tbd_a: Pb]").
Proof.
  assert (Hb : forall k c d, head k = Some c -> last k = Some d ->
             isspace ascii_text c = false -> isspace ascii_text d = false ->
             c <> 59%N -> d <> 59%N -> free_of splits_wits k ->
             bare ascii_text k).
  { intros k c d ? ? ? ? ? ? ?. split; [exists c, d|]; auto 10. }
  apply (parse_wits_citation ascii_text (lit "01") (lit "a") true
           (default [] (dict_get (lit "01") edition_ids))
           (lit "W") [(comma, lit "Sr"); (and_a, lit "Pb")]);
    [reflexivity | reflexivity |].
  repeat constructor;
    (eapply Hb; [reflexivity | reflexivity | reflexivity | reflexivity
                 | discriminate | discriminate
                 | repeat constructor]).
Defined.

(** * The apparatus entries before they are placed *)

(** ** [check_special_critical_wit] *)

(** A piece of an apparatus line: its style and its text. *)
Abbreviation piece := (style * pystr)%type.

Definition labyrint_wits : list (pystr * (pystr * pystr)) :=
  [(lit "a", (lit "#DJAK03", lit "#T1663"));
   (lit "b", (lit "#DJAK03", lit "#RKP"));
   (lit "c", (lit "#DJAK03", lit "#T1631"))].

(** [check_special_critical_wit]: the witnesses now current and the list as
    [pop(0)] leaves it; [critical_element[0]] of an empty list and a key
    that [labyrint_wits] does not hold raise. *)
Definition check_special_critical_wit (critical_element : list piece)
    (current_wits : option (pystr * pystr))
    : run (option (pystr * pystr) * list piece) :=
  match critical_element with
  | [] => Raised
  | first :: others =>
      if contains (snd first) (lit "abc")
      then run_bind (or_raise (dict_get (snd first) labyrint_wits))
                    (fun wits => Ok (Some wits, others))
      else Ok (current_wits, critical_element)
  end.

(** ** [extract_witnesses_left] *)

Section WitnessesLeft.
Context (U : Unicode).

Definition extract_witnesses_left (before : list piece) (doc_num : pystr)
    : run (list lemma) :=
  match before with
  | [(_, t)] =>
      Ok [{| lem_wit := lit "#DJAK03"; lem_text := t; lem_tag := "lem" |}]
  | (_, t) :: (_, w) :: _ =>
      run_bind (or_raise (parse_wits U w doc_num (lit "a") true))
               (fun wit => Ok [{| lem_wit := wit; lem_text := t;
                                  lem_tag := "lem" |}])
  | [] => Raised
  end.

End WitnessesLeft.

(** The texts that occur in [abc]. *)
Lemma contains_abc (t : pystr) :
  contains t (lit "abc") =
  existsb (str_eqb t) [lit ""; lit "a"; lit "b"; lit "c"; lit "ab"; lit "bc";
                       lit "abc"].
Proof.
  destruct t as [|x [|y [|z [|w t]]]]; cbn; unfold char_eqb;
    repeat match goal with
           | |- context [N.eqb ?a ?b] =>
               destruct (N.eqb_spec a b); subst; cbn; try discriminate
           end;
    try reflexivity; try congruence.
Qed.

(** X6: [check_special_critical_wit] switches to the witnesses of a
    Labyrint variant and drops the first piece exactly when the text of that
    piece is a, b or c; the test is a substring test against [abc], so an
    empty text and the texts ab, bc and abc pass it too and raise (no such
    key), as does an empty list; every other first piece leaves witnesses
    and list as they were. *)
Theorem check_special_critical_wit_cases (s : style) (t : pystr)
    (others : list piece) (current_wits : option (pystr * pystr)) :
  check_special_critical_wit [] current_wits = Raised /\
  check_special_critical_wit ((s, t) :: others) current_wits =
  if str_eqb t (lit "a") then Ok (Some (lit "#DJAK03", lit "#T1663"), others)
  else if str_eqb t (lit "b") then Ok (Some (lit "#DJAK03", lit "#RKP"), others)
  else if str_eqb t (lit "c") then Ok (Some (lit "#DJAK03", lit "#T1631"), others)
  else if existsb (str_eqb t) [lit ""; lit "ab"; lit "bc"; lit "abc"]
       then Raised
       else Ok (current_wits, (s, t) :: others).
Proof.
  split; [reflexivity|].
  unfold check_special_critical_wit. cbn [snd]. rewrite contains_abc.
  destruct (str_eqb t (lit "a")) eqn:Ea;
    [apply str_eqb_eq in Ea; subst; reflexivity|].
  destruct (str_eqb t (lit "b")) eqn:Eb;
    [apply str_eqb_eq in Eb; subst; reflexivity|].
  destruct (str_eqb t (lit "c")) eqn:Ec;
    [apply str_eqb_eq in Ec; subst; reflexivity|].
  cbn [existsb]. rewrite Ea, Eb, Ec. cbn [orb].
  destruct (str_eqb t (lit "")) eqn:E0;
    [apply str_eqb_eq in E0; subst; reflexivity|].
  destruct (str_eqb t (lit "ab")) eqn:Eab;
    [apply str_eqb_eq in Eab; subst; reflexivity|].
  destruct (str_eqb t (lit "bc")) eqn:Ebc;
    [apply str_eqb_eq in Ebc; subst; reflexivity|].
  destruct (str_eqb t (lit "abc")) eqn:Eabc;
    [apply str_eqb_eq in Eabc; subst; reflexivity|].
  reflexivity.
Qed.

Lemma join_cons_startswith (sep first : pystr) (rest : list pystr) :
  startswith first (join sep (first :: rest)) = true.
Proof.
  assert (H : forall a b, startswith a (a ++ b) = true).
  { induction a as [|x a IH]; intros b; [reflexivity|].
    cbn [app startswith]. unfold char_eqb. rewrite N.eqb_refl. apply IH. }
  destruct rest; cbn [join]; [rewrite <- (app_nil_r first) at 2|]; apply H.
Qed.

(** X7: [extract_witnesses_left] returns one lemma, tagged [lem], whose
    text is the text of the first piece and whose witnesses start with
    [#DJAK03]: alone for a single piece of either style, followed by the
    witnesses parsed from the second piece otherwise.  The styles of the
    pieces and every piece behind the second are not looked at; an empty
    list raises. *)
Theorem extract_witnesses_left_one_lemma (U : Unicode) (doc_num : pystr)
    (sigla : list (pystr * pystr)) :
  dict_get doc_num edition_ids = Some sigla ->
  extract_witnesses_left U [] doc_num = Raised /\
  forall s t more,
    exists wit,
      extract_witnesses_left U ((s, t) :: more) doc_num
      = Ok [{| lem_wit := wit; lem_text := t; lem_tag := "lem" |}] /\
      startswith (lit "#DJAK03") wit = true /\
      (more = [] -> wit = lit "#DJAK03") /\
      (forall s' w rest, more = (s', w) :: rest ->
         Some wit = parse_wits U w doc_num (lit "a") true).
Proof.
  intros Hdoc. split; [reflexivity|].
  intros s t [|[s' w] rest].
  - exists (lit "#DJAK03"). repeat split; try reflexivity. discriminate.
  - cbn [extract_witnesses_left]. unfold parse_wits. rewrite Hdoc.
    cbn [mbind option_bind or_raise run_bind].
    eexists. split; [reflexivity|].
    split; [apply join_cons_startswith|].
    split; [discriminate|].
    intros s'' w' rest' [= -> -> ->]. reflexivity.
Qed.

(** The lemma [fidem] with the witnesses [W, Sr] in document 01. *)
Lemma extract_witnesses_left_one_lemma_witness :
  extract_witnesses_left ascii_text
    [(plain, lit "fidem"); (italic, lit "W, Sr")] (lit "01")
  = Ok [{| lem_wit := lit "#DJAK03 #W #Sr"; lem_text := lit "fidem";
           lem_tag := "lem" |}].
Proof.
  destruct (proj2 (extract_witnesses_left_one_lemma ascii_text (lit "01")
                     (default [] (dict_get (lit "01") edition_ids)) eq_refl)
              plain (lit "fidem") [(italic, lit "W, Sr")])
    as (wit & Hrun & _ & _ & Hwit).
  rewrite Hrun. specialize (Hwit italic (lit "W, Sr") [] eq_refl).
  vm_compute in Hwit. injection Hwit as ->. reflexivity.
Defined.

(** ** [preformat_critical] *)

Section Preformat.
Context (U : Unicode).

(** [str.isdigit] of one character.  It holds of more characters than the
    decimal digits that the class of digits of [re] and [int] accept, and of
    no sign and no underscore. *)
Context (digit_char : char -> bool).

Definition str_isdigit (s : pystr) : bool := nonempty s && forallb digit_char s.

(** [int(s)] for a text whose stripped form [str.isdigit] accepts; [None] is
    the [ValueError]. *)
Definition int_text (s : pystr) : option Z :=
  let digits := strip U s in
  if nonempty digits && forallb (isdigit U) digits
  then Some (int_of_digits U digits) else None.

(** [s.split()]: the words between runs of white space. *)
Fixpoint split_words (word s : pystr) : list pystr :=
  match s with
  | [] => if nonempty word then [rev word] else []
  | c :: t =>
      if isspace U c
      then (if nonempty word then [rev word] else []) ++ split_words [] t
      else split_words (c :: word) t
  end.

Definition split (s : pystr) : list pystr := split_words [] s.

(** The pattern of a closing bracket with an optional space behind it. *)
Definition bracket : pattern :=
  {| p_icase := false;
     p_re := Seq (Chr (CLit 93%N)) (Opt (Chr (CLit 32%N))) |}.

Definition closing : piece := (plain, [93%N]).

Definition piece_eqb (a b : piece) : bool :=
  style_eqb (fst a) (fst b) && str_eqb (snd a) (snd b).

(** Every piece whose text starts with a closing bracket becomes the
    unstyled piece that is the bracket alone. *)
Definition mark_brackets (critical_element : list piece) : list piece :=
  map (fun part => if is_match (re_match U bracket (snd part))
                   then closing else part) critical_element.

(** The number of the entry in a piece of its own. *)
Definition split_number (critical_element : list piece)
    : run (option (list piece)) :=
  match critical_element with
  | [] => Raised
  | first :: others =>
      let stripped := strip U (snd first) in
      if str_isdigit stripped then Ok (Some critical_element)
      else
        match split stripped with
        | [] => Raised
        | w0 :: ws =>
            if str_isdigit w0 then
              match ws with
              | [] => Raised
              | w1 :: _ => Ok (Some ((plain, w0) :: (plain, w1) :: others))
              end
            else Ok None
        end
  end.

(** [after[0]] stripped on the left, then [after[-1]] on the right. *)
Definition trim_ends (after : list piece) : list piece :=
  match after with
  | [] => []
  | a0 :: rest =>
      let after := (fst a0, lstrip U (snd a0)) :: rest in
      match last after with
      | Some z => removelast after ++ [(fst z, rstrip U (snd z))]
      | None => after
      end
  end.

(** [preformat_critical]: [Ok None] is the result [None]. *)
Definition preformat_critical (critical_element : list piece)
    : run (option (Z * list piece * list piece)) :=
  run_bind (split_number (mark_brackets critical_element)) (fun numbered =>
  match numbered with
  | None => Ok None
  | Some critical_element =>
      match find_idx (piece_eqb closing) critical_element with
      | None => Ok None
      | Some split_i =>
          if split_i =? length critical_element - 1 then Ok None
          else
            let before :=
              map (fun elem => (fst elem, strip U (snd elem)))
                  (take (split_i - 1) (drop 1 critical_element)) in
            let after :=
              List.filter (fun elem => negb (piece_eqb elem (plain, [])))
                          (drop (S split_i) critical_element) in
            match after with
            | [] => Raised
            | _ :: _ =>
                run_bind
                  (or_raise (int_text (snd (default closing
                                                    (head critical_element)))))
                  (fun number => Ok (Some (number, before, trim_ends after)))
            end
      end
  end).

End Preformat.

(** Whether a text starts with a closing bracket. *)
Definition starts_bracket (s : pystr) : bool :=
  match s with c :: _ => char_eqb c 93%N | [] => false end.

Section PreformatFacts.
Context (U : Unicode) (digit_char : char -> bool).

Lemma lstrip_snoc (l : pystr) (c : char) :
  isspace U c = false -> lstrip U (l ++ [c]) <> [].
Proof.
  intros Hc. induction l as [|a l IH]; cbn [app lstrip].
  - rewrite Hc. discriminate.
  - destruct (isspace U a); [exact IH | discriminate].
Qed.

Lemma bracket_match (s : pystr) :
  is_match (re_match U bracket s) = starts_bracket s.
Proof.
  unfold re_match, match_at, bracket. cbn [p_icase p_re rmatch m_rest].
  destruct s as [|c t]; [reflexivity|].
  cbn [cset_mem starts_bracket]. destruct (char_eqb c 93%N); [|reflexivity].
  unfold Opt. cbn [rmatch m_rest m_advance]. unfold or_else.
  destruct t as [|d t]; [reflexivity|].
  destruct (cset_mem U false (CLit 32%N) d); reflexivity.
Qed.

Lemma mark_brackets_none (l : list piece) :
  Forall (fun p => starts_bracket (snd p) = false) l ->
  mark_brackets U l = l.
Proof.
  induction 1 as [|p l Hp _ IH]; [reflexivity|].
  cbn [mark_brackets map]. rewrite bracket_match, Hp. f_equal. exact IH.
Qed.

Lemma mark_brackets_app (l1 l2 : list piece) :
  mark_brackets U (l1 ++ l2) = mark_brackets U l1 ++ mark_brackets U l2.
Proof. apply map_app. Qed.

Lemma not_closing (p : piece) :
  starts_bracket (snd p) = false -> piece_eqb closing p = false.
Proof.
  destruct p as [s [|c t]]; intros H; unfold piece_eqb, closing;
    cbn [fst snd str_eqb starts_bracket] in *.
  - apply andb_false_r.
  - unfold char_eqb in *. rewrite N.eqb_sym, H. apply andb_false_r.
Qed.

Lemma find_idx_closing (l1 l2 : list piece) :
  Forall (fun p => starts_bracket (snd p) = false) l1 ->
  find_idx (piece_eqb closing) (l1 ++ closing :: l2) = Some (length l1).
Proof.
  induction 1 as [|p l Hp _ IH]; [reflexivity|].
  cbn [app find_idx length]. rewrite (not_closing p Hp), IH. reflexivity.
Qed.

Lemma find_idx_no_closing (l : list piece) :
  Forall (fun p => starts_bracket (snd p) = false) l ->
  find_idx (piece_eqb closing) l = None.
Proof.
  induction 1 as [|p l Hp _ IH]; [reflexivity|].
  cbn [find_idx]. rewrite (not_closing p Hp), IH. reflexivity.
Qed.

End PreformatFacts.

(** X8: [preformat_critical] cuts an apparatus line at its first piece that
    starts with a closing bracket.  For a line that is a number, pieces
    that do not start with a bracket, a piece that does, and more pieces, it
    returns the number, the pieces before the bracket with their texts
    stripped, and the pieces behind it without the empty unstyled ones, the
    first stripped on the left and the last on the right; what stands
    behind the bracket in its own piece is dropped.  A line with no such
    piece, or with nothing behind it, gives [None]; an empty line, a first
    piece that is blank, and a line with only empty unstyled pieces behind
    the bracket raise. *)
Theorem preformat_critical_cuts (U : Unicode) (digit_char : char -> bool)
    (sn : style) (num : pystr) (before_raw : list piece) :
  str_isdigit digit_char (strip U num) = true ->
  forallb (isdigit U) (strip U num) = true ->
  starts_bracket num = false ->
  Forall (fun p => starts_bracket (snd p) = false) before_raw ->
  (forall sb btext after_raw a0 after,
     starts_bracket btext = true ->
     List.filter (fun elem => negb (piece_eqb elem (plain, [])))
                 (mark_brackets U after_raw) = a0 :: after ->
     preformat_critical U digit_char
       ((sn, num) :: before_raw ++ (sb, btext) :: after_raw)
     = Ok (Some (int_of_digits U (strip U num),
                 map (fun p => (fst p, strip U (snd p))) before_raw,
                 trim_ends U (a0 :: after)))) /\
  (forall sb btext after_raw,
     starts_bracket btext = true ->
     List.filter (fun elem => negb (piece_eqb elem (plain, [])))
                 (mark_brackets U after_raw) = [] ->
     preformat_critical U digit_char
       ((sn, num) :: before_raw ++ (sb, btext) :: after_raw)
     = match after_raw with [] => Ok None | _ :: _ => Raised end) /\
  preformat_critical U digit_char ((sn, num) :: before_raw) = Ok None /\
  preformat_critical U digit_char [] = Raised /\
  (forall blank others,
     strip U blank = [] ->
     preformat_critical U digit_char ((sn, blank) :: others) = Raised).
Proof.
  intros Hnum Hint Hnb Hbefore.
  assert (Hmark : forall sb btext after_raw,
    starts_bracket btext = true ->
    mark_brackets U ((sn, num) :: before_raw ++ (sb, btext) :: after_raw)
    = ((sn, num) :: before_raw) ++ closing :: mark_brackets U after_raw).
  { intros sb btext after_raw Hb.
    change ((sn, num) :: before_raw ++ (sb, btext) :: after_raw)
      with (((sn, num) :: before_raw) ++ [(sb, btext)] ++ after_raw).
    rewrite !mark_brackets_app.
    rewrite (mark_brackets_none U ((sn, num) :: before_raw))
      by (constructor; assumption).
    cbn [mark_brackets map snd]. rewrite bracket_match, Hb. reflexivity. }
  assert (Hcut : forall sb btext after_raw,
    starts_bracket btext = true ->
    preformat_critical U digit_char
      ((sn, num) :: before_raw ++ (sb, btext) :: after_raw)
    = match after_raw with
      | [] => Ok None
      | _ :: _ =>
          match List.filter (fun elem => negb (piece_eqb elem (plain, [])))
                            (mark_brackets U after_raw) with
          | [] => Raised
          | a0 :: after =>
              Ok (Some (int_of_digits U (strip U num),
                        map (fun p => (fst p, strip U (snd p))) before_raw,
                        trim_ends U (a0 :: after)))
          end
      end).
  { intros sb btext after_raw Hb. unfold preformat_critical.
    rewrite (Hmark sb btext after_raw Hb).
    cbn [app split_number snd]. rewrite Hnum. cbn [run_bind].
    change ((sn, num) :: before_raw ++ closing :: mark_brackets U after_raw)
      with (((sn, num) :: before_raw) ++ closing :: mark_brackets U after_raw).
    rewrite find_idx_closing by (constructor; assumption).
    rewrite length_app. cbn [length].
    unfold mark_brackets at 1. rewrite length_map.
    destruct after_raw as [|a after_raw].
    - cbn [length].
      rewrite (proj2 (Nat.eqb_eq _ _)) by lia. reflexivity.
    - cbn [length].
      rewrite (proj2 (Nat.eqb_neq _ _)) by lia.
      replace (S (length before_raw) - 1) with (length before_raw) by lia.
      set (X := mark_brackets U (a :: after_raw)).
      assert (Hd1 : drop 1 (((sn, num) :: before_raw) ++ closing :: X)
                    = before_raw ++ closing :: X) by reflexivity.
      assert (Hd2 : drop (S (S (length before_raw)))
                         (((sn, num) :: before_raw) ++ closing :: X) = X).
      { change (((sn, num) :: before_raw) ++ closing :: X)
          with (((sn, num) :: before_raw) ++ [closing] ++ X).
        rewrite app_assoc.
        replace (S (S (length before_raw)))
          with (length (((sn, num) :: before_raw) ++ [closing]))
          by (rewrite length_app; cbn [length]; lia).
        apply drop_app_length. }
      rewrite Hd1, Hd2, take_app_length.
      destruct (List.filter _ X) as [|a0 after]; [reflexivity|].
      change (default closing
                (head (((sn, num) :: before_raw) ++ closing :: X)))
        with (sn, num).
      cbn [snd]. unfold int_text. rewrite Hint.
      unfold str_isdigit in Hnum. apply andb_true_iff in Hnum.
      rewrite (proj1 Hnum). reflexivity. }
  split; [|split; [|split; [|split]]].
  - intros sb btext after_raw a0 after Hb Hafter.
    rewrite (Hcut sb btext after_raw Hb), Hafter.
    destruct after_raw; [discriminate|reflexivity].
  - intros sb btext after_raw Hb Hafter.
    rewrite (Hcut sb btext after_raw Hb), Hafter.
    destruct after_raw; reflexivity.
  - unfold preformat_critical.
    rewrite (mark_brackets_none U ((sn, num) :: before_raw))
      by (constructor; assumption).
    cbn [split_number snd]. rewrite Hnum. cbn [run_bind].
    rewrite find_idx_no_closing by (constructor; assumption). reflexivity.
  - reflexivity.
  - intros blank others Hblank. unfold preformat_critical.
    cbn [mark_brackets map snd]. rewrite bracket_match.
    destruct (starts_bracket blank) eqn:Hb.
    + cbn [split_number snd closing]. destruct blank as [|c t]; [discriminate|].
      cbn in Hb. unfold char_eqb in Hb. apply N.eqb_eq in Hb. subst c.
      unfold strip, rstrip in *. cbn [lstrip] in *.
      destruct (isspace U 93%N) eqn:Hsp; [reflexivity|].
      exfalso. cbn [rev] in Hblank.
      apply (lstrip_snoc U (rev t) 93%N Hsp).
      apply (f_equal (@rev char)) in Hblank.
      rewrite rev_involutive in Hblank. exact Hblank.
    + cbn [split_number snd]. rewrite Hblank. reflexivity.
Qed.

(** The line [12 fidem ] W fide]. *)
Lemma preformat_critical_cuts_witness :
  preformat_critical ascii_text (isdigit ascii_text)
    [(plain, lit " 12"); (plain, lit " fidem "); (plain, lit "] x");
     (italic, lit " W"); (plain, lit ""); (plain, lit " fide ")]
  = Ok (Some (12%Z, [(plain, lit "fidem")],
              [(italic, lit "W"); (plain, lit " fide")])).
Proof.
  apply (proj1 (preformat_critical_cuts ascii_text (isdigit ascii_text)
                  plain (lit " 12") [(plain, lit " fidem ")]
                  eq_refl eq_refl eq_refl
                  ltac:(repeat constructor))
           plain (lit "] x")
           [(italic, lit " W"); (plain, lit ""); (plain, lit " fide ")]
           (italic, lit " W") [(plain, lit " fide ")]);
    reflexivity.
Defined.

(** ** [repair_italics_in_critical] *)

Section RepairItalics.
Context (U : Unicode).

(** A period or a comma alone, with an optional space. *)
Definition lone_punct : pattern :=
  {| p_icase := false;
     p_re := Seq Bol (Seq (Chr (CSet (lit ".,")))
                          (Seq (Opt (Chr (CLit 32%N))) Eol)) |}.

(** An optional space and a period or a comma, the latter as group 1. *)
Definition space_punct : pattern :=
  {| p_icase := false;
     p_re := Seq (Opt (Chr (CLit 32%N))) (Grp 1 (Chr (CSet (lit ".,")))) |}.

(** A comma and a space at the start. *)
Definition leading_comma : pattern :=
  {| p_icase := false; p_re := Seq Bol (Lits (lit ", ")) |}.

(** A period or a comma, as group 1, and the spaces behind it. *)
Definition punct_spaces : pattern :=
  {| p_icase := false;
     p_re := Seq (Grp 1 (Chr (CSet (lit ".,")))) (Star true (Chr (CLit 32%N))) |}.

(** The first test of the loop body, with [i] the index [enumerate] gives
    the element in [after[1:]]. *)
Definition blank_between_italics (after : list piece) (i : nat)
    (current element : piece) : bool :=
  style_eqb (fst current) italic && style_eqb (fst element) plain &&
  str_eqb (snd element) (lit " ") && (i <? length after - 1) &&
  match after !! (i + 1) with
  | Some next => style_eqb (fst next) italic
  | None => false
  end.

(** The body of the loop: [corrected_after] and [current] before and
    after. *)
Definition repair_step (after : list piece) (acc : list piece * piece)
    (ie : nat * piece) : list piece * piece :=
  let '(corrected_after, current) := acc in
  let '(i, element) := ie in
  if blank_between_italics after i current element then
    (corrected_after, (italic, snd current ++ lit " "))
  else if style_eqb (fst element) italic ||
          is_match (re_match U lone_punct (snd element)) then
    if negb (style_eqb (fst current) italic)
    then (corrected_after ++ [current], element)
    else (corrected_after,
          (italic,
           re_sub U space_punct (fun text m => group_str text m 1)
                  (snd current ++ lit " " ++ snd element)))
  else if style_eqb (fst current) italic then
    if startswith (lit ", ") (snd element)
    then (corrected_after ++ [(fst current, snd current ++ lit ", ")],
          (fst element, re_sub U leading_comma (fun _ _ => []) (snd element)))
    else (corrected_after ++ [current], element)
  else (corrected_after, (plain, snd current ++ lit " " ++ snd element)).

Definition space_after_punct (elem : piece) : piece :=
  (fst elem,
   re_sub U punct_spaces (fun text m => group_str text m 1 ++ lit " ")
          (snd elem)).

(** A last piece that is blank is dropped. *)
Definition drop_blank_end (corrected_after : list piece) : list piece :=
  match last corrected_after with
  | Some z =>
      if nonempty (strip U (snd z)) then corrected_after
      else removelast corrected_after
  | None => corrected_after
  end.

Definition repair_italics_in_critical (after : list piece) : run (list piece) :=
  match after with
  | [] => Raised
  | first :: others =>
      let '(corrected_after, current) :=
        fold_left (repair_step after) (imap pair others) ([], first) in
      Ok (drop_blank_end (map space_after_punct (corrected_after ++ [current])))
  end.

(** ** [format_critical] *)

(** [format_critical]: [Ok None] is the result [None]; an entry is the
    number, the tuple of lemma triples and the tuple of readings. *)
Definition format_critical (digit_char : char -> bool)
    (critical_element : list piece) (doc_num : pystr)
    (wits : option (pystr * pystr))
    : run (option (Z * list lemma * list reading)) :=
  run_bind (preformat_critical U digit_char critical_element)
    (fun preformatted =>
  match preformatted with
  | None => Ok None
  | Some (num, before, after) =>
      run_bind (repair_italics_in_critical before) (fun before =>
      run_bind (repair_italics_in_critical after) (fun after =>
      match wits with
      | None =>
          run_bind (extract_witnesses_left U before doc_num) (fun before =>
          run_bind (extract_witnesses_right U after doc_num) (fun after =>
          Ok (Some (num, before, after))))
      | Some (wit_lem, wit_rdg) =>
          run_bind (or_raise (head before)) (fun b0 =>
          run_bind (or_raise (head after)) (fun a0 =>
          Ok (Some (num,
                    [{| lem_wit := wit_lem; lem_text := snd b0;
                        lem_tag := "lem" |}],
                    [{| rdg_wit := wit_rdg; rdg_text := snd a0 |}]))))
      end))
  end).

End RepairItalics.

Section RepairFacts.
Context (U : Unicode).

Lemma repair_step_length (after : list piece) (acc : list piece * piece)
    (ie : nat * piece) :
  length (fst (repair_step U after acc ie)) <= S (length (fst acc)).
Proof.
  destruct acc as [corrected current], ie as [i element].
  unfold repair_step.
  repeat match goal with
         | |- context [if ?b then _ else _] => destruct b
         end;
    cbn [fst]; rewrite ?length_app; cbn [length]; lia.
Qed.

Lemma repair_fold_length (after : list piece) (l : list (nat * piece))
    (acc : list piece * piece) :
  length (fst (fold_left (repair_step U after) l acc))
  <= length (fst acc) + length l.
Proof.
  revert acc; induction l as [|ie l IH]; intros acc; cbn [fold_left length];
    [lia|].
  pose proof (IH (repair_step U after acc ie)).
  pose proof (repair_step_length after acc ie). lia.
Qed.

Lemma drop_blank_end_length (l : list piece) :
  length (drop_blank_end U l) <= length l.
Proof.
  unfold drop_blank_end. destruct (last l) as [z|]; [|lia].
  destruct (nonempty (strip U (snd z))); [lia|].
  rewrite removelast_firstn_len, length_take. lia.
Qed.

End RepairFacts.

(** X9: [repair_italics_in_critical] raises on an empty list and on no
    other; it never returns more pieces than it was given; and the first
    test of its loop, meant for a blank between two italic pieces, never
    holds: the piece it looks at as the next one, [after[i+1]], is the
    element itself, which cannot be unstyled and italic at once, so such a
    blank is never glued to the italic piece before it. *)
Theorem repair_italics_bounds (U : Unicode) :
  repair_italics_in_critical U [] = Raised /\
  (forall first others,
     exists r, repair_italics_in_critical U (first :: others) = Ok r /\
               length r <= S (length others)) /\
  (forall first others i current element,
     others !! i = Some element ->
     blank_between_italics (first :: others) i current element = false).
Proof.
  split; [reflexivity|]. split.
  - intros first others. unfold repair_italics_in_critical.
    pose proof (repair_fold_length U (first :: others) (imap pair others)
                  ([], first)) as Hlen.
    destruct (fold_left _ _ _) as [corrected current].
    eexists. split; [reflexivity|].
    pose proof (drop_blank_end_length U
                  (map (space_after_punct U) (corrected ++ [current]))) as Hd.
    rewrite length_map, length_app in Hd. rewrite length_imap in Hlen.
    cbn [length fst] in *. lia.
  - intros first others i current element Hi.
    unfold blank_between_italics.
    replace (i + 1) with (S i) by lia.
    change ((first :: others) !! S i) with (others !! i). rewrite Hi.
    destruct (fst element); cbn [style_eqb];
      rewrite ?andb_false_r; reflexivity.
Qed.

(** The sigla [W] and [Sr] in italics with a blank between them: the blank
    is looked at with [W] as the current piece, and is not glued. *)
Lemma repair_italics_bounds_witness :
  blank_between_italics
    [(italic, lit "W"); (plain, lit " "); (italic, lit "Sr")] 0
    (italic, lit "W") (plain, lit " ") = false /\
  repair_italics_in_critical ascii_text
    [(italic, lit "W"); (plain, lit " "); (italic, lit "Sr")]
  = Ok [(italic, lit "W"); (plain, lit " "); (italic, lit "Sr")].
Proof.
  split; [|vm_compute; reflexivity].
  apply (proj2 (proj2 (repair_italics_bounds ascii_text))
           (italic, lit "W") [(plain, lit " "); (italic, lit "Sr")] 0).
  reflexivity.
Defined.

Section FormatFacts.
Context (U : Unicode).

Lemma extract_witnesses_left_shape (before : list piece) (doc_num : pystr)
    (lems : list lemma) :
  extract_witnesses_left U before doc_num = Ok lems ->
  exists l, lems = [l] /\ lem_tag l = "lem"%string.
Proof.
  destruct before as [|[s t] [|[s' w] rest]]; cbn [extract_witnesses_left];
    [discriminate| |].
  - intros [= <-]. eexists. split; reflexivity.
  - destruct (parse_wits U w doc_num (lit "a") true);
      cbn [or_raise run_bind]; [|discriminate].
    intros [= <-]. eexists. split; reflexivity.
Qed.

Lemma pair_up_nonempty (doc_num position : pystr) (t w : piece)
    (texts wits : list piece) (rdgs : list reading) :
  or_raise (pair_up U doc_num position (t :: texts) (w :: wits)) = Ok rdgs ->
  rdgs <> [].
Proof.
  cbn [pair_up].
  destruct (parse_wits U (snd w) doc_num position false);
    cbn [mbind option_bind or_raise]; [|discriminate].
  destruct (pair_up U doc_num position texts wits);
    cbn [mbind option_bind or_raise]; [|discriminate].
  intros [= <-]. discriminate.
Qed.

Lemma every_other_head {A} (x : A) (l : list A) :
  exists xs, every_other (x :: l) = x :: xs.
Proof. destruct l; eexists; reflexivity. Qed.

Lemma extract_witnesses_right_nonempty (after : list piece) (doc_num : pystr)
    (rdgs : list reading) :
  extract_witnesses_right U after doc_num = Ok rdgs -> rdgs <> [].
Proof.
  destruct after as [|[s1 t1] [|[s2 t2] rest]].
  - discriminate.
  - destruct s1; cbn [extract_witnesses_right].
    + destruct (default_edition_id doc_num); cbn [option_map or_raise];
        [|discriminate].
      intros [= <-]. discriminate.
    + intros [= <-]. discriminate.
  - set (after := (s1, t1) :: (s2, t2) :: rest).
    assert (He : exists x xs, evens_but_last after = x :: xs).
    { unfold evens_but_last, after.
      change (removelast ((s1, t1) :: (s2, t2) :: rest))
        with ((s1, t1) :: removelast ((s2, t2) :: rest)).
      eexists. apply every_other_head. }
    assert (Ho : exists x xs, odds after = x :: xs).
    { unfold odds, after.
      change (drop 1 ((s1, t1) :: (s2, t2) :: rest)) with ((s2, t2) :: rest).
      eexists. apply every_other_head. }
    destruct He as (e & es & He), Ho as (o & os & Ho).
    assert (Hcode :
      extract_witnesses_right U after doc_num =
      match alternation s1 (match s1 with plain => (1, 0) | italic => (0, 1) end)
                        ((s2, t2) :: rest) with
      | None => Ok (unparsed U after)
      | Some (n_plain, n_italic) =>
          if negb (n_plain =? n_italic) then Ok (unparsed U after)
          else match s1 with
               | plain => or_raise (pair_up U doc_num (lit "a")
                                      (evens_but_last after) (odds after))
               | italic => or_raise (pair_up U doc_num (lit "b")
                                       (odds after) (evens_but_last after))
               end
      end) by (destruct s1; reflexivity).
    rewrite Hcode. rewrite He, Ho.
    destruct (alternation s1 _ _) as [[n_plain n_italic]|];
      [|intros [= <-]; discriminate].
    destruct (negb (n_plain =? n_italic)); [intros [= <-]; discriminate|].
    destruct s1; apply pair_up_nonempty.
Qed.

End FormatFacts.

(** X10: whenever [format_critical] returns an entry, its lemma side is
    exactly one triple, tagged [lem], and its reading side is not empty, so
    that [lem[0]], which the placement reads, is there; with the witnesses
    of a Labyrint variant given, the entry is one lemma and one reading with
    those witnesses.  A line with nothing between its number and the
    bracket does not give [None]: it raises. *)
Theorem format_critical_one_lemma (U : Unicode) (digit_char : char -> bool) :
  (forall critical_element doc_num wits n lems rdgs,
     format_critical U digit_char critical_element doc_num wits
     = Ok (Some (n, lems, rdgs)) ->
     (exists l, lems = [l] /\ lem_tag l = "lem"%string) /\
     rdgs <> [] /\
     (forall wit_lem wit_rdg,
        wits = Some (wit_lem, wit_rdg) ->
        exists t t',
          lems = [{| lem_wit := wit_lem; lem_text := t; lem_tag := "lem" |}] /\
          rdgs = [{| rdg_wit := wit_rdg; rdg_text := t' |}])) /\
  (forall critical_element doc_num wits n after,
     preformat_critical U digit_char critical_element
     = Ok (Some (n, [], after)) ->
     format_critical U digit_char critical_element doc_num wits = Raised).
Proof.
  split.
  - intros critical_element doc_num wits n lems rdgs. unfold format_critical.
    destruct (preformat_critical U digit_char critical_element)
      as [[[[num before] after]|]| |]; cbn [run_bind]; try discriminate.
    destruct (repair_italics_in_critical U before) as [before'| |];
      cbn [run_bind]; try discriminate.
    destruct (repair_italics_in_critical U after) as [after'| |];
      cbn [run_bind]; try discriminate.
    destruct wits as [[wit_lem wit_rdg]|].
    + destruct (head before') as [b0|]; cbn [or_raise run_bind];
        [|discriminate].
      destruct (head after') as [a0|]; cbn [or_raise run_bind];
        [|discriminate].
      intros [= <- <- <-].
      split; [eexists; split; reflexivity|].
      split; [discriminate|].
      intros w0 w1 [= <- <-]. eexists _, _. split; reflexivity.
    + destruct (extract_witnesses_left U before' doc_num) as [lems'| |] eqn:Hl;
        cbn [run_bind]; try discriminate.
      destruct (extract_witnesses_right U after' doc_num) as [rdgs'| |] eqn:Hr;
        cbn [run_bind]; try discriminate.
      intros [= <- <- <-].
      split; [eapply extract_witnesses_left_shape; exact Hl|].
      split; [eapply extract_witnesses_right_nonempty; exact Hr|].
      intros w0 w1 [=].
  - intros critical_element doc_num wits n after Hpre.
    unfold format_critical. rewrite Hpre. reflexivity.
Qed.

(** The line [12 fidem ] fide W] in document 01, and the line [12 ] fide]. *)
Lemma format_critical_one_lemma_witness :
  format_critical ascii_text (isdigit ascii_text)
    [(plain, lit "12"); (plain, lit " fidem "); (plain, lit "] ");
     (plain, lit "fide"); (italic, lit " W")] (lit "01") None
  = Ok (Some (12%Z,
              [{| lem_wit := lit "#DJAK03"; lem_text := lit "fidem";
                  lem_tag := "lem" |}],
              [{| rdg_wit := lit "#W"; rdg_text := lit "fide" |}])) /\
  format_critical ascii_text (isdigit ascii_text)
    [(plain, lit "12"); (plain, lit "] "); (plain, lit "fide")] (lit "01") None
  = Raised.
Proof.
  split; [vm_compute; reflexivity|].
  apply (proj2 (format_critical_one_lemma ascii_text (isdigit ascii_text))
           _ (lit "01") None 12%Z [(plain, lit "fide")]).
  vm_compute. reflexivity.
Defined.

(** * The checks and repairs around the placement *)

(** ** [check_critical_apparatus] *)

Section CheckApparatus.
Context (U : Unicode).

(** [re.compile(re.escape(s))]: the pattern that matches [s] itself,
    character by character. *)
Definition escaped (s : pystr) : pattern := {| p_icase := false; p_re := Lits s |}.

(** An [app] whose first child is a [lem]: the next entry. *)
Definition is_entry (e : element) : bool :=
  String.eqb (tag e) "app" &&
  match children e with
  | first :: _ => String.eqb (tag first) "lem"
  | [] => false
  end.

(** The loop over [current_element], which starts at the [app] itself:
    [siblings] are the [app] and the elements behind it. *)
Fixpoint lemma_recurs (lem_regex : pattern) (siblings : list element) : bool :=
  match siblings with
  | [] => false
  | current_element :: rest =>
      if is_match (re_search U lem_regex (safe (tail current_element)))
      then true
      else
        match rest with
        | next :: _ => if is_entry next then false else lemma_recurs lem_regex rest
        | [] => false
        end
  end.

(** What the function does to the children of one element: every child with
    a [lem] in it is looked at as the [app] of that [lem]. *)
Definition check_siblings (l : list element) : list element :=
  imap (fun i app =>
          if existsb (fun lem =>
                        String.eqb (tag lem) "lem" &&
                        lemma_recurs (escaped (safe (text lem))) (drop i l))
                     (children app)
          then set_attrib "suspicious" (lit "yes") app
          else app) l.

End CheckApparatus.

(** [check_critical_apparatus]: the marks are set at every depth of the
    tree; a mark changes nothing a later look reads. *)
Fixpoint check_critical_apparatus (U : Unicode) (e : element) : element :=
  match e with
  | Element i t a tx tl cs =>
      Element i t a tx tl (check_siblings U (map (check_critical_apparatus U) cs))
  end.

Section CheckFacts.
Context (U : Unicode).

Lemma literal_char (c x : char) : cset_mem U false (CLit c) x = char_eqb c x.
Proof. cbn [cset_mem]. unfold char_eqb. apply N.eqb_sym. Qed.

Lemma literal_match_at (s : pystr) :
  forall (k : mstate -> option mstate) (st : mstate),
    rmatch U false (Lits s) k st =
    if startswith s (m_rest st)
    then k {| m_pos := m_pos st + length s;
              m_prev := match last s with Some c => Some c | None => m_prev st end;
              m_rest := drop (length s) (m_rest st);
              m_caps := m_caps st |}
    else None.
Proof.
  induction s as [|c [|d s] IH]; intros k st.
  - cbn [Lits rmatch startswith length last drop]. rewrite Nat.add_0_r.
    destruct st; reflexivity.
  - cbn [Lits rmatch startswith length last].
    destruct (m_rest st) as [|x t]; [reflexivity|].
    rewrite literal_char. destruct (char_eqb c x) eqn:E; [|reflexivity].
    unfold char_eqb in E. apply N.eqb_eq in E. subst x.
    replace (startswith [] t) with true by (destruct t; reflexivity).
    cbn [andb]. unfold m_advance. rewrite Nat.add_1_r. reflexivity.
  - change (Lits (c :: d :: s)) with (Seq (Chr (CLit c)) (Lits (d :: s))).
    cbn [rmatch]. destruct (m_rest st) as [|x t]; [reflexivity|].
    rewrite literal_char.
    change (startswith (c :: d :: s) (x :: t))
      with (char_eqb c x && startswith (d :: s) t).
    destruct (char_eqb c x) eqn:E; [|reflexivity].
    unfold char_eqb in E. apply N.eqb_eq in E. subst x. cbn [andb].
    rewrite IH. cbn [m_advance m_rest m_pos m_prev m_caps].
    destruct (startswith (d :: s) t); [|reflexivity].
    f_equal. f_equal.
    + cbn [length]. lia.
    + change (last (c :: d :: s)) with (last (d :: s)).
      destruct (last (d :: s)) eqn:El; [reflexivity|].
      apply last_None in El. discriminate.
Qed.

Lemma literal_search (s text : pystr) (pos : nat) (prev : option char) :
  is_match (search_from U (escaped s) pos prev text) = contains s text.
Proof.
  revert pos prev; induction text as [|c t IH]; intros pos prev;
    cbn [search_from contains]; unfold match_at, escaped;
    cbn [p_icase p_re]; rewrite literal_match_at; cbn [m_rest].
  - destruct (startswith s []); reflexivity.
  - destruct (startswith s (c :: t)); [reflexivity|]. apply IH.
Qed.

(** The loop finds the lemma in the tail of the element [j] places behind
    the [app], with no entry on the way. *)
Lemma lemma_recurs_spec (s : pystr) (siblings : list element) :
  lemma_recurs U (escaped s) siblings = true <->
  exists j x,
    siblings !! j = Some x /\ contains s (safe (tail x)) = true /\
    forall k y, 0 < k <= j -> siblings !! k = Some y -> is_entry y = false.
Proof.
  induction siblings as [|cur rest IH]; cbn [lemma_recurs].
  - split; [discriminate|]. intros (j & x & H & _). discriminate.
  - unfold re_search. rewrite literal_search.
    destruct (contains s (safe (tail cur))) eqn:Hc.
    + split; [intros _|reflexivity].
      exists 0, cur. split; [reflexivity|]. split; [exact Hc|]. intros; lia.
    + destruct rest as [|nxt rest'].
      * split; [discriminate|]. intros ([|j] & x & H & Hx & _).
        -- injection H as <-. congruence.
        -- discriminate.
      * destruct (is_entry nxt) eqn:He.
        -- split; [discriminate|]. intros ([|j] & x & H & Hx & Hk).
           ++ injection H as <-. congruence.
           ++ specialize (Hk 1 nxt ltac:(lia) eq_refl). congruence.
        -- rewrite IH. split.
           ++ intros (j & x & H & Hx & Hk). exists (S j), x.
              split; [exact H|]. split; [exact Hx|].
              intros [|[|k]] y Hr Hy; [lia| |].
              ** injection Hy as <-. exact He.
              ** apply (Hk (S k) y); [lia|exact Hy].
           ++ intros ([|j] & x & H & Hx & Hk).
              ** injection H as <-. congruence.
              ** exists j, x. split; [exact H|]. split; [exact Hx|].
                 intros k y Hr Hy. apply (Hk (S k) y); [lia|exact Hy].
Qed.

End CheckFacts.

(** X11: [check_critical_apparatus] marks an entry as suspicious exactly
    when the text of its lemma occurs again, as it stands, in the tail of
    the [app] or of an element behind it that is reached before the next
    entry (an [app] whose first child is a [lem]); the tail of that next
    entry's [app] is not looked at.  An entry whose lemma text is empty is
    always marked. *)
Theorem suspicious_iff_lemma_recurs (U : Unicode) (l : list element)
    (i : nat) (app : element) :
  l !! i = Some app ->
  (check_siblings U l !! i = Some (set_attrib "suspicious" (lit "yes") app) \/
   check_siblings U l !! i = Some app) /\
  (check_siblings U l !! i = Some (set_attrib "suspicious" (lit "yes") app) <->
   (exists lem j x,
      In lem (children app) /\ tag lem = "lem"%string /\
      l !! (i + j) = Some x /\
      contains (safe (text lem)) (safe (tail x)) = true /\
      forall k y, 0 < k <= j -> l !! (i + k) = Some y -> is_entry y = false) \/
   set_attrib "suspicious" (lit "yes") app = app) /\
  (forall lem, In lem (children app) -> tag lem = "lem"%string ->
               safe (text lem) = [] ->
   check_siblings U l !! i = Some (set_attrib "suspicious" (lit "yes") app)).
Proof.
  intros Hi. unfold check_siblings. rewrite list_lookup_imap, Hi.
  cbn [fmap option_fmap option_map].
  set (flag := existsb _ (children app)).
  assert (Hflag : flag = true <->
    exists lem j x,
      In lem (children app) /\ tag lem = "lem"%string /\
      l !! (i + j) = Some x /\
      contains (safe (text lem)) (safe (tail x)) = true /\
      forall k y, 0 < k <= j -> l !! (i + k) = Some y -> is_entry y = false).
  { unfold flag. rewrite existsb_exists. split.
    - intros (lem & Hin & H). apply andb_true_iff in H. destruct H as [Ht Hr].
      apply String.eqb_eq in Ht. apply lemma_recurs_spec in Hr.
      destruct Hr as (j & x & Hj & Hx & Hk).
      exists lem, j, x. rewrite lookup_drop in Hj.
      repeat split; try assumption.
      intros k y Hr Hy. apply (Hk k y Hr). rewrite lookup_drop. exact Hy.
    - intros (lem & j & x & Hin & Ht & Hj & Hx & Hk).
      exists lem. split; [exact Hin|]. apply andb_true_iff.
      split; [apply String.eqb_eq, Ht|]. apply lemma_recurs_spec.
      exists j, x. rewrite lookup_drop. repeat split; try assumption.
      intros k y Hr Hy. rewrite lookup_drop in Hy. apply (Hk k y Hr Hy). }
  split; [destruct flag; auto|]. split.
  - destruct flag.
    + split; [intros _; left; apply Hflag; reflexivity | reflexivity].
    + split.
      * intros [= H]. right. symmetry. exact H.
      * intros [H|H]; [apply Hflag in H; discriminate | rewrite H; reflexivity].
  - intros lem Hin Ht Hempty.
    assert (Hf : flag = true).
    { apply Hflag. exists lem, 0, app. rewrite Nat.add_0_r.
      repeat split; try assumption.
      - rewrite Hempty. apply contains_nil.
      - intros; lia. }
    rewrite Hf. reflexivity.
Qed.

(** Two entries with the lemma [spem]; the first is followed by the text
    [spem suam], the second by nothing of the kind. *)
Definition two_entries : list element :=
  [Element 1 "app" [] None (Some (lit " in ")) [Element 2 "lem" [] (Some (lit "spem")) None []];
   Element 3 "hi" [] (Some (lit "Deo")) (Some (lit " spem suam ")) [];
   Element 4 "app" [] None (Some (lit " ponit")) [Element 5 "lem" [] (Some (lit "spem")) None []]].

Lemma suspicious_iff_lemma_recurs_witness :
  check_siblings ascii_text two_entries
  = [set_attrib "suspicious" (lit "yes")
       (Element 1 "app" [] None (Some (lit " in "))
                [Element 2 "lem" [] (Some (lit "spem")) None []]);
     Element 3 "hi" [] (Some (lit "Deo")) (Some (lit " spem suam ")) [];
     Element 4 "app" [] None (Some (lit " ponit"))
             [Element 5 "lem" [] (Some (lit "spem")) None []]] /\
  check_siblings ascii_text two_entries !! 0
  = Some (set_attrib "suspicious" (lit "yes")
            (Element 1 "app" [] None (Some (lit " in "))
                     [Element 2 "lem" [] (Some (lit "spem")) None []])).
Proof.
  split; [vm_compute; reflexivity|].
  apply (proj1 (proj2 (suspicious_iff_lemma_recurs ascii_text two_entries 0
                         _ eq_refl))).
  left. exists (Element 2 "lem" [] (Some (lit "spem")) None []), 1,
          (Element 3 "hi" [] (Some (lit "Deo")) (Some (lit " spem suam ")) []).
  repeat split; try reflexivity; [left; reflexivity|].
  intros [|[|k]] y Hk Hy; [lia| |lia].
  injection Hy as <-. reflexivity.
Defined.

(** ** [glue_custom_styles] *)

Section Glue.
Context (U : Unicode).

Definition tail_is_empty (e : element) : bool :=
  match tail e with
  | None => true
  | Some t => negb (nonempty (strip U t))
  end.

(** [prev_subelement.tag == subelement.tag == 'hi'] *)
Definition both_hi (prev_subelement subelement : element) : bool :=
  String.eqb (tag prev_subelement) (tag subelement) &&
  String.eqb (tag subelement) "hi".

(** The loop over [element[1:]], a copy of the children made before the
    loop: what is left of [prev_subelement] and the children behind it.
    [len(prev_subelement.tail)] raises when there is no tail; a removed
    element takes its tail, and its own children, with it. *)
Fixpoint glue (prev_subelement : element) (rest : list element)
    : run (list element) :=
  match rest with
  | [] => Ok [prev_subelement]
  | subelement :: rest' =>
      if both_hi prev_subelement subelement then
        match tail prev_subelement with
        | None => Raised
        | Some tl =>
            if (length tl <? 5) || tail_is_empty prev_subelement
            then glue (set_text (Some (safe (text prev_subelement) ++ tl ++
                                       safe (text subelement))) subelement)
                      rest'
            else run_bind (glue subelement rest')
                          (fun l => Ok (prev_subelement :: l))
        end
      else run_bind (glue subelement rest') (fun l => Ok (prev_subelement :: l))
  end.

(** The children of one paragraph after [glue_custom_styles]. *)
Definition glue_children (cs : list element) : run (list element) :=
  match cs with
  | first :: (_ :: _) as rest => glue first rest
  | _ => Ok cs
  end.

(** Two neighbours the loop would glue. *)
Definition gluable (a b : element) : bool :=
  both_hi a b &&
  match tail a with
  | Some tl => (length tl <? 5) || tail_is_empty a
  | None => true
  end.

End Glue.

(** The texts and the tails of a list of siblings, in order. *)
Definition shallow_text (l : list element) : pystr :=
  concat (map (fun e => safe (text e) ++ safe (tail e)) l).

Section GlueFacts.
Context (U : Unicode).

Lemma glue_head_tag (rest : list element) :
  forall prev l, glue U prev rest = Ok l ->
    exists h l', l = h :: l' /\ tag h = tag prev.
Proof.
  induction rest as [|sub rest IH]; intros prev l; cbn [glue].
  - intros [= <-]. exists prev, []. auto.
  - assert (Hkeep : run_bind (glue U sub rest) (fun l0 => Ok (prev :: l0)) = Ok l ->
                    exists h l', l = h :: l' /\ tag h = tag prev).
    { destruct (glue U sub rest) as [l0| |]; cbn [run_bind]; try discriminate.
      intros [= <-]. exists prev, l0. auto. }
    destruct (both_hi prev sub) eqn:Hb; [|exact Hkeep].
    destruct (tail prev) as [tl|]; [|discriminate].
    destruct ((length tl <? 5) || tail_is_empty U prev); [|exact Hkeep].
    intros H. apply IH in H. destruct H as (h & l' & -> & Ht).
    exists h, l'. split; [reflexivity|].
    unfold both_hi in Hb. apply andb_true_iff in Hb. destruct Hb as [Hb _].
    apply String.eqb_eq in Hb. rewrite Ht, Hb. reflexivity.
Qed.

Lemma glue_text (rest : list element) :
  forall prev l, glue U prev rest = Ok l ->
    shallow_text l = shallow_text (prev :: rest).
Proof.
  induction rest as [|sub rest IH]; intros prev l; cbn [glue].
  - intros [= <-]. reflexivity.
  - assert (Hkeep : run_bind (glue U sub rest) (fun l0 => Ok (prev :: l0)) = Ok l ->
                    shallow_text l = shallow_text (prev :: sub :: rest)).
    { destruct (glue U sub rest) as [l0| |] eqn:Hg; cbn [run_bind];
        try discriminate.
      intros [= <-]. apply IH in Hg. unfold shallow_text in *.
      cbn [map concat] in *. rewrite Hg. reflexivity. }
    destruct (both_hi prev sub); [|exact Hkeep].
    destruct (tail prev) as [tl|] eqn:Htl; [|discriminate].
    destruct ((length tl <? 5) || tail_is_empty U prev); [|exact Hkeep].
    intros H. apply IH in H. rewrite H. unfold shallow_text.
    cbn [map concat text tail set_text]. rewrite Htl.
    change (safe (Some (safe (text prev) ++ tl ++ safe (text sub))))
      with (safe (text prev) ++ tl ++ safe (text sub)).
    change (safe (Some tl)) with tl. rewrite <- !app_assoc. reflexivity.
Qed.

Lemma glue_length (rest : list element) :
  forall prev l, glue U prev rest = Ok l -> length l <= S (length rest).
Proof.
  induction rest as [|sub rest IH]; intros prev l; cbn [glue].
  - intros [= <-]. cbn. lia.
  - assert (Hkeep : run_bind (glue U sub rest) (fun l0 => Ok (prev :: l0)) = Ok l ->
                    length l <= S (length (sub :: rest))).
    { destruct (glue U sub rest) as [l0| |] eqn:Hg; cbn [run_bind];
        try discriminate.
      intros [= <-]. apply IH in Hg. cbn [length]. lia. }
    destruct (both_hi prev sub); [|exact Hkeep].
    destruct (tail prev) as [tl|]; [|discriminate].
    destruct ((length tl <? 5) || tail_is_empty U prev); [|exact Hkeep].
    intros H. apply IH in H. cbn [length]. lia.
Qed.

Lemma gluable_tag (a b b' : element) :
  tag b' = tag b -> gluable U a b' = gluable U a b.
Proof. intros H. unfold gluable, both_hi. rewrite H. reflexivity. Qed.

Lemma glue_apart (rest : list element) :
  forall prev l, glue U prev rest = Ok l ->
    forall i a b, l !! i = Some a -> l !! S i = Some b -> gluable U a b = false.
Proof.
  induction rest as [|sub rest IH]; intros prev l; cbn [glue].
  - intros [= <-] [|i] a b Ha Hb; discriminate.
  - assert (Hkeep : gluable U prev sub = false ->
                    run_bind (glue U sub rest) (fun l0 => Ok (prev :: l0)) = Ok l ->
                    forall i a b, l !! i = Some a -> l !! S i = Some b ->
                                  gluable U a b = false).
    { intros Hg. destruct (glue U sub rest) as [l0| |] eqn:Hl; cbn [run_bind];
        try discriminate.
      intros [= <-] [|i] a b Ha Hb.
      - injection Ha as <-.
        apply glue_head_tag in Hl. destruct Hl as (h & l' & -> & Ht).
        injection Hb as <-. rewrite (gluable_tag prev sub h Ht). exact Hg.
      - exact (IH sub l0 Hl i a b Ha Hb). }
    unfold gluable in Hkeep.
    destruct (both_hi prev sub); [|apply Hkeep; reflexivity].
    destruct (tail prev) as [tl|]; [|discriminate].
    destruct ((length tl <? 5) || tail_is_empty U prev);
      [|apply Hkeep; reflexivity].
    intros H. exact (IH _ l H).
Qed.

Lemma glue_total (rest : list element) :
  forall prev, tail prev <> None -> Forall (fun e => tail e <> None) rest ->
    exists l, glue U prev rest = Ok l.
Proof.
  induction rest as [|sub rest IH]; intros prev Hp Hall; cbn [glue].
  - eexists; reflexivity.
  - inversion Hall as [|? ? Hs Hall']; subst.
    assert (Hkeep : exists l, run_bind (glue U sub rest)
                                (fun l0 => Ok (prev :: l0)) = Ok l).
    { destruct (IH sub Hs Hall') as [l0 Hl]. rewrite Hl. eexists; reflexivity. }
    destruct (both_hi prev sub); [|exact Hkeep].
    destruct (tail prev) as [tl|]; [|contradiction].
    destruct ((length tl <? 5) || tail_is_empty U prev); [|exact Hkeep].
    apply IH; [exact Hs | exact Hall'].
Qed.

End GlueFacts.

(** X12: when [glue_custom_styles] is through with the children of a
    paragraph, the texts and tails of the children read in order are what
    they were, no child has been added, and no [hi] is left standing
    directly before another [hi] behind a tail of fewer than five
    characters or a blank one: each such [hi] has been removed and its text
    and tail put in front of the text of the next (its own children are not
    kept).  It raises only where a [hi] before a [hi] has no tail at all:
    with a tail on every child it ends normally. *)
Theorem glue_custom_styles_keeps_text (U : Unicode) (cs : list element) :
  (forall cs', glue_children U cs = Ok cs' ->
     shallow_text cs' = shallow_text cs /\
     length cs' <= length cs /\
     forall i a b, cs' !! i = Some a -> cs' !! S i = Some b ->
                   gluable U a b = false) /\
  (Forall (fun e => tail e <> None) cs -> exists cs', glue_children U cs = Ok cs').
Proof.
  unfold glue_children. destruct cs as [|first [|second rest]].
  - split; [|eexists; reflexivity].
    intros cs' [= <-]. repeat split; [lia|]. intros [|i]; discriminate.
  - split; [|eexists; reflexivity].
    intros cs' [= <-]. repeat split; [lia|]. intros [|i] a b Ha Hb; discriminate.
  - split.
    + intros cs' H. split; [exact (glue_text U _ _ _ H)|].
      split; [exact (glue_length U _ _ _ H) | exact (glue_apart U _ _ _ H)].
    + intros Hall. inversion Hall; subst. apply glue_total; assumption.
Qed.

(** Two spaced words in two [hi] with a blank between them, then text. *)
Definition deus_est : list element :=
  [Element 1 "hi" [("rend"%string, lit "spaced")] (Some (lit "Deus"))
           (Some (lit " ")) [];
   Element 2 "hi" [("rend"%string, lit "spaced")] (Some (lit "est"))
           (Some (lit " caritas")) []].

Definition deus_est_glued : list element :=
  [Element 2 "hi" [("rend"%string, lit "spaced")] (Some (lit "Deus est"))
           (Some (lit " caritas")) []].

Lemma glue_custom_styles_keeps_text_witness :
  glue_children ascii_text deus_est = Ok deus_est_glued /\
  shallow_text deus_est_glued = shallow_text deus_est.
Proof.
  assert (H : glue_children ascii_text deus_est = Ok deus_est_glued)
    by (vm_compute; reflexivity).
  split; [exact H|].
  exact (proj1 (proj1 (glue_custom_styles_keeps_text ascii_text deus_est)
                  deus_est_glued H)).
Defined.

(** ** [add_bible_ref] *)

(** [add_bible_ref(elem, match_start, match_end, current)]: the element
    after the change and the place of the new [ref] among its children;
    [current] is a child of [elem], by position, or [None].  Slicing a text
    or a tail that is not there raises. *)
Definition add_bible_ref (fresh : nat) (elem : element)
    (match_start match_end : nat) (current : option nat)
    : option (element * nat) :=
  let ref :=
    set_attrib "subtype" (lit "Bible")
      (set_attrib "type" (lit "canon") (new_element fresh "ref")) in
  match current with
  | None =>
      field ← text elem;
      let ref := set_tail (Some (slice_from match_end field))
                   (set_text (Some (slice match_start match_end field)) ref) in
      Some (set_children (ref :: children elem)
              (set_text (Some (slice_to match_start field)) elem), 0)
  | Some c =>
      cur ← children elem !! c;
      field ← tail cur;
      let ref := set_tail (Some (slice_from match_end field))
                   (set_text (Some (slice match_start match_end field)) ref) in
      Some (set_children
              (take c (children elem) ++
               set_tail (Some (slice_to match_start field)) cur :: ref ::
               drop (S c) (children elem)) elem,
            S c)
  end.

(** X13: [add_bible_ref] keeps the text it cuts: for a match whose start is
    not behind its end, the text left in front, the text of the new [ref]
    and the tail of the [ref] are, read in order, the text (or the tail)
    the match was found in; the [ref] stands first among the children, or
    directly behind [current], and every other child is as it was. *)
Theorem add_bible_ref_keeps_text (fresh : nat) (elem : element)
    (match_start match_end : nat) (current : option nat)
    (elem' : element) (at_ : nat) :
  match_start <= match_end ->
  add_bible_ref fresh elem match_start match_end current = Some (elem', at_) ->
  exists ref,
    children elem' !! at_ = Some ref /\ tag ref = "ref"%string /\
    children ref = [] /\
    match current with
    | None =>
        at_ = 0 /\ children elem' = ref :: children elem /\
        Some (safe (text elem') ++ safe (text ref) ++ safe (tail ref))
        = text elem
    | Some c =>
        at_ = S c /\ text elem' = text elem /\
        exists cur cur',
          children elem !! c = Some cur /\
          children elem' = take c (children elem) ++ cur' :: ref ::
                           drop (S c) (children elem) /\
          text cur' = text cur /\ children cur' = children cur /\
          Some (safe (tail cur') ++ safe (text ref) ++ safe (tail ref))
          = tail cur
    end.
Proof.
  intros Hle. unfold add_bible_ref.
  assert (Hcat : forall field,
    slice_to match_start field ++ slice match_start match_end field ++
    slice_from match_end field = field).
  { intros field.
    exact (cut_concat field {| mstart := match_start; mend := match_end;
                               mgroups := [] |} Hle). }
  destruct current as [c|].
  - destruct (children elem !! c) as [cur|] eqn:Hc; cbn [mbind option_bind];
      [|discriminate].
    destruct (tail cur) as [field|] eqn:Ht; cbn [mbind option_bind];
      [|discriminate].
    intros [= <- <-]. eexists. cbn [children set_children].
    split.
    { rewrite lookup_app_r by (rewrite length_take; lia).
      rewrite length_take.
      apply lookup_lt_Some in Hc.
      replace (S c - c `min` length (children elem)) with 1 by lia.
      reflexivity. }
    split; [reflexivity|]. split; [reflexivity|].
    split; [reflexivity|]. split; [reflexivity|].
    exists cur, (set_tail (Some (slice_to match_start field)) cur).
    split; [reflexivity|]. split; [reflexivity|].
    split; [reflexivity|]. split; [reflexivity|].
    cbn [tail text set_tail set_text set_attrib new_element safe default].
    unfold id. rewrite Hcat, Ht. reflexivity.
  - destruct (text elem) as [field|] eqn:Ht; cbn [mbind option_bind];
      [|discriminate].
    intros [= <- <-]. eexists. cbn [children set_children].
    split; [reflexivity|]. split; [reflexivity|]. split; [reflexivity|].
    split; [reflexivity|]. split; [reflexivity|].
    cbn [tail text set_tail set_text set_children set_attrib new_element
         safe default].
    unfold id. rewrite Hcat. reflexivity.
Qed.

(** The reference [Mt 5,3] in the tail of a page break. *)
Lemma add_bible_ref_keeps_text_witness :
  exists elem',
    add_bible_ref 10
      (Element 0 "p" [] None None
               [Element 1 "pb" [] None (Some (lit "beati (Mt 5,3) pauperes")) []])
      7 13 (Some 0)
    = Some (elem', 1) /\
    map outline (children elem')
    = [("pb", [], lit "beati ("); ("ref", lit "Mt 5,3", lit ") pauperes")]%string.
Proof.
  eexists. split; [reflexivity|].
  destruct (add_bible_ref_keeps_text 10
              (Element 0 "p" [] None None
                 [Element 1 "pb" [] None (Some (lit "beati (Mt 5,3) pauperes")) []])
              7 13 (Some 0) _ 1 ltac:(lia) eq_refl)
    as (ref & _).
  reflexivity.
Defined.

(** * [add_footnotes] *)

Section Footnotes.
Context (U : Unicode).

(** The marker of a footnote: [<FN_], digits, [>]. *)
Definition footnote_re : pattern :=
  {| p_icase := false;
     p_re := Seq (Lits (lit "<FN_"))
                 (Seq (Grp 1 (AtLeast 1 (Chr CDigit))) (Chr (CLit 62%N))) |}.

(** [str(x)] of a text that may be [None]. *)
Definition py_str (t : option pystr) : pystr :=
  match t with Some s => s | None => lit "None" end.

(** The variables of the function: the children of the [div], [note] as
    paragraph and child, [comment_i], and the next free identity. *)
Record fstate := {
  f_tree : paragraphs;
  f_note : option (nat * nat);
  f_comment_i : nat;
  f_fresh : nat
}.

Definition footnote_args (tp : templates) (i : nat) (note : pystr)
    : comment_args :=
  {| comment_i := i; label_text := []; note_text := Some note;
     anchor_id_template := anchor_template tp;
     app_id_template := app_template tp |}.

(** The loop [while note is not None] for the paragraph [b], cut short
    after [fuel] turns.  [add_comment] returns the anchor it has set, and
    [note] becomes that anchor. *)
Fixpoint footnote_loop (fuel : nat) (footnotes : list (pystr * pystr))
    (tp : templates) (b : nat) (s : fstate) : run fstate :=
  match fuel with
  | O => Unfinished
  | S fuel' =>
      match f_note s with
      | None => Ok s
      | Some (bn, c) =>
          run_bind (or_raise (f_tree s !! bn ≫= fun par => children par !! c))
            (fun note =>
          match re_search U footnote_re (py_str (tail note)) with
          | None => Ok s
          | Some footnote_match =>
              let footnote_num :=
                group_str (py_str (tail note)) footnote_match 1 in
              match dict_get footnote_num footnotes with
              | None => footnote_loop fuel' footnotes tp b s
              | Some text =>
                  if bn =? b then
                    run_bind
                      (or_raise
                         (add_comment U (f_fresh s)
                            (footnote_args tp (S (f_comment_i s)) text)
                            commentary footnote_match (f_tree s) (at_tail b c)))
                      (fun ps' =>
                         footnote_loop fuel' footnotes tp b
                           {| f_tree := ps'; f_note := Some (b, S c);
                              f_comment_i := S (f_comment_i s);
                              f_fresh := f_fresh s + 6 |})
                  else Raised
              end
          end)
      end
  end.

(** The body of the loop over the paragraphs, for the paragraph [b]. *)
Definition footnotes_in_paragraph (fuel : nat)
    (footnotes : list (pystr * pystr)) (tp : templates)
    (s : fstate) (b : nat) : run fstate :=
  run_bind (or_raise (f_tree s !! b)) (fun elem =>
  if negb (is_p elem) then Ok s
  else
    match re_search U footnote_re (py_str (text elem)) with
    | None => Ok s
    | Some footnote_match =>
        let footnote_num := group_str (py_str (text elem)) footnote_match 1 in
        run_bind
          (match dict_get footnote_num footnotes with
           | Some text =>
               run_bind
                 (or_raise
                    (add_comment U (f_fresh s)
                       (footnote_args tp (S (f_comment_i s)) text)
                       commentary footnote_match (f_tree s) (at_text b)))
                 (fun ps' =>
                    Ok {| f_tree := ps'; f_note := Some (b, 0);
                          f_comment_i := S (f_comment_i s);
                          f_fresh := f_fresh s + 6 |})
           | None => Ok s
           end)
          (fun s1 =>
             let s2 :=
               match f_note s1, f_tree s1 !! b ≫= fun par => head (children par) with
               | None, Some _ =>
                   {| f_tree := f_tree s1; f_note := Some (b, 0);
                      f_comment_i := f_comment_i s1; f_fresh := f_fresh s1 |}
               | _, _ => s1
               end in
             footnote_loop fuel footnotes tp b s2)
    end).

(** [add_footnotes] on the children of one [div]. *)
Definition add_footnotes (fuel : nat) (footnotes : list (pystr * pystr))
    (tp : templates) (ps : paragraphs) (comment_i next_id : nat) : run fstate :=
  run_fold (footnotes_in_paragraph fuel footnotes tp)
    {| f_tree := ps; f_note := None; f_comment_i := comment_i;
       f_fresh := next_id |}
    (seq 0 (length ps)).

End Footnotes.

Section FootnoteMarker.
Context (U : Unicode).

(** The state behind the characters [ds], with [tl] still to read. *)
Definition behind (st : mstate) (ds tl : pystr) : mstate :=
  {| m_pos := m_pos st + length ds;
     m_prev := match last ds with Some c => Some c | None => m_prev st end;
     m_rest := tl; m_caps := m_caps st |}.

Lemma behind_nil (st : mstate) : behind st [] (m_rest st) = st.
Proof. unfold behind. cbn. rewrite Nat.add_0_r. destruct st; reflexivity. Qed.

Lemma behind_cons (st : mstate) (c : char) (t ds tl : pystr) :
  behind (m_advance c t st) ds tl = behind st (c :: ds) tl.
Proof.
  unfold behind, m_advance. cbn [m_pos m_prev m_caps length]. f_equal; [lia|].
  destruct ds as [|d ds]; [reflexivity|].
  change (last (c :: d :: ds)) with (last (d :: ds)).
  destruct (last (d :: ds)) eqn:E; [reflexivity|].
  apply last_None in E. discriminate.
Qed.

Definition all_digits (ds : pystr) : Prop := Forall (fun c => isdigit U c = true) ds.

(** What a run of digits, repeated greedily, leaves to what follows. *)
Lemma digits_inversion (K : mstate -> option mstate) (n : nat) :
  forall st e,
    star_loop (rmatch U false (Chr CDigit)) true K n st = Some e ->
    exists ds tl, all_digits ds /\ m_rest st = ds ++ tl /\
                  K (behind st ds tl) = Some e.
Proof.
  induction n as [|n IH]; intros st e;
    assert (Hstay : K st = Some e ->
              exists ds tl, all_digits ds /\ m_rest st = ds ++ tl /\
                            K (behind st ds tl) = Some e)
      by (intros H; exists [], (m_rest st); rewrite behind_nil;
          split; [constructor|]; split; [reflexivity|exact H]);
    cbn [star_loop]; [exact Hstay|].
  cbn [rmatch]. destruct (m_rest st) as [|c t] eqn:Hrest; [exact Hstay|].
  cbn [cset_mem]. destruct (isdigit U c) eqn:Hc; [|exact Hstay].
  cbn [m_advance m_rest length].
  rewrite (proj2 (Nat.ltb_lt _ _) (Nat.lt_succ_diag_r _)).
  destruct (star_loop _ true K n _) as [e'|] eqn:Hmore; cbn [or_else];
    [|exact Hstay].
  intros [= <-]. apply IH in Hmore.
  destruct Hmore as (ds & tl & Hds & Ht & HK).
  change (t = ds ++ tl) in Ht.
  exists (c :: ds), tl. split; [constructor; assumption|].
  split; [rewrite Ht; reflexivity|].
  rewrite <- behind_cons with (t := t). exact HK.
Qed.

(** The closing [>] behind the digits, with the digits as group 1. *)
Definition closes (from : nat) (s' : mstate) : option mstate :=
  rmatch U false (Chr (CLit 62%N)) Some (m_capture 1 from s').

Lemma closes_inversion (from : nat) (s' e : mstate) :
  closes from s' = Some e ->
  exists tl, m_rest s' = 62%N :: tl /\
             e = m_advance 62%N tl (m_capture 1 from s').
Proof.
  unfold closes. cbn [rmatch m_capture m_rest].
  destruct (m_rest s') as [|x tl]; [discriminate|].
  cbn [cset_mem]. destruct (char_eqb x 62%N) eqn:E; [|discriminate].
  unfold char_eqb in E. apply N.eqb_eq in E. subst x.
  intros [= <-]. exists tl. split; reflexivity.
Qed.

Lemma digit_step (k : mstate -> option mstate) (st : mstate) (c : char)
    (t : pystr) :
  m_rest st = c :: t ->
  rmatch U false (Chr CDigit) k st
  = if isdigit U c then k (m_advance c t st) else None.
Proof. intros H. cbn [rmatch]. rewrite H. reflexivity. Qed.

(** Digits and the closing [>] with nothing behind: the greedy repetition
    ends behind the digits, whatever it tries first. *)
Lemma digits_forward (from : nat) (ds : pystr) :
  forall n st,
    all_digits ds -> length ds <= n -> m_rest st = ds ++ [62%N] ->
    star_loop (rmatch U false (Chr CDigit)) true (closes from) n st
    = Some (m_advance 62%N [] (m_capture 1 from (behind st ds [62%N]))).
Proof.
  induction ds as [|d ds IH]; intros n st Hds Hn Hrest.
  - assert (HK : closes from st
                 = Some (m_advance 62%N [] (m_capture 1 from (behind st [] [62%N])))).
    { unfold closes. cbn [rmatch m_capture m_rest]. rewrite Hrest.
      cbn [app cset_mem]. unfold char_eqb. rewrite N.eqb_refl.
      unfold m_advance, behind. cbn [m_capture m_pos m_prev m_caps length last].
      rewrite Nat.add_0_r. reflexivity. }
    destruct n as [|n]; cbn [star_loop]; [exact HK|].
    cbn [rmatch]. rewrite Hrest. cbn [app cset_mem].
    destruct (isdigit U 62%N); [|exact HK].
    cbn [m_advance m_rest length].
    rewrite (proj2 (Nat.ltb_lt _ _) (Nat.lt_succ_diag_r _)).
    assert (Hend : forall s', m_rest s' = [] ->
                   star_loop (rmatch U false (Chr CDigit)) true (closes from) n s'
                   = None).
    { intros s' Hs'. destruct n as [|n]; cbn [star_loop rmatch];
        unfold closes; cbn [rmatch m_capture m_rest]; rewrite Hs'; reflexivity. }
    rewrite Hend by reflexivity. exact HK.
  - destruct n as [|n]; [cbn in Hn; lia|].
    inversion Hds as [|? ? Hd Hds']; subst.
    change (m_rest st = d :: (ds ++ [62%N])) in Hrest.
    cbn [star_loop]. rewrite (digit_step _ _ _ _ Hrest), Hd.
    cbn [m_advance m_rest]. rewrite Hrest.
    change (length (d :: (ds ++ [62%N]))) with (S (length (ds ++ [62%N]))).
    rewrite (proj2 (Nat.ltb_lt _ _) (Nat.lt_succ_diag_r _)).
    rewrite (IH n (m_advance d (ds ++ [62%N]) st) Hds'
               ltac:(cbn in Hn; lia) eq_refl).
    cbn [or_else]. rewrite behind_cons. reflexivity.
Qed.

(** The text of a marker with the digits [ds]. *)
Definition marker (ds : pystr) : pystr := lit "<FN_" ++ ds ++ [62%N].

Lemma footnote_match_unfold (st : mstate) :
  rmatch U false (p_re footnote_re) Some st =
  if startswith (lit "<FN_") (m_rest st) then
    match drop 4 (m_rest st) with
    | d :: t =>
        if isdigit U d
        then star_loop (rmatch U false (Chr CDigit)) true
               (closes (m_pos st + 4)) (length t)
               (m_advance d t (behind st (lit "<FN_") (d :: t)))
        else None
    | [] => None
    end
  else None.
Proof.
  unfold footnote_re. cbn [p_re rmatch]. rewrite literal_match_at.
  destruct (startswith (lit "<FN_") (m_rest st)); [|reflexivity].
  change (length (lit "<FN_")) with 4.
  change (AtLeast 1 (Chr CDigit)) with (Seq (Chr CDigit) (Star true (Chr CDigit))).
  cbn [rmatch m_rest m_pos].
  destruct (drop 4 (m_rest st)) as [|d t]; [reflexivity|].
  cbn [cset_mem]. destruct (isdigit U d); reflexivity.
Qed.

Lemma startswith_app (p s : pystr) :
  startswith p s = true -> s = p ++ drop (length p) s.
Proof.
  revert s; induction p as [|x p IH]; intros [|y s]; cbn [startswith];
    try discriminate; try reflexivity.
  rewrite andb_true_iff. unfold char_eqb. rewrite N.eqb_eq.
  intros [-> H]. cbn [length drop app]. f_equal. apply IH, H.
Qed.

(** A match of the pattern covers a marker, and its group the digits. *)
Lemma footnote_match_inversion (st : mstate) (m : rematch) :
  m_caps st = [] ->
  match_at U footnote_re st = Some m ->
  exists ds tl,
    ds <> [] /\ all_digits ds /\ m_rest st = marker ds ++ tl /\
    m = {| mstart := m_pos st; mend := m_pos st + length (marker ds);
           mgroups := [(1, (m_pos st + 4, m_pos st + 4 + length ds))] |}.
Proof.
  intros Hcaps. unfold match_at. cbn [p_icase footnote_re].
  change (Seq (Lits (lit "<FN_")) _) with (p_re footnote_re).
  rewrite footnote_match_unfold.
  destruct (startswith (lit "<FN_") (m_rest st)) eqn:Hs; [|discriminate].
  apply startswith_app in Hs. change (length (lit "<FN_")) with 4 in Hs.
  destruct (drop 4 (m_rest st)) as [|d t] eqn:Hd; [discriminate|].
  destruct (isdigit U d) eqn:Hdig; [|discriminate].
  destruct (star_loop _ true _ (length t) _) as [e|] eqn:Hloop; [|discriminate].
  intros [= <-].
  apply digits_inversion in Hloop. destruct Hloop as (ds & tl & Hds & Ht & HK).
  change (t = ds ++ tl) in Ht.
  apply closes_inversion in HK. destruct HK as (tl' & Hr & ->).
  cbn [behind m_rest] in Hr. subst tl.
  exists (d :: ds), tl'. split; [discriminate|].
  split; [constructor; assumption|].
  split.
  { rewrite Hs, Ht. unfold marker. rewrite <- !app_assoc. reflexivity. }
  cbn [m_advance m_capture behind m_pos m_caps]. rewrite Hcaps.
  unfold marker. rewrite !length_app. cbn [length].
  change (length (lit "<FN_")) with 4.
  f_equal; [lia|]. do 3 f_equal. lia.
Qed.

Lemma startswith_prefix (p s : pystr) : startswith p (p ++ s) = true.
Proof.
  induction p as [|x p IH]; [destruct s; reflexivity|].
  cbn [app startswith]. unfold char_eqb. rewrite N.eqb_refl. exact IH.
Qed.

Lemma search_from_first (p : pattern) (pos : nat) (prev : option char)
    (rest : pystr) (m : rematch) :
  match_at U p {| m_pos := pos; m_prev := prev; m_rest := rest; m_caps := [] |}
  = Some m ->
  search_from U p pos prev rest = Some m.
Proof. intros H. destruct rest; cbn [search_from]; rewrite H; reflexivity. Qed.

(** A marker alone is matched from its start to its end. *)
Lemma footnote_match_marker (ds : pystr) :
  ds <> [] -> all_digits ds ->
  re_search U footnote_re (marker ds)
  = Some {| mstart := 0; mend := length (marker ds);
            mgroups := [(1, (4, 4 + length ds))] |}.
Proof.
  intros Hne Hds. destruct ds as [|d ds]; [contradiction|].
  inversion Hds as [|? ? Hd Hds']; subst.
  unfold re_search. apply search_from_first.
  unfold match_at, marker. cbn [p_icase footnote_re].
  change (Seq (Lits (lit "<FN_")) _) with (p_re footnote_re).
  rewrite footnote_match_unfold. cbn [m_rest m_pos].
  rewrite startswith_prefix.
  change 4 with (length (lit "<FN_")) at 1.
  rewrite drop_app_length.
  change ((d :: ds) ++ [62%N]) with (d :: (ds ++ [62%N])).
  cbv beta iota. rewrite Hd.
  rewrite (digits_forward (0 + 4) ds (length (ds ++ [62%N]))
             (m_advance d (ds ++ [62%N])
                (behind {| m_pos := 0; m_prev := None;
                           m_rest := lit "<FN_" ++ d :: (ds ++ [62%N]);
                           m_caps := [] |}
                   (lit "<FN_") (d :: (ds ++ [62%N])))) Hds');
    [|rewrite length_app; lia|reflexivity].
  cbn [m_advance m_capture behind m_pos m_caps length].
  change (length (lit "<FN_")) with 4.
  do 2 f_equal.
  rewrite length_app. cbn [length]. rewrite length_app.
  change (length (lit "<FN_")) with 4. cbn [length]. lia.
Qed.

Lemma search_from_inversion (p : pattern) (rest : pystr) :
  forall pos prev m,
    search_from U p pos prev rest = Some m ->
    exists a b prev',
      rest = a ++ b /\
      match_at U p {| m_pos := pos + length a; m_prev := prev'; m_rest := b;
                      m_caps := [] |} = Some m.
Proof.
  induction rest as [|c t IH]; intros pos prev m; cbn [search_from].
  - destruct (match_at U p _) eqn:E; [|discriminate].
    intros [= <-]. exists [], [], prev. rewrite Nat.add_0_r. auto.
  - destruct (match_at U p _) eqn:E.
    + intros [= <-]. exists [], (c :: t), prev. rewrite Nat.add_0_r. auto.
    + intros H. apply IH in H. destruct H as (a & b & prev' & -> & H).
      exists (c :: a), b, prev'. split; [reflexivity|].
      cbn [length]. rewrite <- Nat.add_succ_comm. exact H.
Qed.

(** The text a match of the pattern covers is a marker; searched alone it
    is found again, whole, with the same number. *)
Lemma footnote_found_again (t : pystr) (m : rematch) :
  re_search U footnote_re t = Some m ->
  exists ds,
    ds <> [] /\ all_digits ds /\
    slice (mstart m) (mend m) t = marker ds /\
    group_str t m 1 = ds /\ mstart m <= mend m.
Proof.
  intros H. apply search_from_inversion in H.
  destruct H as (a & b & prev' & -> & H).
  apply footnote_match_inversion in H; [|reflexivity].
  destruct H as (ds & tl & Hne & Hds & Hb & ->).
  cbn [m_rest m_pos] in *. change (0 + length a) with (length a).
  subst b. exists ds.
  split; [exact Hne|]. split; [exact Hds|].
  cbn [mstart mend]. split; [|split; [|lia]].
  - unfold slice. rewrite drop_app_length.
    replace (length a + length (marker ds) - length a)
      with (length (marker ds)) by lia.
    apply take_app_length.
  - unfold group_str, group. cbn [List.find mgroups fst Nat.eqb].
    unfold slice, marker.
    replace (length a + 4) with (length (a ++ lit "<FN_"))
      by (rewrite length_app; reflexivity).
    rewrite <- !app_assoc, (app_assoc a), drop_app_length.
    replace (length (a ++ lit "<FN_") + length ds - length (a ++ lit "<FN_"))
      with (length ds) by lia.
    rewrite take_app_length. reflexivity.
Qed.

End FootnoteMarker.

Section FootnoteLoop.
Context (U : Unicode) (footnotes : list (pystr * pystr)) (tp : templates).

(** [note] is a child of the paragraph [b] whose tail is the text [w]. *)
Definition note_tail (s : fstate) (b : nat) (w : pystr) : Prop :=
  exists c par cur,
    f_note s = Some (b, c) /\ f_tree s !! b = Some par /\
    children par !! c = Some cur /\ tail cur = Some w.

Lemma none_has_no_marker : re_search U footnote_re (lit "None") = None.
Proof. reflexivity. Qed.

(** One turn of the loop on a tail that holds the marker of a known
    footnote: [note] becomes the new anchor, whose tail is the marker. *)
Lemma tail_turn (s : fstate) (b c : nat) (par cur : element)
    (t text : pystr) (m : rematch) :
  f_note s = Some (b, c) -> f_tree s !! b = Some par ->
  children par !! c = Some cur -> tail cur = Some t ->
  re_search U footnote_re t = Some m ->
  dict_get (group_str t m 1) footnotes = Some text ->
  exists s',
    note_tail s' b (slice (mstart m) (mend m) t) /\
    forall fuel,
      footnote_loop U (S fuel) footnotes tp b s
      = footnote_loop U fuel footnotes tp b s'.
Proof.
  intros Hn Hp Hc Ht Hm Hd.
  pose proof (lookup_lt_Some _ _ _ Hp) as Hb.
  pose proof (lookup_lt_Some _ _ _ Hc) as Hlt.
  eexists. split.
  2:{ intros fuel. cbn [footnote_loop]. rewrite Hn, Hp.
      change (Some par ≫= _) with (children par !! c). rewrite Hc.
      cbn [or_raise run_bind]. rewrite Ht. cbn [py_str]. rewrite Hm, Hd.
      rewrite Nat.eqb_refl. unfold add_comment, splice_tail.
      rewrite Hp. cbn [mbind option_bind]. rewrite Hc. cbn [mbind option_bind].
      rewrite Ht. cbn [mbind option_bind or_raise run_bind]. reflexivity. }
  exists (S c). eexists. eexists. cbn [f_note f_tree].
  split; [reflexivity|]. split; [apply list_lookup_insert_eq, Hb|].
  split.
  - cbn [set_children children].
    rewrite lookup_app_r by (rewrite length_take; lia).
    rewrite length_take. replace (S c - c `min` length (children par)) with 1 by lia.
    reflexivity.
  - reflexivity.
Qed.

(** Once the tail of [note] is the marker of a known footnote, the loop
    goes on for ever. *)
Lemma marker_loops (b : nat) (ds text : pystr) :
  ds <> [] -> all_digits U ds -> dict_get ds footnotes = Some text ->
  forall fuel s,
    note_tail s b (marker ds) ->
    footnote_loop U fuel footnotes tp b s = Unfinished.
Proof.
  intros Hne Hds Hd. induction fuel as [|fuel IH]; [reflexivity|].
  intros s (c & par & cur & Hn & Hp & Hc & Ht).
  pose proof (footnote_match_marker U ds Hne Hds) as Hm.
  assert (Hw : slice 0 (length (marker ds)) (marker ds) = marker ds).
  { unfold slice. rewrite Nat.sub_0_r. cbn [drop]. apply firstn_all. }
  destruct (footnote_found_again U _ _ Hm) as (ds' & _ & _ & Hs & Hg' & _).
  cbn [mstart mend] in Hs. rewrite Hw in Hs.
  apply app_inv_head, app_inv_tail in Hs. subst ds'.
  rewrite <- Hg' in Hd.
  destruct (tail_turn s b c par cur _ text _ Hn Hp Hc Ht Hm Hd)
    as (s' & Hs' & Hturn).
  rewrite Hturn. apply IH.
  cbn [mstart mend] in Hs'. rewrite Hw in Hs'. exact Hs'.
Qed.

(** A tail with a marker in it, of a known footnote or not, keeps the loop
    going for ever. *)
Lemma tail_marker_loops (b c : nat) (s : fstate) (par cur : element)
    (t : pystr) :
  f_note s = Some (b, c) -> f_tree s !! b = Some par ->
  children par !! c = Some cur -> tail cur = Some t ->
  re_search U footnote_re t <> None ->
  forall fuel, footnote_loop U fuel footnotes tp b s = Unfinished.
Proof.
  intros Hn Hp Hc Ht Hm.
  destruct (re_search U footnote_re t) as [m|] eqn:Hs; [clear Hm|congruence].
  destruct (footnote_found_again U _ _ Hs) as (ds & Hne & Hds & Hsl & Hg & _).
  destruct (dict_get (group_str t m 1) footnotes) as [text|] eqn:Hd.
  - destruct (tail_turn s b c par cur t text m Hn Hp Hc Ht Hs Hd)
      as (s' & Hs' & Hturn).
    intros [|fuel]; [reflexivity|]. rewrite Hturn.
    rewrite Hsl in Hs'. rewrite Hg in Hd.
    exact (marker_loops b ds text Hne Hds Hd fuel s' Hs').
  - induction fuel as [|fuel IH]; [reflexivity|].
    cbn [footnote_loop]. rewrite Hn, Hp.
    change (Some par ≫= _) with (children par !! c). rewrite Hc.
    cbn [or_raise run_bind]. rewrite Ht. cbn [py_str]. rewrite Hs, Hd.
    exact IH.
Qed.

(** The loop hands back the state it was given, if it hands back any. *)
Lemma loop_returns_same (b : nat) :
  forall fuel s s',
    footnote_loop U fuel footnotes tp b s = Ok s' -> s' = s.
Proof.
  induction fuel as [|fuel IH]; intros s s'; [discriminate|].
  intros H. pose proof H as H0. cbn [footnote_loop] in H.
  destruct (f_note s) as [[bn c]|] eqn:Hn; [|congruence].
  destruct (f_tree s !! bn) as [par|] eqn:Hp; [|discriminate].
  change (Some par ≫= _) with (children par !! c) in H.
  destruct (children par !! c) as [cur|] eqn:Hc; [|discriminate].
  cbn [or_raise run_bind] in H.
  destruct (re_search U footnote_re (py_str (tail cur))) as [m|] eqn:Hm;
    [|congruence].
  destruct (tail cur) as [t|] eqn:Ht;
    [|cbn [py_str] in Hm; rewrite none_has_no_marker in Hm; discriminate].
  cbn [py_str] in *.
  destruct (dict_get (group_str t m 1) footnotes) as [text|] eqn:Hd;
    [|apply IH, H].
  destruct (bn =? b) eqn:Hb; [|discriminate].
  apply Nat.eqb_eq in Hb. subst bn.
  rewrite (tail_marker_loops b c s par cur t Hn Hp Hc Ht) in H0;
    [discriminate|congruence].
Qed.

(** The marker of a known footnote in the text of a paragraph: [note]
    becomes the new anchor, the first child, whose tail is the marker. *)
Lemma text_turn (s : fstate) (b : nat) (elem : element) (t fn : pystr)
    (m : rematch) :
  f_tree s !! b = Some elem -> is_p elem = true -> text elem = Some t ->
  exists ps',
    add_comment U (f_fresh s) (footnote_args tp (S (f_comment_i s)) fn)
      commentary m (f_tree s) (at_text b) = Some ps' /\
    note_tail {| f_tree := ps'; f_note := Some (b, 0);
                 f_comment_i := S (f_comment_i s);
                 f_fresh := f_fresh s + 6 |} b
      (slice (mstart m) (mend m) t).
Proof.
  intros Hp Hisp Ht.
  pose proof (lookup_lt_Some _ _ _ Hp) as Hb.
  unfold is_p in Hisp. apply String.eqb_eq in Hisp.
  unfold add_comment, splice_text. rewrite Hp. cbn [mbind option_bind].
  rewrite Ht. cbn [mbind option_bind]. rewrite Hisp.
  change (negb (in_tags "p" ENCLOSING_TAGS)) with true. cbv iota.
  eexists. split; [reflexivity|].
  exists 0. eexists. eexists. cbn [f_note f_tree].
  split; [reflexivity|]. split; [apply list_lookup_insert_eq, Hb|].
  split; reflexivity.
Qed.

(** The body of the loop over the paragraphs keeps the tree and the
    counter, if it comes to an end. *)
Lemma paragraph_returns_same (fuel : nat) (s s' : fstate) (b : nat) :
  footnotes_in_paragraph U fuel footnotes tp s b = Ok s' ->
  f_tree s' = f_tree s /\ f_comment_i s' = f_comment_i s /\
  f_fresh s' = f_fresh s.
Proof.
  unfold footnotes_in_paragraph.
  destruct (f_tree s !! b) as [elem|] eqn:Hp; [|discriminate].
  cbn [or_raise run_bind].
  destruct (is_p elem) eqn:Hisp; cbn [negb]; [|intros [= <-]; auto].
  destruct (re_search U footnote_re (py_str (text elem))) as [m|] eqn:Hm;
    [|intros [= <-]; auto].
  destruct (text elem) as [t|] eqn:Ht;
    [|cbn [py_str] in Hm; rewrite none_has_no_marker in Hm; discriminate].
  cbn [py_str] in *.
  destruct (dict_get (group_str t m 1) footnotes) as [fn|] eqn:Hd.
  - destruct (text_turn s b elem t fn m Hp Hisp Ht) as (ps' & -> & Hnote).
    cbn [or_raise run_bind f_note].
    destruct (footnote_found_again U _ _ Hm) as (ds & Hne & Hds & Hsl & Hg & _).
    rewrite Hsl in Hnote. rewrite Hg in Hd.
    rewrite (marker_loops b ds fn Hne Hds Hd fuel _ Hnote). discriminate.
  - cbn [run_bind]. intros H. apply loop_returns_same in H. subst s'.
    destruct (f_note s); [auto|].
    destruct (f_tree s !! b ≫= _); auto.
Qed.

End FootnoteLoop.

(** X14: a paragraph whose text holds the marker of a footnote that is
    known is never left: [add_comment] returns the anchor it has set, whose
    tail is the marker itself, and the loop finds it there again at every
    turn, whatever the number of turns it is given. *)
Theorem footnote_marker_never_ends (U : Unicode)
    (footnotes : list (pystr * pystr)) (tp : templates) (s : fstate) (b : nat)
    (elem : element) (t fn : pystr) (m : rematch) :
  f_tree s !! b = Some elem -> is_p elem = true -> text elem = Some t ->
  re_search U footnote_re t = Some m ->
  dict_get (group_str t m 1) footnotes = Some fn ->
  forall fuel, footnotes_in_paragraph U fuel footnotes tp s b = Unfinished.
Proof.
  intros Hp Hisp Ht Hm Hd fuel. unfold footnotes_in_paragraph.
  rewrite Hp. cbn [or_raise run_bind]. rewrite Hisp, Ht. cbn [negb py_str].
  rewrite Hm, Hd.
  destruct (text_turn U tp s b elem t fn m Hp Hisp Ht) as (ps' & -> & Hnote).
  cbn [or_raise run_bind f_note].
  destruct (footnote_found_again U _ _ Hm) as (ds & Hne & Hds & Hsl & Hg & _).
  rewrite Hsl in Hnote. rewrite Hg in Hd.
  exact (marker_loops U footnotes tp b ds fn Hne Hds Hd fuel _ Hnote).
Qed.

(** A paragraph with the marker of footnote 3 in its text. *)
Definition vide_infra : fstate :=
  {| f_tree := [Element 1 "p" [] (Some (lit "vide<FN_3> infra")) None []];
     f_note := None; f_comment_i := 7; f_fresh := 10 |}.

Lemma footnote_marker_never_ends_witness :
  footnotes_in_paragraph ascii_text 1000 [(lit "3", lit "nota")]
    {| anchor_template := lit "a{}"; app_template := lit "#a{}" |}
    vide_infra 0
  = Unfinished.
Proof.
  apply (footnote_marker_never_ends ascii_text [(lit "3", lit "nota")]
           {| anchor_template := lit "a{}"; app_template := lit "#a{}" |}
           vide_infra 0
           (Element 1 "p" [] (Some (lit "vide<FN_3> infra")) None [])
           (lit "vide<FN_3> infra") (lit "nota")
           {| mstart := 4; mend := 10; mgroups := [(1, (8, 9))] |});
    vm_compute; reflexivity.
Defined.

(** X15: the marker of a footnote in the tail of the first child keeps the
    loop going for ever too, known or not, when the text of the paragraph
    holds the marker of a footnote that is not known and no note is left
    from an earlier paragraph: an unknown number changes nothing and does
    not leave the loop. *)
Theorem footnote_in_tail_never_ends (U : Unicode)
    (footnotes : list (pystr * pystr)) (tp : templates) (s : fstate) (b : nat)
    (elem first : element) (t : pystr) (m : rematch) :
  f_note s = None ->
  f_tree s !! b = Some elem -> is_p elem = true ->
  re_search U footnote_re (py_str (text elem)) = Some m ->
  dict_get (group_str (py_str (text elem)) m 1) footnotes = None ->
  head (children elem) = Some first -> tail first = Some t ->
  re_search U footnote_re t <> None ->
  forall fuel, footnotes_in_paragraph U fuel footnotes tp s b = Unfinished.
Proof.
  intros Hn Hp Hisp Hm Hd Hh Ht Hs fuel. unfold footnotes_in_paragraph.
  rewrite Hp. cbn [or_raise run_bind]. rewrite Hisp. cbn [negb].
  rewrite Hm, Hd. cbn [run_bind]. rewrite Hn, Hp.
  change (Some elem ≫= _) with (head (children elem)). rewrite Hh.
  apply (tail_marker_loops U footnotes tp b 0 _ elem first t);
    [reflexivity|exact Hp| |exact Ht|exact Hs].
  destruct (children elem); [discriminate|exact Hh].
Qed.

(** The marker of a footnote that is not known, in the text and behind the
    first child. *)
Definition vide_supra : fstate :=
  {| f_tree := [Element 1 "p" [] (Some (lit "vide<FN_4> "))  None
                  [Element 2 "hi" [] (Some (lit "supra")) (Some (lit "<FN_4>"))
                     []]];
     f_note := None; f_comment_i := 7; f_fresh := 10 |}.

Lemma footnote_in_tail_never_ends_witness :
  footnotes_in_paragraph ascii_text 1000 [(lit "3", lit "nota")]
    {| anchor_template := lit "a{}"; app_template := lit "#a{}" |}
    vide_supra 0
  = Unfinished.
Proof.
  apply (footnote_in_tail_never_ends ascii_text [(lit "3", lit "nota")]
           {| anchor_template := lit "a{}"; app_template := lit "#a{}" |}
           vide_supra 0
           (Element 1 "p" [] (Some (lit "vide<FN_4> "))  None
              [Element 2 "hi" [] (Some (lit "supra")) (Some (lit "<FN_4>")) []])
           (Element 2 "hi" [] (Some (lit "supra")) (Some (lit "<FN_4>")) [])
           (lit "<FN_4>")
           {| mstart := 4; mend := 10; mgroups := [(1, (8, 9))] |});
    try (vm_compute; reflexivity).
  vm_compute. discriminate.
Defined.

(** X16: [add_footnotes] places no footnote and returns: whenever it comes
    to an end, the tree and the number of the last comment are the ones it
    was given. *)
Theorem add_footnotes_returns_unchanged (U : Unicode) (fuel : nat)
    (footnotes : list (pystr * pystr)) (tp : templates) (ps : paragraphs)
    (comment_i next_id : nat) (s' : fstate) :
  add_footnotes U fuel footnotes tp ps comment_i next_id = Ok s' ->
  f_tree s' = ps /\ f_comment_i s' = comment_i.
Proof.
  assert (G : forall l s,
             run_fold (footnotes_in_paragraph U fuel footnotes tp) s l = Ok s' ->
             f_tree s' = f_tree s /\ f_comment_i s' = f_comment_i s).
  { induction l as [|b l IH]; intros s; cbn [run_fold].
    - intros [= <-]. auto.
    - destruct (footnotes_in_paragraph U fuel footnotes tp s b) as [s1| |] eqn:H1;
        cbn [run_bind]; try discriminate.
      intros H. apply IH in H. apply paragraph_returns_same in H1.
      destruct H as [-> ->]. destruct H1 as (-> & -> & _). auto. }
  intros H. apply G in H. exact H.
Qed.

(** A paragraph with the marker of a footnote that is not known. *)
Definition vide_alibi : paragraphs :=
  [Element 1 "p" [] (Some (lit "vide<FN_4> alibi")) None []].

Lemma add_footnotes_returns_unchanged_witness :
  exists s',
    add_footnotes ascii_text 10 [(lit "3", lit "nota")]
      {| anchor_template := lit "a{}"; app_template := lit "#a{}" |}
      vide_alibi 7 10 = Ok s' /\
    f_tree s' = vide_alibi /\ f_comment_i s' = 7.
Proof.
  eexists. split; [vm_compute; reflexivity|].
  apply (add_footnotes_returns_unchanged ascii_text 10 [(lit "3", lit "nota")]
           {| anchor_template := lit "a{}"; app_template := lit "#a{}" |}
           vide_alibi 7 10).
  vm_compute. reflexivity.
Defined.

(** * [Utils.extract_text] and [add_text] *)

(** [tag.endswith(suffix)] *)
Definition tag_endswith (suffix t : string) : bool :=
  let n := String.length t in
  let k := String.length suffix in
  (k <=? n) && String.eqb (String.substring (n - k) k t) suffix.

(** The text that stands for a line break. *)
Definition lb_mark : pystr := lit "</lb>".

Section ExtractText.
(** The namespaced name of the attribute [style-name] and the table of the
    styles of the document. *)
Context (style_name : string) (text_styles : list (pystr * list pystr)).

Definition get_element_style (e : element) : list pystr :=
  match attrib_get style_name (attrib e) with
  | Some element_style_name => default [] (dict_get element_style_name text_styles)
  | None => []
  end.

Definition element_style_is (styles_to_test : list pystr) (e : element) : bool :=
  existsb (fun style => existsb (str_eqb style) (get_element_style e))
          styles_to_test.

(** The loop of [extract_text] over the parts, [current_part_to_glue]
    carried along. *)
Fixpoint glue_parts (current_part_to_glue text : list pystr) : list pystr :=
  match text with
  | [] =>
      match current_part_to_glue with
      | [] => []
      | _ :: _ => [concat current_part_to_glue]
      end
  | text_part :: rest =>
      if str_eqb text_part lb_mark
      then concat current_part_to_glue :: lb_mark :: glue_parts [] rest
      else glue_parts (current_part_to_glue ++ [text_part]) rest
  end.

(** What stands for the text of an element without children. *)
Definition leaf_mark (e : element) : pystr :=
  if tag_endswith "line-break" (tag e) then lb_mark
  else if element_style_is [lit "positioned"] e
       then lit "<FN_" ++ safe (text e) ++ lit ">"
       else safe (text e).

Fixpoint extract_text (e : element) : list pystr :=
  match e with
  | Element _ _ _ _ _ cs =>
      glue_parts []
        (List.filter nonempty
           (match cs with
            | [] => [leaf_mark e; safe (tail e)]
            | _ :: _ =>
                safe (text e) ::
                foldr (fun subelement text => extract_text subelement ++ text)
                      [safe (tail e)] cs
            end))
  end.

Definition extract_text_recursively (e : element) : list pystr :=
  match children e with
  | [] => [leaf_mark e; safe (tail e)]
  | _ :: _ =>
      safe (text e) ::
      foldr (fun subelement text => extract_text subelement ++ text)
            [safe (tail e)] (children e)
  end.

Definition extract_text_as_str (e : element) : pystr := concat (extract_text e).

(** The text of an element read in the order of the document, a line break
    and a positioned element without children by their marks. *)
Fixpoint document_text (e : element) : pystr :=
  match e with
  | Element _ _ _ _ _ cs =>
      match cs with
      | [] => leaf_mark e ++ safe (tail e)
      | _ :: _ =>
          safe (text e) ++
          foldr (fun subelement text => document_text subelement ++ text)
                (safe (tail e)) cs
      end
  end.

End ExtractText.

(** Pieces and marks in turn: every second entry is the mark of a line
    break, and a piece with no mark behind it is not empty. *)
Fixpoint in_turn (l : list pystr) : bool :=
  match l with
  | [] => true
  | [piece] => nonempty piece
  | _ :: mark :: rest => str_eqb mark lb_mark && in_turn rest
  end.

Section AddText.

Definition remove_pieces (remove_text : option (list pystr)) (s : pystr) : pystr :=
  match remove_text with
  | None => s
  | Some l => foldl (fun s remove_text_piece => replace remove_text_piece [] s) s l
  end.

(** The loop of [add_text] over [text[1:]]; [lb] is the place of the last
    [lb] made among the children, or [None] while the name is not bound. *)
Fixpoint add_parts (fresh : nat) (remove_text : option (list pystr))
    (e : element) (lb : option nat) (parts : list pystr) : run element :=
  match parts with
  | [] => Ok e
  | part :: rest =>
      if str_eqb part lb_mark then
        add_parts (S fresh) remove_text
          (set_children (children e ++ [new_element fresh "lb"]) e)
          (Some (length (children e))) rest
      else
        match lb with
        | None => Raised
        | Some i =>
            add_parts fresh remove_text
              (set_children
                 (alter (set_tail (Some (remove_pieces remove_text part))) i
                        (children e)) e)
              lb rest
        end
  end.

(** [add_text(element, text, remove_text)]; a [remove_text] that is one
    string is the list of that string. *)
Definition add_text (fresh : nat) (e : element) (text : list pystr)
    (remove_text : option (list pystr)) : run element :=
  match text with
  | [] => Raised
  | first :: rest =>
      add_parts fresh remove_text
        (set_text (Some (remove_pieces remove_text first)) e) None rest
  end.

(** The text of an element whose children are line breaks. *)
Definition line_text (e : element) : pystr :=
  safe (text e) ++
  concat (map (fun lb => lb_mark ++ safe (tail lb)) (children e)).

End AddText.

(** Induction on an element through its children. *)
Fixpoint element_children_ind (P : element -> Prop)
    (step : forall i t a tx tl cs,
        Forall P cs -> P (Element i t a tx tl cs))
    (e : element) {struct e} : P e :=
  match e with
  | Element i t a tx tl cs =>
      step i t a tx tl cs
        ((fix all (l : list element) : Forall P l :=
            match l with
            | [] => List.Forall_nil P
            | c :: l' =>
                List.Forall_cons P c l' (element_children_ind P step c) (all l')
            end) cs)
  end.

Section ExtractFacts.
Context (style_name : string) (text_styles : list (pystr * list pystr)).

Abbreviation extract_text := (extract_text style_name text_styles).
Abbreviation document_text := (document_text style_name text_styles).
Abbreviation extract_text_recursively :=
  (extract_text_recursively style_name text_styles).

Lemma extract_text_eq (e : element) :
  extract_text e
  = glue_parts [] (List.filter nonempty (extract_text_recursively e)).
Proof. destruct e as [i t a tx tl [|c cs]]; reflexivity. Qed.

Lemma concat_glue_parts (text : list pystr) :
  forall current, concat (glue_parts current text) = concat current ++ concat text.
Proof.
  induction text as [|part rest IH]; intros current; cbn [glue_parts].
  - destruct current; cbn [concat]; rewrite ?app_nil_r; reflexivity.
  - destruct (str_eqb part lb_mark) eqn:E.
    + apply str_eqb_eq in E. subst part. cbn [concat].
      rewrite (IH []). reflexivity.
    + rewrite IH, concat_app. cbn [concat]. rewrite app_nil_r, <- app_assoc.
      reflexivity.
Qed.

Lemma concat_nonempty (l : list pystr) :
  concat (List.filter nonempty l) = concat l.
Proof.
  induction l as [|[|c s] l IH]; cbn [List.filter nonempty concat];
    rewrite ?IH; reflexivity.
Qed.

Lemma in_turn_glue_parts (text : list pystr) :
  forall current,
    Forall (fun s => nonempty s = true) current ->
    Forall (fun s => nonempty s = true) text ->
    in_turn (glue_parts current text) = true.
Proof.
  induction text as [|part rest IH]; intros current Hc Ht; cbn [glue_parts].
  - destruct current as [|c current]; [reflexivity|]. cbn [in_turn].
    inversion Hc as [|? ? Hhd _]; subst. destruct c; [discriminate|reflexivity].
  - inversion Ht as [|? ? Hp Hr]; subst.
    destruct (str_eqb part lb_mark) eqn:E.
    + cbn [in_turn]. rewrite (proj2 (str_eqb_eq _ _) eq_refl). apply IH; auto.
    + apply IH; [|exact Hr]. apply Forall_app. split; [exact Hc|]. auto.
Qed.

Lemma filter_nonempty_all (l : list pystr) :
  Forall (fun s => nonempty s = true) (List.filter nonempty l).
Proof.
  induction l as [|s l IH]; cbn [List.filter]; [constructor|].
  destruct (nonempty s) eqn:E; [constructor; assumption|exact IH].
Qed.

Lemma extract_text_in_turn (e : element) : in_turn (extract_text e) = true.
Proof.
  rewrite extract_text_eq. apply in_turn_glue_parts; [constructor|].
  apply filter_nonempty_all.
Qed.

Lemma extract_children_concat (last : pystr) (cs : list element) :
  Forall (fun c => concat (extract_text c) = document_text c) cs ->
  concat (foldr (fun subelement text => extract_text subelement ++ text)
                [last] cs)
  = foldr (fun subelement text => document_text subelement ++ text) last cs.
Proof.
  induction 1 as [|c cs Hc _ IH]; cbn [foldr].
  - cbn [concat]. apply app_nil_r.
  - rewrite concat_app, Hc, IH. reflexivity.
Qed.

Lemma extract_text_concat (e : element) :
  concat (extract_text e) = document_text e.
Proof.
  induction e as [i t a tx tl cs IH] using element_children_ind.
  rewrite extract_text_eq, concat_glue_parts, concat_nonempty.
  cbn [concat app]. unfold extract_text_recursively. cbn [children].
  destruct cs as [|c cs].
  - cbn [concat document_text]. rewrite app_nil_r. reflexivity.
  - cbn [concat]. rewrite (extract_children_concat _ _ IH). reflexivity.
Qed.

End ExtractFacts.

Section AddTextFacts.

Lemma line_text_new_lb (e : element) (fresh : nat) :
  line_text (set_children (children e ++ [new_element fresh "lb"]) e)
  = line_text e ++ lb_mark.
Proof.
  unfold line_text. cbn [set_children text children].
  rewrite map_app, concat_app. cbn [map concat new_element tail safe default].
  rewrite !app_nil_r, app_assoc. reflexivity.
Qed.

Lemma line_text_last_tail (e : element) (fresh : nat) (part : pystr) :
  line_text
    (set_children
       (alter (set_tail (Some part)) (length (children e))
          (children e ++ [new_element fresh "lb"])) e)
  = line_text e ++ lb_mark ++ part.
Proof.
  unfold line_text. cbn [set_children text children].
  rewrite alter_app_r_alt by lia. rewrite Nat.sub_diag. cbn [alter list_alter].
  rewrite map_app, concat_app.
  cbn [map concat new_element set_tail tail safe default].
  rewrite !app_nil_r, app_assoc. reflexivity.
Qed.

(** A piece behind a new [lb]: its tail, or one more [lb] where the piece
    is itself the mark. *)
Lemma add_parts_piece (fresh : nat) (e : element) (lb : option nat)
    (piece : pystr) (rest : list pystr) :
  exists e' lb' fresh',
    add_parts fresh None e lb (lb_mark :: piece :: rest)
    = add_parts fresh' None e' lb' rest /\
    line_text e' = line_text e ++ lb_mark ++ piece /\
    (Forall (fun c => tag c = "lb"%string) (children e) ->
     Forall (fun c => tag c = "lb"%string) (children e')).
Proof.
  cbn [add_parts]. rewrite (proj2 (str_eqb_eq _ _) eq_refl).
  destruct (str_eqb piece lb_mark) eqn:E.
  - apply str_eqb_eq in E. subst piece.
    eexists _, _, _. split; [reflexivity|]. split.
    + rewrite !line_text_new_lb, <- app_assoc. reflexivity.
    + intros H. cbn [set_children children].
      repeat (apply Forall_app; split; [|repeat constructor]). exact H.
  - eexists _, _, _. split; [reflexivity|]. split.
    + cbn [remove_pieces set_children children].
      assert (Heq : forall cs cs',
                 set_children cs (set_children cs' e) = set_children cs e)
        by reflexivity.
      rewrite Heq. apply line_text_last_tail.
    + intros H. cbn [set_children children].
      rewrite alter_app_r_alt by lia. rewrite Nat.sub_diag.
      cbn [alter list_alter]. apply Forall_app. split; [exact H|].
      repeat constructor.
Qed.

Lemma add_parts_in_turn (n : nat) :
  forall l fresh e lb,
    length l <= n -> in_turn l = true ->
    exists e',
      add_parts fresh None e lb (lb_mark :: l) = Ok e' /\
      line_text e' = line_text e ++ lb_mark ++ concat l /\
      (Forall (fun c => tag c = "lb"%string) (children e) ->
       Forall (fun c => tag c = "lb"%string) (children e')).
Proof.
  induction n as [|n IH]; intros l fresh e lb Hn Hl.
  - destruct l; [|cbn in Hn; lia].
    cbn [add_parts]. rewrite (proj2 (str_eqb_eq _ _) eq_refl).
    eexists. split; [reflexivity|]. split.
    + rewrite line_text_new_lb. cbn [concat]. rewrite app_nil_r. reflexivity.
    + intros H. cbn [set_children children]. apply Forall_app.
      split; [exact H|repeat constructor].
  - destruct l as [|piece [|mark rest]].
    + cbn [add_parts]. rewrite (proj2 (str_eqb_eq _ _) eq_refl).
      eexists. split; [reflexivity|]. split.
      * rewrite line_text_new_lb. cbn [concat]. rewrite app_nil_r. reflexivity.
      * intros H. cbn [set_children children]. apply Forall_app.
        split; [exact H|repeat constructor].
    + destruct (add_parts_piece fresh e lb piece [])
        as (e' & lb' & fresh' & -> & Hline & Hlb).
      cbn [add_parts]. exists e'. split; [reflexivity|].
      cbn [concat]. rewrite app_nil_r. split; assumption.
    + cbn [in_turn] in Hl. apply andb_true_iff in Hl. destruct Hl as [Hm Hrest].
      apply str_eqb_eq in Hm. subst mark.
      destruct (add_parts_piece fresh e lb piece (lb_mark :: rest))
        as (e1 & lb1 & fresh1 & -> & Hline & Hlb).
      destruct (IH rest fresh1 e1 lb1 ltac:(cbn in Hn; lia) Hrest)
        as (e' & -> & Hline' & Hlb').
      exists e'. split; [reflexivity|]. split; [|tauto].
      rewrite Hline', Hline. cbn [concat]. rewrite <- !app_assoc. reflexivity.
Qed.

(** With [lb] bound the loop does not raise. *)
Lemma add_parts_bound (remove_text : option (list pystr)) (parts : list pystr) :
  forall fresh e i, exists e', add_parts fresh remove_text e (Some i) parts = Ok e'.
Proof.
  induction parts as [|part rest IH]; intros fresh e i; cbn [add_parts].
  - eexists; reflexivity.
  - destruct (str_eqb part lb_mark); apply IH.
Qed.

End AddTextFacts.

(** X17: the strings [Utils.extract_text] returns, read one behind the
    other, are the text of the element in the order of the document (a line
    break and a positioned element without children by their marks): gluing
    and the dropping of empty strings lose nothing.  In the list pieces and
    marks come in turn: every second entry is the mark of a line break,
    with a piece in front of it that may be empty, and a last piece with no
    mark behind it is not empty. *)
Theorem extract_text_reads_document (style_name : string)
    (text_styles : list (pystr * list pystr)) (e : element) :
  extract_text_as_str style_name text_styles e
  = document_text style_name text_styles e /\
  in_turn (extract_text style_name text_styles e) = true.
Proof.
  split; [apply extract_text_concat | apply extract_text_in_turn].
Qed.

(** X18: [add_text] raises exactly on an empty list (there is no
    [text[0]]) and on a list whose second entry is not the mark of a line
    break (the name [lb] is not bound yet); whatever [remove_text] is. *)
Theorem add_text_raises_iff (fresh : nat) (e : element) (text : list pystr)
    (remove_text : option (list pystr)) :
  add_text fresh e text remove_text = Raised <->
  text = [] \/
  exists first second rest, text = first :: second :: rest /\ second <> lb_mark.
Proof.
  unfold add_text. destruct text as [|first [|second rest]].
  - split; [auto|reflexivity].
  - cbn [add_parts]. split; [discriminate|].
    intros [H|(? & ? & ? & H & _)]; discriminate.
  - cbn [add_parts]. destruct (str_eqb second lb_mark) eqn:E.
    + apply str_eqb_eq in E. subst second.
      match goal with
      | |- add_parts ?f ?r ?el (Some ?i) ?l = _ <-> _ =>
          destruct (add_parts_bound r l f el i) as (e' & ->)
      end.
      split; [discriminate|].
      intros [H|(? & ? & ? & [= _ <- _] & Hne)]; [discriminate|].
      contradiction.
    + split; [|reflexivity]. intros _. right. exists first, second, rest.
      split; [reflexivity|]. intros ->.
      rewrite (proj2 (str_eqb_eq _ _) eq_refl) in E. discriminate.
Qed.

(** X19: a fresh element filled by [add_text] with what [extract_text]
    returned, where that is not empty, reads as the element read: its text,
    then for every child the mark of a line break and its tail, are the
    text of the document; and its children are [lb] elements only. *)
Theorem add_text_of_extract_text (style_name : string)
    (text_styles : list (pystr * list pystr)) (fresh : nat) (p e : element) :
  children p = [] ->
  extract_text style_name text_styles e <> [] ->
  exists p',
    add_text fresh p (extract_text style_name text_styles e) None = Ok p' /\
    line_text p' = document_text style_name text_styles e /\
    Forall (fun c => tag c = "lb"%string) (children p').
Proof.
  intros Hp Hne.
  rewrite <- (extract_text_concat style_name text_styles e).
  pose proof (extract_text_in_turn style_name text_styles e) as Hturn.
  destruct (extract_text style_name text_styles e) as [|first [|mark rest]];
    [contradiction| |].
  - cbn [add_text add_parts remove_pieces]. eexists. split; [reflexivity|].
    unfold line_text. cbn [set_text text children]. rewrite Hp.
    split; [reflexivity|constructor].
  - cbn [in_turn] in Hturn. apply andb_true_iff in Hturn.
    destruct Hturn as [Hm Hrest]. apply str_eqb_eq in Hm. subst mark.
    cbn [add_text remove_pieces].
    destruct (add_parts_in_turn (length rest) rest fresh
                (set_text (Some first) p) None (Nat.le_refl _) Hrest)
      as (p' & -> & Hline & Hlb).
    exists p'. split; [reflexivity|]. split.
    + rewrite Hline. unfold line_text. cbn [set_text text children].
      rewrite Hp. cbn [map concat safe default]. rewrite app_nil_r.
      reflexivity.
    + apply Hlb. cbn [set_text children]. rewrite Hp. constructor.
Qed.

(** A paragraph of the source: text, a line break, a styled run. *)
Definition in_principio : element :=
  Element 1 "{urn:text}p" [] (Some (lit "In principio")) None
    [Element 2 "{urn:text}line-break" [] None (Some (lit "erat ")) [];
     Element 3 "{urn:text}span" [] (Some (lit "verbum")) None []].

Lemma add_text_of_extract_text_witness :
  exists p',
    add_text 10 (new_element 9 "p") (extract_text "style-name" [] in_principio)
      None = Ok p' /\
    line_text p' = lit "In principio</lb>erat verbum" /\
    Forall (fun c => tag c = "lb"%string) (children p').
Proof.
  destruct (add_text_of_extract_text "style-name" [] 10 (new_element 9 "p")
              in_principio eq_refl ltac:(vm_compute; discriminate))
    as (p' & H & Hline & Hlb).
  exists p'. split; [exact H|]. split; [|exact Hlb].
  rewrite Hline. vm_compute. reflexivity.
Defined.

(** * [collapse_with_parent] and [expand_collapsed] *)

(** [d.update(other)]. *)
Definition attrib_update (d other : list (string * pystr))
    : list (string * pystr) :=
  foldl (fun d kv => attrib_set (fst kv) (snd kv) d) d other.

Fixpoint attrib_del (k : string) (d : list (string * pystr))
    : list (string * pystr) :=
  match d with
  | [] => []
  | (k', v') :: d' =>
      if String.eqb k k' then d' else (k', v') :: attrib_del k d'
  end.

(** [d.pop(k)]: the value and what is left; a missing key raises. *)
Definition attrib_pop (k : string) (d : list (string * pystr))
    : option (pystr * list (string * pystr)) :=
  match attrib_get k d with
  | Some v => Some (v, attrib_del k d)
  | None => None
  end.

Definition xml_lang : string := "{http://www.w3.org/XML/1998/namespace}lang".

Section Collapse.
Context (U : Unicode).

(** [collapse_with_parent(element, allowed_parent_tags)], the element given
    as the child [i] of its parent: the parent after the change, or [None]
    where nothing is done.  The element is removed with its tail and its
    children. *)
Definition collapse_with_parent (parent : option element) (i : nat)
    (allowed_parent_tags : list string) : option element :=
  match parent with
  | None => None
  | Some par =>
      match children par !! i with
      | None => None
      | Some e =>
          if in_tags (tag par) allowed_parent_tags
             && negb (nonempty (strip U (safe (text par))))
             && negb (nonempty (strip U (safe (tail e))))
          then
            Some (Element (eid par) (tag par ++ "_" ++ tag e)
                    (attrib_update (attrib par) (attrib e))
                    (text e) (tail par) (delete i (children par)))
          else None
      end
  end.

End Collapse.

(** One loop of [expand_collapsed]: the tag it looks for, the tag it sets,
    the tag of the child it makes, and the attributes it moves. *)
Record expansion := {
  from_tag : string; to_tag : string; child_tag : string;
  moved : list string
}.

Definition add_foreign_hi : expansion :=
  {| from_tag := "add_foreign_hi"; to_tag := "add"; child_tag := "foreign_hi";
     moved := [xml_lang; "rend"%string] |}.

Definition foreign_hi : expansion :=
  {| from_tag := "foreign_hi"; to_tag := "foreign"; child_tag := "hi";
     moved := ["rend"%string] |}.

Definition add_foreign : expansion :=
  {| from_tag := "add_foreign"; to_tag := "add"; child_tag := "foreign";
     moved := [xml_lang] |}.

(** The attributes moved from [collapsed] to the child, one [pop] after
    the other. *)
Fixpoint move_attribs (keys : list string) (collapsed child : list (string * pystr))
    : option (list (string * pystr) * list (string * pystr)) :=
  match keys with
  | [] => Some (collapsed, child)
  | k :: keys' =>
      match attrib_pop k collapsed with
      | Some (v, collapsed') => move_attribs keys' collapsed' (attrib_set k v child)
      | None => None
      end
  end.

(** The body of a loop for one element: the element without its text,
    under its new tag, and the child made for it. *)
Definition split_collapsed (fresh : nat) (x : expansion) (collapsed : element)
    : option (element * element) :=
  match move_attribs (moved x) (attrib collapsed) [] with
  | Some (a, child_attrib) =>
      Some (Element (eid collapsed) (to_tag x) a None (tail collapsed)
              (children collapsed),
            Element fresh (child_tag x) child_attrib (text collapsed) None [])
  | None => None
  end.

Definition expand_one (fresh : nat) (x : expansion) (collapsed : element)
    : option element :=
  match split_collapsed fresh x collapsed with
  | Some (c, child) => Some (set_children (children c ++ [child]) c)
  | None => None
  end.

(** A loop over a list that hands the next free identity on and stops at
    the first exception. *)
Fixpoint thread {A B : Type} (f : nat -> A -> option (B * nat)) (fresh : nat)
    (l : list A) : option (list B * nat) :=
  match l with
  | [] => Some ([], fresh)
  | c :: l' =>
      match f fresh c with
      | Some (c', fresh1) =>
          match thread f fresh1 l' with
          | Some (l'', fresh2) => Some (c' :: l'', fresh2)
          | None => None
          end
      | None => None
      end
  end.

(** One loop over an element and what is below it, in the order of the
    document; the child made for an element is not looked at in the same
    loop. *)
Fixpoint expand_pass (x : expansion) (fresh : nat) (e : element)
    : option (element * nat) :=
  match e with
  | Element _ t _ _ _ cs =>
      if String.eqb t (from_tag x) then
        match split_collapsed fresh x e with
        | Some (c, child) =>
            match thread (expand_pass x) (S fresh) cs with
            | Some (cs', fresh') =>
                Some (set_children (cs' ++ [child]) c, fresh')
            | None => None
            end
        | None => None
        end
      else
        match thread (expand_pass x) fresh cs with
        | Some (cs', fresh') => Some (set_children cs' e, fresh')
        | None => None
        end
  end.

Definition expand_all (x : expansion) (fresh : nat) (l : list element)
    : option (list element * nat) :=
  thread (expand_pass x) fresh l.

(** [expand_collapsed] on the children of a [div]. *)
Definition expand_collapsed (fresh : nat) (ps : paragraphs)
    : option (paragraphs * nat) :=
  match expand_all add_foreign_hi fresh ps with
  | Some (ps1, fresh1) =>
      match expand_all foreign_hi fresh1 ps1 with
      | Some (ps2, fresh2) => expand_all add_foreign fresh2 ps2
      | None => None
      end
  | None => None
  end.

(** The elements of a tag in a tree. *)
Fixpoint count_tag_of (t : string) (e : element) : nat :=
  match e with
  | Element _ t' _ _ _ cs =>
      (if String.eqb t' t then 1 else 0) +
      foldr (fun c n => count_tag_of t c + n) 0 cs
  end.

Definition count_tag (t : string) (l : list element) : nat :=
  foldr (fun c n => count_tag_of t c + n) 0 l.

Lemma expand_pass_eq (x : expansion) (fresh : nat) (e : element) :
  expand_pass x fresh e =
  if String.eqb (tag e) (from_tag x) then
    match split_collapsed fresh x e with
    | Some (c, child) =>
        match expand_all x (S fresh) (children e) with
        | Some (cs', fresh') => Some (set_children (cs' ++ [child]) c, fresh')
        | None => None
        end
    | None => None
    end
  else
    match expand_all x fresh (children e) with
    | Some (cs', fresh') => Some (set_children cs' e, fresh')
    | None => None
    end.
Proof. destruct e; reflexivity. Qed.

Lemma expand_all_nil (x : expansion) (fresh : nat) :
  expand_all x fresh [] = Some ([], fresh).
Proof. reflexivity. Qed.

Lemma expand_all_cons (x : expansion) (fresh : nat) (c : element)
    (l : list element) :
  expand_all x fresh (c :: l) =
  match expand_pass x fresh c with
  | Some (c', fresh1) =>
      match expand_all x fresh1 l with
      | Some (l'', fresh2) => Some (c' :: l'', fresh2)
      | None => None
      end
  | None => None
  end.
Proof. reflexivity. Qed.

Lemma count_tag_of_eq (t : string) (e : element) :
  count_tag_of t e
  = (if String.eqb (tag e) t then 1 else 0) + count_tag t (children e).
Proof. destruct e; reflexivity. Qed.

Lemma count_tag_app (t : string) (l k : list element) :
  count_tag t (l ++ k) = count_tag t l + count_tag t k.
Proof.
  unfold count_tag. induction l as [|c l IH]; cbn [app foldr]; [reflexivity|].
  rewrite IH. lia.
Qed.

Section ExpandFacts.
Context (t : string) (x : expansion).
Hypothesis not_from : String.eqb (from_tag x) t = false.
Hypothesis not_to : String.eqb (to_tag x) t = false.
Hypothesis not_child : String.eqb (child_tag x) t = false.

Lemma expand_pass_count (e : element) :
  forall fresh e' fresh',
    expand_pass x fresh e = Some (e', fresh') ->
    count_tag_of t e' = count_tag_of t e.
Proof.
  induction e as [i t0 a tx tl cs IH] using element_children_ind.
  assert (Hall : forall l, Forall (fun c => forall fresh c' fresh',
                     expand_pass x fresh c = Some (c', fresh') ->
                     count_tag_of t c' = count_tag_of t c) l ->
                 forall fresh l' fresh',
                   expand_all x fresh l = Some (l', fresh') ->
                   count_tag t l' = count_tag t l).
  { induction 1 as [|c l Hc _ IHl]; intros fresh l' fresh';
      [rewrite expand_all_nil|rewrite expand_all_cons].
    - intros [= <- _]. reflexivity.
    - destruct (expand_pass x fresh c) as [[c' f1]|] eqn:E1; [|discriminate].
      destruct (expand_all x f1 l) as [[l'' f2]|] eqn:E2; [|discriminate].
      intros [= <- _]. unfold count_tag. cbn [foldr].
      rewrite (Hc _ _ _ E1). f_equal. exact (IHl _ _ _ E2). }
  intros fresh e' fresh'. rewrite expand_pass_eq. cbn [tag children].
  destruct (String.eqb t0 (from_tag x)) eqn:Ht.
  - apply String.eqb_eq in Ht. subst t0.
    unfold split_collapsed. cbn [attrib eid tail children text].
    destruct (move_attribs (moved x) a []) as [[a' ca]|]; [|discriminate].
    destruct (expand_all x (S fresh) cs) as [[cs' f]|] eqn:E; [|discriminate].
    intros [= <- _]. rewrite !count_tag_of_eq.
    cbn [set_children tag children]. rewrite count_tag_app.
    rewrite (Hall cs IH _ _ _ E), not_from, not_to.
    unfold count_tag at 2. cbn [foldr count_tag_of]. rewrite not_child.
    lia.
  - destruct (expand_all x fresh cs) as [[cs' f]|] eqn:E; [|discriminate].
    intros [= <- _]. rewrite !count_tag_of_eq.
    cbn [set_children tag children]. rewrite (Hall cs IH _ _ _ E). reflexivity.
Qed.

Lemma expand_all_count (l : list element) :
  forall fresh l' fresh',
    expand_all x fresh l = Some (l', fresh') ->
    count_tag t l' = count_tag t l.
Proof.
  induction l as [|c l IH]; intros fresh l' fresh';
    [rewrite expand_all_nil|rewrite expand_all_cons].
  - intros [= <- _]. reflexivity.
  - destruct (expand_pass x fresh c) as [[c' f1]|] eqn:E1; [|discriminate].
    destruct (expand_all x f1 l) as [[l'' f2]|] eqn:E2; [|discriminate].
    intros [= <- _]. unfold count_tag. cbn [foldr].
    rewrite (expand_pass_count _ _ _ _ E1). f_equal. exact (IH _ _ _ E2).
Qed.

End ExpandFacts.

Lemma attrib_get_set (k : string) (v : pystr) (d : list (string * pystr)) :
  attrib_get k (attrib_set k v d) = Some v.
Proof.
  unfold attrib_get. induction d as [|[k' v'] d IH]; cbn [attrib_set].
  - cbn [List.find fst]. rewrite String.eqb_refl. reflexivity.
  - destruct (String.eqb k k') eqn:E; cbn [List.find fst].
    + rewrite String.eqb_refl. reflexivity.
    + rewrite E. exact IH.
Qed.

Lemma attrib_del_set (k : string) (v : pystr) (d : list (string * pystr)) :
  attrib_get k d = None -> attrib_del k (attrib_set k v d) = d.
Proof.
  unfold attrib_get. induction d as [|[k' v'] d IH]; cbn [attrib_set attrib_del].
  - rewrite String.eqb_refl. reflexivity.
  - cbn [List.find fst]. destruct (String.eqb k k') eqn:E; [discriminate|].
    intros H. cbn [attrib_del]. rewrite E, (IH H). reflexivity.
Qed.

(** X20: a [hi] that [collapse_nested] folds into an [add] leaves an
    element tagged [add_hi], and [expand_collapsed] has no loop for that
    tag: where it ends normally the tree holds as many [add_hi] elements as
    before, so each of them stays in the document. *)
Theorem add_hi_is_never_expanded (U : Unicode) :
  (forall parent i hi collapsed,
     children parent !! i = Some hi -> tag hi = "hi"%string ->
     collapse_with_parent U (Some parent) i ["add"%string] = Some collapsed ->
     tag collapsed = "add_hi"%string /\ text collapsed = text hi /\
     count_tag "add_hi" [collapsed] = 1 + count_tag "add_hi" (delete i (children parent))) /\
  (forall fresh ps ps' fresh',
     expand_collapsed fresh ps = Some (ps', fresh') ->
     count_tag "add_hi" ps' = count_tag "add_hi" ps).
Proof.
  split.
  - intros parent i hi collapsed Hi Hhi. unfold collapse_with_parent.
    rewrite Hi. unfold in_tags. cbn [existsb]. rewrite orb_false_r.
    destruct (String.eqb (tag parent) "add") eqn:Ht; [|discriminate].
    apply String.eqb_eq in Ht.
    destruct (_ && _); [|discriminate]. intros [= <-].
    rewrite Ht, Hhi. cbn [tag text].
    split; [reflexivity|]. split; [reflexivity|].
    unfold count_tag at 1. cbn [foldr]. rewrite count_tag_of_eq.
    cbn [tag children].
    replace (String.eqb ("add" +:+ "_" +:+ "hi") "add_hi") with true
      by reflexivity.
    lia.
  - intros fresh ps ps' fresh'. unfold expand_collapsed.
    destruct (expand_all add_foreign_hi fresh ps) as [[ps1 f1]|] eqn:E1;
      [|discriminate].
    destruct (expand_all foreign_hi f1 ps1) as [[ps2 f2]|] eqn:E2;
      [|discriminate].
    intros E3.
    rewrite (expand_all_count "add_hi" add_foreign eq_refl eq_refl eq_refl
               _ _ _ _ E3).
    rewrite (expand_all_count "add_hi" foreign_hi eq_refl eq_refl eq_refl
               _ _ _ _ E2).
    exact (expand_all_count "add_hi" add_foreign_hi eq_refl eq_refl eq_refl
             _ _ _ _ E1).
Qed.

(** X21: a [hi] folded into its [foreign] and expanded again.  For a [hi]
    whose only attribute is [rend], in a [foreign] that has no [rend] of
    its own and no text but blanks, and with no tail but blanks,
    [collapse_with_parent] gives a [foreign_hi] and the loop of
    [expand_collapsed] gives the [foreign] back with its attributes and its
    tail; the blanks are gone, the [hi] is a new element with the text of
    the old and no children, and it stands behind the other children.
    Where the [hi] is the only child, this is what [expand_collapsed]
    makes of the [foreign_hi]. *)
Theorem expand_after_collapse (U : Unicode) (fresh : nat)
    (parent hi : element) (i : nat) (v : pystr) :
  tag parent = "foreign"%string -> children parent !! i = Some hi ->
  tag hi = "hi"%string -> attrib hi = [("rend"%string, v)] ->
  attrib_get "rend" (attrib parent) = None ->
  strip U (safe (text parent)) = [] -> strip U (safe (tail hi)) = [] ->
  exists collapsed,
    let expanded :=
      Element (eid parent) "foreign" (attrib parent) None (tail parent)
        (delete i (children parent) ++
         [Element fresh "hi" [("rend"%string, v)] (text hi) None []]) in
    collapse_with_parent U (Some parent) i ["foreign"%string] = Some collapsed /\
    tag collapsed = "foreign_hi"%string /\
    expand_one fresh foreign_hi collapsed = Some expanded /\
    (children parent = [hi] ->
     expand_collapsed fresh [collapsed] = Some ([expanded], S fresh)).
Proof.
  intros Ht Hi Hhi Ha Hrend Htext Htail.
  eexists. cbv zeta. split.
  { unfold collapse_with_parent. rewrite Hi, Ht, Htext, Htail. reflexivity. }
  rewrite Hhi, Ha. split; [reflexivity|].
  assert (Hmove : move_attribs ["rend"%string]
                    (attrib_update (attrib parent) [("rend"%string, v)]) []
                  = Some (attrib parent, [("rend"%string, v)])).
  { cbn [move_attribs attrib_update foldl fst snd]. unfold attrib_pop.
    rewrite attrib_get_set, (attrib_del_set _ _ _ Hrend). reflexivity. }
  assert (Hone : split_collapsed fresh foreign_hi
                   (Element (eid parent) ("foreign" ++ "_" ++ "hi")
                      (attrib_update (attrib parent) [("rend"%string, v)])
                      (text hi) (tail parent) (delete i (children parent)))
                 = Some (Element (eid parent) "foreign" (attrib parent) None
                           (tail parent) (delete i (children parent)),
                         Element fresh "hi" [("rend"%string, v)] (text hi)
                           None [])).
  { unfold split_collapsed. cbn [moved foreign_hi attrib]. rewrite Hmove.
    reflexivity. }
  split.
  { unfold expand_one. rewrite Hone. reflexivity. }
  intros Honly. rewrite Honly in Hi.
  destruct i as [|i]; [|destruct i; discriminate].
  rewrite Honly in *. cbn [delete list_delete app] in *.
  change ("foreign" +:+ "_" +:+ "hi")%string with "foreign_hi"%string in *.
  unfold expand_collapsed, expand_all.
  cbn -[split_collapsed attrib_update]. rewrite Hone. reflexivity.
Qed.

(** A Latin word in spaced type. *)
Definition verbum : element :=
  Element 1 "foreign" [(xml_lang, lit "la")] None (Some (lit " caro"))
    [Element 2 "hi" [("rend"%string, lit "spaced")] (Some (lit "verbum"))
       None []].

Lemma expand_after_collapse_witness :
  exists collapsed,
    collapse_with_parent ascii_text (Some verbum) 0 ["foreign"%string]
    = Some collapsed /\
    expand_collapsed 10 [collapsed]
    = Some ([Element 1 "foreign" [(xml_lang, lit "la")] None (Some (lit " caro"))
               [Element 10 "hi" [("rend"%string, lit "spaced")]
                  (Some (lit "verbum")) None []]], 11).
Proof.
  destruct (expand_after_collapse ascii_text 10 verbum
              (Element 2 "hi" [("rend"%string, lit "spaced")]
                 (Some (lit "verbum")) None [])
              0 (lit "spaced") eq_refl eq_refl eq_refl eq_refl eq_refl
              eq_refl eq_refl)
    as (collapsed & Hc & _ & _ & Hx).
  exists collapsed. split; [exact Hc|]. exact (Hx eq_refl).
Defined.

(** * [repair_ve] *)

Section RepairVe.
Context (U : Unicode).

(** [str(possible_wits)] is the list as Python prints it: an opening
    bracket, each siglum in quotes, a comma and a blank between two of
    them, a closing bracket.  A character of a siglum stands for itself in
    that text and in the character class [re] reads the text as, unless it
    is a hyphen (it makes a range with its neighbours, or a range [re]
    refuses), a closing bracket (it ends the class), a backslash or a quote
    (the quotes and escapes of [repr]).  [plain_sigla] tells the lists
    that hold none of these. *)
Definition plain_char (c : char) : bool :=
  negb (existsb (char_eqb c) [45; 93; 92; 39; 34]%N).

Definition plain_sigla (possible_wits : list pystr) : bool :=
  forallb (forallb plain_char) possible_wits.

(** The characters between the brackets of [str(possible_wits)] for plain
    sigla: each siglum between two quotes, a comma and a space between two
    of them. *)
Definition wits_repr (possible_wits : list pystr) : pystr :=
  join (lit ", ") (map (fun wit => 39%N :: wit ++ [39%N]) possible_wits).

(** The pattern [\b(ve?)([...])\b] for the class of the characters [cs]. *)
Definition ve_before_class (cs : pystr) : pattern :=
  {| p_icase := false;
     p_re := Seq Bnd
              (Seq (Grp 1 (Seq (Chr (CLit 118%N)) (Opt (Chr (CLit 101%N)))))
                 (Seq (Grp 2 (Chr (CSet cs))) Bnd)) |}.

(** [r'\b(ve?)({})\b'.format(possible_wits)] compiled: the list is
    formatted with its brackets, so that group 2 is a character class.
    An empty list gives an empty class, which [re] refuses; [None] stands
    for that and for a list outside the syntax read here, one whose sigla
    are not plain. *)
Definition repair_re_pattern (possible_wits : list pystr) : option pattern :=
  match possible_wits with
  | [] => None
  | _ :: _ =>
      if plain_sigla possible_wits
      then Some (ve_before_class (wits_repr possible_wits))
      else None
  end.

Definition blanks : pattern :=
  {| p_icase := false; p_re := AtLeast 1 (Chr (CLit 32%N)) |}.

(** [repair_ve(possible_wits, text)] *)
Definition repair_ve (possible_wits : list pystr) (text : pystr) : run pystr :=
  run_bind (or_raise (repair_re_pattern possible_wits)) (fun repair_re_pattern =>
  let repaired :=
    re_sub U repair_re_pattern
      (fun t m => group_str t m 1 ++ [32%N] ++ group_str t m 2) text in
  Ok (re_sub U blanks (fun _ _ => [32%N]) repaired)).

End RepairVe.

Section RepairVeFacts.
Context (U : Unicode) (cs : pystr).
Hypothesis word_v : is_word U 118%N = true.
Hypothesis word_e : is_word U 101%N = true.
Hypothesis blank_no_word : is_word U 32%N = false.

Definition all_word (w : pystr) : Prop := Forall (fun c => is_word U c = true) w.

Lemma word_no_blank (c : char) : is_word U c = true -> char_eqb c 32%N = false.
Proof.
  intros H. unfold char_eqb. destruct (N.eqb c 32) eqn:E; [|reflexivity].
  apply N.eqb_eq in E. subst c. congruence.
Qed.

(** Inside a word and at its end the pattern finds nothing. *)
Lemma no_ve_in_word (rest : pystr) :
  forall pos prev,
    word_opt U prev = true -> all_word rest ->
    search_from U (ve_before_class cs) pos prev rest = None.
Proof.
  induction rest as [|c t IH]; intros pos prev Hprev Hall; cbn [search_from].
  - unfold match_at. cbn [p_icase p_re ve_before_class rmatch].
    unfold at_boundary. cbn [m_prev m_rest head]. rewrite Hprev.
    cbn [word_opt xorb m_rest]. reflexivity.
  - inversion Hall as [|? ? Hc Ht]; subst.
    unfold match_at at 1. cbn [p_icase p_re ve_before_class rmatch].
    unfold at_boundary. cbn [m_prev m_rest head word_opt]. rewrite Hprev, Hc.
    cbn [xorb]. apply IH; [exact Hc|exact Ht].
Qed.

Lemma no_blank_found (rest : pystr) :
  forall pos prev,
    Forall (fun c => char_eqb c 32%N = false) rest ->
    search_from U blanks pos prev rest = None.
Proof.
  induction rest as [|c t IH]; intros pos prev Hall; cbn [search_from].
  - reflexivity.
  - inversion Hall as [|? ? Hc Ht]; subst.
    unfold match_at at 1. cbn [p_icase p_re blanks AtLeast rmatch m_rest cset_mem].
    rewrite Hc. apply IH, Ht.
Qed.

Lemma search_from_skip (p : pattern) (pos : nat) (prev : option char)
    (c : char) (t : pystr) :
  match_at U p {| m_pos := pos; m_prev := prev; m_rest := c :: t;
                  m_caps := [] |} = None ->
  search_from U p pos prev (c :: t) = search_from U p (S pos) (Some c) t.
Proof. intros H. cbn [search_from]. rewrite H. reflexivity. Qed.

Lemma sub_nothing (p : pattern) (repl : pystr -> rematch -> pystr) (text : pystr) :
  search_from U p 0 None text = None -> re_sub U p repl text = text.
Proof.
  intros H. unfold re_sub. cbn [sub_fuel].
  change (last_opt (take 0 text)) with (@None char).
  change (drop 0 text) with text. rewrite H. reflexivity.
Qed.

(** One match with nothing found behind it. *)
Lemma sub_once (p : pattern) (repl : pystr -> rematch -> pystr) (text : pystr)
    (m : rematch) :
  search_from U p 0 None text = Some m -> mstart m < mend m ->
  search_from U p (mend m) (last_opt (take (mend m) text)) (drop (mend m) text)
  = None ->
  re_sub U p repl text
  = take (mstart m) text ++ repl text m ++ drop (mend m) text.
Proof.
  intros Hm Hlt Hrest. unfold re_sub. cbn [sub_fuel].
  change (last_opt (take 0 text)) with (@None char).
  change (drop 0 text) with text. rewrite Hm.
  rewrite (proj2 (Nat.leb_gt _ _) Hlt).
  unfold slice. rewrite Nat.sub_0_r. cbn [drop]. do 2 f_equal.
  destruct (length text); cbn [sub_fuel]; [reflexivity|].
  rewrite Hrest. reflexivity.
Qed.

(** [ve] and one character of the class, a character of a word. *)
Lemma ve_found (c : char) :
  is_word U c = true -> In c cs ->
  search_from U (ve_before_class cs) 0 None [118%N; 101%N; c]
  = Some {| mstart := 0; mend := 3; mgroups := [(2, (2, 3)); (1, (0, 2))] |}.
Proof.
  intros Hc Hin. apply search_from_first. unfold match_at.
  cbn [p_icase p_re ve_before_class rmatch Opt].
  unfold at_boundary.
  cbn [m_prev m_rest head word_opt m_advance m_capture cset_mem m_pos m_caps].
  assert (Hmem : existsb (fun d => char_eqb c d) cs = true).
  { apply existsb_exists. exists c. split; [exact Hin|].
    unfold char_eqb. apply N.eqb_refl. }
  rewrite word_v, Hc, Hmem. unfold char_eqb at 1 2. rewrite !N.eqb_refl.
  cbn [xorb or_else]. reflexivity.
Qed.

Lemma blank_found (c : char) :
  char_eqb c 32%N = false ->
  search_from U blanks 0 None [118%N; 101%N; 32%N; c]
  = Some {| mstart := 2; mend := 3; mgroups := [] |}.
Proof.
  intros Hc. rewrite !search_from_skip by reflexivity.
  apply search_from_first. unfold match_at.
  cbn [p_icase p_re blanks AtLeast rmatch m_rest cset_mem m_advance length
       star_loop].
  rewrite Hc. reflexivity.
Qed.

End RepairVeFacts.

(** X22: [repair_ve] formats the list of sigla, brackets and all, into its
    pattern, so that what follows [v] or [ve] is not one of the sigla but
    one character of a class.  For a list of plain sigla (no hyphen,
    closing bracket, backslash or quote in them, so that the class holds
    the characters of the sigla, the quote, the comma and the blank, each
    standing for itself) the pattern compiles and: a word made of [ve] and
    two or more characters that follow it, such as any siglum longer than
    one character, is never separated; [ve] and one character of a word
    that occurs in any siglum are. *)
Theorem repair_ve_one_character (U : Unicode) (possible_wits : list pystr) :
  is_word U 118%N = true -> is_word U 101%N = true ->
  is_word U 32%N = false -> possible_wits <> [] ->
  plain_sigla possible_wits = true ->
  repair_re_pattern possible_wits
  = Some (ve_before_class (wits_repr possible_wits)) /\
  (forall w,
     Forall (fun c => is_word U c = true) w -> 2 <= length w ->
     repair_ve U possible_wits (lit "ve" ++ w) = Ok (lit "ve" ++ w)) /\
  (forall c,
     is_word U c = true -> In c (wits_repr possible_wits) ->
     repair_ve U possible_wits (lit "ve" ++ [c]) = Ok (lit "ve " ++ [c])).
Proof.
  intros Hv He Hb Hne Hplain.
  assert (Hpat : repair_re_pattern possible_wits
                 = Some (ve_before_class (wits_repr possible_wits))).
  { unfold repair_re_pattern. rewrite Hplain.
    destruct possible_wits; [contradiction|reflexivity]. }
  split; [exact Hpat|].
  assert (Hrun : forall text,
             repair_ve U possible_wits text
             = Ok (re_sub U blanks (fun _ _ => [32%N])
                     (re_sub U (ve_before_class (wits_repr possible_wits))
                        (fun t m => group_str t m 1 ++ [32%N] ++ group_str t m 2)
                        text)))
    by (intros text; unfold repair_ve; rewrite Hpat; reflexivity).
  clear Hpat Hne Hplain.
  set (cs := wits_repr possible_wits) in *.
  split.
  - intros w Hw Hlen. rewrite Hrun.
    destruct w as [|w0 [|w1 ws]]; [cbn in Hlen; lia|cbn in Hlen; lia|].
    inversion Hw as [|? ? Hw0 Hw']; subst.
    inversion Hw' as [|? ? Hw1 _]; subst.
    change (lit "ve" ++ w0 :: w1 :: ws)
      with (118%N :: 101%N :: w0 :: w1 :: ws).
    rewrite (sub_nothing U (ve_before_class cs)).
    + rewrite (sub_nothing U blanks); [reflexivity|].
      apply no_blank_found.
      assert (Hall : Forall (fun c => is_word U c = true)
                       (118%N :: 101%N :: w0 :: w1 :: ws))
        by (repeat (constructor; [assumption|]); inversion Hw'; assumption).
      eapply Forall_impl; [exact Hall|].
      intros c Hc. exact (word_no_blank U Hb c Hc).
    + rewrite search_from_skip.
      * apply (no_ve_in_word U cs);
          [exact Hv | constructor; [exact He|exact Hw]].
      * unfold match_at.
        cbn [p_icase p_re ve_before_class rmatch Opt].
        unfold at_boundary.
        cbn [m_prev m_rest head word_opt m_advance m_capture cset_mem m_pos
             m_caps].
        rewrite Hv, Hw0, Hw1, He. unfold char_eqb. rewrite !N.eqb_refl.
        cbn [xorb].
        destruct (existsb _ cs); destruct (existsb _ cs); reflexivity.
  - intros c Hc Hin. rewrite Hrun.
    pose proof (word_no_blank U Hb c Hc) as Hc32.
    change (lit "ve" ++ [c]) with [118%N; 101%N; c].
    rewrite (sub_once U _ _ _ _ (ve_found U cs Hv c Hc Hin));
      [|cbn [mstart mend]; lia|].
    2:{ cbn [mend]. apply (no_ve_in_word U cs); [exact Hc|constructor]. }
    cbn [mstart mend take drop app].
    change (group_str [118%N; 101%N; c]
              {| mstart := 0; mend := 3;
                 mgroups := [(2, (2, 3)); (1, (0, 2))] |} 1 ++
            [32%N] ++
            group_str [118%N; 101%N; c]
              {| mstart := 0; mend := 3;
                 mgroups := [(2, (2, 3)); (1, (0, 2))] |} 2)
      with [118%N; 101%N; 32%N; c].
    rewrite (sub_once U _ _ _ _ (blank_found U c Hc32));
      [reflexivity|cbn [mstart mend]; lia|].
    cbn [mend]. apply no_blank_found. repeat constructor. exact Hc32.
Qed.

(** The sigla of document 01, longest first. *)
Definition wits_01 : list pystr :=
  [lit "DJAK03"; lit "Sr"; lit "St"; lit "M"; lit "W"].

Lemma repair_ve_one_character_witness :
  plain_sigla wits_01 = true /\
  repair_ve ascii_text wits_01 (lit "veSt") = Ok (lit "veSt") /\
  repair_ve ascii_text wits_01 (lit "vet") = Ok (lit "ve t").
Proof.
  destruct (repair_ve_one_character ascii_text wits_01 eq_refl eq_refl eq_refl
              ltac:(discriminate) eq_refl) as (_ & Hlong & Hone).
  split; [reflexivity|]. split.
  - apply (Hlong (lit "St")); [repeat constructor|cbn; lia].
  - apply (Hone 116%N); [reflexivity|vm_compute; tauto].
Defined.

(** * [preprocess_as_text] *)

Section Preprocess.
Context (U : Unicode).

(** [&lt;FO(_.*?)?&gt;] *)
Definition fo_mark : pattern :=
  {| p_icase := false;
     p_re := Seq (Lits (lit "&lt;FO"))
               (Seq (Opt (Grp 1 (Seq (Chr (CLit 95%N)) (Star false (Chr CAny)))))
                    (Lits (lit "&gt;"))) |}.

(** [</?text:section.*?>] *)
Definition section_tag : pattern :=
  {| p_icase := false;
     p_re := Seq (Chr (CLit 60%N))
               (Seq (Opt (Chr (CLit 47%N)))
                  (Seq (Lits (lit "text:section"))
                     (Seq (Star false (Chr CAny)) (Chr (CLit 62%N))))) |}.

Definition blank_pipe_blank : pattern :=
  {| p_icase := false; p_re := Lits (lit " | ") |}.

Definition one_char (c : char) : pattern :=
  {| p_icase := false; p_re := Chr (CLit c) |}.

(** What [preprocess_as_text] writes back to the file whose text it has
    read. *)
Definition preprocess_as_text (text : pystr) : pystr :=
  let text := replace (lit "<text:s/>") (lit " ") text in
  let text := replace (lit "<text:soft-page-break/>") [] text in
  let text := re_sub U fo_mark (fun _ _ => []) text in
  let text := re_sub U section_tag (fun _ _ => []) text in
  let text := re_sub U blank_pipe_blank (fun _ _ => lit " |") text in
  re_sub U (one_char 124%N) (fun _ _ => []) text.

End Preprocess.

Section RemoveChar.
Context (U : Unicode) (c : char).

Definition other (x : char) : bool := negb (char_eqb x c).

Lemma first_or_none (rest : pystr) :
  Forall (fun x => other x = true) rest \/
  exists a b, rest = a ++ c :: b /\ Forall (fun x => other x = true) a.
Proof.
  induction rest as [|x rest IH]; [left; constructor|].
  destruct (other x) eqn:E.
  - destruct IH as [IH|(a & b & -> & Ha)].
    + left. constructor; assumption.
    + right. exists (x :: a), b. split; [reflexivity|]. constructor; assumption.
  - right. exists [], rest. split; [|constructor].
    unfold other, char_eqb in E. apply negb_false_iff, N.eqb_eq in E.
    subst x. reflexivity.
Qed.

Lemma one_char_none (rest : pystr) :
  forall pos prev,
    Forall (fun x => other x = true) rest ->
    search_from U (one_char c) pos prev rest = None.
Proof.
  induction rest as [|x t IH]; intros pos prev Hall; cbn [search_from].
  - reflexivity.
  - inversion Hall as [|? ? Hx Ht]; subst.
    unfold match_at at 1. cbn [p_icase p_re one_char rmatch m_rest cset_mem].
    unfold other in Hx. apply negb_true_iff in Hx. rewrite Hx.
    apply IH, Ht.
Qed.

Lemma one_char_first (a b : pystr) :
  forall pos prev,
    Forall (fun x => other x = true) a ->
    search_from U (one_char c) pos prev (a ++ c :: b)
    = Some {| mstart := pos + length a; mend := S (pos + length a);
              mgroups := [] |}.
Proof.
  induction a as [|x a IH]; intros pos prev Hall.
  - cbn [app length]. rewrite Nat.add_0_r. apply search_from_first.
    unfold match_at. cbn [p_icase p_re one_char rmatch m_rest cset_mem].
    unfold char_eqb. rewrite N.eqb_refl. reflexivity.
  - inversion Hall as [|? ? Hx Ha]; subst. cbn [app length].
    rewrite search_from_skip.
    + rewrite (IH _ _ Ha). do 2 f_equal; lia.
    + unfold match_at. cbn [p_icase p_re one_char rmatch m_rest cset_mem].
      unfold other in Hx. apply negb_true_iff in Hx. rewrite Hx. reflexivity.
Qed.

Lemma filter_other_all (a : pystr) :
  Forall (fun x => other x = true) a -> List.filter other a = a.
Proof.
  induction 1 as [|x a Hx _ IH]; cbn [List.filter]; [reflexivity|].
  rewrite Hx, IH. reflexivity.
Qed.

Lemma sub_removes (fuel : nat) :
  forall text pos,
    pos <= length text -> length text - pos < fuel ->
    sub_fuel U fuel (one_char c) (fun _ _ => []) text pos
    = List.filter other (drop pos text).
Proof.
  induction fuel as [|fuel IH]; intros text pos Hpos Hfuel; [lia|].
  cbn [sub_fuel].
  destruct (first_or_none (drop pos text)) as [Hall|(a & b & Hsplit & Ha)].
  - rewrite (one_char_none _ _ _ Hall). symmetry. apply filter_other_all, Hall.
  - rewrite Hsplit, (one_char_first a b _ _ Ha). cbn [mstart mend app].
    assert (Hlen : length text = pos + length a + S (length b)).
    { rewrite <- (take_drop pos text) at 1. rewrite length_app, length_take, Hsplit.
      rewrite length_app. cbn [length]. lia. }
    rewrite (proj2 (Nat.leb_gt _ _) (Nat.lt_succ_diag_r _)).
    unfold slice. replace (pos + length a - pos) with (length a) by lia.
    rewrite Hsplit, take_app_length.
    rewrite IH by lia.
    assert (Hb : drop (S (pos + length a)) text = b).
    { replace (S (pos + length a)) with (pos + S (length a)) by lia.
      rewrite <- drop_drop, Hsplit.
      change (a ++ c :: b) with (a ++ [c] ++ b). rewrite app_assoc.
      replace (S (length a)) with (length (a ++ [c]))
        by (rewrite length_app; cbn [length]; lia).
      apply drop_app_length. }
    rewrite Hb, List.filter_app, (filter_other_all a Ha). cbn [List.filter].
    unfold other at 2, char_eqb. rewrite N.eqb_refl. reflexivity.
Qed.

End RemoveChar.

(** X23: [preprocess_as_text] leaves no [|] in the text it writes back:
    its last substitution returns its input without the characters [|],
    all other characters in their order, and so deletes also the [|] that
    the substitution before it has just written behind a blank. *)
Theorem preprocess_leaves_no_pipe (U : Unicode) (text : pystr) :
  ~ In 124%N (preprocess_as_text U text) /\
  forall t, re_sub U (one_char 124%N) (fun _ _ => []) t
            = List.filter (fun x => negb (char_eqb x 124%N)) t.
Proof.
  assert (H : forall t, re_sub U (one_char 124%N) (fun _ _ => []) t
                        = List.filter (fun x => negb (char_eqb x 124%N)) t).
  { intros t. unfold re_sub.
    rewrite (sub_removes U 124%N (S (length t)) t 0) by lia. reflexivity. }
  split; [|exact H].
  unfold preprocess_as_text. rewrite H. intros Hin.
  apply List.filter_In in Hin. destruct Hin as [_ Hin].
  unfold char_eqb in Hin. rewrite N.eqb_refl in Hin. discriminate.
Qed.

(** * [add_original_pb] *)

(** ** What a pattern matches

    The words of a pattern, without regard to what stands around them: a
    successful match reads such a word and goes on behind it. *)

Section Language.
Context (U : Unicode).

Inductive accepts (icase : bool) : regex -> pystr -> Prop :=
| acc_eps : accepts icase Eps []
| acc_chr cs c : cset_mem U icase cs c = true -> accepts icase (Chr cs) [c]
| acc_seq a b w1 w2 :
    accepts icase a w1 -> accepts icase b w2 -> accepts icase (Seq a b) (w1 ++ w2)
| acc_alt_l a b w : accepts icase a w -> accepts icase (Alt a b) w
| acc_alt_r a b w : accepts icase b w -> accepts icase (Alt a b) w
| acc_star_nil g a : accepts icase (Star g a) []
| acc_star_more g a w1 w2 :
    accepts icase a w1 -> accepts icase (Star g a) w2 ->
    accepts icase (Star g a) (w1 ++ w2)
| acc_bnd : accepts icase Bnd []
| acc_bol : accepts icase Bol []
| acc_eol : accepts icase Eol []
| acc_behind cs : accepts icase (Behind cs) []
| acc_grp i a w : accepts icase a w -> accepts icase (Grp i a) w.

(** The groups of a pattern. *)
Fixpoint groups (r : regex) : list nat :=
  match r with
  | Seq a b | Alt a b => groups a ++ groups b
  | Star _ a => groups a
  | Grp i a => i :: groups a
  | _ => []
  end.

(** The state behind the word [w], with [rest] still to read and the
    captures [extra] made on the way. *)
Definition after (s : mstate) (w rest : pystr)
    (extra : list (nat * (nat * nat))) : mstate :=
  {| m_pos := m_pos s + length w;
     m_prev := match last w with Some c => Some c | None => m_prev s end;
     m_rest := rest; m_caps := extra ++ m_caps s |}.

Lemma after_nil (s : mstate) : after s [] (m_rest s) [] = s.
Proof. unfold after. cbn. rewrite Nat.add_0_r. destruct s; reflexivity. Qed.

Lemma after_one (s : mstate) (c : char) (t : pystr) :
  after s [c] t [] = m_advance c t s.
Proof. unfold after, m_advance. cbn. rewrite Nat.add_1_r. reflexivity. Qed.

Lemma last_app_or {A} (w1 w2 : list A) (d : option A) :
  match last (w1 ++ w2) with Some c => Some c | None => d end
  = match last w2 with
    | Some c => Some c
    | None => match last w1 with Some c => Some c | None => d end
    end.
Proof.
  destruct w2 as [|x w2 _] using rev_ind.
  - rewrite app_nil_r. reflexivity.
  - rewrite app_assoc, !last_snoc. reflexivity.
Qed.

Lemma after_after (s : mstate) (w1 w2 rest1 rest2 : pystr)
    (extra1 extra2 : list (nat * (nat * nat))) :
  after (after s w1 rest1 extra1) w2 rest2 extra2
  = after s (w1 ++ w2) rest2 (extra2 ++ extra1).
Proof.
  unfold after. cbn [m_pos m_prev m_rest m_caps].
  rewrite length_app, Nat.add_assoc, last_app_or, <- app_assoc. reflexivity.
Qed.

(** What a success of the matcher has read. *)
Definition reads (icase : bool) (r : regex)
    (run : (mstate -> option mstate) -> mstate -> option mstate) : Prop :=
  forall k s e,
    run k s = Some e ->
    exists w rest extra,
      m_rest s = w ++ rest /\ accepts icase r w /\
      Forall (fun c => In (fst c) (groups r)) extra /\
      k (after s w rest extra) = Some e.

Lemma star_loop_reads (icase greedy : bool) (a : regex) body :
  reads icase a body ->
  forall n k s e,
    star_loop body greedy k n s = Some e ->
    exists w rest extra,
      m_rest s = w ++ rest /\ accepts icase (Star greedy a) w /\
      Forall (fun c => In (fst c) (groups a)) extra /\
      k (after s w rest extra) = Some e.
Proof.
  intros Hbody. induction n as [|n IH]; intros k s e;
    assert (Hstay : k s = Some e ->
              exists w rest extra,
                m_rest s = w ++ rest /\ accepts icase (Star greedy a) w /\
                Forall (fun c => In (fst c) (groups a)) extra /\
                k (after s w rest extra) = Some e)
      by (intros H; exists [], (m_rest s), []; rewrite after_nil;
          split; [reflexivity|]; split; [constructor|];
          split; [constructor|exact H]);
    cbn [star_loop]; [exact Hstay|].
  intros H.
  assert (Hmore : body (fun s' => if length (m_rest s') <? length (m_rest s)
                                  then star_loop body greedy k n s' else None) s
                  = Some e ->
                  exists w rest extra,
                    m_rest s = w ++ rest /\ accepts icase (Star greedy a) w /\
                    Forall (fun c => In (fst c) (groups a)) extra /\
                    k (after s w rest extra) = Some e).
  { intros Hx. apply Hbody in Hx.
    destruct Hx as (w1 & rest1 & extra1 & Hr1 & Hw1 & He1 & Hx).
    destruct (length (m_rest (after s w1 rest1 extra1)) <? length (m_rest s));
      [|discriminate].
    apply IH in Hx.
    destruct Hx as (w2 & rest2 & extra2 & Hr2 & Hw2 & He2 & Hx).
    cbn [after m_rest] in Hr2. rewrite after_after in Hx.
    exists (w1 ++ w2), rest2, (extra2 ++ extra1).
    split; [rewrite Hr1, Hr2, app_assoc; reflexivity|].
    split; [constructor; assumption|].
    split; [apply Forall_app; split; assumption|exact Hx]. }
  destruct greedy; apply or_else_Some in H; destruct H as [H|H]; auto.
Qed.

Lemma rmatch_reads (icase : bool) (r : regex) :
  reads icase r (rmatch U icase r).
Proof.
  induction r as [|cs|a IHa b IHb|a IHa b IHb|g a IHa| | | |cs|i a IHa];
    intros k s e; cbn [rmatch groups]; intros H.
  - exists [], (m_rest s), []. rewrite after_nil.
    repeat split; [constructor|constructor|exact H].
  - destruct (m_rest s) as [|c t] eqn:Hr; [discriminate|].
    destruct (cset_mem U icase cs c) eqn:Hc; [|discriminate].
    exists [c], t, []. rewrite after_one.
    repeat split; [constructor; exact Hc|constructor|exact H].
  - apply IHa in H. destruct H as (w1 & rest1 & extra1 & Hr1 & Hw1 & He1 & H).
    apply IHb in H. destruct H as (w2 & rest2 & extra2 & Hr2 & Hw2 & He2 & H).
    cbn [after m_rest] in Hr2. rewrite after_after in H.
    exists (w1 ++ w2), rest2, (extra2 ++ extra1).
    split; [rewrite Hr1, Hr2, app_assoc; reflexivity|].
    split; [constructor; assumption|].
    split; [|exact H].
    apply Forall_app. split; (eapply Forall_impl; [eassumption|]);
      intros c Hc; apply in_or_app; auto.
  - apply or_else_Some in H. destruct H as [H|H];
      [apply IHa in H|apply IHb in H];
      destruct H as (w & rest & extra & Hr & Hw & He & H);
      exists w, rest, extra; (split; [exact Hr|]);
      (split; [|split; [|exact H]]).
    + apply acc_alt_l, Hw.
    + eapply Forall_impl; [exact He|]. intros c Hc. apply in_or_app; auto.
    + apply acc_alt_r, Hw.
    + eapply Forall_impl; [exact He|]. intros c Hc. apply in_or_app; auto.
  - exact (star_loop_reads icase g a _ IHa _ _ _ _ H).
  - destruct (at_boundary U s); [|discriminate].
    exists [], (m_rest s), []. rewrite after_nil.
    repeat split; [constructor|constructor|exact H].
  - destruct (m_prev s) eqn:Hp; [discriminate|].
    exists [], (m_rest s), []. rewrite after_nil.
    repeat split; [constructor|constructor|exact H].
  - exists [], (m_rest s), []. rewrite after_nil.
    repeat split; [constructor|constructor|].
    destruct (m_rest s) as [|c [|c' t]]; try discriminate; [exact H|].
    destruct (char_eqb c 10%N); [exact H|discriminate].
  - exists [], (m_rest s), []. rewrite after_nil.
    repeat split; [constructor|constructor|].
    destruct (m_prev s); [|discriminate].
    destruct (cset_mem U icase cs c); [exact H|discriminate].
  - apply IHa in H. destruct H as (w & rest & extra & Hr & Hw & He & H).
    exists w, rest, ((i, (m_pos s, m_pos s + length w)) :: extra).
    split; [exact Hr|]. split; [constructor; exact Hw|].
    split; [|exact H].
    constructor; [left; reflexivity|].
    eapply Forall_impl; [exact He|]. intros c Hc. right. exact Hc.
Qed.

End Language.

Section ByRest.
Context (U : Unicode).

(** A pattern that does not look at what stands before it. *)
Fixpoint looks_ahead_only (r : regex) : bool :=
  match r with
  | Seq a b | Alt a b => looks_ahead_only a && looks_ahead_only b
  | Star _ a | Grp _ a => looks_ahead_only a
  | Bnd | Bol | Behind _ => false
  | Eps | Chr _ | Eol => true
  end.

(** [k'] succeeds wherever [k] does, on the same text to read. *)
Definition follows (k k' : mstate -> option mstate) : Prop :=
  forall t t', m_rest t = m_rest t' -> k t <> None -> k' t' <> None.

Lemma or_else_not_None {A} (x y : option A) :
  or_else x y <> None <-> x <> None \/ y <> None.
Proof.
  destruct x as [a|]; cbn [or_else].
  - split; [intros _; left; discriminate|intros _; discriminate].
  - split; [intros H; right; exact H|intros [H|H]; [contradiction|exact H]].
Qed.

Lemma star_loop_by_rest (greedy : bool) body :
  (forall k k', follows k k' -> follows (body k) (body k')) ->
  forall n k k', follows k k' ->
    follows (star_loop body greedy k n) (star_loop body greedy k' n).
Proof.
  intros Hbody. induction n as [|n IH]; intros k k' Hk s s' Hrest;
    cbn [star_loop]; [apply Hk, Hrest|].
  assert (Hmore :
    body (fun s1 => if length (m_rest s1) <? length (m_rest s)
                    then star_loop body greedy k n s1 else None) s <> None ->
    body (fun s1 => if length (m_rest s1) <? length (m_rest s')
                    then star_loop body greedy k' n s1 else None) s' <> None).
  { apply Hbody; [|exact Hrest]. intros t t' Ht. rewrite <- Hrest, <- Ht.
    destruct (length (m_rest t) <? length (m_rest s)); [|contradiction].
    apply IH; assumption. }
  destruct greedy; rewrite !or_else_not_None; intros [H|H].
  - left. exact (Hmore H).
  - right. exact (Hk _ _ Hrest H).
  - left. exact (Hk _ _ Hrest H).
  - right. exact (Hmore H).
Qed.

Lemma rmatch_by_rest (icase : bool) (r : regex) :
  looks_ahead_only r = true ->
  forall k k', follows k k' ->
    follows (rmatch U icase r k) (rmatch U icase r k').
Proof.
  induction r as [|cs|a IHa b IHb|a IHa b IHb|g a IHa| | | |cs|i a IHa];
    cbn [looks_ahead_only]; intros Hr k k' Hk s s' Hrest; cbn [rmatch];
    try discriminate.
  - apply Hk, Hrest.
  - rewrite <- Hrest. destruct (m_rest s) as [|c t]; [contradiction|].
    destruct (cset_mem U icase cs c); [|contradiction].
    apply Hk. reflexivity.
  - apply andb_true_iff in Hr. destruct Hr as [Ha Hb].
    apply (IHa Ha); [|exact Hrest]. apply (IHb Hb), Hk.
  - apply andb_true_iff in Hr. destruct Hr as [Ha Hb].
    rewrite !or_else_not_None. intros [H|H]; [left|right].
    + exact (IHa Ha _ _ Hk _ _ Hrest H).
    + exact (IHb Hb _ _ Hk _ _ Hrest H).
  - rewrite <- Hrest.
    apply (star_loop_by_rest g _ (IHa Hr)); [exact Hk|exact Hrest].
  - rewrite <- Hrest.
    destruct (m_rest s) as [|c [|c' t]] eqn:Hs; try contradiction.
    + apply Hk. congruence.
    + destruct (char_eqb c 10%N); [apply Hk; congruence|contradiction].
  - apply (IHa Hr); [|exact Hrest]. intros t t' Ht. apply Hk. exact Ht.
Qed.

Lemma chr_step (icase : bool) (cs : cset) (k : mstate -> option mstate)
    (st : mstate) (c : char) (t : pystr) :
  m_rest st = c :: t ->
  rmatch U icase (Chr cs) k st
  = if cset_mem U icase cs c then k (m_advance c t st) else None.
Proof. intros H. cbn [rmatch]. rewrite H. reflexivity. Qed.

(** A greedy [.*] in front of what always succeeds reads to the end of a
    text that holds no newline. *)
Lemma greedy_any_all (k : mstate -> option mstate) (rest : pystr) :
  Forall (fun c => c <> 10%N) rest ->
  (forall s, k s <> None) ->
  forall n s,
    length rest <= n -> m_rest s = rest ->
    star_loop (rmatch U false (Chr CAny)) true k n s = k (after s rest [] []).
Proof.
  intros Hnl Hk. induction Hnl as [|c rest Hc Hnl IH]; intros n s Hn Hrest.
  - pose proof (after_nil s) as Ha. rewrite Hrest in Ha.
    etransitivity; [|apply f_equal; symmetry; exact Ha].
    destruct n as [|n]; cbn [star_loop]; [reflexivity|].
    cbn [rmatch]. rewrite Hrest. reflexivity.
  - destruct n as [|n]; [cbn in Hn; lia|]. cbn [star_loop].
    rewrite (chr_step false CAny _ _ _ _ Hrest). cbn [cset_mem].
    replace (char_eqb c 10%N) with false
      by (symmetry; unfold char_eqb; apply N.eqb_neq; exact Hc).
    cbn [negb m_advance m_rest]. rewrite Hrest. cbn [length].
    rewrite (proj2 (Nat.ltb_lt _ _) (Nat.lt_succ_diag_r _)).
    rewrite (IH n (m_advance c rest s) ltac:(cbn in Hn; lia) eq_refl).
    rewrite <- after_one, after_after. cbn [app].
    destruct (k _) eqn:E; [reflexivity|]. exfalso. exact (Hk _ E).
Qed.

(** The first place at which a pattern matches. *)
Lemma search_from_first_place (p : pattern) (rest : pystr) :
  forall pos prev m,
    search_from U p pos prev rest = Some m ->
    exists a b prev',
      rest = a ++ b /\
      match_at U p {| m_pos := pos + length a; m_prev := prev'; m_rest := b;
                      m_caps := [] |} = Some m /\
      (a <> [] ->
       match_at U p {| m_pos := pos; m_prev := prev; m_rest := rest;
                       m_caps := [] |} = None).
Proof.
  induction rest as [|c t IH]; intros pos prev m; cbn [search_from].
  - destruct (match_at U p _) eqn:E; [|discriminate].
    intros [= <-]. exists [], [], prev. rewrite Nat.add_0_r.
    split; [reflexivity|]. split; [exact E|contradiction].
  - destruct (match_at U p _) eqn:E.
    + intros [= <-]. exists [], (c :: t), prev. rewrite Nat.add_0_r.
      split; [reflexivity|]. split; [exact E|contradiction].
    + intros H. apply IH in H. destruct H as (a & b & prev' & -> & H & _).
      exists (c :: a), b, prev'. split; [reflexivity|].
      cbn [length]. rewrite <- Nat.add_succ_comm. split; [exact H|].
      intros _. reflexivity.
Qed.

End ByRest.

Section OriginalPb.
Context (U : Unicode).

(** The mark of an original page break: a [|] with or without a blank
    behind it, or none; [<PO]; an underscore and, as group 2, at most one
    character of a word and digits, or none of this; [>]. *)
Definition po_mark : regex :=
  Seq (Opt (Seq (Chr (CLit 124%N)) (Opt (Chr (CLit 32%N)))))
    (Seq (Lits (lit "<PO"))
       (Seq (Opt (Seq (Chr (CLit 95%N))
                    (Grp 2 (Seq (Opt (Chr CWord)) (Star true (Chr CDigit))))))
            (Chr (CLit 62%N)))).

(** The pattern of [add_original_pb]: as group 1 the fewest characters of
    the line in front of a mark, the mark, and as group 3 the rest of the
    line. *)
Definition po_re : pattern :=
  {| p_icase := false;
     p_re := Seq (Grp 1 (Star false (Chr CAny)))
               (Seq po_mark (Grp 3 (Star true (Chr CAny)))) |}.

(** The [pb] made for a match in [field]. *)
Definition original_pb (fresh : nat) (pb_po_ed field : pystr) (m : rematch)
    : element :=
  let pb_elem := new_element fresh "pb" in
  let pb_elem :=
    match group field m 2 with
    | Some po_number => set_attrib "n" po_number pb_elem
    | None => pb_elem
    end in
  set_tail (Some (group_str field m 3))
    (set_attrib "break" (lit "no") (set_attrib "ed" pb_po_ed pb_elem)).

(** The first half of the body of the loop, for the child [i] of the
    sibling list [l]: the mark in the tail of the element. *)
Definition original_pb_in_tail (fresh : nat) (pb_po_ed : pystr)
    (l : list element) (i : nat) : option (list element) :=
  match l !! i with
  | None => None
  | Some elem =>
      let field := py_str (tail elem) in
      match re_search U po_re field with
      | None => Some l
      | Some po_match =>
          Some (take i l ++
                set_tail (Some (group_str field po_match 1)) elem ::
                original_pb fresh pb_po_ed field po_match ::
                drop (S i) l)
      end
  end.

(** The second half: the mark in the text of the element. *)
Definition original_pb_in_text (fresh : nat) (pb_po_ed : pystr)
    (elem : element) : element :=
  let field := py_str (text elem) in
  match re_search U po_re field with
  | None => elem
  | Some po_match_in_text =>
      set_children
        (original_pb fresh pb_po_ed field po_match_in_text :: children elem)
        (set_text (Some (group_str field po_match_in_text 1)) elem)
  end.

End OriginalPb.

Section OriginalPbFacts.
Context (U : Unicode).

Definition rest_of_line : regex := Star true (Chr CAny).
Definition line_before : regex := Star false (Chr CAny).

Lemma po_re_unfold (k : mstate -> option mstate) (st : mstate) :
  rmatch U false (p_re po_re) k st
  = rmatch U false line_before
      (fun s1 =>
         rmatch U false po_mark
           (fun s2 =>
              rmatch U false rest_of_line
                (fun s3 => k (m_capture 3 (m_pos s2) s3)) s2)
           (m_capture 1 (m_pos st) s1)) st.
Proof. reflexivity. Qed.

Lemma find_skip (i : nat) (extra l : list (nat * (nat * nat))) :
  Forall (fun c => fst c <> i) extra ->
  List.find (fun e => Nat.eqb (fst e) i) (extra ++ l)
  = List.find (fun e => Nat.eqb (fst e) i) l.
Proof.
  induction 1 as [|c extra Hc _ IH]; [reflexivity|].
  cbn [app List.find]. rewrite (proj2 (Nat.eqb_neq _ _) Hc). exact IH.
Qed.

Lemma slice_middle (a w r : pystr) :
  slice (length a) (length a + length w) (a ++ w ++ r) = w.
Proof.
  unfold slice. rewrite drop_app_length.
  replace (length a + length w - length a) with (length w) by lia.
  apply take_app_length.
Qed.

(** What a match of the pattern cuts the text into. *)
Lemma po_match_parts (t : pystr) (m : rematch) :
  re_search U po_re t = Some m ->
  exists lost_front before mark after lost_back,
    t = lost_front ++ before ++ mark ++ after ++ lost_back /\
    accepts U false po_mark mark /\
    group_str t m 1 = before /\ group_str t m 3 = after /\
    (Forall (fun c => c <> 10%N) t -> lost_front = [] /\ lost_back = []).
Proof.
  intros Hs. unfold re_search in Hs.
  apply search_from_first_place in Hs.
  destruct Hs as (a0 & b0 & prev' & Ht & Hm & Hfirst).
  cbn [Nat.add] in Hm. unfold match_at in Hm. cbn [p_icase po_re] in Hm.
  change (Seq (Grp 1 (Star false (Chr CAny))) _) with (p_re po_re) in Hm.
  destruct (rmatch U false (p_re po_re) Some _) as [e|] eqn:He; [|discriminate].
  injection Hm as <-. cbn [m_pos] in *.
  rewrite po_re_unfold in He.
  apply rmatch_reads in He.
  destruct He as (w1 & rest1 & extra1 & Hr1 & _ & Hx1 & He).
  cbn [m_rest] in Hr1. cbn [groups line_before] in Hx1.
  assert (extra1 = []) as ->
    by (destruct extra1 as [|c ?]; [reflexivity|];
        inversion Hx1 as [|? ? Hin _]; destruct Hin).
  pose proof He as Hmark.
  apply rmatch_reads in He.
  destruct He as (wM & rest2 & extraM & Hr2 & HwM & HxM & He).
  cbn [m_rest m_capture after] in Hr2.
  pose proof He as Hline.
  apply rmatch_reads in He.
  destruct He as (w3 & rest3 & extra3 & Hr3 & _ & Hx3 & He).
  cbn [m_rest after] in Hr3. cbn [groups rest_of_line] in Hx3.
  assert (extra3 = []) as ->
    by (destruct extra3 as [|c ?]; [reflexivity|];
        inversion Hx3 as [|? ? Hin _]; destruct Hin).
  injection He as <-.
  assert (Htext : t = a0 ++ w1 ++ wM ++ w3 ++ rest3)
    by (rewrite Ht, Hr1, Hr2, Hr3; reflexivity).
  exists a0, w1, wM, w3, rest3.
  split; [exact Htext|]. split; [exact HwM|].
  assert (HxM' : Forall (fun c => fst c = 2) extraM).
  { eapply Forall_impl; [exact HxM|]. intros c Hc. cbn in Hc.
    destruct Hc as [Hc|[]]. symmetry. exact Hc. }
  split; [|split].
  - unfold group_str, group. cbn [mgroups m_capture after m_caps m_pos app].
    cbn [List.find fst Nat.eqb].
    rewrite find_skip
      by (eapply Forall_impl; [exact HxM'|]; intros c ->; discriminate).
    cbn [List.find fst Nat.eqb default]. rewrite Htext. cbn [length].
    apply slice_middle.
  - unfold group_str, group. cbn [mgroups m_capture after m_caps m_pos app].
    cbn [List.find fst Nat.eqb default]. rewrite Htext.
    replace (a0 ++ w1 ++ wM ++ w3 ++ rest3)
      with ((a0 ++ w1 ++ wM) ++ w3 ++ rest3)
      by (rewrite <- !app_assoc; reflexivity).
    replace (length a0 + length w1 + length wM)
      with (length (a0 ++ w1 ++ wM)) by (rewrite !length_app; lia).
    apply slice_middle.
  - intros Hnl. rewrite Htext in Hnl.
    apply Forall_app in Hnl. destruct Hnl as [Ha0 Hnl].
    apply Forall_app in Hnl. destruct Hnl as [Hw1 Hnl].
    apply Forall_app in Hnl. destruct Hnl as [_ Hnl].
    split.
    + destruct a0 as [|c a0]; [reflexivity|]. exfalso.
      specialize (Hfirst ltac:(discriminate)).
      unfold match_at in Hfirst. cbn [p_icase po_re] in Hfirst.
      change (Seq (Grp 1 (Star false (Chr CAny))) _) with (p_re po_re) in Hfirst.
      destruct (rmatch U false (p_re po_re) Some _) as [e0|] eqn:He0;
        [discriminate|].
      rewrite po_re_unfold in He0. unfold line_before in He0.
      cbn [rmatch m_rest m_pos] in He0.
      revert He0. rewrite Ht, Hr1, app_assoc.
      apply (lazy_wildcard_skips U false); [apply Forall_app; split; assumption|].
      intros pos prev caps.
      refine (rmatch_by_rest U false po_mark eq_refl _ _ _ _ _ _
                ltac:(rewrite Hmark; discriminate)); [|reflexivity].
      intros s2 s2' Hs2.
      apply (rmatch_by_rest U false rest_of_line eq_refl); [|exact Hs2].
      intros s3 s3' _ _. discriminate.
    + unfold rest_of_line in Hline. cbn [rmatch] in Hline.
      rewrite (greedy_any_all U _ (w3 ++ rest3)) in Hline;
        [|exact Hnl|intros s; discriminate|cbn [after m_rest]; rewrite Hr3; lia
         |cbn [after m_rest]; exact Hr3].
      apply (f_equal (option_map m_rest)) in Hline.
      cbn [option_map m_rest m_capture after] in Hline.
      injection Hline as Hline. symmetry. exact Hline.
Qed.

End OriginalPbFacts.

Section MarkShape.
Context (U : Unicode).

Lemma accepts_digits (g : bool) (w : pystr) :
  accepts U false (Star g (Chr CDigit)) w ->
  Forall (fun c => isdigit U c = true) w.
Proof.
  intros H. remember (Star g (Chr CDigit)) as r eqn:Hr.
  induction H as [| | | | | |g' a w1 w2 H1 _ H2 IH| | | | |]; try discriminate.
  - constructor.
  - injection Hr as -> ->. inversion H1 as [|cs c Hc| | | | | | | | | |]; subst.
    cbn [app]. constructor; [exact Hc|]. apply IH. reflexivity.
Qed.

Lemma accepts_lit (c : char) (w : pystr) :
  accepts U false (Chr (CLit c)) w -> w = [c].
Proof.
  intros H. inversion H as [|cs x Hx| | | | | | | | | |]; subst.
  cbn [cset_mem] in Hx. unfold char_eqb in Hx. apply N.eqb_eq in Hx.
  subst x. reflexivity.
Qed.

(** The words of the mark. *)
Lemma po_mark_shape (mark : pystr) :
  accepts U false po_mark mark ->
  exists pipe number,
    mark = pipe ++ lit "<PO" ++ number ++ [62%N] /\
    (pipe = [] \/ pipe = [124%N] \/ pipe = [124%N; 32%N]) /\
    (number = [] \/
     exists letter ds,
       number = 95%N :: letter ++ ds /\ length letter <= 1 /\
       Forall (fun c => is_word U c = true) letter /\
       Forall (fun c => isdigit U c = true) ds).
Proof.
  unfold po_mark. intros H.
  inversion H as [| |? ? pipe w' Hpipe H'| | | | | | | | |]; subst. clear H.
  inversion H' as [| |? ? po w'' Hpo H''| | | | | | | | |]; subst. clear H'.
  inversion H'' as [| |? ? number gt Hnum Hgt| | | | | | | | |]; subst.
  clear H''.
  apply accepts_lit in Hgt. subst gt.
  assert (po = lit "<PO") as ->.
  { cbn [Lits lit] in Hpo.
    inversion Hpo as [| |? ? c1 r1 Hc1 Hr1| | | | | | | | |]; subst.
    inversion Hr1 as [| |? ? c2 c3 Hc2 Hc3| | | | | | | | |]; subst.
    apply accepts_lit in Hc1, Hc2, Hc3. subst. reflexivity. }
  exists pipe, number. split; [reflexivity|]. split.
  - unfold Opt in Hpipe.
    inversion Hpipe as [| | |? ? ? Hl|? ? ? Hr| | | | | | |]; subst.
    + inversion Hl as [| |? ? bar blank Hbar Hblank| | | | | | | | |]; subst.
      apply accepts_lit in Hbar. subst bar.
      inversion Hblank as [| | |? ? ? Hb|? ? ? Hb| | | | | | |]; subst.
      * apply accepts_lit in Hb. subst. right. right. reflexivity.
      * inversion Hb; subst. right. left. reflexivity.
    + inversion Hr; subst. left. reflexivity.
  - unfold Opt in Hnum.
    inversion Hnum as [| | |? ? ? Hl|? ? ? Hr| | | | | | |]; subst.
    + right.
      inversion Hl as [| |? ? under grp Hunder Hgrp| | | | | | | | |]; subst.
      apply accepts_lit in Hunder. subst under.
      inversion Hgrp as [| | | | | | | | | | |? ? ? Hin]; subst.
      inversion Hin as [| |? ? letter ds Hletter Hds| | | | | | | | |]; subst.
      exists letter, ds. split; [reflexivity|].
      apply accepts_digits in Hds.
      inversion Hletter as [| | |? ? ? Hw|? ? ? Hw| | | | | | |]; subst.
      * inversion Hw as [|cs c Hc| | | | | | | | | |]; subst.
        split; [cbn; lia|]. split; [|exact Hds].
        constructor; [exact Hc|constructor].
      * inversion Hw; subst. split; [cbn; lia|]. split; [constructor|exact Hds].
    + inversion Hr; subst. left. reflexivity.
Qed.

End MarkShape.

(** X24: an original page break cut out of a tail or a text by
    [add_original_pb].  The element keeps what stands in front of the mark
    on the line of the mark, the new [pb] gets what stands behind it on that
    line as its tail, and what lies between them is a mark and nothing
    else: a [|] with or without a blank, or none, [<PO], an underscore with
    at most one character of a word and digits, or none, and [>].  The two
    texts are groups of the match, not slices of the field, so that the
    parts of the field in front of the match and behind it are dropped; in
    a field that holds no newline there are no such parts, and nothing is
    lost but the mark. *)
Theorem original_pb_keeps_line (U : Unicode) (fresh : nat)
    (pb_po_ed t : pystr) (m : rematch) :
  re_search U po_re t = Some m ->
  exists lost_front before mark after lost_back,
    let pb_elem := original_pb fresh pb_po_ed t m in
    t = lost_front ++ before ++ mark ++ after ++ lost_back /\
    (exists pipe number,
       mark = pipe ++ lit "<PO" ++ number ++ [62%N] /\
       (pipe = [] \/ pipe = [124%N] \/ pipe = [124%N; 32%N]) /\
       (number = [] \/
        exists letter ds,
          number = 95%N :: letter ++ ds /\ length letter <= 1 /\
          Forall (fun c => is_word U c = true) letter /\
          Forall (fun c => isdigit U c = true) ds)) /\
    (Forall (fun c => c <> 10%N) t -> lost_front = [] /\ lost_back = []) /\
    tag pb_elem = "pb"%string /\ tail pb_elem = Some after /\
    children pb_elem = [] /\
    (forall l i elem,
       l !! i = Some elem -> tail elem = Some t ->
       original_pb_in_tail U fresh pb_po_ed l i
       = Some (take i l ++ set_tail (Some before) elem :: pb_elem ::
               drop (S i) l)) /\
    (forall elem,
       text elem = Some t ->
       original_pb_in_text U fresh pb_po_ed elem
       = set_children (pb_elem :: children elem)
           (set_text (Some before) elem)).
Proof.
  intros Hs.
  destruct (po_match_parts U t m Hs)
    as (lost_front & before & mark & after & lost_back
        & Ht & Hmark & H1 & H3 & Hnl).
  exists lost_front, before, mark, after, lost_back. cbv zeta.
  split; [exact Ht|]. split; [exact (po_mark_shape U mark Hmark)|].
  split; [exact Hnl|].
  split; [unfold original_pb; destruct (group t m 2); reflexivity|].
  split; [unfold original_pb; cbn [set_tail tail]; rewrite H3; reflexivity|].
  split; [unfold original_pb; destruct (group t m 2); reflexivity|].
  split.
  - intros l i elem Hl Htail. unfold original_pb_in_tail.
    rewrite Hl, Htail. cbn [py_str]. rewrite Hs, H1. reflexivity.
  - intros elem Htext. unfold original_pb_in_text.
    rewrite Htext. cbn [py_str]. rewrite Hs, H1. reflexivity.
Qed.

(** A paragraph with the mark of page 12 of the original in its text. *)
Definition finis : element :=
  Element 1 "p" [] (Some (lit "finis |<PO_12>initium")) None [].

Lemma original_pb_keeps_line_witness :
  exists before mark after,
    lit "finis |<PO_12>initium" = before ++ mark ++ after /\
    original_pb_in_text ascii_text 9 (lit "T1663") finis
    = set_children
        [original_pb 9 (lit "T1663") (lit "finis |<PO_12>initium")
           {| mstart := 0; mend := 21;
              mgroups := [(3, (14, 21)); (2, (11, 13)); (1, (0, 6))] |}]
        (set_text (Some before) finis).
Proof.
  destruct (original_pb_keeps_line ascii_text 9 (lit "T1663")
              (lit "finis |<PO_12>initium")
              {| mstart := 0; mend := 21;
                 mgroups := [(3, (14, 21)); (2, (11, 13)); (1, (0, 6))] |}
              ltac:(vm_compute; reflexivity))
    as (lost_front & before & mark & after & lost_back
        & Ht & Hmark & Hnl & _ & _ & _ & _ & Htext).
  destruct (Hnl ltac:(vm_compute; repeat constructor; discriminate))
    as [-> ->].
  exists before, mark, after.
  split; [rewrite Ht, !app_nil_r; reflexivity|].
  exact (Htext finis eq_refl).
Defined.

(** * [find_wit_simple] *)

Section FindWit.
Context (U : Unicode).

(** [sorted(wit_dict, key=len, reverse=True)]: the sigla of the document,
    the longest first, those of one length in the order of the table. *)
Definition get_possible_wits (doc_num : pystr) : option (list pystr) :=
  match dict_get doc_num edition_ids with
  | Some wit_dict =>
      Some (sorted_by (fun a b => b <=? a) (@length char) (map fst wit_dict))
  | None => None
  end.

(** The sigla joined by [|], for sigla of letters, digits and
    underscores. *)
Fixpoint any_of (possible_wits : list pystr) : regex :=
  match possible_wits with
  | [] => Eps
  | [wit] => Lits wit
  | wit :: rest => Alt (Lits wit) (any_of rest)
  end.

(** A siglum between two word boundaries, and as many more as follow, each
    behind a comma or [ a] and a blank. *)
Definition wits_re (possible_wits : list pystr) : regex :=
  Seq Bnd
    (Seq (any_of possible_wits)
       (Seq Bnd
          (Star true
             (Seq (Alt (Chr (CLit 44%N)) (Lits (lit " a")))
                (Seq (Chr (CLit 32%N))
                   (Seq Bnd (Seq (any_of possible_wits) Bnd))))))).

(** The pattern of [match_wit_simple]: from the start of the text the
    fewest characters as group 1, the sigla as group 2, the rest of the
    line as group 3, to the end of the text. *)
Definition wit_re_pattern (possible_wits : list pystr) : pattern :=
  {| p_icase := false;
     p_re := Seq Bol
               (Seq (Grp 1 (Star false (Chr CAny)))
                  (Seq (Grp 2 (wits_re possible_wits))
                     (Seq (Grp 3 (Star true (Chr CAny))) Eol))) |}.

Definition match_wit_simple (text : pystr) (possible_wits : list pystr)
    : option rematch :=
  re_match U (wit_re_pattern possible_wits) text.

(** What [find_wit_simple] returns: the text itself, or the repaired text
    with what [match_wit_simple] has found in it. *)
Inductive found_wit :=
| default_wit (text : pystr)
| parsed_wit (text : pystr) (found : option rematch).

Definition damaged_type : pystr :=
  [112; 111; 353; 107; 111; 122; 101; 110; 225; 32; 115; 97; 122; 98; 97]%N.

Definition find_wit_simple (text doc_num : pystr) : run found_wit :=
  if str_eqb text damaged_type then Ok (default_wit text)
  else
    run_bind (or_raise (get_possible_wits doc_num)) (fun possible_wits =>
    run_bind (repair_ve U possible_wits text) (fun text =>
    Ok (parsed_wit text (match_wit_simple text possible_wits)))).

End FindWit.

(** Every list of sigla the program hands to [repair_ve] is plain: the
    sigla of the table [edition_ids] hold letters and digits only. *)
Lemma edition_sigla_plain (doc_num : pystr) (possible_wits : list pystr) :
  get_possible_wits doc_num = Some possible_wits ->
  plain_sigla possible_wits = true.
Proof.
  unfold get_possible_wits, dict_get, edition_ids. cbn [List.find fst].
  repeat match goal with
         | |- context [str_eqb doc_num ?k] => destruct (str_eqb doc_num k)
         end;
    cbn [option_map snd]; intros [= <-]; vm_compute; reflexivity.
Qed.

Section FindWitFacts.
Context (U : Unicode).

Lemma accepts_lits (s w : pystr) : accepts U false (Lits s) w -> w = s.
Proof.
  revert w. induction s as [|c s IH]; intros w H.
  - inversion H. reflexivity.
  - destruct s as [|d s].
    + apply accepts_lit in H. exact H.
    + change (Lits (c :: d :: s)) with (Seq (Chr (CLit c)) (Lits (d :: s))) in H.
      inversion H as [| |? ? w1 w2 H1 H2| | | | | | | | |]; subst.
      apply accepts_lit in H1. subst w1. rewrite (IH _ H2). reflexivity.
Qed.

Lemma accepts_any_of (possible_wits : list pystr) (w : pystr) :
  possible_wits <> [] ->
  accepts U false (any_of possible_wits) w -> In w possible_wits.
Proof.
  induction possible_wits as [|wit rest IH]; [contradiction|]. intros _ H.
  destruct rest as [|wit' rest].
  - apply accepts_lits in H. left. symmetry. exact H.
  - change (any_of (wit :: wit' :: rest))
      with (Alt (Lits wit) (any_of (wit' :: rest))) in H.
    inversion H as [| | |? ? ? Hl|? ? ? Hr| | | | | | |]; subst.
    + apply accepts_lits in Hl. left. symmetry. exact Hl.
    + right. apply IH; [discriminate|exact Hr].
Qed.

Lemma groups_lits (s : pystr) : groups (Lits s) = [].
Proof.
  induction s as [|c [|d s] IH]; [reflexivity|reflexivity|].
  change (Lits (c :: d :: s)) with (Seq (Chr (CLit c)) (Lits (d :: s))).
  cbn [groups]. exact IH.
Qed.

Lemma groups_any_of (possible_wits : list pystr) :
  groups (any_of possible_wits) = [].
Proof.
  induction possible_wits as [|wit [|wit' rest] IH];
    [reflexivity|apply groups_lits|].
  change (any_of (wit :: wit' :: rest))
    with (Alt (Lits wit) (any_of (wit' :: rest))).
  cbn [groups]. rewrite groups_lits, IH. reflexivity.
Qed.

Lemma groups_wits_re (possible_wits : list pystr) :
  groups (wits_re possible_wits) = [].
Proof.
  unfold wits_re. cbn [groups]. rewrite !groups_any_of, !groups_lits.
  reflexivity.
Qed.

(** The sigla behind the first. *)
Lemma accepts_more_wits (possible_wits : list pystr) (w : pystr) :
  possible_wits <> [] ->
  accepts U false
    (Star true
       (Seq (Alt (Chr (CLit 44%N)) (Lits (lit " a")))
          (Seq (Chr (CLit 32%N))
             (Seq Bnd (Seq (any_of possible_wits) Bnd))))) w ->
  exists rest : list (delimiter * pystr),
    w = flat_map (fun dk => delimiter_text (fst dk) ++ snd dk) rest /\
    Forall (fun dk => In (snd dk) possible_wits) rest.
Proof.
  intros Hne H.
  remember (Star true _) as r eqn:Hr.
  induction H as [| | | | | |g a w1 w2 H1 _ H2 IH| | | | |]; try discriminate.
  - exists []. split; [reflexivity|constructor].
  - injection Hr as -> ->. destruct (IH eq_refl) as (rest & -> & Hrest).
    inversion H1 as [| |? ? d w' Hd H'| | | | | | | | |]; subst.
    inversion H' as [| |? ? blank w'' Hblank H''| | | | | | | | |]; subst.
    apply accepts_lit in Hblank. subst blank.
    inversion H'' as [| |? ? b1 w3 Hb1 H3| | | | | | | | |]; subst.
    inversion Hb1; subst.
    inversion H3 as [| |? ? k b2 Hk Hb2| | | | | | | | |]; subst.
    inversion Hb2; subst.
    apply (accepts_any_of _ _ Hne) in Hk.
    inversion Hd as [| | |? ? ? Hl|? ? ? Hl| | | | | | |]; subst.
    + apply accepts_lit in Hl. subst d.
      exists ((comma, k) :: rest). split; [|constructor; assumption].
      cbn [flat_map fst snd delimiter_text]. rewrite !app_nil_r.
      rewrite <- !app_assoc. reflexivity.
    + apply (accepts_lits (lit " a")) in Hl. subst d.
      exists ((and_a, k) :: rest). split; [|constructor; assumption].
      cbn [flat_map fst snd delimiter_text]. rewrite !app_nil_r.
      rewrite <- !app_assoc. reflexivity.
Qed.

Lemma accepts_wits_re (possible_wits : list pystr) (w : pystr) :
  possible_wits <> [] ->
  accepts U false (wits_re possible_wits) w ->
  exists k0 rest,
    w = citation k0 rest /\ In k0 possible_wits /\
    Forall (fun dk => In (snd dk) possible_wits) rest.
Proof.
  intros Hne H. unfold wits_re in H.
  inversion H as [| |? ? b1 w1 Hb1 H1| | | | | | | | |]; subst.
  inversion Hb1; subst.
  inversion H1 as [| |? ? k0 w2 Hk0 H2| | | | | | | | |]; subst.
  inversion H2 as [| |? ? b2 more Hb2 Hmore| | | | | | | | |]; subst.
  inversion Hb2; subst.
  apply (accepts_any_of _ _ Hne) in Hk0.
  destruct (accepts_more_wits _ _ Hne Hmore) as (rest & -> & Hrest).
  exists k0, rest. split; [reflexivity|]. split; assumption.
Qed.

End FindWitFacts.

Section WitMatch.
Context (U : Unicode).

Lemma wit_re_unfold (possible_wits : list pystr) (text : pystr) :
  rmatch U false (p_re (wit_re_pattern possible_wits)) Some
    {| m_pos := 0; m_prev := None; m_rest := text; m_caps := [] |}
  = rmatch U false line_before
      (fun s1 =>
         rmatch U false (wits_re possible_wits)
           (fun s2 =>
              rmatch U false rest_of_line
                (fun s3 =>
                   rmatch U false Eol Some
                     (m_capture 3 (m_pos s2) s3))
                (m_capture 2 (m_pos s1) s2))
           (m_capture 1 0 s1))
      {| m_pos := 0; m_prev := None; m_rest := text; m_caps := [] |}.
Proof. reflexivity. Qed.

Lemma no_extra (extra : list (nat * (nat * nat))) :
  Forall (fun c => In (fst c) []) extra -> extra = [].
Proof.
  destruct extra as [|c extra]; [reflexivity|].
  intros H. inversion H as [|? ? Hin _]. destruct Hin.
Qed.

(** What a match of [match_wit_simple] cuts the text into. *)
Lemma wit_match_parts (possible_wits : list pystr) (text : pystr)
    (m : rematch) :
  possible_wits <> [] ->
  match_wit_simple U text possible_wits = Some m ->
  exists before k0 rest after newline,
    text = before ++ citation k0 rest ++ after ++ newline /\
    (newline = [] \/ newline = [10%N]) /\
    group_str text m 1 = before /\
    group_str text m 2 = citation k0 rest /\
    group_str text m 3 = after /\
    In k0 possible_wits /\
    Forall (fun dk => In (snd dk) possible_wits) rest.
Proof.
  intros Hne Hm. unfold match_wit_simple, re_match, match_at in Hm.
  cbn [p_icase wit_re_pattern] in Hm.
  change (Seq Bol _) with (p_re (wit_re_pattern possible_wits)) in Hm.
  rewrite wit_re_unfold in Hm.
  destruct (rmatch U false line_before _ _) as [e|] eqn:He; [|discriminate].
  injection Hm as <-.
  apply rmatch_reads in He.
  destruct He as (w1 & rest1 & extra1 & Hr1 & _ & Hx1 & He).
  cbn [m_rest] in Hr1. apply no_extra in Hx1. subst extra1.
  apply rmatch_reads in He.
  destruct He as (w2 & rest2 & extra2 & Hr2 & Hw2 & Hx2 & He).
  cbn [m_rest m_capture after] in Hr2.
  rewrite groups_wits_re in Hx2. apply no_extra in Hx2. subst extra2.
  apply rmatch_reads in He.
  destruct He as (w3 & rest3 & extra3 & Hr3 & _ & Hx3 & He).
  cbn [m_rest m_capture after] in Hr3. apply no_extra in Hx3. subst extra3.
  assert (Hend : (rest3 = [] \/ rest3 = [10%N]) /\
                 e = m_capture 3 (0 + length w1 + length w2)
                       (after
                          (m_capture 2 (0 + length w1)
                             (after
                                (m_capture 1 0
                                   (after
                                      {| m_pos := 0; m_prev := None;
                                         m_rest := text; m_caps := [] |}
                                      w1 rest1 []))
                                w2 rest2 []))
                          w3 rest3 [])).
  { cbn [rmatch m_rest m_capture after m_pos] in He.
    destruct rest3 as [|c [|c' rest3]]; [| |discriminate].
    - injection He as <-. split; [left; reflexivity|reflexivity].
    - destruct (char_eqb c 10%N) eqn:Ec; [|discriminate].
      unfold char_eqb in Ec. apply N.eqb_eq in Ec. subst c.
      injection He as <-. split; [right; reflexivity|reflexivity]. }
  destruct Hend as [Hnl ->].
  destruct (accepts_wits_re U possible_wits w2 Hne Hw2)
    as (k0 & rest & -> & Hk0 & Hrest).
  assert (Htext : text = w1 ++ citation k0 rest ++ w3 ++ rest3)
    by (rewrite Hr1, Hr2, Hr3; reflexivity).
  exists w1, k0, rest, w3, rest3.
  split; [exact Htext|]. split; [exact Hnl|].
  split; [|split; [|split; [|split; assumption]]].
  - unfold group_str, group.
    cbn [mgroups m_capture after m_caps m_pos app List.find fst Nat.eqb default].
    rewrite Htext. apply (slice_middle []).
  - unfold group_str, group.
    cbn [mgroups m_capture after m_caps m_pos app List.find fst Nat.eqb default].
    rewrite Htext. apply (slice_middle w1).
  - unfold group_str, group.
    cbn [mgroups m_capture after m_caps m_pos app List.find fst Nat.eqb default].
    rewrite Htext.
    replace (w1 ++ citation k0 rest ++ w3 ++ rest3)
      with ((w1 ++ citation k0 rest) ++ w3 ++ rest3)
      by (rewrite <- !app_assoc; reflexivity).
    replace (0 + length w1 + length (citation k0 rest))
      with (length (w1 ++ citation k0 rest)) by (rewrite !length_app; lia).
    apply slice_middle.
Qed.

End WitMatch.

(** X25: what [find_wit_simple] hands to [add_critical].  When it reports a
    match, the three groups of the match are the repaired text read in
    order, up to a newline at its very end, and the second group is a
    citation of sigla of the document: one siglum of the table, and as many
    more as follow it, each behind a comma and a blank or behind [ a ]. *)
Theorem find_wit_simple_citation (U : Unicode) (text doc_num repaired : pystr)
    (m : rematch) :
  find_wit_simple U text doc_num = Ok (parsed_wit repaired (Some m)) ->
  exists wit_dict possible_wits before k0 rest after newline,
    dict_get doc_num edition_ids = Some wit_dict /\
    get_possible_wits doc_num = Some possible_wits /\
    repair_ve U possible_wits text = Ok repaired /\
    repaired = before ++ citation k0 rest ++ after ++ newline /\
    (newline = [] \/ newline = [10%N]) /\
    group_str repaired m 1 = before /\
    group_str repaired m 2 = citation k0 rest /\
    group_str repaired m 3 = after /\
    In k0 (map fst wit_dict) /\
    Forall (fun dk => In (snd dk) (map fst wit_dict)) rest.
Proof.
  unfold find_wit_simple.
  destruct (str_eqb text damaged_type); [discriminate|].
  unfold get_possible_wits.
  destruct (dict_get doc_num edition_ids) as [wit_dict|] eqn:Hd;
    [|discriminate].
  cbn [or_raise run_bind].
  set (possible_wits := sorted_by _ _ _).
  destruct (repair_ve U possible_wits text) as [text'| |] eqn:Hrep;
    cbn [run_bind]; try discriminate.
  intros [= -> Hm].
  assert (Hne : possible_wits <> [])
    by (intros E; rewrite E in Hrep; discriminate).
  destruct (wit_match_parts U possible_wits repaired m Hne Hm)
    as (before & k0 & rest & after & newline
        & Ht & Hnl & H1 & H2 & H3 & Hk0 & Hrest).
  assert (Hin : forall k, In k possible_wits -> In k (map fst wit_dict)).
  { intros k Hk. eapply Permutation_in; [|exact Hk].
    symmetry. apply sorted_by_perm. }
  exists wit_dict, possible_wits, before, k0, rest, after, newline.
  repeat (split; [first [reflexivity | assumption]|]).
  split; [apply Hin, Hk0|].
  eapply Forall_impl; [exact Hrest|]. intros dk. apply Hin.
Qed.

Lemma find_wit_simple_citation_witness :
  exists before k0 rest after newline,
    lit "vynech. Sr, St" = before ++ citation k0 rest ++ after ++ newline /\
    group_str (lit "vynech. Sr, St")
      {| mstart := 0; mend := 14;
         mgroups := [(3, (14, 14)); (2, (8, 14)); (1, (0, 8))] |} 2
    = citation k0 rest.
Proof.
  destruct (find_wit_simple_citation ascii_text (lit "vynech. Sr, St")
              (lit "01") (lit "vynech. Sr, St")
              {| mstart := 0; mend := 14;
                 mgroups := [(3, (14, 14)); (2, (8, 14)); (1, (0, 8))] |}
              ltac:(vm_compute; reflexivity))
    as (wit_dict & possible_wits & before & k0 & rest & after & newline
        & _ & _ & _ & Ht & _ & _ & H2 & _).
  exists before, k0, rest, after, newline. split; assumption.
Defined.
